(* ====================================================================== *)
(*  Interval skip list (CGAL, include/CGAL/Interval_skip_list.h)           *)
(*                                                                        *)
(*  A shallow embedding of the header-only template: the node heap, the   *)
(*  marker lists, the element store of intervals and every member         *)
(*  function of Interval_skip_list, followed by the properties of the     *)
(*  index that the specification states.                                  *)
(* ====================================================================== *)

From stdpp Require Import base option list gmap fin_maps fin_sets numbers sorting.
From Stdlib Require Import ZArith Lia.

(* ---------------------------------------------------------------------- *)
(*  The Interval capability (template parameter Interval_)                *)
(* ---------------------------------------------------------------------- *)

(** The template parameter [Interval_] and its nested [Value] type are not
    part of the header; the index only uses the operations below.
    [Value_lt] is [operator<] on values, [==] / [!=] on values and on
    intervals are decidable equality, [a >= b] is [negb (Value_lt a b)].
    [Value_default] is the content of a default-initialised [Value]: the
    header node never assigns its [key] member. *)
Class IntervalType (Value Interval : Type) := {
  Value_eq_dec :: EqDecision Value;
  Interval_eq_dec :: EqDecision Interval;
  Value_lt : Value → Value → bool;
  Value_default : Value;
  inf : Interval → Value;
  sup : Interval → Value;
  contains : Interval → Value → bool;
  contains_interval : Interval → Value → Value → bool;
}.

(** const int MAX_FORWARD = 48;  -- Maximum number of forward pointers *)
Definition MAX_FORWARD : nat := 48.

(* ---------------------------------------------------------------------- *)
(*  Outcomes of running a member function                                 *)
(* ---------------------------------------------------------------------- *)

(** What the C++ leaves undefined is an explicit fault of the model. *)
Inductive fault : Set :=
  | NullDeref      (* member access through a null pointer *)
  | Dangling       (* access to a deleted node or a released element *)
  | OutOfBounds    (* index outside forward[], markers[] or update[] *)
  | Uninitialised  (* read of an update[] slot that was never written *)
  | AssertFail.    (* assert(...) does not hold *)

Inductive outcome (A : Type) : Type :=
  | Ok (a : A)
  | Fault (f : fault)
  | Diverge.       (* a pointer-chasing loop that does not come to an end *)
Arguments Ok {A} a.
Arguments Fault {A} f.
Arguments Diverge {A}.

Definition obind {A B} (c : outcome A) (k : A → outcome B) : outcome B :=
  match c with
  | Ok a => k a
  | Fault f => Fault f
  | Diverge => Diverge
  end.

(** [IntervalSLnode*] : an address in the node heap; the null pointer is
    [None]. *)
Definition ptr : Set := nat.
(** [Interval_handle = Interval*] : an address in the element store. *)
Definition Interval_handle : Set := nat.

(** IntervalList: the chain of [IntervalListElt] cells that hangs off
    [header], first cell first.  Cells come from a static element store
    of their own; only the handles they carry are observable. *)
Abbreviation IntervalList := (list Interval_handle).

(** The local array [IntervalSLnode* update[MAX_FORWARD]]; [None] is a
    slot that has not been assigned. *)
Abbreviation update_vec := (list (option ptr)).

Section Interval_skip_list.

Context {Value Interval : Type} `{!IntervalType Value Interval}.

Definition Value_ge (a b : Value) : bool := negb (Value_lt a b).
Definition Value_ne (a b : Value) : bool := negb (bool_decide (a = b)).

(* ---------------------------------------------------------------------- *)
(*  IntervalList: the singly linked bag of interval handles               *)
(* ---------------------------------------------------------------------- *)

(** DS_Container<Interval>: the live cells of the element store. *)
Local Abbreviation Store := (gmap Interval_handle Interval).

(** [*h] for an interval handle. *)
Definition load (c : Store) (h : Interval_handle) : outcome Interval :=
  match c !! h with
  | Some J => Ok J
  | None => Fault Dangling
  end.

(** IntervalList::insert : the new cell becomes the header. *)
Definition IL_insert (h : Interval_handle) (l : IntervalList) : IntervalList :=
  h :: l.

(** bool IntervalList::remove(const Interval& I, Interval_handle& res):
    unlink the first cell whose interval equals I; [Some h] is [res] of
    a call that returns true. *)
Fixpoint IL_remove_res (c : Store) (I : Interval) (l : IntervalList)
    : outcome (option Interval_handle * IntervalList) :=
  match l with
  | [] => Ok (None, [])
  | h :: t =>
      obind (load c h) (λ J,
        if bool_decide (J = I) then Ok (Some h, t)
        else obind (IL_remove_res c I t) (λ '(r, t'), Ok (r, h :: t')))
  end.

(** void IntervalList::remove(const Interval& I) *)
Definition IL_remove (c : Store) (I : Interval) (l : IntervalList)
    : outcome IntervalList :=
  obind (IL_remove_res c I l) (λ '(_, l'), Ok l').

(** IntervalList::removeAll(l): for every cell x of l, remove the first
    cell of self whose interval equals the interval of x. *)
Fixpoint IL_removeAll (c : Store) (l : IntervalList) (self : IntervalList)
    : outcome IntervalList :=
  match l with
  | [] => Ok self
  | x :: l' =>
      obind (load c x) (λ J,
      obind (IL_remove c J self) (λ self', IL_removeAll c l' self'))
  end.

(** void IntervalList::copy(IntervalList* from): insert every cell of
    [from], front to back, so the copies end up in reverse order. *)
Fixpoint IL_copy (from : IntervalList) (self : IntervalList) : IntervalList :=
  match from with
  | [] => self
  | h :: t => IL_copy t (IL_insert h self)
  end.

(** OutputIterator IntervalList::copy(OutputIterator out): write the
    interval of every cell to the sink. *)
Fixpoint IL_copy_out (c : Store) (l : IntervalList) (out : list Interval)
    : outcome (list Interval) :=
  match l with
  | [] => Ok out
  | h :: t => obind (load c h) (λ J, IL_copy_out c t (out ++ [J]))
  end.

(** bool IntervalList::contains(const Interval_handle& I) const *)
Fixpoint IL_contains (h : Interval_handle) (l : IntervalList) : bool :=
  match l with
  | [] => false
  | x :: t => if bool_decide (h ≠ x) then IL_contains h t else true
  end.

(** void IntervalList::clear() *)
Definition IL_clear (l : IntervalList) : IntervalList := [].

(* ---------------------------------------------------------------------- *)
(*  IntervalSLnode and the index                                          *)
(* ---------------------------------------------------------------------- *)

Record IntervalSLnode : Type := mkNode {
  is_header : bool;
  key : Value;
  forward : list (option ptr);      (* forward[0..topLevel] *)
  markers : list IntervalList;      (* markers[0..topLevel], one per edge *)
  eqMarkers : IntervalList;         (* markers for the node itself *)
  ownerCount : Z;
  topLevel : nat;
}.

(** int IntervalSLnode::level() const *)
Definition level (n : IntervalSLnode) : nat := topLevel n + 1.

(** IntervalSLnode(const Value& searchKey, int levels) *)
Definition new_node (searchKey : Value) (levels : nat) : IntervalSLnode :=
  {| is_header := false; key := searchKey;
     forward := replicate (levels + 1) None;
     markers := replicate (levels + 1) [];
     eqMarkers := []; ownerCount := 0; topLevel := levels |}.

(** IntervalSLnode(int levels), the constructor for the header *)
Definition new_header (levels : nat) : IntervalSLnode :=
  {| is_header := true; key := Value_default;
     forward := replicate (levels + 1) None;
     markers := replicate (levels + 1) [];
     eqMarkers := []; ownerCount := 0; topLevel := levels |}.

(** The members of Interval_skip_list together with the memory they own.
    [rand] is the state of the Random member, as the outcomes of the tests
    [P < rand.get_double(0,1)] that are still to come (an exhausted list
    keeps answering false).  [container] is the element store of the
    intervals; released handles are not handed out again. *)
Record Interval_skip_list : Type := mkISL {
  rand : list bool;
  container : Store;
  container_next : Interval_handle;
  maxLevel : nat;
  header : ptr;
  heap : gmap ptr IntervalSLnode;
  heap_next : ptr;
}.

Definition new_update : update_vec := replicate MAX_FORWARD None.

(* ---------------------------------------------------------------------- *)
(*  The monad of member functions: state plus faults                      *)
(* ---------------------------------------------------------------------- *)

Definition M (A : Type) : Type :=
  Interval_skip_list → outcome (A * Interval_skip_list).

Definition ret {A} (a : A) : M A := λ s, Ok (a, s).
Definition bind {A B} (c : M A) (k : A → M B) : M B :=
  λ s, match c s with
       | Ok (a, s') => k a s'
       | Fault f => Fault f
       | Diverge => Diverge
       end.
Definition throw {A} (f : fault) : M A := λ _, Fault f.
Definition diverge {A} : M A := λ _, Diverge.
Definition get : M Interval_skip_list := λ s, Ok (s, s).
Definition put (s : Interval_skip_list) : M unit := λ _, Ok (tt, s).
Definition lift {A} (o : outcome A) : M A :=
  λ s, match o with
       | Ok a => Ok (a, s)
       | Fault f => Fault f
       | Diverge => Diverge
       end.

Notation "'let*' x ':=' c 'in' k" := (bind c (λ x, k))
  (at level 10, x pattern, c at level 100, k at level 200, only parsing).

(** Iteration over (a snapshot of) a list, threading the local variables
    of the loop body in [b]. *)
Fixpoint foldM {A B} (body : B → A → M B) (l : list A) (b : B) : M B :=
  match l with
  | [] => ret b
  | a :: l' => let* b' := body b a in foldM body l' b'
  end.

(** Enough iterations for any loop that follows forward pointers through
    distinct live nodes. *)
Definition fuel_of (s : Interval_skip_list) : nat := S (size (heap s)).

(* --- memory access --------------------------------------------------- *)

(** [x->...] for a pointer that may be null *)
Definition nonnull (x : option ptr) : M ptr :=
  match x with
  | Some a => ret a
  | None => throw NullDeref
  end.

(** the node a non-null pointer points to *)
Definition node_at (x : ptr) : M IntervalSLnode :=
  let* s := get in
  match heap s !! x with
  | Some n => ret n
  | None => throw Dangling
  end.

Definition store_node (x : ptr) (n : IntervalSLnode) : M unit :=
  let* s := get in
  put {| rand := rand s; container := container s;
         container_next := container_next s; maxLevel := maxLevel s;
         header := header s; heap := <[x := n]> (heap s);
         heap_next := heap_next s |}.

(** x->forward[i] *)
Definition get_forward (x : ptr) (i : nat) : M (option ptr) :=
  let* n := node_at x in
  match forward n !! i with
  | Some f => ret f
  | None => throw OutOfBounds
  end.

(** x->forward[i] = y *)
Definition set_forward (x : ptr) (i : nat) (y : option ptr) : M unit :=
  let* n := node_at x in
  if decide (i < length (forward n)) then
    store_node x {| is_header := is_header n; key := key n;
                    forward := <[i := y]> (forward n);
                    markers := markers n; eqMarkers := eqMarkers n;
                    ownerCount := ownerCount n; topLevel := topLevel n |}
  else throw OutOfBounds.

(** x->markers[i] (the list itself) *)
Definition get_markers (x : ptr) (i : nat) : M IntervalList :=
  let* n := node_at x in
  match markers n !! i with
  | Some l => ret l
  | None => throw OutOfBounds
  end.

Definition set_markers (x : ptr) (i : nat) (l : IntervalList) : M unit :=
  let* n := node_at x in
  if decide (i < length (markers n)) then
    store_node x {| is_header := is_header n; key := key n;
                    forward := forward n;
                    markers := <[i := l]> (markers n);
                    eqMarkers := eqMarkers n;
                    ownerCount := ownerCount n; topLevel := topLevel n |}
  else throw OutOfBounds.

Definition get_eqMarkers (x : ptr) : M IntervalList :=
  let* n := node_at x in ret (eqMarkers n).

Definition set_eqMarkers (x : ptr) (l : IntervalList) : M unit :=
  let* n := node_at x in
  store_node x {| is_header := is_header n; key := key n;
                  forward := forward n; markers := markers n;
                  eqMarkers := l;
                  ownerCount := ownerCount n; topLevel := topLevel n |}.

Definition set_ownerCount (x : ptr) (c : Z) : M unit :=
  let* n := node_at x in
  store_node x {| is_header := is_header n; key := key n;
                  forward := forward n; markers := markers n;
                  eqMarkers := eqMarkers n;
                  ownerCount := c; topLevel := topLevel n |}.

(** x->key, x->isHeader(), x->level() *)
Definition get_key (x : ptr) : M Value := let* n := node_at x in ret (key n).
Definition isHeader (x : ptr) : M bool := let* n := node_at x in ret (is_header n).
Definition get_level (x : ptr) : M nat := let* n := node_at x in ret (level n).

(** the interval a handle points to *)
Definition deref (h : Interval_handle) : M Interval :=
  let* s := get in lift (load (container s) h).

(** x->markers[i]->insert(h) *)
Definition markers_insert (x : ptr) (i : nat) (h : Interval_handle) : M unit :=
  let* l := get_markers x i in set_markers x i (IL_insert h l).

(** x->eqMarkers->insert(h) *)
Definition eqMarkers_insert (x : ptr) (h : Interval_handle) : M unit :=
  let* l := get_eqMarkers x in set_eqMarkers x (IL_insert h l).

(** x->markers[i]->remove(m) *)
Definition markers_remove (x : ptr) (i : nat) (m : Interval) : M unit :=
  let* l := get_markers x i in
  let* s := get in
  let* l' := lift (IL_remove (container s) m l) in
  set_markers x i l'.

(** x->eqMarkers->remove(m) *)
Definition eqMarkers_remove (x : ptr) (m : Interval) : M unit :=
  let* l := get_eqMarkers x in
  let* s := get in
  let* l' := lift (IL_remove (container s) m l) in
  set_eqMarkers x l'.

(** update[i] *)
Definition upd_get (update : update_vec) (i : nat) : M ptr :=
  match update !! i with
  | Some (Some p) => ret p
  | Some None => throw Uninitialised
  | None => throw OutOfBounds
  end.

(** update[i] = x *)
Definition upd_set (update : update_vec) (i : nat) (x : ptr) : M update_vec :=
  if decide (i < length update) then ret (<[i := Some x]> update)
  else throw OutOfBounds.

(** new IntervalSLnode(...) *)
Definition alloc (n : IntervalSLnode) : M ptr :=
  let* s := get in
  let* _ := put {| rand := rand s; container := container s;
                   container_next := container_next s;
                   maxLevel := maxLevel s; header := header s;
                   heap := <[heap_next s := n]> (heap s);
                   heap_next := S (heap_next s) |} in
  ret (heap_next s).

(** delete x *)
Definition delete_node (x : ptr) : M unit :=
  let* _ := node_at x in
  let* s := get in
  put {| rand := rand s; container := container s;
         container_next := container_next s;
         maxLevel := maxLevel s; header := header s;
         heap := delete x (heap s); heap_next := heap_next s |}.

Definition set_maxLevel (l : nat) : M unit :=
  let* s := get in
  put {| rand := rand s; container := container s;
         container_next := container_next s;
         maxLevel := l; header := header s;
         heap := heap s; heap_next := heap_next s |}.

(** container.get_new_element() followed by the assignment of I *)
Definition container_new (I : Interval) : M Interval_handle :=
  let* s := get in
  let* _ := put {| rand := rand s;
                   container := <[container_next s := I]> (container s);
                   container_next := S (container_next s);
                   maxLevel := maxLevel s; header := header s;
                   heap := heap s; heap_next := heap_next s |} in
  ret (container_next s).

(** container.release_element(ih) *)
Definition container_release (ih : Interval_handle) : M unit :=
  let* _ := deref ih in
  let* s := get in
  put {| rand := rand s; container := delete ih (container s);
         container_next := container_next s;
         maxLevel := maxLevel s; header := header s;
         heap := heap s; heap_next := heap_next s |}.

(** for (i = lo; ...; i++) with [n] iterations *)
Fixpoint for_up {B} (n : nat) (i : nat) (body : nat → B → M B) (b : B) : M B :=
  match n with
  | 0 => ret b
  | S n' => let* b' := body i b in for_up n' (S i) body b'
  end.

(** for (i = n-1; i >= 0; i--) *)
Fixpoint for_down {B} (n : nat) (body : nat → B → M B) (b : B) : M B :=
  match n with
  | 0 => ret b
  | S i => let* b' := body i b in for_down i body b'
  end.

(* ---------------------------------------------------------------------- *)
(*  Construction, size, randomLevel                                       *)
(* ---------------------------------------------------------------------- *)

(** Interval_skip_list(): maxLevel = 0, header = new IntervalSLnode
    (MAX_FORWARD); the loop that nulls forward[0..MAX_FORWARD-1] changes
    nothing.  [r] seeds the Random member. *)
Definition empty_index (r : list bool) : Interval_skip_list :=
  {| rand := r; container := ∅; container_next := 0; maxLevel := 0;
     header := 0; heap := {[ 0 := new_header MAX_FORWARD ]};
     heap_next := 1 |}.

(** int size() const { return container.size(); } *)
Definition size_of (s : Interval_skip_list) : nat := size (container s).

(** The loop [while (P < rand.get_double(0,1)) levels++] on the pending
    outcomes: the number of leading successes, and what is left. *)
Fixpoint flips (r : list bool) : nat * list bool :=
  match r with
  | [] => (0, [])
  | true :: r' => let '(n, r'') := flips r' in (S n, r'')
  | false :: r' => (0, r')
  end.

Definition randomLevel : M nat :=
  let* s := get in
  let '(levels, r') := flips (rand s) in
  let* _ := put {| rand := r'; container := container s;
                   container_next := container_next s;
                   maxLevel := maxLevel s; header := header s;
                   heap := heap s; heap_next := heap_next s |} in
  if decide (levels ≤ maxLevel s) then ret levels
  else ret (maxLevel s + 1).

(* ---------------------------------------------------------------------- *)
(*  Searching                                                             *)
(* ---------------------------------------------------------------------- *)

(** while (x->forward[i] != 0 && test(x->forward[i]->key)) x = x->forward[i]; *)
Fixpoint advance (fuel : nat) (test : Value → bool) (i : nat) (x : ptr)
    : M ptr :=
  match fuel with
  | 0 => diverge
  | S fuel' =>
      let* f := get_forward x i in
      match f with
      | None => ret x
      | Some y =>
          let* k := get_key y in
          if test k then advance fuel' test i y else ret x
      end
  end.

Definition advance_level (test : Value → bool) (i : nat) (x : ptr) : M ptr :=
  let* s := get in advance (fuel_of s) test i x.

(** IntervalSLnode* search(const Value& searchKey) *)
Definition search (searchKey : Value) : M (option ptr) :=
  let* s := get in
  let* x := for_down (maxLevel s + 1)
              (λ i x, advance_level (λ k, Value_lt k searchKey) i x)
              (header s) in
  let* x := get_forward x 0 in
  match x with
  | None => ret None
  | Some a =>
      let* k := get_key a in
      if bool_decide (k = searchKey) then ret (Some a) else ret None
  end.

(** IntervalSLnode* search(const Value& searchKey, IntervalSLnode** update) *)
Definition search_update (searchKey : Value) (update : update_vec)
    : M (option ptr * update_vec) :=
  let* s := get in
  let* (x, update) :=
    for_down (maxLevel s + 1)
      (λ i '(x, update),
         let* x := advance_level (λ k, Value_lt k searchKey) i x in
         let* update := upd_set update i x in
         ret (x, update))
      (header s, update) in
  let* x := get_forward x 0 in
  ret (x, update).

(** find_intervals(searchKey, out): the body of the level loop *)
Fixpoint find_intervals_loop (n : nat) (searchKey : Value) (x : ptr)
    (out : list Interval) : M (list Interval) :=
  match n with
  | 0 => ret out
  | S i =>
      let* nx := node_at x in
      if is_header nx || Value_ne (key nx) searchKey then
        let* x := advance_level (λ k, Value_ge searchKey k) i x in
        let* nx := node_at x in
        let* s := get in
        let* out :=
          if negb (is_header nx) && Value_ne (key nx) searchKey then
            let* l := get_markers x i in
            lift (IL_copy_out (container s) l out)
          else if negb (is_header nx) then
            lift (IL_copy_out (container s) (eqMarkers nx) out)
          else ret out in
        find_intervals_loop i searchKey x out
      else ret out
  end.

Definition find_intervals (searchKey : Value) (out : list Interval)
    : M (list Interval) :=
  let* s := get in
  find_intervals_loop (maxLevel s + 1) searchKey (header s) out.

(** is_contained(searchKey): the same descent; both branches that
    find_intervals uses to pick up markers return true here. *)
Fixpoint is_contained_loop (n : nat) (searchKey : Value) (x : ptr) : M bool :=
  match n with
  | 0 => ret false
  | S i =>
      let* nx := node_at x in
      if is_header nx || Value_ne (key nx) searchKey then
        let* x := advance_level (λ k, Value_ge searchKey k) i x in
        let* nx := node_at x in
        if negb (is_header nx) && Value_ne (key nx) searchKey then ret true
        else if negb (is_header nx) then ret true
        else is_contained_loop i searchKey x
      else ret false
  end.

Definition is_contained (searchKey : Value) : M bool :=
  let* s := get in
  is_contained_loop (maxLevel s + 1) searchKey (header s).

(* ---------------------------------------------------------------------- *)
(*  removeMarkFromLevel                                                   *)
(* ---------------------------------------------------------------------- *)

(** for (x = l; x != 0 && x != r; x = x->forward[i]) { ... }; the result
    is the value of x when the loop is left. *)
Fixpoint removeMarkFromLevel_loop (fuel : nat) (m : Interval) (i : nat)
    (x r : option ptr) : M (option ptr) :=
  match fuel with
  | 0 => diverge
  | S fuel' =>
      match x with
      | None => ret None
      | Some a =>
          if bool_decide (x = r) then ret x
          else
            let* _ := markers_remove a i m in
            let* _ := eqMarkers_remove a m in
            let* x' := get_forward a i in
            removeMarkFromLevel_loop fuel' m i x' r
      end
  end.

Definition removeMarkFromLevel (m : Interval) (i : nat) (l r : option ptr)
    : M unit :=
  let* s := get in
  let* x := removeMarkFromLevel_loop (fuel_of s) m i l r in
  match x with
  | Some a => eqMarkers_remove a m
  | None => ret tt
  end.

(* ---------------------------------------------------------------------- *)
(*  adjustMarkersOnInsert                                                 *)
(* ---------------------------------------------------------------------- *)

(** x->forward[i]->key *)
Definition forward_key (x : ptr) (i : nat) : M Value :=
  let* f := get_forward x i in
  let* a := nonnull f in
  get_key a.

(** for (m = promoted.get_first(); m != 0; m = promoted.get_next(m))
      if (m contains y->key) y->eqMarkers->insert(m) *)
Definition mark_eq_if_contains (y : ptr) (promoted : IntervalList) : M unit :=
  foldM (λ _ m,
           let* Im := deref m in
           let* k := get_key y in
           if contains Im k then eqMarkers_insert y m else ret tt)
        promoted tt.

(** promoted.removeAll(&removePromoted); promoted.copy(&newPromoted) *)
Definition swap_bags (promoted removePromoted newPromoted : IntervalList)
    : M IntervalList :=
  let* s := get in
  let* promoted := lift (IL_removeAll (container s) removePromoted promoted) in
  ret (IL_copy newPromoted promoted).

(** Phase 1, the loop
      for (i = 0; (i <= x->level() - 2) && x->forward[i+1] != 0; i++)
    started with n = x->level() - 1, the number of values of i that pass
    the first test.  The result is i and promoted at loop exit.  The scan
    of update[i]->markers[i] runs over the cells the list has when the
    scan starts. *)
Fixpoint insert_phase1 (n : nat) (x : ptr) (update : update_vec) (i : nat)
    (promoted : IntervalList) : M (nat * IntervalList) :=
  match n with
  | 0 => ret (i, promoted)
  | S n' =>
      let* f1 := get_forward x (i + 1) in
      match f1 with
      | None => ret (i, promoted)
      | Some _ =>
          let* ui := upd_get update i in
          let* markList := get_markers ui i in
          let* newPromoted :=
            foldM (λ newPromoted m,
                     let* Im := deref m in
                     let* xk := get_key x in
                     let* k1 := forward_key x (i + 1) in
                     if contains_interval Im xk k1 then
                       (* promote m *)
                       let* xfi := get_forward x i in
                       let* xf1 := get_forward x (i + 1) in
                       let* _ := removeMarkFromLevel Im i xfi xf1 in
                       ret (IL_insert m newPromoted)
                     else
                       (* place m on the level i edge out of x *)
                       let* _ := markers_insert x i m in
                       ret newPromoted)
                  markList [] in
          let* removePromoted :=
            foldM (λ removePromoted m,
                     let* Im := deref m in
                     let* xk := get_key x in
                     let* k1 := forward_key x (i + 1) in
                     if negb (contains_interval Im xk k1) then
                       let* _ := markers_insert x i m in
                       let* xfi := get_forward x i in
                       let* fi := nonnull xfi in
                       let* ki := get_key fi in
                       let* _ := (if contains Im ki
                                  then eqMarkers_insert fi m else ret tt) in
                       ret (IL_insert m removePromoted)
                     else
                       let* xfi := get_forward x i in
                       let* xf1 := get_forward x (i + 1) in
                       let* _ := removeMarkFromLevel Im i xfi xf1 in
                       ret removePromoted)
                  promoted [] in
          let* promoted := swap_bags promoted removePromoted newPromoted in
          insert_phase1 n' x update (S i) promoted
      end
  end.

(** Phase 2, the loop
      for (i = 0; (i <= x->level() - 2) && !update[i+1]->isHeader(); i++) *)
Fixpoint insert_phase2 (n : nat) (x : ptr) (update : update_vec) (i : nat)
    (promoted : IntervalList) : M (nat * IntervalList) :=
  match n with
  | 0 => ret (i, promoted)
  | S n' =>
      let* u1 := upd_get update (i + 1) in
      let* h1 := isHeader u1 in
      if h1 then ret (i, promoted)
      else
        let* ui := upd_get update i in
        let* ml := get_markers ui i in
        let tempMarkList := IL_copy ml [] in
        let* newPromoted :=
          foldM (λ newPromoted m,
                   let* Im := deref m in
                   let* u1 := upd_get update (i + 1) in
                   let* k1 := get_key u1 in
                   let* xk := get_key x in
                   if contains_interval Im k1 xk then
                     let* _ := removeMarkFromLevel Im i (Some u1) (Some x) in
                     ret (IL_insert m newPromoted)
                   else ret newPromoted)
                tempMarkList [] in
        let* removePromoted :=
          foldM (λ removePromoted m,
                   let* Im := deref m in
                   let* ui := upd_get update i in
                   let* nui := node_at ui in
                   let* u1 := upd_get update (i + 1) in
                   let* nu1 := node_at u1 in
                   let* xk := get_key x in
                   if negb (is_header nui)
                      && contains_interval Im (key nui) xk
                      && negb (is_header nu1)
                      && negb (contains_interval Im (key nu1) xk)
                   then
                     let* _ := markers_insert ui i m in
                     let* _ := (if contains Im (key nui)
                                then eqMarkers_insert ui m else ret tt) in
                     ret (IL_insert m removePromoted)
                   else
                     let* _ := removeMarkFromLevel Im i (Some u1) (Some x) in
                     ret removePromoted)
                promoted [] in
        let* promoted := swap_bags promoted removePromoted newPromoted in
        insert_phase2 n' x update (S i) promoted
  end.

Definition adjustMarkersOnInsert (x : ptr) (update : update_vec) : M unit :=
  (* Phase 1: place markers on edges leading out of x as needed. *)
  let* lv := get_level x in
  let* (i, promoted) := insert_phase1 (lv - 1) x update 0 [] in
  let* mi := get_markers x i in
  let* _ := set_markers x i (IL_copy promoted mi) in
  let* ui := upd_get update i in
  let* umi := get_markers ui i in
  let* mi := get_markers x i in
  let* _ := set_markers x i (IL_copy umi mi) in
  let* _ :=
    foldM (λ _ m,
             let* Im := deref m in
             let* k := forward_key x i in
             if contains Im k then
               let* f := get_forward x i in
               let* a := nonnull f in
               eqMarkers_insert a m
             else ret tt)
          promoted tt in
  (* Phase 2: place markers on edges leading into x as needed. *)
  let* lv := get_level x in
  let* (i, promoted) := insert_phase2 (lv - 1) x update 0 [] in
  let* ui := upd_get update i in
  let* umi := get_markers ui i in
  let* _ := set_markers ui i (IL_copy promoted umi) in
  let* _ := mark_eq_if_contains ui promoted in
  (* Place markers on x for all intervals that cross x. *)
  let* lv := get_level x in
  for_up lv 0
    (λ i _,
       let* mi := get_markers x i in
       let* e := get_eqMarkers x in
       set_eqMarkers x (IL_copy mi e))
    tt.

(* ---------------------------------------------------------------------- *)
(*  insert(const Value&)                                                  *)
(* ---------------------------------------------------------------------- *)

(** The branch of insert(const Value&) that puts a new node in the list
    for searchKey, given the update vector of the search. *)
Definition insert_new_node (searchKey : Value) (update : update_vec)
    : M ptr :=
  let* newLevel := randomLevel in
  let* s := get in
  let* update :=
    if decide (maxLevel s < newLevel) then
      let* update :=
        for_up (newLevel - maxLevel s) (maxLevel s + 1)
          (λ i update,
             let* update := upd_set update i (header s) in
             let* l := get_markers (header s) i in
             let* _ := set_markers (header s) i (IL_clear l) in
             ret update)
          update in
      let* _ := set_maxLevel newLevel in
      ret update
    else ret update in
  let* x := alloc (new_node searchKey newLevel) in
  (* add x to the list *)
  let* _ :=
    for_up (newLevel + 1) 0
      (λ i _,
         let* ui := upd_get update i in
         let* f := get_forward ui i in
         let* _ := set_forward x i f in
         set_forward ui i (Some x))
      tt in
  (* adjust markers to maintain marker invariant *)
  let* _ := adjustMarkersOnInsert x update in
  ret x.

Definition insert_value (searchKey : Value) : M ptr :=
  let* (x, update) := search_update searchKey new_update in
  let* absent :=
    match x with
    | None => ret true
    | Some a => let* k := get_key a in ret (Value_ne k searchKey)
    end in
  if absent : bool then insert_new_node searchKey update
  else nonnull x.

(* ---------------------------------------------------------------------- *)
(*  adjustMarkersOnDelete                                                 *)
(* ---------------------------------------------------------------------- *)

(** if (y != update[i+1] && m contains y->key) y->eqMarkers->insert(m) *)
Definition mark_eq_unless (u1 y : ptr) (m : Interval_handle) : M unit :=
  if bool_decide (y ≠ u1) then
    let* Im := deref m in
    let* k := get_key y in
    if contains Im k then eqMarkers_insert y m else ret tt
  else ret tt.

(** Phase 1, placing a previously demoted mark m on level i:
      for (y = update[i+1]; y != 0 && y != update[i]; y = y->forward[i])
    The result is y at loop exit. *)
Fixpoint delete_place_left (fuel : nat) (m : Interval_handle) (i : nat)
    (u1 ui : ptr) (y : option ptr) : M (option ptr) :=
  match fuel with
  | 0 => diverge
  | S fuel' =>
      match y with
      | None => ret None
      | Some a =>
          if bool_decide (a = ui) then ret y
          else
            let* _ := mark_eq_unless u1 a m in
            let* _ := markers_insert a i m in
            let* y' := get_forward a i in
            delete_place_left fuel' m i u1 ui y'
      end
  end.

(** Phase 2, placing a previously demoted mark m on level i:
      for (y = x->forward[i]; y != x->forward[i+1]; y = y->forward[i]) *)
Fixpoint delete_place_right (fuel : nat) (m : Interval_handle) (i : nat)
    (x : ptr) (y : option ptr) : M unit :=
  match fuel with
  | 0 => diverge
  | S fuel' =>
      let* stop := get_forward x (i + 1) in
      if bool_decide (y = stop) then ret tt
      else
        let* a := nonnull y in
        let* _ := eqMarkers_insert a m in
        let* _ := markers_insert a i m in
        let* y' := get_forward a i in
        delete_place_right fuel' m i x y'
  end.

(** x->forward[i] != 0 &&
    m->getInterval()->contains_interval(update[i]->key, x->forward[i]->key) *)
Definition covers_new_edge (m : Interval_handle) (x ui : ptr) (i : nat)
    : M bool :=
  let* f := get_forward x i in
  match f with
  | None => ret false
  | Some a =>
      let* Im := deref m in
      let* uk := get_key ui in
      let* k := get_key a in
      ret (contains_interval Im uk k)
  end.

Definition adjustMarkersOnDelete (x : ptr) (update : update_vec) : M unit :=
  let* lv := get_level x in
  (* Phase 1: lower markers on edges to the left of x as needed. *)
  let* _ :=
    for_down lv
      (λ i demoted,
         let* ui := upd_get update i in
         (* find marks on edge into x at level i to be demoted *)
         let* ml := get_markers ui i in
         let* newDemoted :=
           foldM (λ newDemoted m,
                    let* c := covers_new_edge m x ui i in
                    if negb c then ret (IL_insert m newDemoted)
                    else ret newDemoted)
                 ml [] in
         (* Remove newly demoted marks from edge. *)
         let* s := get in
         let* ml := get_markers ui i in
         let* ml' := lift (IL_removeAll (container s) newDemoted ml) in
         let* _ := set_markers ui i ml' in
         (* Place previously demoted marks on this level as needed. *)
         let* tempRemoved :=
           foldM (λ tempRemoved m,
                    let* u1 := upd_get update (i + 1) in
                    let* ui := upd_get update i in
                    let* s := get in
                    let* y := delete_place_left (fuel_of s) m i u1 ui
                                (Some u1) in
                    let* _ :=
                      match y with
                      | None => ret tt
                      | Some a => mark_eq_unless u1 a m
                      end in
                    let* c := covers_new_edge m x ui i in
                    if c then
                      let* _ := markers_insert ui i m in
                      ret (IL_insert m tempRemoved)
                    else ret tempRemoved)
                 demoted [] in
         swap_bags demoted tempRemoved newDemoted)
      [] in
  (* Phase 2: lower markers on edges to the right of x as needed. *)
  let* _ :=
    for_down lv
      (λ i '(demoted, tempRemoved),
         let* ml := get_markers x i in
         let* newDemoted :=
           foldM (λ newDemoted m,
                    let* f := get_forward x i in
                    if bool_decide (f ≠ None) then
                      let* ui := upd_get update i in
                      let* h := isHeader ui in
                      let* c := (if h then ret false
                                 else covers_new_edge m x ui i) in
                      if h || negb c then ret (IL_insert m newDemoted)
                      else ret newDemoted
                    else ret newDemoted)
                 ml [] in
         let* tempRemoved :=
           foldM (λ tempRemoved m,
                    let* f := get_forward x i in
                    let* s := get in
                    let* _ := delete_place_right (fuel_of s) m i x f in
                    let* f := get_forward x i in
                    if bool_decide (f ≠ None) then
                      let* ui := upd_get update i in
                      let* h := isHeader ui in
                      let* c := (if h then ret false
                                 else covers_new_edge m x ui i) in
                      if negb h && c then ret (IL_insert m tempRemoved)
                      else ret tempRemoved
                    else ret tempRemoved)
                 demoted tempRemoved in
         let* demoted := swap_bags demoted tempRemoved newDemoted in
         ret (demoted, tempRemoved))
      ([], []) in
  ret tt.

(** void remove(IntervalSLnode* x, IntervalSLnode** update) *)
Definition remove_node (x : ptr) (update : update_vec) : M unit :=
  let* _ := adjustMarkersOnDelete x update in
  (* now splice out x. *)
  let* lv := get_level x in
  let* _ :=
    for_up lv 0
      (λ i _,
         let* ui := upd_get update i in
         let* f := get_forward x i in
         set_forward ui i f)
      tt in
  (* and finally deallocate it *)
  delete_node x.

(* ---------------------------------------------------------------------- *)
(*  placeMarkers and removeMarkers: the staircase of an interval          *)
(* ---------------------------------------------------------------------- *)

(** x->forward[i] != 0 && I contains (x->key, x->forward[i]->key) *)
Definition edge_contained (Iv : Interval) (x : ptr) (i : nat) : M bool :=
  let* f := get_forward x i in
  match f with
  | None => ret false
  | Some a =>
      let* xk := get_key x in
      let* k := get_key a in
      ret (contains_interval Iv xk k)
  end.

(** while (i != x->level()-1 && x->forward[i+1] != 0
           && I contains (x->key, x->forward[i+1]->key)) i++; *)
Fixpoint raise_level (fuel : nat) (Iv : Interval) (x : ptr) (i : nat)
    : M nat :=
  match fuel with
  | 0 => diverge
  | S fuel' =>
      let* lv := get_level x in
      if bool_decide (i ≠ lv - 1) then
        let* c := edge_contained Iv x (i + 1) in
        if c then raise_level fuel' Iv x (S i) else ret i
      else ret i
  end.

(** while (i != 0 && (x->forward[i] == 0
           || !I contains (x->key, x->forward[i]->key))) i--; *)
Fixpoint lower_level (Iv : Interval) (x : ptr) (i : nat) : M nat :=
  match i with
  | 0 => ret 0
  | S i' =>
      let* c := edge_contained Iv x i in
      if negb c then lower_level Iv x i' else ret i
  end.

Definition raise (Iv : Interval) (x : ptr) (i : nat) : M nat :=
  let* lv := get_level x in
  raise_level (S lv) Iv x i.

(** the ascending loop of placeMarkers; the result is (x, i) at exit *)
Fixpoint place_ascending (fuel : nat) (I : Interval_handle) (x : ptr)
    (i : nat) : M (ptr * nat) :=
  match fuel with
  | 0 => diverge
  | S fuel' =>
      let* Iv := deref I in
      let* c := edge_contained Iv x i in
      if c then
        (* find level to put mark on *)
        let* i := raise Iv x i in
        let* f := get_forward x i in
        match f with
        | Some y =>
            let* _ := markers_insert x i I in
            let* yk := get_key y in
            let* _ := (if contains Iv yk then eqMarkers_insert y I
                       else ret tt) in
            place_ascending fuel' I y i
        | None => place_ascending fuel' I x i
        end
      else ret (x, i)
  end.

(** the non-ascending loop of placeMarkers: while (x->key != right->key) *)
Fixpoint place_descending (fuel : nat) (I : Interval_handle) (rgt : ptr)
    (x : option ptr) (i : nat) : M unit :=
  match fuel with
  | 0 => diverge
  | S fuel' =>
      let* a := nonnull x in
      let* xk := get_key a in
      let* rk := get_key rgt in
      if Value_ne xk rk then
        let* Iv := deref I in
        let* i := lower_level Iv a i in
        let* _ := markers_insert a i I in
        let* x' := get_forward a i in
        let* b := nonnull x' in
        let* bk := get_key b in
        let* _ := (if contains Iv bk then eqMarkers_insert b I
                   else ret tt) in
        place_descending fuel' I rgt x' i
      else ret tt
  end.

Definition placeMarkers (lft rgt : ptr) (I : Interval_handle) : M unit :=
  let* Iv := deref I in
  let* xk := get_key lft in
  let* _ := (if contains Iv xk then eqMarkers_insert lft I else ret tt) in
  let* s := get in
  let* (x, i) := place_ascending (fuel_of s) I lft 0 in
  place_descending (fuel_of s) I rgt (Some x) i.

(** if (x->eqMarkers->remove(I, tmp)) res = tmp; *)
Definition eqMarkers_remove_res (x : ptr) (Iv : Interval)
    (res : option Interval_handle) : M (option Interval_handle) :=
  let* l := get_eqMarkers x in
  let* s := get in
  let* (tmp, l') := lift (IL_remove_res (container s) Iv l) in
  let* _ := set_eqMarkers x l' in
  ret (match tmp with Some h => Some h | None => res end).

(** if (x->markers[i]->remove(I, tmp)) res = tmp; *)
Definition markers_remove_res (x : ptr) (i : nat) (Iv : Interval)
    (res : option Interval_handle) : M (option Interval_handle) :=
  let* l := get_markers x i in
  let* s := get in
  let* (tmp, l') := lift (IL_remove_res (container s) Iv l) in
  let* _ := set_markers x i l' in
  ret (match tmp with Some h => Some h | None => res end).

(** the ascending loop of removeMarkers *)
Fixpoint unplace_ascending (fuel : nat) (Iv : Interval) (x : ptr) (i : nat)
    (res : option Interval_handle) : M (ptr * nat * option Interval_handle) :=
  match fuel with
  | 0 => diverge
  | S fuel' =>
      let* c := edge_contained Iv x i in
      if c then
        (* find level to take mark from *)
        let* i := raise Iv x i in
        let* f := get_forward x i in
        match f with
        | Some y =>
            let* res := markers_remove_res x i Iv res in
            let* yk := get_key y in
            let* res := (if contains Iv yk then eqMarkers_remove_res y Iv res
                         else ret res) in
            unplace_ascending fuel' Iv y i res
        | None => unplace_ascending fuel' Iv x i res
        end
      else ret (x, i, res)
  end.

(** the non-ascending loop of removeMarkers: while (x->key != I.sup()) *)
Fixpoint unplace_descending (fuel : nat) (Iv : Interval) (x : option ptr)
    (i : nat) (res : option Interval_handle) : M (option Interval_handle) :=
  match fuel with
  | 0 => diverge
  | S fuel' =>
      let* a := nonnull x in
      let* xk := get_key a in
      if Value_ne xk (sup Iv) then
        let* i := lower_level Iv a i in
        let* res := markers_remove_res a i Iv res in
        let* x' := get_forward a i in
        let* b := nonnull x' in
        let* bk := get_key b in
        let* res := (if contains Iv bk then eqMarkers_remove_res b Iv res
                     else ret res) in
        unplace_descending fuel' Iv x' i res
      else ret res
  end.

(** Interval_handle removeMarkers(IntervalSLnode* left, const Interval& I) *)
Definition removeMarkers (lft : ptr) (Iv : Interval) : M Interval_handle :=
  let* xk := get_key lft in
  let* res := (if contains Iv xk then eqMarkers_remove_res lft Iv None
               else ret None) in
  let* s := get in
  let* (x, i, res) := unplace_ascending (fuel_of s) Iv lft 0 res in
  let* res := unplace_descending (fuel_of s) Iv (Some x) i res in
  (* assert: the interval that res points to equals I *)
  let* r := nonnull res in
  let* J := deref r in
  if bool_decide (J = Iv) then ret r else throw AssertFail.

(* ---------------------------------------------------------------------- *)
(*  insert and remove of an interval                                      *)
(* ---------------------------------------------------------------------- *)

(** x->ownerCount++ / x->ownerCount-- *)
Definition ownerCount_add (x : ptr) (d : Z) : M unit :=
  let* n := node_at x in
  set_ownerCount x (ownerCount n + d)%Z.

(** void insert(const Interval_handle& I) *)
Definition insert_handle (I : Interval_handle) : M unit :=
  (* insert end points of interval *)
  let* Iv := deref I in
  let* lft := insert_value (inf Iv) in
  let* Iv := deref I in
  let* rgt := insert_value (sup Iv) in
  let* _ := ownerCount_add lft 1 in
  let* _ := ownerCount_add rgt 1 in
  (* place markers on interval *)
  placeMarkers lft rgt I.

(** void insert(const Interval& I) *)
Definition insert (Iv : Interval) : M unit :=
  let* ihandle := container_new Iv in
  insert_handle ihandle.

(** bool remove(const Interval& I) *)
Definition remove (Iv : Interval) : M bool :=
  let* (lft, update) := search_update (inf Iv) new_update in
  let* present :=
    match lft with
    | None => ret false
    | Some l => let* n := node_at l in ret (negb (ownerCount n <=? 0)%Z)
    end in
  if present : bool then
    let* lft := nonnull lft in
    let* ih := removeMarkers lft Iv in
    let* _ := container_release ih in
    let* _ := ownerCount_add lft (-1) in
    let* n := node_at lft in
    let* _ := (if bool_decide (ownerCount n = 0%Z)
               then remove_node lft update else ret tt) in
    (* search for right after removing left *)
    let* (rgt, update) := search_update (sup Iv) update in
    let* present :=
      match rgt with
      | None => ret false
      | Some r => let* n := node_at r in ret (negb (ownerCount n <=? 0)%Z)
      end in
    if present : bool then
      let* rgt := nonnull rgt in
      let* _ := ownerCount_add rgt (-1) in
      let* n := node_at rgt in
      let* _ := (if bool_decide (ownerCount n = 0%Z)
                 then remove_node rgt update else ret tt) in
      ret true
    else ret false
  else ret false.

(** void clear(): every node reachable through forward[0] is deleted, a
    new header is made and maxLevel is reset. *)
Fixpoint clear_loop (fuel : nat) (x : option ptr) : M unit :=
  match fuel with
  | 0 => diverge
  | S fuel' =>
      match x with
      | None => ret tt
      | Some a =>
          let* next := get_forward a 0 in
          let* _ := delete_node a in
          clear_loop fuel' next
      end
  end.

Definition clear : M unit :=
  let* s := get in
  let* _ := clear_loop (fuel_of s) (Some (header s)) in
  let* h := alloc (new_header MAX_FORWARD) in
  let* s := get in
  put {| rand := rand s; container := container s;
         container_next := container_next s;
         maxLevel := 0; header := h;
         heap := heap s; heap_next := heap_next s |}.

(* ---------------------------------------------------------------------- *)
(*  Ranges of intervals                                                   *)
(* ---------------------------------------------------------------------- *)

(** template <class InputIterator> int insert(InputIterator b,
    InputIterator e): insert of every element of the range, in order,
    counting them in the int i.  Overflow of the signed counter is undefined
    behaviour and is left out: what is proved of the count is for ranges
    of fewer than 2^31 elements. *)
Definition insert_range (l : list Interval) : M Z :=
  foldM (λ i Iv, let* _ := insert Iv in ret (i + 1)%Z) l 0%Z.

End Interval_skip_list.

Arguments IntervalSLnode : clear implicits.
Arguments Interval_skip_list : clear implicits.
Arguments M : clear implicits.

Notation "'let*' x ':=' c 'in' k" := (bind c (λ x, k))
  (at level 10, x pattern, c at level 100, k at level 200, only parsing).

(* ====================================================================== *)
(*  What the properties of the index are stated with                      *)
(* ====================================================================== *)

(* ---------------------------------------------------------------------- *)
(*  The order on values                                                   *)
(* ---------------------------------------------------------------------- *)

(** [Value_lt] is a strict total order. *)
Class ValueOrder (Value Interval : Type) `{!IntervalType Value Interval}
    : Prop := {
  Value_lt_irrefl : ∀ a : Value, Value_lt a a = false;
  Value_lt_trans : ∀ a b c : Value,
    Value_lt a b = true → Value_lt b c = true → Value_lt a c = true;
  Value_lt_total : ∀ a b : Value,
    Value_lt a b = true ∨ a = b ∨ Value_lt b a = true;
}.

(** The contract of an interval type whose intervals are closed at both
    ends: [contains] and [contains_interval] compare with inf() and
    sup(). *)
Class ClosedIntervals (Value Interval : Type)
    `{!IntervalType Value Interval} : Prop := {
  contains_interval_closed : ∀ (J : Interval) (a b : Value),
    contains_interval J a b = true ↔
    Value_lt a (inf J) = false ∧ Value_lt (sup J) b = false;
  contains_closed : ∀ (J : Interval) (v : Value),
    contains J v = true ↔
    Value_lt v (inf J) = false ∧ Value_lt (sup J) v = false;
}.

Section Specification.

Context {Value Interval : Type} `{!IntervalType Value Interval}.

Local Abbreviation state := (Interval_skip_list Value Interval).
Local Abbreviation node := (IntervalSLnode Value).
Local Abbreviation M := (M Value Interval).
Local Abbreviation store := (gmap Interval_handle Interval).
Local Abbreviation view := (gmap ptr (bool * Value * Z)).

(* ---------------------------------------------------------------------- *)
(*  Frames: what a member function leaves as it was                       *)
(* ---------------------------------------------------------------------- *)

(** [preserves c]: every run of [c] that returns relates the state
    before to the state after. *)
Definition preserves_rel (R : relation state) {A} (c : M A) : Prop :=
  ∀ s a s', c s = Ok (a, s') → R s s'.

(** Two states agree on everything but the nodes, and on the nodes they
    agree on the view [proj]. *)
Definition same_on {X} (proj : node → X) (s s' : state) : Prop :=
  rand s = rand s' ∧ container s = container s' ∧
  container_next s = container_next s' ∧ maxLevel s = maxLevel s' ∧
  header s = header s' ∧ heap_next s = heap_next s' ∧
  proj <$> heap s = proj <$> heap s'.

(** Two states agree on the view [proj] of the index. *)
Definition same_fields {X} (proj : state → X) : relation state :=
  λ s s', proj s = proj s'.

(** What a node is apart from the cells of its marker lists. *)
Definition skeleton (n : node)
    : bool * Value * list (option ptr) * nat * Z * nat :=
  (is_header n, key n, forward n, length (markers n), ownerCount n,
   topLevel n).

(** What a node is apart from the targets of its forward pointers. *)
Definition marking (n : node)
    : bool * Value * nat * list IntervalList * IntervalList * Z * nat :=
  (is_header n, key n, length (forward n), markers n, eqMarkers n,
   ownerCount n, topLevel n).

(** What a node is apart from its owner count. *)
Definition structure (n : node)
    : bool * Value * list (option ptr) * list IntervalList * IntervalList
      * nat :=
  (is_header n, key n, forward n, markers n, eqMarkers n, topLevel n).

(** What all these views share. *)
Definition node_facts (n : node) : bool * Value * nat * nat * nat :=
  (is_header n, key n, length (forward n), length (markers n), topLevel n).

(** The view of a node that ownership accounting looks at. *)
Definition owner_view (n : node) : bool * Value * Z :=
  (is_header n, key n, ownerCount n).

(** The same index but for the contents of marker lists. *)
Definition same_shape : relation state := same_on skeleton.

(** The same index but for the targets of forward pointers. *)
Definition same_marking : relation state := same_on marking.

(** The same index but for the owner counts. *)
Definition same_structure : relation state := same_on structure.

(** The same nodes, whatever they point to, are marked with and count. *)
Definition same_nodes : relation state := same_on node_facts.

(* ---------------------------------------------------------------------- *)
(*  The skip list behind the pointers                                     *)
(* ---------------------------------------------------------------------- *)

(** A key node seen from outside: its address, key and top level. *)
Definition tower : Type := ptr * Value * nat.

Definition tptr (t : tower) : ptr := t.1.1.

Definition tkey (t : tower) : Value := t.1.2.

Definition tlev (t : tower) : nat := t.2.

(** [lseg H i p c q]: following forward[i] from [p] visits exactly the
    nodes [c] and then arrives at [q]. *)
Fixpoint lseg (H : gmap ptr node) (i : nat) (p : option ptr)
    (c : list ptr) (q : option ptr) : Prop :=
  match c with
  | [] => p = q
  | a :: c' =>
      p = Some a ∧
      ∃ n f, H !! a = Some n ∧ forward n !! i = Some f ∧ lseg H i f c' q
  end.

(** The nodes of [L] that reach level [i], in order. *)
Definition chain (i : nat) (L : list tower) : list ptr :=
  tptr <$> filter (λ t, i ≤ tlev t) L.

(** The node-local part of well-formedness: the header, and for every
    tower of [L] a live key node with that address, key and top level. *)
Record nodes_ok (s : state) (L : list tower) : Prop := {
  ok_header :
    ∃ hn, heap s !! header s = Some hn ∧ is_header hn = true ∧
          topLevel hn = MAX_FORWARD ∧
          length (forward hn) = MAX_FORWARD + 1 ∧
          length (markers hn) = MAX_FORWARD + 1;
  ok_nodup : NoDup (header s :: (tptr <$> L));
  ok_size : size (heap s) = S (length L);
  ok_nodes :
    ∀ t, t ∈ L →
      ∃ n, heap s !! tptr t = Some n ∧ is_header n = false ∧
           key n = tkey t ∧ topLevel n = tlev t ∧
           length (forward n) = tlev t + 1 ∧
           length (markers n) = tlev t + 1 ∧
           tlev t ≤ maxLevel s;
  ok_sorted :
    StronglySorted (λ a b, Value_lt (tkey a) (tkey b) = true) L;
  ok_maxLevel : maxLevel s < MAX_FORWARD;
  ok_fresh : ∀ p, is_Some (heap s !! p) → p < heap_next s;
}.

(** Level [i] of the index links the header and the towers of [L] that
    reach level [i], in order, and ends in the null pointer. *)
Definition links (s : state) (i : nat) (L : list tower) : Prop :=
  lseg (heap s) i (Some (header s)) (header s :: chain i L) None.

(** The key nodes [L], in list order, form a skip list in state [s]. *)
Definition wf (s : state) (L : list tower) : Prop :=
  nodes_ok s L ∧ ∀ i, i ≤ MAX_FORWARD → links s i L.

(** [L1] are the towers whose key passes [test] and [L2] the others. *)
Definition split_by (test : Value → bool) (L1 L2 : list tower) : Prop :=
  Forall (λ t, test (tkey t) = true) L1 ∧
  Forall (λ t, test (tkey t) = false) L2.

(** A test that holds below some point of the order and fails above. *)
Definition lower_test (test : Value → bool) : Prop :=
  ∀ a b, Value_lt a b = true → test b = true → test a = true.

(** The last node of level [i] among [hd :: L1]: what update[i] holds
    after a search that stops after [L1]. *)
Definition pred_at (hd : ptr) (i : nat) (L1 : list tower) : ptr :=
  default hd (last (chain i L1)).

(** The update vector a search leaves behind: slots below [n] hold the
    last node of their level that comes before the search key. *)
Fixpoint fill_update (hd : ptr) (L1 : list tower) (n : nat)
    (upd : update_vec) : update_vec :=
  match n with
  | 0 => upd
  | S i => fill_update hd L1 i (<[i := Some (pred_at hd i L1)]> upd)
  end.

(* ---------------------------------------------------------------------- *)
(*  Ownership accounting                                                  *)
(* ---------------------------------------------------------------------- *)

(** How many of the two end points of [I] are the value [v]. *)
Definition endpoints (v : Value) (I : Interval) : Z :=
  ((if decide (inf I = v) then 1 else 0) +
   (if decide (sup I = v) then 1 else 0))%Z.

(** The number of end point incidences of [v] over the stored intervals. *)
Definition incidences (v : Value) (c : store) : Z :=
  map_fold (λ _ I z, endpoints v I + z)%Z 0%Z c.

(** The owner view of the nodes of a state. *)
Definition owners (s : state) : view := owner_view <$> heap s.

(** Every key node counts the incidences of its key, up to [δ]. *)
Definition count_ok (δ : Value → Z) (O : view) (c : store) : Prop :=
  ∀ p k n, O !! p = Some (false, k, n) → n = (incidences k c + δ k)%Z.

(** Every end point of a stored interval has a key node. *)
Definition covered (O : view) (c : store) : Prop :=
  ∀ h I, c !! h = Some I →
    (∃ p n, O !! p = Some (false, inf I, n)) ∧
    (∃ p n, O !! p = Some (false, sup I, n)).

(** Every key node has an owner. *)
Definition positive (O : view) : Prop :=
  ∀ p k n, O !! p = Some (false, k, n) → (0 < n)%Z.

(** No two key nodes have the same key. *)
Definition unique_keys (O : view) : Prop :=
  ∀ p p' k n n',
    O !! p = Some (false, k, n) → O !! p' = Some (false, k, n') → p = p'.

(** The key nodes of [O] are still there in [O'], with their keys. *)
Definition persist (O O' : view) : Prop :=
  ∀ p k n, O !! p = Some (false, k, n) → ∃ n', O' !! p = Some (false, k, n').

(** Handles are handed out in increasing order. *)
Definition handles_fresh (s : state) : Prop :=
  ∀ h, is_Some (container s !! h) → h < container_next s.

(** What holds of the index between any two calls of insert and remove:
    the nodes form a skip list, every key node counts the end point
    incidences of its key and has at least one, and every end point of a
    stored interval has its key node. *)
Record Inv (s : state) : Prop := {
  inv_wf : ∃ L, wf s L;
  inv_count : count_ok (λ _, 0%Z) (owners s) (container s);
  inv_positive : positive (owners s);
  inv_covered : covered (owners s) (container s);
  inv_fresh : handles_fresh s;
}.

(** The owner view after one end point is given up: the count of x goes
    down by one, and x goes when it reaches zero. *)
Definition drop (O : view) (x : ptr) (v : Value) (n : Z) : view :=
  if decide (n - 1 = 0)%Z then delete x O
  else <[x := (false, v, (n - 1)%Z)]> O.

(* ---------------------------------------------------------------------- *)
(*  The states of the index                                               *)
(* ---------------------------------------------------------------------- *)

(** The states the index goes through: the empty index, and what a call of
    insert or remove that returns makes of a state. *)
Inductive reachable : state → Prop :=
  | reach_empty r : reachable (empty_index r)
  | reach_insert s I s' :
      reachable s → insert I s = Ok (tt, s') → reachable s'
  | reach_remove s I b s' :
      reachable s → remove I s = Ok (b, s') → reachable s'.

(** The index after the intervals of [S] have been inserted and those of
    [T] removed, in any order in which every removal found its interval. *)
Inductive history : list Interval → list Interval → state → Prop :=
  | hist_empty r : history [] [] (empty_index r)
  | hist_insert S T s I s' :
      history S T s → insert I s = Ok (tt, s') → history (I :: S) T s'
  | hist_remove S T s I s' :
      history S T s → remove I s = Ok (true, s') → history S (I :: T) s'.

(** What the contract of contains_interval says of the upper end: an
    interval that contains [a, b] does not end before b. *)
Definition upper_bounded : Prop :=
  ∀ (J : Interval) (a b : Value),
    contains_interval J a b = true → Value_lt (sup J) b = false.

(* ---------------------------------------------------------------------- *)
(*  Markers                                                               *)
(* ---------------------------------------------------------------------- *)

(** The first tower of [L] that reaches level [i]. *)
Definition nxt (i : nat) (L : list tower) : option tower :=
  head (filter (λ t, i ≤ tlev t) L).

(** [J] contains the level [i] edge that leaves the key node [a] of the
    list [L]. *)
Definition edge_in (L : list tower) (a : ptr) (i : nat) (J : Interval)
    : Prop :=
  ∃ L1 t L2 t',
    L = L1 ++ t :: L2 ∧ tptr t = a ∧ i ≤ tlev t ∧ nxt i L2 = Some t' ∧
    contains_interval J (tkey t) (tkey t') = true.

(** [J] contains the key of the key node [a] of the list [L]. *)
Definition node_in (L : list tower) (a : ptr) (J : Interval) : Prop :=
  ∃ t, t ∈ L ∧ tptr t = a ∧ contains J (tkey t) = true.

(** The marks of the handle [h] lead from the tower [t] to the tower [tz]
    of the list [L]: [h] is in the eqMarkers of every node on the way and
    in the markers of one edge out of each node but the last, and that
    edge leads to the next node on the way. *)
Inductive stair (s : state) (L : list tower) (h : Interval_handle)
    : tower → tower → Prop :=
  | stair_end t n :
      t ∈ L → heap s !! tptr t = Some n → h ∈ eqMarkers n →
      stair s L h t t
  | stair_step La t Lb i t' n l tz :
      L = La ++ t :: Lb → nxt i Lb = Some t' →
      heap s !! tptr t = Some n → h ∈ eqMarkers n →
      markers n !! i = Some l → h ∈ l →
      stair s L h t' tz → stair s L h t tz.

(** Every cell of every marker list of a live node is allowed by [okm],
    and every cell of its eqMarkers by [oke]. *)
Definition marks_within (okm : ptr → nat → Interval_handle → Prop)
    (oke : ptr → Interval_handle → Prop) (s : state) : Prop :=
  ∀ a na, heap s !! a = Some na →
    (∀ i l h, markers na !! i = Some l → h ∈ l → okm a i h) ∧
    (∀ h, h ∈ eqMarkers na → oke a h).

(** Every cell of a marker list of a node of [s'] is a cell of the same
    list of the same node of [s]: from [s] to [s'] cells have only been
    unlinked. *)
Definition marks_from (s s' : state) : Prop :=
  marks_within
    (λ a i h, ∃ na l, heap s !! a = Some na ∧ markers na !! i = Some l ∧
                      h ∈ l)
    (λ a h, ∃ na, heap s !! a = Some na ∧ h ∈ eqMarkers na) s'.

(** The invariant of a marker repair: the header [hd], the skip list [L]
    and the element store [c] stay as they are, and the marker lists stay
    within what [okm] and [oke] allow. *)
Definition framed (okm : ptr → nat → Interval_handle → Prop)
    (oke : ptr → Interval_handle → Prop) (hd : ptr) (L : list tower)
    (c : store) (s : state) : Prop :=
  wf s L ∧ header s = hd ∧ container s = c ∧ marks_within okm oke s.

(** What the marker lists may hold, for the element store [c] with next
    handle [cn] and the key nodes [L]: handles that have been handed out,
    and, of those that are live, only on edges, and on nodes, that their
    interval contains. *)
Definition edge_mark (c : store) (cn : Interval_handle) (L : list tower)
    (a : ptr) (i : nat) (h : Interval_handle) : Prop :=
  h < cn ∧ ∀ J, c !! h = Some J → edge_in L a i J.

Definition node_mark (c : store) (cn : Interval_handle) (L : list tower)
    (a : ptr) (h : Interval_handle) : Prop :=
  h < cn ∧ ∀ J, c !! h = Some J → node_in L a J.

(** While the edges out of a new tower [xt] between [L1] and [L2] are
    being marked, the marks of the other nodes are those of the list
    without the new tower. *)
Definition okm_mid (c : store) (cn : Interval_handle) (L1 L2 : list tower)
    (xt : tower) (a : ptr) (i : nat) (h : Interval_handle) : Prop :=
  if decide (a = tptr xt) then edge_mark c cn (L1 ++ xt :: L2) a i h
  else edge_mark c cn (L1 ++ L2) a i h.

(** While the marks around a tower [xt] that is about to be unlinked are
    being repaired, from the top level down to level [k]: the marks of
    [xt], and those of the edges into [xt] on the levels below [k], are
    those of the list with the tower; the others are those of the list
    without it. *)
Definition okm_del (c : store) (cn : Interval_handle) (hd : ptr)
    (L1 L2 : list tower) (xt : tower) (k : nat) (a : ptr) (i : nat)
    (h : Interval_handle) : Prop :=
  edge_mark c cn
    (if decide (a = tptr xt ∨ (a = pred_at hd i L1 ∧ i < k ∧ i ≤ tlev xt))
     then L1 ++ xt :: L2 else L1 ++ L2) a i h.

(** The markers of the state [s] are sound for the key nodes [L]. *)
Definition sound_at (s : state) (L : list tower) : Prop :=
  marks_within (edge_mark (container s) (container_next s) L)
               (node_mark (container s) (container_next s) L) s.

(** The invariant of the markers: the nodes form a skip list and the
    markers are sound for it. *)
Definition Sound (s : state) : Prop := ∃ L, wf s L ∧ sound_at s L.

(** How many cells of [l] hold a handle of an interval equal to [v]. *)
Definition count_val (c : store) (v : Interval) (l : IntervalList) : nat :=
  length (filter (λ h, c !! h = Some v) l).

End Specification.

Arguments tower : clear implicits.

(* ---------------------------------------------------------------------- *)
(*  The instance of the end-to-end scenarios: closed integer intervals    *)
(* ---------------------------------------------------------------------- *)

(** V = integers, closed intervals [lo, hi]: [contains v] is
    lo <= v <= hi, [contains_interval a b] is lo <= a and b <= hi. *)
Module Closed.

Abbreviation interval := (Z * Z)%type.

#[export] Instance closed_intervals : IntervalType Z interval := {|
  Value_lt := Z.ltb;
  Value_default := 0%Z;
  inf := fst;
  sup := snd;
  contains := λ I v, (fst I <=? v)%Z && (v <=? snd I)%Z;
  contains_interval := λ I a b, (fst I <=? a)%Z && (b <=? snd I)%Z;
|}.

#[export] Instance closed_order : ValueOrder Z interval.
Proof.
  split; simpl.
  - intros a. apply Z.ltb_irrefl.
  - intros a b c. rewrite !Z.ltb_lt. lia.
  - intros a b. rewrite !Z.ltb_lt. lia.
Qed.

#[export] Instance closed_contract : ClosedIntervals Z interval.
Proof.
  split; simpl.
  - intros J a b. rewrite andb_true_iff, !Z.leb_le, !Z.ltb_ge. done.
  - intros J v. rewrite andb_true_iff, !Z.leb_le, !Z.ltb_ge. done.
Qed.

(** Run a member function on the state a run has led to, dropping its
    result. *)
Definition run {A} (c : M Z interval A)
    (s : outcome (Interval_skip_list Z interval))
    : outcome (Interval_skip_list Z interval) :=
  match s with
  | Ok s => match c s with
            | Ok (_, s') => Ok s'
            | Fault f => Fault f
            | Diverge => Diverge
            end
  | Fault f => Fault f
  | Diverge => Diverge
  end.

(** The result of a query on the state a run has led to. *)
Definition query {A} (c : M Z interval A)
    (s : outcome (Interval_skip_list Z interval))
    : outcome A :=
  match s with
  | Ok s => match c s with
            | Ok (a, _) => Ok a
            | Fault f => Fault f
            | Diverge => Diverge
            end
  | Fault f => Fault f
  | Diverge => Diverge
  end.

(** insert of every interval of a list, in order. *)
Definition inserts (l : list interval)
    (s : outcome (Interval_skip_list Z interval))
    : outcome (Interval_skip_list Z interval) :=
  foldl (λ s J, run (insert J) s) s l.

(** Outcomes of the coin for which the m-th call of randomLevel sees m
    successes and then a failure. *)
Definition ramp (n : nat) : list bool :=
  concat ((λ m, replicate m true ++ [false]) <$> seq 1 n).

(** The intervals [0, 1], [2, 3], ..., n of them. *)
Definition pairs (n : nat) : list interval :=
  (λ k, (2 * Z.of_nat k, 2 * Z.of_nat k + 1)%Z) <$> seq 0 n.

End Closed.

(* ====================================================================== *)
(*  Reasoning about member functions                                      *)
(* ====================================================================== *)

Create HintDb pres.

Section Preserve.

Context {Value Interval : Type} `{!IntervalType Value Interval}.

Local Abbreviation state := (Interval_skip_list Value Interval).
Local Abbreviation M := (M Value Interval).

Context (R : relation state) `{!Reflexive R, !Transitive R}.

Local Abbreviation preserves := (preserves_rel R).

Lemma preserves_ret {A} (a : A) : preserves (ret a).
Proof. intros s a' s' [= _ <-]. reflexivity. Qed.

Lemma preserves_throw {A} f : preserves (throw (A := A) f).
Proof. intros s a s' [=]. Qed.

Lemma preserves_diverge {A} : preserves (diverge (A := A)).
Proof. intros s a s' [=]. Qed.

Lemma preserves_get : preserves get.
Proof. intros s a s' [= _ <-]. reflexivity. Qed.

Lemma preserves_lift {A} (o : outcome A) : preserves (lift o).
Proof. intros s a s'. unfold lift. destruct o; intros [=]. subst. reflexivity. Qed.

Lemma preserves_bind {A B} (c : M A) (k : A → M B) :
  preserves c → (∀ a, preserves (k a)) → preserves (bind c k).
Proof.
  intros Hc Hk s b s'. unfold bind.
  destruct (c s) as [[a s1]| |] eqn:E; try discriminate.
  intros Hk1. transitivity s1; [eapply Hc | eapply Hk]; eauto.
Qed.

Lemma preserves_foldM {A B} (body : B → A → M B) l b :
  (∀ b a, preserves (body b a)) → preserves (foldM body l b).
Proof.
  intros Hb. revert b. induction l as [|a l IH]; intros b; simpl.
  - apply preserves_ret.
  - apply preserves_bind; auto.
Qed.

Lemma preserves_for_up {B} n i (body : nat → B → M B) b :
  (∀ i b, preserves (body i b)) → preserves (for_up n i body b).
Proof.
  intros Hb. revert i b. induction n as [|n IH]; intros i b; simpl.
  - apply preserves_ret.
  - apply preserves_bind; auto.
Qed.

Lemma preserves_for_down {B} n (body : nat → B → M B) b :
  (∀ i b, preserves (body i b)) → preserves (for_down n body b).
Proof.
  intros Hb. revert b. induction n as [|n IH]; intros b; simpl.
  - apply preserves_ret.
  - apply preserves_bind; auto.
Qed.

(** One step of a preservation proof: split a bind, enter a loop body,
    or case on the scrutinee of a conditional. *)
Ltac pres_step :=
  lazymatch goal with
  | |- preserves_rel _ (ret _) => apply preserves_ret
  | |- preserves_rel _ (throw _) => apply preserves_throw
  | |- preserves_rel _ diverge => apply preserves_diverge
  | |- preserves_rel _ get => apply preserves_get
  | |- preserves_rel _ (lift _) => apply preserves_lift
  | |- preserves_rel _ (bind _ _) =>
      apply preserves_bind; [ | intros ?; cbv beta ]
  | |- preserves_rel _ (foldM _ _ _) =>
      apply preserves_foldM; intros ? ?; cbv beta
  | |- preserves_rel _ (for_up _ _ _ _) =>
      apply preserves_for_up; intros ? ?; cbv beta
  | |- preserves_rel _ (for_down _ _ _) =>
      apply preserves_for_down; intros ? ?; cbv beta
  | |- preserves_rel _ (match ?x with _ => _ end) => destruct x
  | |- preserves_rel _ _ => solve [ eauto with pres ]
  end.

Ltac pres := repeat pres_step.

(* --- member functions that only read -------------------------------- *)

Lemma preserves_nonnull x : preserves (nonnull x).
Proof. unfold nonnull. pres. Qed.

Lemma preserves_node_at x : preserves (node_at x).
Proof. unfold node_at. pres. Qed.
#[local] Hint Resolve preserves_nonnull preserves_node_at : pres.

Lemma preserves_get_forward x i : preserves (get_forward x i).
Proof. unfold get_forward. pres. Qed.

Lemma preserves_get_markers x i : preserves (get_markers x i).
Proof. unfold get_markers. pres. Qed.

Lemma preserves_get_eqMarkers x : preserves (get_eqMarkers x).
Proof. unfold get_eqMarkers. pres. Qed.

Lemma preserves_get_key x : preserves (get_key x).
Proof. unfold get_key. pres. Qed.

Lemma preserves_isHeader x : preserves (isHeader x).
Proof. unfold isHeader. pres. Qed.

Lemma preserves_get_level x : preserves (get_level x).
Proof. unfold get_level. pres. Qed.

Lemma preserves_deref h : preserves (deref h).
Proof. unfold deref. pres. Qed.

Lemma preserves_upd_get u i : preserves (upd_get u i).
Proof. unfold upd_get. pres. Qed.

Lemma preserves_upd_set u i x : preserves (upd_set u i x).
Proof. unfold upd_set. pres. Qed.
#[local] Hint Resolve preserves_get_forward preserves_get_markers
  preserves_get_eqMarkers preserves_get_key preserves_isHeader
  preserves_get_level preserves_deref preserves_upd_get
  preserves_upd_set : pres.

Lemma preserves_forward_key x i : preserves (forward_key x i).
Proof. unfold forward_key. pres. Qed.

Lemma preserves_edge_contained Iv x i : preserves (edge_contained Iv x i).
Proof. unfold edge_contained. pres. Qed.

Lemma preserves_covers_new_edge m x ui i :
  preserves (covers_new_edge m x ui i).
Proof. unfold covers_new_edge. pres. Qed.
#[local] Hint Resolve preserves_forward_key preserves_edge_contained
  preserves_covers_new_edge : pres.

Lemma preserves_advance fuel test i x : preserves (advance fuel test i x).
Proof. revert x. induction fuel as [|fuel IH]; intros x; simpl; pres. Qed.
#[local] Hint Resolve preserves_advance : pres.

Lemma preserves_advance_level test i x : preserves (advance_level test i x).
Proof. unfold advance_level. pres. Qed.
#[local] Hint Resolve preserves_advance_level : pres.

Lemma preserves_search q : preserves (search q).
Proof. unfold search. pres. Qed.

Lemma preserves_search_update q u : preserves (search_update q u).
Proof. unfold search_update. pres. Qed.

Lemma preserves_find_intervals_loop n q x out :
  preserves (find_intervals_loop n q x out).
Proof. revert x out. induction n as [|n IH]; intros x out; simpl; pres. Qed.
#[local] Hint Resolve preserves_find_intervals_loop : pres.

Lemma preserves_find_intervals q out : preserves (find_intervals q out).
Proof. unfold find_intervals. pres. Qed.

Lemma preserves_is_contained_loop n q x :
  preserves (is_contained_loop n q x).
Proof. revert x. induction n as [|n IH]; intros x; simpl; pres. Qed.
#[local] Hint Resolve preserves_is_contained_loop : pres.

Lemma preserves_is_contained q : preserves (is_contained q).
Proof. unfold is_contained. pres. Qed.

Lemma preserves_raise_level fuel Iv x i : preserves (raise_level fuel Iv x i).
Proof. revert i. induction fuel as [|fuel IH]; intros i; simpl; pres. Qed.
#[local] Hint Resolve preserves_raise_level : pres.

Lemma preserves_raise Iv x i : preserves (raise Iv x i).
Proof. unfold raise. pres. Qed.

Lemma preserves_lower_level Iv x i : preserves (lower_level Iv x i).
Proof. induction i as [|i IH]; simpl; pres. Qed.
#[local] Hint Resolve preserves_raise preserves_lower_level
  preserves_search_update : pres.

(* --- member functions that write marker lists ------------------------- *)

Section Markers.

Hypothesis preserves_set_markers : ∀ x i l, preserves (set_markers x i l).
Hypothesis preserves_set_eqMarkers : ∀ x l, preserves (set_eqMarkers x l).
#[local] Hint Resolve preserves_set_markers preserves_set_eqMarkers : pres.

Lemma preserves_markers_insert x i h : preserves (markers_insert x i h).
Proof. unfold markers_insert. pres. Qed.

Lemma preserves_eqMarkers_insert x h : preserves (eqMarkers_insert x h).
Proof. unfold eqMarkers_insert. pres. Qed.

Lemma preserves_markers_remove x i m : preserves (markers_remove x i m).
Proof. unfold markers_remove. pres. Qed.

Lemma preserves_eqMarkers_remove x m : preserves (eqMarkers_remove x m).
Proof. unfold eqMarkers_remove. pres. Qed.

Lemma preserves_markers_remove_res x i m r :
  preserves (markers_remove_res x i m r).
Proof. unfold markers_remove_res. pres. Qed.

Lemma preserves_eqMarkers_remove_res x m r :
  preserves (eqMarkers_remove_res x m r).
Proof. unfold eqMarkers_remove_res. pres. Qed.
#[local] Hint Resolve preserves_markers_insert preserves_eqMarkers_insert
  preserves_markers_remove preserves_eqMarkers_remove
  preserves_markers_remove_res preserves_eqMarkers_remove_res : pres.

Lemma preserves_removeMarkFromLevel_loop fuel m i x r :
  preserves (removeMarkFromLevel_loop fuel m i x r).
Proof. revert x. induction fuel as [|fuel IH]; intros x; simpl; pres. Qed.
#[local] Hint Resolve preserves_removeMarkFromLevel_loop : pres.

Lemma preserves_removeMarkFromLevel m i l r :
  preserves (removeMarkFromLevel m i l r).
Proof. unfold removeMarkFromLevel. pres. Qed.

Lemma preserves_mark_eq_if_contains y p : preserves (mark_eq_if_contains y p).
Proof. unfold mark_eq_if_contains. pres. Qed.

Lemma preserves_swap_bags a b c : preserves (swap_bags a b c).
Proof. unfold swap_bags. pres. Qed.
#[local] Hint Resolve preserves_removeMarkFromLevel
  preserves_mark_eq_if_contains preserves_swap_bags : pres.

Lemma preserves_insert_phase1 n x u i p : preserves (insert_phase1 n x u i p).
Proof. revert i p. induction n as [|n IH]; intros i p; simpl; pres. Qed.

Lemma preserves_insert_phase2 n x u i p : preserves (insert_phase2 n x u i p).
Proof. revert i p. induction n as [|n IH]; intros i p; simpl; pres. Qed.
#[local] Hint Resolve preserves_insert_phase1 preserves_insert_phase2 : pres.

Lemma preserves_adjustMarkersOnInsert x u :
  preserves (adjustMarkersOnInsert x u).
Proof. unfold adjustMarkersOnInsert. pres. Qed.

Lemma preserves_mark_eq_unless u1 y m : preserves (mark_eq_unless u1 y m).
Proof. unfold mark_eq_unless. pres. Qed.
#[local] Hint Resolve preserves_mark_eq_unless : pres.

Lemma preserves_delete_place_left fuel m i u1 ui y :
  preserves (delete_place_left fuel m i u1 ui y).
Proof. revert y. induction fuel as [|fuel IH]; intros y; simpl; pres. Qed.

Lemma preserves_delete_place_right fuel m i x y :
  preserves (delete_place_right fuel m i x y).
Proof. revert y. induction fuel as [|fuel IH]; intros y; simpl; pres. Qed.
#[local] Hint Resolve preserves_delete_place_left
  preserves_delete_place_right : pres.

Lemma preserves_adjustMarkersOnDelete x u :
  preserves (adjustMarkersOnDelete x u).
Proof. unfold adjustMarkersOnDelete. pres. Qed.

Lemma preserves_place_ascending fuel I x i :
  preserves (place_ascending fuel I x i).
Proof. revert x i. induction fuel as [|fuel IH]; intros x i; simpl; pres. Qed.

Lemma preserves_place_descending fuel I r x i :
  preserves (place_descending fuel I r x i).
Proof. revert x i. induction fuel as [|fuel IH]; intros x i; simpl; pres. Qed.
#[local] Hint Resolve preserves_place_ascending
  preserves_place_descending : pres.

Lemma preserves_placeMarkers l r I : preserves (placeMarkers l r I).
Proof. unfold placeMarkers. pres. Qed.

Lemma preserves_unplace_ascending fuel Iv x i r :
  preserves (unplace_ascending fuel Iv x i r).
Proof.
  revert x i r. induction fuel as [|fuel IH]; intros x i r; simpl; pres.
Qed.

Lemma preserves_unplace_descending fuel Iv x i r :
  preserves (unplace_descending fuel Iv x i r).
Proof.
  revert x i r. induction fuel as [|fuel IH]; intros x i r; simpl; pres.
Qed.
#[local] Hint Resolve preserves_unplace_ascending
  preserves_unplace_descending : pres.

Lemma preserves_removeMarkers l Iv : preserves (removeMarkers l Iv).
Proof. unfold removeMarkers. pres. Qed.

(* --- member functions that also write the list structure ------------- *)

Hypothesis preserves_set_forward : ∀ x i y, preserves (set_forward x i y).
Hypothesis preserves_set_ownerCount : ∀ x c, preserves (set_ownerCount x c).
Hypothesis preserves_alloc : ∀ n, preserves (alloc n).
Hypothesis preserves_delete_node : ∀ x, preserves (delete_node x).
Hypothesis preserves_set_maxLevel : ∀ l, preserves (set_maxLevel l).
Hypothesis preserves_randomLevel : preserves randomLevel.
#[local] Hint Resolve preserves_set_forward preserves_set_ownerCount
  preserves_alloc preserves_delete_node preserves_set_maxLevel
  preserves_randomLevel preserves_adjustMarkersOnInsert
  preserves_adjustMarkersOnDelete preserves_placeMarkers
  preserves_removeMarkers : pres.

Lemma preserves_ownerCount_add x d : preserves (ownerCount_add x d).
Proof. unfold ownerCount_add. pres. Qed.

Lemma preserves_insert_new_node q u : preserves (insert_new_node q u).
Proof. unfold insert_new_node. pres. Qed.
#[local] Hint Resolve preserves_ownerCount_add
  preserves_insert_new_node : pres.

Lemma preserves_insert_value q : preserves (insert_value q).
Proof. unfold insert_value. pres. Qed.

Lemma preserves_remove_node x u : preserves (remove_node x u).
Proof. unfold remove_node. pres. Qed.
#[local] Hint Resolve preserves_insert_value preserves_remove_node : pres.

Lemma preserves_insert_handle I : preserves (insert_handle I).
Proof. unfold insert_handle. pres. Qed.
#[local] Hint Resolve preserves_insert_handle : pres.

(* --- the two public updates ------------------------------------------ *)

Hypothesis preserves_container_new : ∀ Iv, preserves (container_new Iv).
Hypothesis preserves_container_release :
  ∀ ih, preserves (container_release ih).
#[local] Hint Resolve preserves_container_new
  preserves_container_release : pres.

Lemma preserves_insert Iv : preserves (insert Iv).
Proof. unfold insert. pres. Qed.

Lemma preserves_remove Iv : preserves (remove Iv).
Proof. unfold remove. pres. Qed.

End Markers.

End Preserve.

#[export] Hint Resolve preserves_nonnull preserves_node_at
  preserves_get_forward preserves_get_markers
  preserves_get_eqMarkers preserves_get_key preserves_isHeader
  preserves_get_level preserves_deref preserves_upd_get
  preserves_upd_set preserves_forward_key preserves_edge_contained
  preserves_covers_new_edge preserves_advance preserves_advance_level
  preserves_search preserves_search_update preserves_find_intervals
  preserves_is_contained preserves_raise preserves_lower_level
  preserves_removeMarkFromLevel preserves_adjustMarkersOnInsert
  preserves_adjustMarkersOnDelete preserves_placeMarkers
  preserves_removeMarkers preserves_markers_insert
  preserves_eqMarkers_insert preserves_ownerCount_add
  preserves_insert_value preserves_remove_node
  preserves_insert_handle : pres.

(* ====================================================================== *)
(*  Views of an index: what a member function leaves untouched           *)
(* ====================================================================== *)

Section Shape.

Context {Value Interval : Type} `{!IntervalType Value Interval}.

Local Abbreviation node := (IntervalSLnode Value).
Local Abbreviation same_on := (same_on (Value:=Value) (Interval:=Interval)).
Local Abbreviation same_shape :=
  (same_shape (Value:=Value) (Interval:=Interval)).
Local Abbreviation same_marking :=
  (same_marking (Value:=Value) (Interval:=Interval)).
Local Abbreviation same_structure :=
  (same_structure (Value:=Value) (Interval:=Interval)).
Local Abbreviation same_nodes :=
  (same_nodes (Value:=Value) (Interval:=Interval)).

#[export] Instance same_on_refl {X} (proj : node → X) :
  Reflexive (same_on proj).
Proof. intros s. repeat split. Qed.

#[export] Instance same_on_trans {X} (proj : node → X) :
  Transitive (same_on proj).
Proof.
  intros s1 s2 s3 (?&?&?&?&?&?&?) (?&?&?&?&?&?&?).
  repeat split; congruence.
Qed.

Lemma same_on_sym {X} (proj : node → X) s s' :
  same_on proj s s' → same_on proj s' s.
Proof. intros (?&?&?&?&?&?&?). repeat split; congruence. Qed.

Lemma same_on_lookup {X} (proj : node → X) s s' p n :
  same_on proj s s' → heap s !! p = Some n →
  ∃ n', heap s' !! p = Some n' ∧ proj n' = proj n.
Proof.
  intros (_&_&_&_&_&_&Hh) Hp.
  assert (Hs : (proj <$> heap s) !! p = Some (proj n))
    by (rewrite lookup_fmap, Hp; done).
  rewrite Hh, lookup_fmap in Hs.
  destruct (heap s' !! p) as [n'|]; simpl in Hs; [|discriminate].
  exists n'. split; [done|congruence].
Qed.

Lemma same_on_size {X} (proj : node → X) s s' :
  same_on proj s s' → size (heap s) = size (heap s').
Proof.
  intros (_&_&_&_&_&_&Hh).
  rewrite <- (map_size_fmap proj (heap s)), Hh.
  apply map_size_fmap.
Qed.

Lemma same_on_weaken {X Y} (proj : node → X) (g : X → Y) s s' :
  same_on proj s s' → same_on (g ∘ proj) s s'.
Proof.
  intros (?&?&?&?&?&?&Hh). repeat (split; [done|]).
  by rewrite !map_fmap_compose, Hh.
Qed.

Lemma store_node_same_on {X} (proj : node → X) x (n n' : node) s u s' :
  heap s !! x = Some n → proj n' = proj n →
  store_node x n' s = Ok (u, s') → same_on proj s s'.
Proof.
  intros Hx Hsk. unfold store_node, bind, get, put. simpl.
  intros E. injection E as _ <-. repeat (split; [done|]).
  cbn [heap]. rewrite fmap_insert, Hsk. symmetry. apply insert_id.
  rewrite lookup_fmap, Hx. done.
Qed.

#[export] Instance same_shape_refl : Reflexive same_shape := _.
#[export] Instance same_shape_trans : Transitive same_shape := _.
#[export] Instance same_marking_refl : Reflexive same_marking := _.
#[export] Instance same_marking_trans : Transitive same_marking := _.
#[export] Instance same_structure_refl : Reflexive same_structure := _.
#[export] Instance same_structure_trans : Transitive same_structure := _.
#[export] Instance same_nodes_refl : Reflexive same_nodes := _.
#[export] Instance same_nodes_trans : Transitive same_nodes := _.

Lemma same_shape_nodes s s' : same_shape s s' → same_nodes s s'.
Proof.
  intros H.
  apply (same_on_weaken skeleton
           (λ '(h, k, f, m, o, t), (h, k, length f, m, t))) in H.
  exact H.
Qed.

Lemma same_marking_nodes s s' : same_marking s s' → same_nodes s s'.
Proof.
  intros H.
  apply (same_on_weaken marking
           (λ '(h, k, f, m, e, o, t), (h, k, f, length m, t))) in H.
  exact H.
Qed.

Lemma same_structure_nodes s s' : same_structure s s' → same_nodes s s'.
Proof.
  intros H.
  apply (same_on_weaken structure
           (λ '(h, k, f, m, e, t), (h, k, length f, length m, t))) in H.
  exact H.
Qed.

Lemma same_shape_owners s s' :
  same_shape s s' → owner_view <$> heap s = owner_view <$> heap s'.
Proof.
  intros H.
  apply (same_on_weaken skeleton
           (λ '(h, k, f, m, o, t), (h, k, o))) in H.
  destruct H as (_&_&_&_&_&_&H). exact H.
Qed.

Lemma same_marking_owners s s' :
  same_marking s s' → owner_view <$> heap s = owner_view <$> heap s'.
Proof.
  intros H.
  apply (same_on_weaken marking
           (λ '(h, k, f, m, e, o, t), (h, k, o))) in H.
  destruct H as (_&_&_&_&_&_&H). exact H.
Qed.

Lemma same_structure_shape s s' :
  same_structure s s' → same_on (λ n, (forward n, markers n, eqMarkers n)) s s'.
Proof.
  intros H.
  apply (same_on_weaken structure
           (λ '(h, k, f, m, e, t), (f, m, e))) in H.
  exact H.
Qed.

Lemma same_shape_lookup s s' p n :
  same_shape s s' → heap s !! p = Some n →
  ∃ n', heap s' !! p = Some n' ∧ skeleton n' = skeleton n.
Proof. apply same_on_lookup. Qed.

Lemma same_shape_sym s s' : same_shape s s' → same_shape s' s.
Proof. apply same_on_sym. Qed.

Lemma same_shape_size s s' : same_shape s s' → size (heap s) = size (heap s').
Proof. apply same_on_size. Qed.

Lemma set_markers_same_shape x i l :
  preserves_rel same_shape (set_markers x i l).
Proof.
  intros s u s'. cbv [set_markers bind node_at get throw ret].
  destruct (heap s !! x) as [n|] eqn:Hx; [|discriminate].
  destruct (decide _); [|discriminate].
  apply store_node_same_on with (n := n); [done|].
  unfold skeleton; simpl. by rewrite length_insert.
Qed.

Lemma set_eqMarkers_same_shape x l :
  preserves_rel same_shape (set_eqMarkers x l).
Proof.
  intros s u s'. cbv [set_eqMarkers bind node_at get throw ret].
  destruct (heap s !! x) as [n|] eqn:Hx; [|discriminate].
  apply store_node_same_on with (n := n); done.
Qed.

Lemma set_ownerCount_same_structure x c :
  preserves_rel same_structure (set_ownerCount x c).
Proof.
  intros s u s'. cbv [set_ownerCount bind node_at get throw ret].
  destruct (heap s !! x) as [n|] eqn:Hx; [|discriminate].
  apply store_node_same_on with (n := n); done.
Qed.

Lemma set_forward_same_marking x i y :
  preserves_rel same_marking (set_forward x i y).
Proof.
  intros s u s'. cbv [set_forward bind node_at get throw ret].
  destruct (heap s !! x) as [n|] eqn:Hx; [|discriminate].
  destruct (decide _); [|discriminate].
  apply store_node_same_on with (n := n); [done|].
  unfold marking; simpl. by rewrite length_insert.
Qed.

(** The marker repair of an insertion, the marker repair of a deletion
    and the two staircase walks touch marker lists only. *)
Lemma adjustMarkersOnInsert_same_shape x u :
  preserves_rel same_shape (adjustMarkersOnInsert x u).
Proof.
  apply preserves_adjustMarkersOnInsert; try apply _;
    auto using set_markers_same_shape, set_eqMarkers_same_shape.
Qed.

Lemma adjustMarkersOnDelete_same_shape x u :
  preserves_rel same_shape (adjustMarkersOnDelete x u).
Proof.
  apply preserves_adjustMarkersOnDelete; try apply _;
    auto using set_markers_same_shape, set_eqMarkers_same_shape.
Qed.

Lemma placeMarkers_same_shape l r I :
  preserves_rel same_shape (placeMarkers l r I).
Proof.
  apply preserves_placeMarkers; try apply _;
    auto using set_markers_same_shape, set_eqMarkers_same_shape.
Qed.

Lemma removeMarkers_same_shape l Iv :
  preserves_rel same_shape (removeMarkers l Iv).
Proof.
  apply preserves_removeMarkers; try apply _;
    auto using set_markers_same_shape, set_eqMarkers_same_shape.
Qed.

End Shape.

(* ====================================================================== *)
(*  Running member functions by hand                                      *)
(* ====================================================================== *)

Section Run.

Context {Value Interval : Type} `{!IntervalType Value Interval}.

Local Abbreviation state := (Interval_skip_list Value Interval).
Local Abbreviation M := (M Value Interval).

Lemma bind_Ok {A B} (c : M A) (k : A → M B) s a s' :
  c s = Ok (a, s') → bind c k s = k a s'.
Proof. intros E. unfold bind. by rewrite E. Qed.

Lemma bind_Ok_inv {A B} (c : M A) (k : A → M B) s b s' :
  bind c k s = Ok (b, s') → ∃ a s1, c s = Ok (a, s1) ∧ k a s1 = Ok (b, s').
Proof.
  unfold bind. destruct (c s) as [[a s1]| |]; try discriminate. eauto.
Qed.

Lemma bind_bind {A B C} (c : M A) (k1 : A → M B) (k2 : B → M C) s :
  bind (bind c k1) k2 s = bind c (λ a, bind (k1 a) k2) s.
Proof. unfold bind. by destruct (c s) as [[a s1]| |]. Qed.

Lemma bind_ret {A B} (a : A) (k : A → M B) s : bind (ret a) k s = k a s.
Proof. done. Qed.

Lemma bind_get {B} (k : state → M B) s : bind get k s = k s s.
Proof. done. Qed.

Lemma node_at_Ok (s : state) x n :
  heap s !! x = Some n → node_at x s = Ok (n, s).
Proof. intros E. cbv [node_at bind get]. by rewrite E. Qed.

Lemma node_at_inv (s : state) x n s' :
  node_at x s = Ok (n, s') → s' = s ∧ heap s !! x = Some n.
Proof.
  cbv [node_at bind get ret throw].
  destruct (heap s !! x); intros [=]; subst; auto.
Qed.

Lemma get_forward_Ok (s : state) x n i f :
  heap s !! x = Some n → forward n !! i = Some f →
  get_forward x i s = Ok (f, s).
Proof.
  intros E F. unfold get_forward.
  rewrite (bind_Ok _ _ _ _ _ (node_at_Ok _ _ _ E)). by rewrite F.
Qed.

Lemma get_forward_inv (s : state) x i f s' :
  get_forward x i s = Ok (f, s') →
  s' = s ∧ ∃ n, heap s !! x = Some n ∧ forward n !! i = Some f.
Proof.
  unfold get_forward. intros E.
  apply bind_Ok_inv in E as (n & s1 & E1 & E2).
  apply node_at_inv in E1 as [-> E1].
  destruct (forward n !! i) eqn:F; cbv [ret throw] in E2; simplify_eq.
  eauto.
Qed.

Lemma get_key_Ok (s : state) x n :
  heap s !! x = Some n → get_key x s = Ok (key n, s).
Proof.
  intros E. unfold get_key.
  by rewrite (bind_Ok _ _ _ _ _ (node_at_Ok _ _ _ E)).
Qed.

Lemma get_markers_inv (s : state) x i l s' :
  get_markers x i s = Ok (l, s') →
  s' = s ∧ ∃ n, heap s !! x = Some n ∧ markers n !! i = Some l.
Proof.
  unfold get_markers. intros E.
  apply bind_Ok_inv in E as (n & s1 & E1 & E2).
  apply node_at_inv in E1 as [-> E1].
  destruct (markers n !! i) eqn:F; cbv [ret throw] in E2; simplify_eq.
  eauto.
Qed.

End Run.

(** Run the first command of a bind whose outcome is known. *)
Ltac msimpl :=
  repeat first [ rewrite bind_bind | rewrite bind_ret | rewrite bind_get ].
Ltac mrun H :=
  msimpl; rewrite (bind_Ok _ _ _ _ _ H); cbv beta iota; msimpl.
Ltac msimpl_in H :=
  repeat first [ rewrite bind_bind in H | rewrite bind_ret in H
               | rewrite bind_get in H ].
(** Split the first command off a run that returned. *)
Tactic Notation "msplit" hyp(H) "as" simple_intropattern(a)
    simple_intropattern(s) simple_intropattern(H1) :=
  msimpl_in H; apply bind_Ok_inv in H as (a & s & H1 & H);
  cbv beta iota in H.
Ltac mrun_in E H :=
  msimpl_in H; rewrite (bind_Ok _ _ _ _ _ E) in H; cbv beta iota in H;
  msimpl_in H.

(* ====================================================================== *)
(*  The order on values and the contract of intervals                     *)
(* ====================================================================== *)

(* ====================================================================== *)
(*  The skip list behind the pointers                                     *)
(* ====================================================================== *)

Section Structure.

Context {Value Interval : Type} `{!IntervalType Value Interval}.

Local Abbreviation lseg := (lseg (Value:=Value)).
Local Abbreviation chain := (chain (Value:=Value)).
Local Abbreviation tptr := (tptr (Value:=Value)).
Local Abbreviation tkey := (tkey (Value:=Value)).
Local Abbreviation tlev := (tlev (Value:=Value)).
Local Abbreviation links := (links (Value:=Value) (Interval:=Interval)).
Local Abbreviation wf := (wf (Value:=Value) (Interval:=Interval)).
Local Abbreviation nodes_ok := (nodes_ok (Value:=Value) (Interval:=Interval)).
Local Abbreviation same_shape := (same_shape (Value:=Value) (Interval:=Interval)).
Local Abbreviation same_nodes := (same_nodes (Value:=Value) (Interval:=Interval)).

Lemma wf_header s L : wf s L →
  ∃ hn, heap s !! header s = Some hn ∧ is_header hn = true ∧
        topLevel hn = MAX_FORWARD ∧
        length (forward hn) = MAX_FORWARD + 1 ∧
        length (markers hn) = MAX_FORWARD + 1.
Proof. intros [H _]. apply H. Qed.

Lemma wf_nodup s L : wf s L → NoDup (header s :: (tptr <$> L)).
Proof. intros [H _]. apply H. Qed.

Lemma wf_size s L : wf s L → size (heap s) = S (length L).
Proof. intros [H _]. apply H. Qed.

Lemma wf_nodes s L : wf s L →
  ∀ t, t ∈ L →
    ∃ n, heap s !! tptr t = Some n ∧ is_header n = false ∧
         key n = tkey t ∧ topLevel n = tlev t ∧
         length (forward n) = tlev t + 1 ∧
         length (markers n) = tlev t + 1 ∧
         tlev t ≤ maxLevel s.
Proof. intros [H _]. apply H. Qed.

Lemma wf_sorted s L : wf s L →
  StronglySorted (λ a b, Value_lt (tkey a) (tkey b) = true) L.
Proof. intros [H _]. apply H. Qed.

Lemma wf_links s L : wf s L →
  ∀ i, i ≤ MAX_FORWARD →
    lseg (heap s) i (Some (header s)) (header s :: chain i L) None.
Proof. intros [_ H]. apply H. Qed.

Lemma wf_maxLevel s L : wf s L → maxLevel s < MAX_FORWARD.
Proof. intros [H _]. apply H. Qed.

Lemma wf_fresh s L : wf s L → ∀ p, is_Some (heap s !! p) → p < heap_next s.
Proof. intros [H _]. apply H. Qed.

(* --- chains ----------------------------------------------------------- *)

Lemma chain_nil i : chain i [] = [].
Proof. done. Qed.

Lemma chain_app i L1 L2 : chain i (L1 ++ L2) = chain i L1 ++ chain i L2.
Proof. unfold chain. by rewrite filter_app, fmap_app. Qed.

Lemma chain_cons i t L :
  chain i (t :: L) = if decide (i ≤ tlev t) then tptr t :: chain i L
                     else chain i L.
Proof. unfold chain. rewrite filter_cons. by destruct (decide _). Qed.

Lemma chain_subseteq i L : chain i L ⊆ tptr <$> L.
Proof.
  unfold chain. intros p Hp. apply list_elem_of_fmap in Hp as (t & -> & Ht).
  apply list_elem_of_filter in Ht as [_ Ht]. apply list_elem_of_fmap. eauto.
Qed.

Lemma chain_length i L : length (chain i L) ≤ length L.
Proof. unfold chain. rewrite length_fmap. apply length_filter. Qed.

Lemma chain_above i L :
  Forall (λ t, tlev t < i) L → chain i L = [].
Proof.
  induction 1 as [|t L Ht _ IH]; [done|].
  rewrite chain_cons, IH. destruct (decide _); [lia|done].
Qed.

Lemma chain_elem i L p :
  p ∈ chain i L ↔ ∃ t, t ∈ L ∧ tptr t = p ∧ i ≤ tlev t.
Proof.
  unfold chain. rewrite list_elem_of_fmap. split.
  - intros (t & -> & Ht). apply list_elem_of_filter in Ht as [? ?]. eauto.
  - intros (t & Ht & <- & Hi). exists t. split; [done|].
    apply list_elem_of_filter. auto.
Qed.

(* --- list segments ------------------------------------------------------ *)

Lemma lseg_app H i p c1 c2 q :
  lseg H i p (c1 ++ c2) q ↔ ∃ m, lseg H i p c1 m ∧ lseg H i m c2 q.
Proof.
  revert p. induction c1 as [|a c1 IH]; intros p; simpl.
  - split; [eauto|]. by intros (m & -> & ?).
  - split.
    + intros (-> & n & f & Hn & Hf & Hl). apply IH in Hl as (m & ? & ?).
      exists m. split; [|done]. split; [done|]. eauto 10.
    + intros (m & (-> & n & f & Hn & Hf & Hl) & Hm). split; [done|].
      exists n, f. repeat split; try done. apply IH. eauto.
Qed.

Lemma lseg_frame H H' i p c q :
  (∀ a n, a ∈ c → H !! a = Some n →
     ∃ n', H' !! a = Some n' ∧ forward n' !! i = forward n !! i) →
  lseg H i p c q → lseg H' i p c q.
Proof.
  revert p. induction c as [|a c IH]; intros p Hfr; simpl; [done|].
  intros (-> & n & f & Hn & Hf & Hl). split; [done|].
  destruct (Hfr a n) as (n' & Hn' & Hf'); [left|done|].
  exists n', f. repeat split; [done|congruence|].
  apply IH; [|done]. intros b nb Hb. apply Hfr. by right.
Qed.

Lemma lseg_head H i p c q a : lseg H i p (a :: c) q → p = Some a.
Proof. by intros [-> _]. Qed.

Lemma lseg_last_None H i p c a :
  lseg H i p (c ++ [a]) None →
  ∃ n, H !! a = Some n ∧ forward n !! i = Some None.
Proof.
  intros Hl. apply lseg_app in Hl as (m & _ & Hl). simpl in Hl.
  destruct Hl as (-> & n & f & ? & ? & <-). eauto.
Qed.

(* --- shape is all that well-formedness looks at ------------------------- *)

Lemma nodes_ok_same_nodes s s' L :
  same_nodes s s' → nodes_ok s L → nodes_ok s' L.
Proof.
  intros Hsh [Hh Hnd Hsz Hn Hso Hm Hf].
  pose proof Hsh as (_&_&_&Hmax&Hhd&Hnx&Hheap).
  split.
  - destruct Hh as (hn & Hhn & ? & ? & ? & ?).
    destruct (same_on_lookup _ _ _ _ _ Hsh Hhn) as (hn' & ? & Hsk).
    exists hn'. rewrite <- Hhd. injection Hsk as ? ? ? ? ?.
    repeat split; congruence.
  - by rewrite <- Hhd.
  - by rewrite <- (same_on_size _ _ _ Hsh).
  - intros t Ht. destruct (Hn t Ht) as (n & Hnn & ? & ? & ? & ? & ? & ?).
    destruct (same_on_lookup _ _ _ _ _ Hsh Hnn) as (n' & ? & Hsk).
    exists n'. injection Hsk as ? ? ? ? ?.
    repeat split; first [congruence | lia].
  - done.
  - lia.
  - intros p [n Hp]. rewrite <- Hnx. apply Hf.
    destruct (same_on_lookup _ _ _ _ _ (same_on_sym _ _ _ Hsh) Hp)
      as (n' & ? & _). eauto.
Qed.

Lemma nodes_ok_same_shape s s' L :
  same_shape s s' → nodes_ok s L → nodes_ok s' L.
Proof. intros H. apply nodes_ok_same_nodes, same_shape_nodes, H. Qed.

Lemma links_same_shape s s' i L : same_shape s s' → links s i L → links s' i L.
Proof.
  intros Hsh Hl. pose proof Hsh as (_&_&_&_&Hhd&_&_).
  unfold links. rewrite <- Hhd. eapply lseg_frame; [|exact Hl].
  intros a n _ Ha.
  destruct (same_shape_lookup _ _ _ _ Hsh Ha) as (n' & ? & Hsk).
  exists n'. injection Hsk as ? ? ? ? ? ?. split; congruence.
Qed.

Lemma wf_same_shape s s' L : same_shape s s' → wf s L → wf s' L.
Proof.
  intros Hsh [Hn Hl]. split; [by eapply nodes_ok_same_shape|].
  intros i Hi. eapply links_same_shape; eauto.
Qed.

End Structure.

Section Search.

Context {Value Interval : Type} `{!IntervalType Value Interval}.
Context `{!ValueOrder Value Interval}.

Local Abbreviation state := (Interval_skip_list Value Interval).
Local Abbreviation node := (IntervalSLnode Value).
Local Abbreviation tower := (tower Value).
Local Abbreviation lseg := (lseg (Value:=Value)).
Local Abbreviation chain := (chain (Value:=Value)).
Local Abbreviation pred_at := (pred_at (Value:=Value)).
Local Abbreviation split_by := (split_by (Value:=Value)).
Local Abbreviation tptr := (tptr (Value:=Value)).
Local Abbreviation tkey := (tkey (Value:=Value)).
Local Abbreviation tlev := (tlev (Value:=Value)).
Local Abbreviation wf := (wf (Value:=Value) (Interval:=Interval)).
Local Abbreviation lower_test := (lower_test (Value:=Value) (Interval:=Interval)).

Local Abbreviation sorted :=
  (StronglySorted (λ a b : tower, Value_lt (tkey a) (tkey b) = true)).

Lemma lower_test_lt q : lower_test (λ k, Value_lt k q).
Proof. intros a b Hab Hb. eauto using Value_lt_trans. Qed.

Lemma lower_test_ge q : lower_test (λ k, Value_ge q k).
Proof.
  intros a b Hab. unfold Value_ge. rewrite !negb_true_iff. intros Hb.
  destruct (Value_lt q a) eqn:Hq; [|done].
  by rewrite (Value_lt_trans _ _ _ Hq Hab) in Hb.
Qed.

Lemma sorted_split test L :
  lower_test test → sorted L →
  ∃ L1 L2, L = L1 ++ L2 ∧ split_by test L1 L2.
Proof.
  intros Hlow. induction 1 as [|t L HL IH Ht].
  - exists [], []. repeat split; constructor.
  - destruct (test (tkey t)) eqn:Hq.
    + destruct IH as (L1 & L2 & -> & H1 & H2).
      exists (t :: L1), L2. repeat split; [|done]. by constructor.
    + exists [], (t :: L). repeat split; [constructor|].
      constructor; [done|]. eapply Forall_impl; [exact Ht|].
      intros t' Htt'. simpl in Htt'.
      destruct (test (tkey t')) eqn:Hq'; [|done].
      by rewrite (Hlow _ _ Htt' Hq') in Hq.
Qed.

Lemma last_cons_default {A} (x : A) l : last (x :: l) = Some (default x (last l)).
Proof.
  revert x. induction l as [|y l IH]; intros x; [done|].
  rewrite last_cons. by rewrite IH.
Qed.

Lemma chain_pred_last hd i L1 :
  ∃ pre, hd :: chain i L1 = pre ++ [pred_at hd i L1].
Proof.
  unfold pred_at. destruct (chain i L1) as [|a c _] using rev_ind.
  - by exists [].
  - exists (hd :: c). by rewrite last_snoc.
Qed.

Lemma pred_at_snoc hd i L t :
  pred_at hd i (L ++ [t]) =
    if decide (i ≤ tlev t) then tptr t else pred_at hd i L.
Proof.
  unfold pred_at. rewrite chain_app, chain_cons, chain_nil.
  destruct (decide _); [by rewrite last_snoc|by rewrite app_nil_r].
Qed.

Lemma chain_split_pred hd i L1 :
  ∃ pre La Lb, L1 = La ++ Lb ∧
    hd :: chain i L1 = pre ++ pred_at hd (S i) L1 :: chain i Lb.
Proof.
  induction L1 as [|t L IH] using rev_ind.
  - by exists [], [], [].
  - rewrite pred_at_snoc, chain_app, chain_cons, chain_nil.
    destruct IH as (pre & La & Lb & -> & IH).
    destruct (decide (S i ≤ tlev t)).
    + rewrite decide_True by lia. exists (hd :: chain i (La ++ Lb)), ((La ++ Lb) ++ [t]), [].
      split; [by rewrite app_nil_r|]. by rewrite app_comm_cons.
    + exists pre, La, (Lb ++ [t]). split; [by rewrite app_assoc|].
      rewrite app_comm_cons, IH, chain_app, chain_cons, chain_nil.
      by rewrite <- app_assoc.
Qed.

Lemma pred_at_above hd i L1 :
  Forall (λ t, tlev t < i) L1 → pred_at hd i L1 = hd.
Proof. intros HL. unfold pred_at. by rewrite chain_above. Qed.

Lemma pred_at_cases hd i L1 :
  pred_at hd i L1 = hd ∨ pred_at hd i L1 ∈ chain i L1.
Proof.
  unfold pred_at. destruct (last (chain i L1)) as [p|] eqn:E; [|by left].
  right. simpl. apply last_Some in E as (l' & ->). set_solver.
Qed.

Lemma lseg_start (H : gmap ptr node) i f c :
  lseg H i f c None → f = head c.
Proof. destruct c; simpl; [done|]. by intros [-> _]. Qed.

(* --- walking along one level ------------------------------------------- *)

Lemma advance_path (s : state) fuel test i x c q :
  lseg (heap s) i (Some x) (x :: c) q →
  Forall (λ a, ∃ n, heap s !! a = Some n ∧ test (key n) = true) c →
  (q = None ∨ ∃ y ny, q = Some y ∧ heap s !! y = Some ny ∧
                      test (key ny) = false) →
  length c < fuel →
  advance fuel test i x s = Ok (default x (last c), s).
Proof.
  revert x fuel. induction c as [|a c IH]; intros x fuel Hl Hc Hq Hf.
  - destruct fuel as [|fuel]; [simpl in Hf; lia|]. simpl.
    destruct Hl as (_ & n & f & Hn & Hfw & Hfq). simpl in Hfq. subst f.
    mrun (get_forward_Ok _ _ _ _ _ Hn Hfw).
    destruct Hq as [->|(y & ny & -> & Hy & Ht)]; [done|].
    mrun (get_key_Ok _ _ _ Hy). by rewrite Ht.
  - destruct fuel as [|fuel]; [simpl in Hf; lia|]. simpl.
    destruct Hl as (_ & n & f & Hn & Hfw & Hl).
    pose proof (lseg_head _ _ _ _ _ _ Hl) as ->.
    mrun (get_forward_Ok _ _ _ _ _ Hn Hfw).
    apply Forall_cons in Hc as [(na & Ha & Hta) Hc].
    mrun (get_key_Ok _ _ _ Ha). rewrite Hta.
    rewrite (IH a fuel); try done; [|simpl in Hf; lia].
    by rewrite last_cons_default.
Qed.

Lemma NoDup_fmap_elem_eq {A B} (f : A → B) l x y :
  NoDup (f <$> l) → x ∈ l → y ∈ l → f x = f y → x = y.
Proof.
  intros Hnd Hx Hy Hf.
  apply list_elem_of_lookup in Hx as [j Hj].
  apply list_elem_of_lookup in Hy as [j' Hj'].
  assert (j = j'); [|congruence].
  eapply NoDup_lookup; [exact Hnd| |].
  - rewrite list_lookup_fmap, Hj. done.
  - rewrite list_lookup_fmap, Hj'. simpl. by rewrite Hf.
Qed.

Lemma wf_tower_eq (s : state) L t t' :
  wf s L → t ∈ L → t' ∈ L → tptr t = tptr t' → t = t'.
Proof.
  intros Hwf. apply NoDup_fmap_elem_eq.
  eapply NoDup_cons_1_2, wf_nodup, Hwf.
Qed.

Lemma wf_chain_node (s : state) L i p :
  wf s L → p ∈ chain i L →
  ∃ t n, t ∈ L ∧ tptr t = p ∧ i ≤ tlev t ∧ heap s !! p = Some n ∧
         is_header n = false ∧ key n = tkey t ∧ topLevel n = tlev t ∧
         length (forward n) = tlev t + 1 ∧ length (markers n) = tlev t + 1.
Proof.
  intros Hwf Hp. apply chain_elem in Hp as (t & Ht & <- & Hi).
  destruct (wf_nodes _ _ Hwf t Ht) as (n & ? & ? & ? & ? & ? & ? & ?).
  exists t, n. repeat split; done.
Qed.

(** One level of a descent: from the last node of level i+1 that passes
    the test to the last node of level i that passes it. *)
Lemma advance_search_level (s : state) L1 L2 test i :
  wf s (L1 ++ L2) → split_by test L1 L2 → i ≤ MAX_FORWARD →
  advance_level test i (pred_at (header s) (S i) L1) s
  = Ok (pred_at (header s) i L1, s).
Proof.
  intros Hwf [H1 H2] Hi. unfold advance_level, bind, get.
  pose proof (wf_links _ _ Hwf i Hi) as Hl. rewrite chain_app in Hl.
  destruct (chain_split_pred (header s) i L1) as (pre & La & Lb & EL & E).
  rewrite app_comm_cons, E, <- app_assoc in Hl.
  apply lseg_app in Hl as (m & _ & Hl).
  rewrite <- app_comm_cons in Hl.
  change (?x :: ?a ++ ?b) with ((x :: a) ++ b) in Hl.
  apply lseg_app in Hl as (m' & Hseg & Hrest).
  pose proof (lseg_head _ _ _ _ _ _ Hseg) as ->.
  rewrite (advance_path s _ _ i _ (chain i Lb) m'); try done.
  - do 2 f_equal.
    assert (Hlast : last (header s :: chain i L1)
                    = Some (default (pred_at (header s) (S i) L1)
                                    (last (chain i Lb)))).
    { rewrite E, last_app, last_cons_default. done. }
    rewrite last_cons_default in Hlast. unfold pred_at at 2. congruence.
  - apply Forall_forall. intros a Ha.
    assert (Ha' : a ∈ chain i (L1 ++ L2)).
    { subst L1. rewrite !chain_app. set_solver. }
    destruct (wf_chain_node _ _ _ _ Hwf Ha')
      as (t & n & Ht & <- & _ & Hn & _ & Hk & _).
    exists n. split; [done|]. rewrite Hk.
    apply chain_elem in Ha as (t' & Ht' & Hp & _).
    assert (t' = t) as ->.
    { eapply wf_tower_eq; [exact Hwf| |done..]. subst L1. set_solver. }
    rewrite Forall_forall in H1. apply (H1 t). subst L1. set_solver.
  - apply lseg_start in Hrest. destruct (chain i L2) as [|y c2] eqn:E2.
    + by left.
    + right. simpl in Hrest.
      assert (Hy : y ∈ chain i (L1 ++ L2)).
      { rewrite chain_app, E2. set_solver. }
      destruct (wf_chain_node _ _ _ _ Hwf Hy)
        as (t & n & Ht & <- & _ & Hn & _ & Hk & _).
      exists (tptr t), n. repeat split; [done..|]. rewrite Hk.
      assert (Hy2 : tptr t ∈ chain i L2) by (rewrite E2; set_solver).
      apply chain_elem in Hy2 as (t' & Ht' & Hp & _).
      assert (t' = t) as ->.
      { eapply wf_tower_eq; [exact Hwf| |done..]. set_solver. }
      rewrite Forall_forall in H2. by apply (H2 t).
  - unfold fuel_of. rewrite (wf_size _ _ Hwf).
    pose proof (chain_length i Lb). subst L1.
    rewrite !length_app. lia.
Qed.

End Search.

Section SearchSpec.

Context {Value Interval : Type} `{!IntervalType Value Interval}.
Context `{!ValueOrder Value Interval}.

Local Abbreviation state := (Interval_skip_list Value Interval).
Local Abbreviation node := (IntervalSLnode Value).
Local Abbreviation tower := (tower Value).
Local Abbreviation chain := (chain (Value:=Value)).
Local Abbreviation pred_at := (pred_at (Value:=Value)).
Local Abbreviation split_by := (split_by (Value:=Value)).
Local Abbreviation fill_update := (fill_update (Value:=Value)).
Local Abbreviation tptr := (tptr (Value:=Value)).
Local Abbreviation tkey := (tkey (Value:=Value)).
Local Abbreviation wf := (wf (Value:=Value) (Interval:=Interval)).

Lemma fill_update_length hd L1 n upd :
  length (fill_update hd L1 n upd) = length upd.
Proof.
  revert upd. induction n as [|n IH]; intros upd; simpl; [done|].
  by rewrite IH, length_insert.
Qed.

Lemma fill_update_ge hd L1 n upd i :
  n ≤ i → fill_update hd L1 n upd !! i = upd !! i.
Proof.
  revert upd. induction n as [|n IH]; intros upd Hi; simpl; [done|].
  rewrite IH by lia. apply list_lookup_insert_ne. lia.
Qed.

Lemma fill_update_lt hd L1 n upd i :
  i < n → i < length upd →
  fill_update hd L1 n upd !! i = Some (Some (pred_at hd i L1)).
Proof.
  revert upd. induction n as [|n IH]; intros upd Hi Hl; simpl; [lia|].
  destruct (decide (i = n)) as [->|].
  - rewrite fill_update_ge by lia. by apply list_lookup_insert_eq.
  - apply IH; [lia|]. by rewrite length_insert.
Qed.

Lemma chain_0 (L : list tower) : chain 0 L = tptr <$> L.
Proof.
  unfold chain. f_equal. induction L as [|t L IH]; [done|].
  rewrite filter_cons, decide_True by lia. by f_equal.
Qed.

Lemma wf_pred_top (s : state) L1 L2 :
  wf s (L1 ++ L2) → pred_at (header s) (maxLevel s + 1) L1 = header s.
Proof.
  intros Hwf. apply pred_at_above, Forall_forall. intros t Ht.
  destruct (wf_nodes _ _ Hwf t) as (n & _ & _ & _ & _ & _ & _ & ?);
    [set_solver|lia].
Qed.

(** What the last node before the search key points to at level 0. *)
Lemma wf_pred0_forward (s : state) L1 L2 :
  wf s (L1 ++ L2) →
  ∃ n, heap s !! pred_at (header s) 0 L1 = Some n ∧
       forward n !! 0 = Some (tptr <$> head L2).
Proof.
  intros Hwf. pose proof (wf_links _ _ Hwf 0 ltac:(lia)) as Hl.
  rewrite chain_app in Hl.
  destruct (chain_pred_last (header s) 0 L1) as (pre & E).
  rewrite app_comm_cons, E, <- app_assoc in Hl.
  apply lseg_app in Hl as (m & _ & Hl). simpl in Hl.
  destruct Hl as (_ & n & f & Hn & Hf & Hl).
  apply lseg_start in Hl. subst f. exists n. split; [done|].
  rewrite Hf, chain_0. by destruct L2.
Qed.

Lemma search_loop_spec (s : state) L1 L2 q n upd :
  wf s (L1 ++ L2) → split_by (λ k, Value_lt k q) L1 L2 →
  n ≤ MAX_FORWARD + 1 → n ≤ length upd →
  for_down n
    (λ i '(x, update),
       let* x := advance_level (λ k, Value_lt k q) i x in
       let* update := upd_set update i x in
       ret (x, update))
    (pred_at (header s) n L1, upd) s
  = Ok ((pred_at (header s) 0 L1, fill_update (header s) L1 n upd), s).
Proof.
  intros Hwf Hsp. revert upd. induction n as [|n IH]; intros upd Hn Hl.
  - done.
  - cbn [for_down].
    mrun (advance_search_level s L1 L2 _ n Hwf Hsp ltac:(lia)).
    unfold upd_set. rewrite decide_True by lia. msimpl.
    apply IH; [lia|]. rewrite length_insert. lia.
Qed.

(** search(searchKey, update) on a well-formed index: the index is left
    as it is, the result is the first node at or above the key and
    update[0..maxLevel] are the predecessors on each level. *)
Lemma search_update_spec (s : state) L1 L2 q upd :
  wf s (L1 ++ L2) → split_by (λ k, Value_lt k q) L1 L2 →
  maxLevel s < length upd →
  search_update q upd s
  = Ok ((tptr <$> head L2,
         fill_update (header s) L1 (maxLevel s + 1) upd), s).
Proof.
  intros Hwf Hsp Hl. unfold search_update. rewrite bind_get.
  rewrite <- (wf_pred_top s L1 L2 Hwf) at 1.
  pose proof (wf_maxLevel _ _ Hwf).
  mrun (search_loop_spec s L1 L2 q (maxLevel s + 1) upd Hwf Hsp
          ltac:(lia) ltac:(lia)).
  destruct (wf_pred0_forward s L1 L2 Hwf) as (n & Hn & Hf).
  mrun (get_forward_Ok _ _ _ _ _ Hn Hf). done.
Qed.

(* --- is_contained -------------------------------------------------------- *)

Lemma is_contained_loop_spec (s : state) L1 L2 q n :
  wf s (L1 ++ L2) → split_by (λ k, Value_ge q k) L1 L2 →
  n ≤ MAX_FORWARD + 1 → chain n L1 = [] →
  is_contained_loop n q (header s) s = Ok (bool_decide (L1 ≠ []), s).
Proof.
  intros Hwf Hsp. induction n as [|n IH]; intros Hn Hc.
  - rewrite chain_0 in Hc. apply fmap_nil_inv in Hc as ->.
    by rewrite bool_decide_false by auto.
  - cbn [is_contained_loop].
    destruct (wf_header _ _ Hwf) as (hn & Hhn & Hih & _).
    mrun (node_at_Ok _ _ _ Hhn). rewrite Hih. cbn [orb].
    assert (Hp : pred_at (header s) (S n) L1 = header s).
    { unfold pred_at. by rewrite Hc. }
    rewrite <- Hp at 1.
    mrun (advance_search_level s L1 L2 _ n Hwf Hsp ltac:(lia)).
    destruct (pred_at_cases (header s) n L1) as [E|Hin].
    + rewrite E. mrun (node_at_Ok _ _ _ Hhn). rewrite Hih. cbn.
      apply IH; [lia|]. unfold pred_at in E.
      destruct (chain n L1) as [|a c] eqn:Ec using rev_ind; [done|].
      rewrite last_snoc in E. simpl in E.
      pose proof (wf_nodup _ _ Hwf) as Hnd.
      apply NoDup_cons_1_1 in Hnd. exfalso. apply Hnd.
      apply (chain_subseteq n). rewrite chain_app, Ec. set_solver.
    + assert (Hin' : pred_at (header s) n L1 ∈ chain n (L1 ++ L2)).
      { rewrite chain_app. set_solver. }
      destruct (wf_chain_node _ _ _ _ Hwf Hin')
        as (t & nd & _ & _ & _ & Hnd & Hnh & _).
      mrun (node_at_Ok _ _ _ Hnd). rewrite Hnh. cbn.
      rewrite bool_decide_true.
      * by destruct (Value_ne _ _).
      * intros ->. by rewrite chain_nil in Hin; apply elem_of_nil in Hin.
Qed.

(** is_contained(q) on a well-formed index: it answers true exactly when
    some key node has a key at or below q. *)
Lemma is_contained_spec (s : state) L q :
  wf s L →
  ∃ b, is_contained q s = Ok (b, s) ∧
       (b = true ↔ ∃ t, t ∈ L ∧ Value_lt q (tkey t) = false).
Proof.
  intros Hwf.
  destruct (sorted_split (λ k, Value_ge q k) L (lower_test_ge q)
              (wf_sorted _ _ Hwf)) as (L1 & L2 & -> & Hsp).
  exists (bool_decide (L1 ≠ [])). split.
  - unfold is_contained. rewrite bind_get.
    pose proof (wf_maxLevel _ _ Hwf).
    apply (is_contained_loop_spec s L1 L2); [done..|lia|].
    apply chain_above, Forall_forall. intros t Ht.
    destruct (wf_nodes _ _ Hwf t) as (n & _ & _ & _ & _ & _ & _ & ?);
      [set_solver|lia].
  - rewrite bool_decide_eq_true. destruct Hsp as [H1 H2]. split.
    + intros HL. destruct L1 as [|t L1]; [done|]. exists t.
      split; [set_solver|]. apply Forall_cons in H1 as [H1 _].
      unfold Value_ge in H1. by apply negb_true_iff in H1.
    + intros (t & Ht & Hq) ->. simpl in *.
      rewrite Forall_forall in H2. specialize (H2 t Ht).
      unfold Value_ge in H2. rewrite Hq in H2. done.
Qed.

End SearchSpec.

(* ====================================================================== *)
(*  Splicing a node in and out                                            *)
(* ====================================================================== *)

Section Splice.

Context {Value Interval : Type} `{!IntervalType Value Interval}.
Context `{!ValueOrder Value Interval}.

Local Abbreviation state := (Interval_skip_list Value Interval).
Local Abbreviation node := (IntervalSLnode Value).
Local Abbreviation tower := (tower Value).
Local Abbreviation lseg := (lseg (Value:=Value)).
Local Abbreviation chain := (chain (Value:=Value)).
Local Abbreviation pred_at := (pred_at (Value:=Value)).
Local Abbreviation split_by := (split_by (Value:=Value)).
Local Abbreviation fill_update := (fill_update (Value:=Value)).
Local Abbreviation tptr := (tptr (Value:=Value)).
Local Abbreviation tkey := (tkey (Value:=Value)).
Local Abbreviation tlev := (tlev (Value:=Value)).
Local Abbreviation links := (links (Value:=Value) (Interval:=Interval)).
Local Abbreviation wf := (wf (Value:=Value) (Interval:=Interval)).
Local Abbreviation nodes_ok := (nodes_ok (Value:=Value) (Interval:=Interval)).
Local Abbreviation same_marking := (same_marking (Value:=Value) (Interval:=Interval)).
Local Abbreviation owners := (owners (Value:=Value) (Interval:=Interval)).

(* --- what the primitive writes do ------------------------------------- *)

Lemma upd_get_inv (u : update_vec) i p (s s' : state) :
  upd_get u i s = Ok (p, s') → s' = s ∧ u !! i = Some (Some p).
Proof.
  unfold upd_get. destruct (u !! i) as [[q|]|]; cbv [ret throw];
    intros [=]; subst; auto.
Qed.

Lemma upd_get_Ok (u : update_vec) i p (s : state) :
  u !! i = Some (Some p) → upd_get u i s = Ok (p, s).
Proof. intros E. unfold upd_get. by rewrite E. Qed.

Lemma upd_set_inv (u u' : update_vec) i x (s s' : state) :
  upd_set u i x s = Ok (u', s') →
  s' = s ∧ i < length u ∧ u' = <[i := Some x]> u.
Proof.
  unfold upd_set. destruct (decide _); cbv [ret throw]; intros [=];
    subst; auto.
Qed.

Lemma set_forward_inv (s s' : state) a j y u :
  set_forward a j y s = Ok (u, s') →
  ∃ n n', heap s !! a = Some n ∧ j < length (forward n) ∧
          heap s' = <[a := n']> (heap s) ∧
          forward n' = <[j := y]> (forward n) ∧
          header s' = header s.
Proof.
  cbv [set_forward bind node_at get throw ret store_node put].
  destruct (heap s !! a) as [n|] eqn:Hn; [|discriminate].
  destruct (decide _); [|discriminate]. intros E. injection E as _ <-.
  eexists n, _. split; [done|]. split; [done|]. split; [reflexivity|].
  split; reflexivity.
Qed.

Lemma alloc_inv (s s' : state) n x :
  alloc n s = Ok (x, s') →
  x = heap_next s ∧ heap s' = <[x := n]> (heap s) ∧
  heap_next s' = S x ∧ header s' = header s ∧
  maxLevel s' = maxLevel s ∧ container s' = container s ∧
  container_next s' = container_next s ∧ rand s' = rand s.
Proof. cbv [alloc bind get put ret]. intros [= <- <-]. done. Qed.

Lemma delete_node_inv (s s' : state) x u :
  delete_node x s = Ok (u, s') →
  is_Some (heap s !! x) ∧ heap s' = delete x (heap s) ∧
  heap_next s' = heap_next s ∧ header s' = header s ∧
  maxLevel s' = maxLevel s ∧ container s' = container s ∧
  container_next s' = container_next s ∧ rand s' = rand s.
Proof.
  cbv [delete_node bind node_at get put ret throw].
  destruct (heap s !! x) as [n|]; [|discriminate].
  intros E. injection E as _ <-. eauto 10.
Qed.

Lemma set_maxLevel_inv (s s' : state) l u :
  set_maxLevel l s = Ok (u, s') →
  maxLevel s' = l ∧ heap s' = heap s ∧
  heap_next s' = heap_next s ∧ header s' = header s ∧
  container s' = container s ∧
  container_next s' = container_next s ∧ rand s' = rand s.
Proof.
  cbv [set_maxLevel bind get put ret]. intros E. injection E as _ <-. done.
Qed.

Lemma randomLevel_inv (s s' : state) l :
  randomLevel s = Ok (l, s') →
  l ≤ maxLevel s + 1 ∧ maxLevel s' = maxLevel s ∧ heap s' = heap s ∧
  heap_next s' = heap_next s ∧ header s' = header s ∧
  container s' = container s ∧ container_next s' = container_next s.
Proof.
  cbv [randomLevel bind get put ret]. destruct (flips (rand s)) as [lv r'].
  destruct (decide _); intros [= <- <-]; simpl; repeat split; lia.
Qed.

(* --- well-formedness looks at few fields ------------------------------- *)

Lemma nodes_ok_ext (s s' : state) L :
  heap s' = heap s → header s' = header s → heap_next s' = heap_next s →
  maxLevel s ≤ maxLevel s' → maxLevel s' < MAX_FORWARD →
  nodes_ok s L → nodes_ok s' L.
Proof.
  intros Hh Hd Hn Hm Hm' [? ? ? Hnodes ? ? ?].
  split; rewrite ?Hh, ?Hd, ?Hn; try done.
  intros t Ht. destruct (Hnodes t Ht) as (n & ? & ? & ? & ? & ? & ? & ?).
  exists n. repeat split; try done. lia.
Qed.

Lemma links_ext (s s' : state) i L :
  heap s' = heap s → header s' = header s → links s i L → links s' i L.
Proof. unfold links. by intros -> ->. Qed.

Lemma wf_ext (s s' : state) L :
  heap s' = heap s → header s' = header s → heap_next s' = heap_next s →
  maxLevel s ≤ maxLevel s' → maxLevel s' < MAX_FORWARD →
  wf s L → wf s' L.
Proof.
  intros Hh Hd Hn Hm Hm' [Hok Hl]. split; [by eapply nodes_ok_ext|].
  intros i Hi. eapply links_ext; eauto.
Qed.

(* --- frames for list segments ------------------------------------------ *)

Lemma chain_NoDup i (L : list tower) : NoDup (tptr <$> L) → NoDup (chain i L).
Proof.
  intros Hnd. eapply sublist_NoDup; [exact Hnd|].
  unfold chain. apply fmap_sublist, sublist_filter.
Qed.

Lemma lseg_insert_notin (H : gmap ptr node) a n' i p c q :
  a ∉ c → lseg H i p c q → lseg (<[a := n']> H) i p c q.
Proof.
  intros Ha. apply lseg_frame. intros b n Hb Hn. exists n.
  split; [|done]. rewrite lookup_insert_ne; [done|]. by intros ->.
Qed.

Lemma lseg_insert_level (H : gmap ptr node) a n n' i j y p c q :
  H !! a = Some n → forward n' = <[j := y]> (forward n) → i ≠ j →
  lseg H i p c q → lseg (<[a := n']> H) i p c q.
Proof.
  intros Ha Hf Hij. apply lseg_frame. intros b nb Hb Hn.
  destruct (decide (b = a)) as [->|].
  - exists n'. rewrite lookup_insert_eq. split; [done|].
    rewrite Hf, list_lookup_insert_ne by done. congruence.
  - exists nb. by rewrite lookup_insert_ne.
Qed.

Lemma links_set_forward_ne (s s' : state) a j y u i L :
  set_forward a j y s = Ok (u, s') → i ≠ j → links s i L → links s' i L.
Proof.
  intros Hs Hij. apply set_forward_inv in Hs
    as (n & n' & Hn & _ & Hh & Hf & Hd).
  unfold links. rewrite Hh, Hd. by eapply lseg_insert_level.
Qed.

(** The level-j step of the splice of an insertion. *)
Lemma splice_in_level (s sa s' : state) L1 L2 xt j f u1 u2 :
  NoDup (header s :: (tptr <$> (L1 ++ xt :: L2))) →
  links s j (L1 ++ L2) → j ≤ tlev xt →
  get_forward (pred_at (header s) j L1) j s = Ok (f, s) →
  set_forward (tptr xt) j f s = Ok (u1, sa) →
  set_forward (pred_at (header s) j L1) j (Some (tptr xt)) sa = Ok (u2, s') →
  links s' j (L1 ++ xt :: L2).
Proof.
  intros Hnd Hl Hj Hg H1 H2.
  apply get_forward_inv in Hg as (_ & nu & Hnu & Hfu).
  apply set_forward_inv in H1 as (nx & nx' & Hnx & Hjx & Hh1 & Hf1 & Hd1).
  apply set_forward_inv in H2 as (nu2 & nu' & Hnu2 & Hju & Hh2 & Hf2 & Hd2).
  set (u := pred_at (header s) j L1) in *. set (x := tptr xt) in *.
  rewrite fmap_app, fmap_cons in Hnd. fold x in Hnd.
  assert (Hxu : x ≠ u).
  { intros E. destruct (pred_at_cases (header s) j L1) as [Eu|Eu];
      fold u in Eu; rewrite <- E in Eu.
    - apply NoDup_cons_1_1 in Hnd. apply Hnd. rewrite Eu. set_solver.
    - apply chain_subseteq in Eu. apply NoDup_cons_1_2 in Hnd.
      apply NoDup_app in Hnd as (_ & Hnd & _). apply (Hnd x Eu). set_solver. }
  rewrite Hh1, lookup_insert_ne in Hnu2 by done.
  assert (nu2 = nu) as -> by congruence.
  unfold links in *. rewrite Hd2, Hd1, Hh2, Hh1.
  rewrite chain_app in Hl. rewrite chain_app, chain_cons.
  rewrite decide_True by done. fold x.
  destruct (chain_pred_last (header s) j L1) as (pre & E). fold u in E.
  rewrite app_comm_cons, E, <- app_assoc in Hl.
  rewrite app_comm_cons, E, <- app_assoc.
  apply lseg_app in Hl as (m & Hpre & Hl). simpl in Hl.
  destruct Hl as (-> & nu0 & f0 & Hnu0 & Hf0 & Hrest).
  assert (nu0 = nu) as -> by congruence.
  assert (f0 = f) as -> by congruence.
  assert (Hndc : NoDup ((pre ++ [u]) ++ x :: chain j L2)).
  { rewrite <- E. simpl. apply NoDup_cons_1_2 in Hnd as Hnd'.
    apply NoDup_app in Hnd' as (Hn1 & Hn12 & Hn2).
    apply NoDup_cons in Hn2 as [Hx2 Hn2].
    apply NoDup_cons. split.
    - apply NoDup_cons_1_1 in Hnd. intros Hin. apply Hnd.
      apply elem_of_app in Hin as [Hin|Hin].
      + apply chain_subseteq in Hin. set_solver.
      + apply elem_of_cons in Hin as [->|Hin]; [set_solver|].
        apply chain_subseteq in Hin. set_solver.
    - apply NoDup_app. split; [by apply chain_NoDup|]. split.
      + intros a Ha Hin. apply chain_subseteq in Ha.
        apply elem_of_cons in Hin as [->|Hin].
        * apply (Hn12 x Ha). set_solver.
        * apply chain_subseteq in Hin. apply (Hn12 a Ha). set_solver.
      + apply NoDup_cons. split; [|by apply chain_NoDup].
        intros Hin. apply chain_subseteq in Hin. done. }
  apply NoDup_app in Hndc as (Hndpre & Hdisj & Hndr).
  apply NoDup_app in Hndpre as (_ & Hpu & _).
  apply NoDup_cons in Hndr as [Hxr _].
  apply lseg_app. exists (Some u). split.
  - apply lseg_insert_notin; [|apply lseg_insert_notin; [|done]].
    + intros Hin. apply (Hpu u Hin). set_solver.
    + intros Hin. apply (Hdisj x); set_solver.
  - simpl. split; [done|]. exists nu', (Some x).
    rewrite lookup_insert_eq. split; [done|]. split.
    { rewrite Hf2. by apply list_lookup_insert_eq. }
    split; [done|]. exists nx', f. rewrite lookup_insert_ne by done.
    rewrite lookup_insert_eq. split; [done|]. split.
    { rewrite Hf1. by apply list_lookup_insert_eq. }
    apply lseg_insert_notin; [|apply lseg_insert_notin; [|done]].
    + intros Hin. apply (Hdisj u); set_solver.
    + done.
Qed.

Lemma same_marking_header (s s' : state) :
  same_marking s s' → header s' = header s.
Proof. by intros (_&_&_&_&->&_). Qed.

Lemma chain_skip i (L1 L2 : list tower) xt :
  tlev xt < i → chain i (L1 ++ xt :: L2) = chain i (L1 ++ L2).
Proof.
  intros Hi. rewrite !chain_app, chain_cons. by rewrite decide_False by lia.
Qed.

Lemma nodes_ok_level (s : state) L t :
  nodes_ok s L → t ∈ L → tlev t < MAX_FORWARD.
Proof.
  intros Hok Ht. destruct (ok_nodes _ _ Hok t Ht) as (n&_&_&_&_&_&_&?).
  pose proof (ok_maxLevel _ _ Hok). lia.
Qed.

(** The loop that adds the new node x to the list, from level j on. *)
Lemma splice_in_loop n j (s s' : state) L1 L2 xt upd u0 :
  nodes_ok s (L1 ++ xt :: L2) →
  (∀ i, i < j → links s i (L1 ++ xt :: L2)) →
  (∀ i, j ≤ i → i ≤ MAX_FORWARD → links s i (L1 ++ L2)) →
  j + n = tlev xt + 1 →
  (∀ i, i ≤ tlev xt → upd !! i = Some (Some (pred_at (header s) i L1))) →
  for_up n j
    (λ i _,
       let* ui := upd_get upd i in
       let* f := get_forward ui i in
       let* _ := set_forward (tptr xt) i f in
       set_forward ui i (Some (tptr xt)))
    tt s = Ok (u0, s') →
  same_marking s s' ∧ wf s' (L1 ++ xt :: L2).
Proof.
  revert j s. induction n as [|n IH]; intros j s Hok Hlo Hhi Hj Hupd Hrun.
  - cbn in Hrun. injection Hrun as _ <-. split; [reflexivity|].
    split; [done|]. intros i Hi. destruct (decide (i < j)); [by apply Hlo|].
    unfold links. rewrite chain_skip by lia. apply Hhi; [lia|done].
  - cbn [for_up] in Hrun.
    apply bind_Ok_inv in Hrun as ([] & s1 & Hbody & Hrun).
    apply bind_Ok_inv in Hbody as (ui & s2 & Hg & Hbody).
    apply upd_get_inv in Hg as [-> Hui].
    rewrite Hupd in Hui by lia. injection Hui as <-.
    apply bind_Ok_inv in Hbody as (f & s2 & Hg & Hbody).
    pose proof Hg as Hg'. apply get_forward_inv in Hg' as [-> _].
    apply bind_Ok_inv in Hbody as ([] & sa & H1 & H2).
    assert (Hsm : same_marking s s1).
    { transitivity sa; eapply set_forward_same_marking; eauto. }
    pose proof (same_marking_header _ _ Hsm) as Hhd.
    assert (Hxt : xt ∈ L1 ++ xt :: L2) by set_solver.
    pose proof (nodes_ok_level _ _ _ Hok Hxt) as Hlev.
    destruct (IH (S j) s1) as [Hsm' Hwf]; try done.
    + eapply nodes_ok_same_nodes; [|exact Hok].
      by apply same_marking_nodes.
    + intros i Hi. destruct (decide (i = j)) as [->|].
      * eapply splice_in_level; eauto; [apply Hok|apply Hhi; lia|lia].
      * eapply links_set_forward_ne; [exact H2|done|].
        eapply links_set_forward_ne; [exact H1|done|]. apply Hlo. lia.
    + intros i Hi Hi'.
      eapply links_set_forward_ne; [exact H2|lia|].
      eapply links_set_forward_ne; [exact H1|lia|]. apply Hhi; lia.
    + lia.
    + intros i Hi. rewrite Hhd. by apply Hupd.
    + split; [|done]. by transitivity s1.
Qed.

(* --- a new node ----------------------------------------------------------- *)

Local Abbreviation sorted :=
  (StronglySorted (λ a b : tower, Value_lt (tkey a) (tkey b) = true)).

Lemma absent_all (L1 L2 : list tower) q :
  sorted (L1 ++ L2) → split_by (λ k, Value_lt k q) L1 L2 →
  (∀ t0, head L2 = Some t0 → tkey t0 ≠ q) →
  ∀ t, t ∈ L1 ++ L2 → tkey t ≠ q.
Proof.
  intros Hs [H1 H2] Hhd t Ht E.
  apply elem_of_app in Ht as [Ht|Ht].
  - rewrite Forall_forall in H1. specialize (H1 t Ht). simpl in H1.
    by rewrite E, Value_lt_irrefl in H1.
  - destruct L2 as [|t0 L2]; [by apply elem_of_nil in Ht|].
    apply elem_of_cons in Ht as [->|Ht]; [by apply (Hhd t0)|].
    apply StronglySorted_app in Hs as (_ & _ & Hs).
    apply StronglySorted_cons in Hs as [Hs _].
    rewrite Forall_forall in Hs. specialize (Hs t Ht). simpl in Hs.
    apply Forall_cons in H2 as [H2 _]. simpl in H2.
    rewrite E in Hs. congruence.
Qed.

Lemma sorted_insert (L1 L2 : list tower) xt :
  sorted (L1 ++ L2) → split_by (λ k, Value_lt k (tkey xt)) L1 L2 →
  (∀ t, t ∈ L2 → tkey t ≠ tkey xt) →
  sorted (L1 ++ xt :: L2).
Proof.
  intros Hs [H1 H2] Hne.
  apply StronglySorted_app in Hs as (H12 & Hs1 & Hs2).
  rewrite Forall_forall in H1. rewrite Forall_forall in H2.
  assert (Hx2 : ∀ t, t ∈ L2 → Value_lt (tkey xt) (tkey t) = true).
  { intros t Ht. destruct (Value_lt_total (tkey xt) (tkey t)) as [?|[E|E]];
      [done|by destruct (Hne t Ht)|]. by rewrite (H2 t Ht) in E. }
  apply StronglySorted_app_2; [|done|].
  - intros t1 t2 Ht1 Ht2. apply elem_of_cons in Ht2 as [->|Ht2].
    + by apply H1.
    + eapply Value_lt_trans; [by apply H1|by apply Hx2].
  - apply StronglySorted_cons. split; [|done]. by apply Forall_forall.
Qed.

Lemma nodes_ok_alloc (s s' : state) L1 L2 q nl x :
  wf s (L1 ++ L2) → sorted (L1 ++ (x, q, nl) :: L2) → nl ≤ maxLevel s →
  alloc (new_node q nl) s = Ok (x, s') →
  nodes_ok s' (L1 ++ (x, q, nl) :: L2) ∧
  (∀ i, i ≤ MAX_FORWARD → links s' i (L1 ++ L2)) ∧
  heap s !! x = None.
Proof.
  intros [Hok Hl] Hso Hnl Ha.
  apply alloc_inv in Ha as (-> & Hh & Hn & Hd & Hm & _).
  assert (Hx : heap s !! heap_next s = None).
  { destruct (heap s !! heap_next s) eqn:E; [|done].
    pose proof (ok_fresh _ _ Hok (heap_next s) ltac:(eauto)). lia. }
  assert (Hlive : ∀ p, p ∈ header s :: (tptr <$> (L1 ++ L2)) →
                       is_Some (heap s !! p)).
  { intros p Hp. apply elem_of_cons in Hp as [->|Hp].
    - destruct (ok_header _ _ Hok) as (hn & ? & _). eauto.
    - apply list_elem_of_fmap in Hp as (t & -> & Ht).
      destruct (ok_nodes _ _ Hok t Ht) as (n & ? & _). eauto. }
  assert (Hnx : ∀ p, p ∈ header s :: (tptr <$> (L1 ++ L2)) →
                     p ≠ heap_next s).
  { intros p Hp ->. apply Hlive in Hp. rewrite Hx in Hp.
    by destruct Hp. }
  split; [|split; [|done]].
  - split.
    + destruct (ok_header _ _ Hok) as (hn & Hhn & ?).
      exists hn. rewrite Hd, Hh, lookup_insert_ne; [done|].
      intros E. apply (Hnx (header s)); [set_solver|done].
    + rewrite Hd. pose proof (ok_nodup _ _ Hok) as Hnd.
      rewrite fmap_app, fmap_cons. rewrite fmap_app in Hnd. simpl.
      apply NoDup_cons in Hnd as [Hh1 Hnd].
      apply NoDup_app in Hnd as (Hn1 & Hn12 & Hn2).
      apply NoDup_cons. split.
      * intros Hin. apply elem_of_app in Hin as [Hin|Hin];
          [set_solver|].
        apply elem_of_cons in Hin as [E|Hin]; [|set_solver].
        apply (Hnx (header s)); [set_solver|done].
      * apply NoDup_app. split; [done|]. split.
        -- intros p Hp Hin. apply elem_of_cons in Hin as [->|Hin].
           ++ apply (Hnx (heap_next s)); [|done].
              rewrite fmap_app. set_solver.
           ++ by apply (Hn12 p).
        -- apply NoDup_cons. split; [|done]. intros Hin.
           apply (Hnx (heap_next s)); [|done]. rewrite fmap_app. set_solver.
    + rewrite Hh, map_size_insert_None by done.
      rewrite (ok_size _ _ Hok), !length_app. simpl. lia.
    + intros t Ht. rewrite Hh, Hm.
      apply elem_of_app in Ht as [Ht|Ht];
        [|apply elem_of_cons in Ht as [->|Ht]].
      * destruct (ok_nodes _ _ Hok t) as (n & ? & ?); [set_solver|].
        exists n. rewrite lookup_insert_ne; [done|].
        intros E. apply (Hnx (tptr t)); [|done].
        rewrite fmap_app. apply elem_of_cons. right.
        apply elem_of_app. left. by apply list_elem_of_fmap_2.
      * exists (new_node q nl). unfold tptr, tkey, tlev. simpl.
        rewrite lookup_insert_eq, !length_replicate. done.
      * destruct (ok_nodes _ _ Hok t) as (n & ? & ?); [set_solver|].
        exists n. rewrite lookup_insert_ne; [done|].
        intros E. apply (Hnx (tptr t)); [|done].
        rewrite fmap_app. apply elem_of_cons. right.
        apply elem_of_app. right. by apply list_elem_of_fmap_2.
    + done.
    + rewrite Hm. apply Hok.
    + intros p Hp. rewrite Hn. rewrite Hh in Hp.
      destruct (decide (p = heap_next s)) as [->|]; [lia|].
      rewrite lookup_insert_ne in Hp by done.
      pose proof (ok_fresh _ _ Hok p Hp). lia.
  - intros i Hi. unfold links. rewrite Hh, Hd.
    apply lseg_insert_notin; [|by apply Hl].
    intros Hin. apply (Hnx (heap_next s)); [|done].
    apply elem_of_cons in Hin as [<-|Hin]; [set_solver|].
    apply chain_subseteq in Hin. set_solver.
Qed.

(** The update vector when the splice starts: every level up to the
    level of the new node holds its predecessor. *)
Lemma raise_levels_spec (s s' : state) L1 L2 nl upd upd' :
  wf s (L1 ++ L2) → nl ≤ maxLevel s + 1 → length upd = MAX_FORWARD →
  (∀ i, i ≤ maxLevel s →
        upd !! i = Some (Some (pred_at (header s) i L1))) →
  (if decide (maxLevel s < nl) then
     let* update :=
       for_up (nl - maxLevel s) (maxLevel s + 1)
         (λ i update,
            let* update := upd_set update i (header s) in
            let* l := get_markers (header s) i in
            let* _ := set_markers (header s) i (IL_clear l) in
            ret update)
         upd in
     let* _ := set_maxLevel nl in
     ret update
   else ret upd) s = Ok (upd', s') →
  wf s' (L1 ++ L2) ∧ nl ≤ maxLevel s' ∧ header s' = header s ∧
  (∀ i, i ≤ nl → upd' !! i = Some (Some (pred_at (header s) i L1))) ∧
  container s' = container s ∧ container_next s' = container_next s ∧
  owner_view <$> heap s' = owner_view <$> heap s.
Proof.
  intros Hwf Hnl Hlen Hupd. destruct (decide _) as [Hlt|Hge].
  - assert (nl - maxLevel s = 1) as -> by lia. cbn [for_up].
    intros Hrun.
    msplit Hrun as u1 s1 Hu.
    apply upd_set_inv in Hu as (-> & Hlt' & ->).
    msplit Hrun as l s1 Hg.
    apply get_markers_inv in Hg as (-> & _).
    msplit Hrun as [] s1 Hsm.
    apply set_markers_same_shape in Hsm.
    msplit Hrun as [] s2 Hml. cbv [ret] in Hrun.
    injection Hrun as <- <-.
    apply set_maxLevel_inv in Hml as (Hm & Hh & Hn & Hd & Hc & Hcn & _).
    pose proof Hsm as (_ & Hc1 & Hcn1 & Hm1 & Hd1 & Hn1 & _).
    assert (nl = maxLevel s + 1) as Enl by lia.
    split; [|split; [lia|split; [congruence|split;
      [|split; [congruence|split; [congruence|]]]]]].
    + eapply wf_ext; [exact Hh|exact Hd|exact Hn|lia| |].
      { rewrite Hm, Enl. rewrite Hlen in Hlt'. exact Hlt'. }
      by eapply wf_same_shape.
    + intros i Hi. destruct (decide (i = maxLevel s + 1)) as [->|].
      * rewrite list_lookup_insert_eq by done.
        by rewrite (wf_pred_top s L1 L2 Hwf).
      * rewrite list_lookup_insert_ne by done. apply Hupd. lia.
    + rewrite Hh. symmetry. by apply same_shape_owners.
  - intros Hrun. injection Hrun as <- <-.
    split; [done|]. split; [lia|]. split; [done|]. split; [|done].
    intros i Hi. apply Hupd. lia.
Qed.

Lemma new_update_length : length new_update = MAX_FORWARD.
Proof. apply length_replicate. Qed.

(** The branch of insert(const Value&) that makes a node. *)
Lemma insert_new_node_spec (s s' : state) L1 L2 q upd x :
  wf s (L1 ++ L2) → split_by (λ k, Value_lt k q) L1 L2 →
  (∀ t, t ∈ L1 ++ L2 → tkey t ≠ q) →
  length upd = MAX_FORWARD →
  (∀ i, i ≤ maxLevel s →
        upd !! i = Some (Some (pred_at (header s) i L1))) →
  insert_new_node q upd s = Ok (x, s') →
  ∃ nl, wf s' (L1 ++ (x, q, nl) :: L2) ∧
        owner_view <$> heap s' =
          <[x := (false, q, 0%Z)]> (owner_view <$> heap s) ∧
        heap s !! x = None ∧
        container s' = container s ∧
        container_next s' = container_next s ∧ header s' = header s.
Proof.
  intros Hwf Hsp Hne Hlen Hupd Hrun. unfold insert_new_node in Hrun.
  msplit Hrun as nl s1 Hr.
  apply randomLevel_inv in Hr as (Hnl & Hm1 & Hh1 & Hn1 & Hd1 & Hc1 & Hcn1).
  assert (Hwf1 : wf s1 (L1 ++ L2)).
  { eapply wf_ext; [exact Hh1|exact Hd1|exact Hn1|lia| |exact Hwf].
    rewrite Hm1. apply Hwf. }
  msimpl_in Hrun.
  msplit Hrun as upd' s3 Hraise.
  apply (raise_levels_spec s1 s3 L1 L2) in Hraise
    as (Hwf3 & Hnl3 & Hd3 & Hupd3 & Hc3 & Hcn3 & Ho3);
    [|done|lia|done|by intros i Hi; rewrite Hd1; apply Hupd; lia].
  msplit Hrun as x' s4 Ha.
  set (xt := (x', q, nl) : tower) in *.
  assert (Hso : StronglySorted (λ a b : tower, Value_lt (tkey a) (tkey b) = true)
                  (L1 ++ xt :: L2)).
  { apply sorted_insert; [apply Hwf|done|]. intros t Ht. apply Hne.
    set_solver. }
  pose proof Ha as Ha'. apply alloc_inv in Ha'
    as (Ex & Hh4 & Hn4 & Hd4 & Hm4 & Hc4 & Hcn4 & _).
  destruct (nodes_ok_alloc s3 s4 L1 L2 q nl x' Hwf3 Hso Hnl3 Ha)
    as (Hok4 & Hl4 & Hfresh).
  msplit Hrun as [] s5 Hsplice.
  apply (splice_in_loop _ 0 s4 s5 L1 L2 xt) in Hsplice
    as (Hsm & Hwf5); [|done|intros i Hi; lia|by intros i _ Hi; apply Hl4
                      |simpl; lia|].
  2:{ intros i Hi. rewrite Hd4, Hd3. apply Hupd3. exact Hi. }
  msplit Hrun as [] s6 Hadj. injection Hrun as <- <-.
  apply adjustMarkersOnInsert_same_shape in Hadj.
  exists nl. split; [by eapply wf_same_shape|].
  pose proof Hsm as (_ & Hc5 & Hcn5 & _ & Hd5 & _).
  pose proof Hadj as (_ & Hc6 & Hcn6 & _ & Hd6 & _).
  split; [|split; [|split; [congruence|split; congruence]]].
  - rewrite <- (same_shape_owners _ _ Hadj).
    rewrite <- (same_marking_owners _ _ Hsm).
    rewrite Hh4, fmap_insert, Ho3, Hh1. done.
  - rewrite <- Hh1. assert (Hnone : (owner_view <$> heap s3) !! x' = None).
    { by rewrite lookup_fmap, Hfresh. }
    rewrite Ho3, lookup_fmap in Hnone.
    by destruct (heap s1 !! x').
Qed.

(** insert(const Value&) on a well-formed index: either the key has a
    node already, which is returned and nothing changes, or a new node
    with no owners joins the list between the keys below and above. *)
Lemma insert_value_spec (s s' : state) L q x :
  wf s L → insert_value q s = Ok (x, s') →
  container s' = container s ∧ container_next s' = container_next s ∧
  header s' = header s ∧
  ((s' = s ∧ ∃ t, t ∈ L ∧ tptr t = x ∧ tkey t = q) ∨
   (∃ L1 L2 nl, L = L1 ++ L2 ∧ (∀ t, t ∈ L → tkey t ≠ q) ∧
      wf s' (L1 ++ (x, q, nl) :: L2) ∧
      owner_view <$> heap s' =
        <[x := (false, q, 0%Z)]> (owner_view <$> heap s) ∧
      heap s !! x = None)).
Proof.
  intros Hwf Hrun.
  destruct (sorted_split (λ k, Value_lt k q) L (lower_test_lt q)
              (wf_sorted _ _ Hwf)) as (L1 & L2 & -> & Hsp).
  pose proof (wf_maxLevel _ _ Hwf) as Hmax.
  unfold insert_value in Hrun.
  assert (Hlen : maxLevel s < length new_update)
    by (rewrite new_update_length; lia).
  mrun_in (search_update_spec s L1 L2 q new_update Hwf Hsp Hlen) Hrun.
  assert (Hnew : ∀ absent_head : ∀ t0, head L2 = Some t0 → tkey t0 ≠ q,
    insert_new_node q
      (fill_update (header s) L1 (maxLevel s + 1) new_update) s
      = Ok (x, s') →
    container s' = container s ∧ container_next s' = container_next s ∧
    header s' = header s ∧
    ((s' = s ∧ ∃ t, t ∈ L1 ++ L2 ∧ tptr t = x ∧ tkey t = q) ∨
     (∃ L1' L2' nl, L1 ++ L2 = L1' ++ L2' ∧
        (∀ t, t ∈ L1 ++ L2 → tkey t ≠ q) ∧
        wf s' (L1' ++ (x, q, nl) :: L2') ∧
        owner_view <$> heap s' =
          <[x := (false, q, 0%Z)]> (owner_view <$> heap s) ∧
        heap s !! x = None))).
  { intros Hhd Hnew.
    pose proof (absent_all L1 L2 q (wf_sorted _ _ Hwf) Hsp Hhd) as Hne.
    apply (insert_new_node_spec s s' L1 L2) in Hnew
      as (nl & Hwf' & Ho & Hx & Hc & Hcn & Hd); try done.
    - repeat (split; [done|]). right. exists L1, L2, nl. done.
    - by rewrite fill_update_length, new_update_length.
    - intros i Hi. apply fill_update_lt; [lia|].
      rewrite new_update_length. lia. }
  destruct L2 as [|t0 L2]; simpl in Hrun.
  - msimpl_in Hrun. by apply Hnew.
  - destruct (wf_nodes _ _ Hwf t0) as (n0 & Hn0 & _ & Hk0 & _);
      [set_solver|].
    mrun_in (get_key_Ok _ _ _ Hn0) Hrun. unfold Value_ne in Hrun.
    rewrite Hk0 in Hrun.
    destruct (decide (tkey t0 = q)) as [E|E].
    + rewrite bool_decide_true in Hrun by done. simpl in Hrun.
      injection Hrun as <- <-. repeat (split; [done|]). left.
      split; [done|]. exists t0. split; [set_solver|done].
    + rewrite bool_decide_false in Hrun by done. simpl in Hrun.
      apply Hnew; [|done]. intros t [= <-]. done.
Qed.

(* --- splicing a node out ---------------------------------------------- *)

Lemma lseg_delete_notin (H : gmap ptr node) a i p c q :
  a ∉ c → lseg H i p c q → lseg (delete a H) i p c q.
Proof.
  intros Ha. apply lseg_frame. intros b n Hb Hn. exists n.
  split; [|done]. rewrite lookup_delete_ne; [done|]. by intros ->.
Qed.

(** The level-j step of the splice of a removal. *)
Lemma splice_out_level (s s' : state) L1 L2 xt j f u :
  NoDup (header s :: (tptr <$> (L1 ++ xt :: L2))) →
  links s j (L1 ++ xt :: L2) → j ≤ tlev xt →
  get_forward (tptr xt) j s = Ok (f, s) →
  set_forward (pred_at (header s) j L1) j f s = Ok (u, s') →
  links s' j (L1 ++ L2).
Proof.
  intros Hnd Hl Hj Hg H1.
  apply get_forward_inv in Hg as (_ & nx & Hnx & Hfx).
  apply set_forward_inv in H1 as (nu & nu' & Hnu & Hju & Hh1 & Hf1 & Hd1).
  set (u0 := pred_at (header s) j L1) in *. set (x := tptr xt) in *.
  rewrite fmap_app, fmap_cons in Hnd. fold x in Hnd.
  unfold links in *. rewrite Hd1, Hh1.
  rewrite chain_app, chain_cons, decide_True in Hl by done. fold x in Hl.
  rewrite chain_app.
  destruct (chain_pred_last (header s) j L1) as (pre & E). fold u0 in E.
  rewrite app_comm_cons, E, <- app_assoc in Hl.
  rewrite app_comm_cons, E, <- app_assoc.
  assert (Hndc : NoDup ((pre ++ [u0]) ++ x :: chain j L2)).
  { rewrite <- E. simpl. apply NoDup_cons_1_2 in Hnd as Hnd'.
    apply NoDup_app in Hnd' as (Hn1 & Hn12 & Hn2).
    apply NoDup_cons in Hn2 as [Hx2 Hn2].
    apply NoDup_cons. split.
    - apply NoDup_cons_1_1 in Hnd. intros Hin. apply Hnd.
      apply elem_of_app in Hin as [Hin|Hin].
      + apply chain_subseteq in Hin. set_solver.
      + apply elem_of_cons in Hin as [->|Hin]; [set_solver|].
        apply chain_subseteq in Hin. set_solver.
    - apply NoDup_app. split; [by apply chain_NoDup|]. split.
      + intros a Ha Hin. apply chain_subseteq in Ha.
        apply elem_of_cons in Hin as [->|Hin].
        * apply (Hn12 x Ha). set_solver.
        * apply chain_subseteq in Hin. apply (Hn12 a Ha). set_solver.
      + apply NoDup_cons. split; [|by apply chain_NoDup].
        intros Hin. apply chain_subseteq in Hin. done. }
  apply NoDup_app in Hndc as (Hndpre & Hdisj & Hndr).
  apply NoDup_app in Hndpre as (_ & Hpu & _).
  apply lseg_app in Hl as (m & Hpre & Hl). simpl in Hl.
  destruct Hl as (-> & nu0 & f0 & Hnu0 & Hf0 & _ & nx0 & f1 & Hnx0 & Hf1' & Hrest).
  assert (nx0 = nx) as -> by congruence.
  assert (f1 = f) as -> by congruence.
  apply lseg_app. exists (Some u0). split.
  - apply lseg_insert_notin; [|done].
    intros Hin. apply (Hpu u0 Hin). set_solver.
  - simpl. split; [done|]. exists nu', f.
    rewrite lookup_insert_eq. split; [done|]. split.
    { rewrite Hf1. by apply list_lookup_insert_eq. }
    apply lseg_insert_notin; [|done].
    intros Hin. apply (Hdisj u0); set_solver.
Qed.

(** The loop that takes x out of the list, from level j on. *)
Lemma splice_out_loop n j (s s' : state) L1 L2 xt upd u0 :
  nodes_ok s (L1 ++ xt :: L2) →
  (∀ i, i < j → links s i (L1 ++ L2)) →
  (∀ i, j ≤ i → i ≤ MAX_FORWARD → links s i (L1 ++ xt :: L2)) →
  j + n = tlev xt + 1 →
  (∀ i, i ≤ tlev xt → upd !! i = Some (Some (pred_at (header s) i L1))) →
  for_up n j
    (λ i _,
       let* ui := upd_get upd i in
       let* f := get_forward (tptr xt) i in
       set_forward ui i f)
    tt s = Ok (u0, s') →
  same_marking s s' ∧ nodes_ok s' (L1 ++ xt :: L2) ∧
  ∀ i, i ≤ MAX_FORWARD → links s' i (L1 ++ L2).
Proof.
  revert j s. induction n as [|n IH]; intros j s Hok Hlo Hhi Hj Hupd Hrun.
  - cbn in Hrun. injection Hrun as _ <-. split; [reflexivity|].
    split; [done|]. intros i Hi. destruct (decide (i < j)); [by apply Hlo|].
    unfold links. rewrite <- (chain_skip i L1 L2 xt) by lia.
    apply Hhi; [lia|done].
  - cbn [for_up] in Hrun.
    msplit Hrun as ui s2 Hg.
    apply upd_get_inv in Hg as [-> Hui].
    rewrite Hupd in Hui by lia. injection Hui as <-.
    msplit Hrun as f s2 Hg.
    pose proof Hg as Hg'. apply get_forward_inv in Hg' as [-> _].
    msplit Hrun as [] s1 H1.
    assert (Hsm : same_marking s s1).
    { eapply set_forward_same_marking; eauto. }
    pose proof (same_marking_header _ _ Hsm) as Hhd.
    assert (Hxt : xt ∈ L1 ++ xt :: L2) by set_solver.
    pose proof (nodes_ok_level _ _ _ Hok Hxt) as Hlev.
    destruct (IH (S j) s1) as (Hsm' & Hok' & Hl'); try done.
    + eapply nodes_ok_same_nodes; [|exact Hok].
      by apply same_marking_nodes.
    + intros i Hi. destruct (decide (i = j)) as [->|].
      * eapply splice_out_level; eauto; [apply Hok|apply Hhi; lia|lia].
      * eapply links_set_forward_ne; [exact H1|done|]. apply Hlo. lia.
    + intros i Hi Hi'.
      eapply links_set_forward_ne; [exact H1|lia|]. apply Hhi; lia.
    + lia.
    + intros i Hi. rewrite Hhd. by apply Hupd.
    + split; [|done]. by transitivity s1.
Qed.

Lemma wf_delete (s s' : state) L1 L2 xt u :
  nodes_ok s (L1 ++ xt :: L2) →
  (∀ i, i ≤ MAX_FORWARD → links s i (L1 ++ L2)) →
  delete_node (tptr xt) s = Ok (u, s') →
  wf s' (L1 ++ L2).
Proof.
  intros Hok Hl Hdel.
  apply delete_node_inv in Hdel as (Hx & Hh & Hn & Hd & Hm & _).
  pose proof (ok_nodup _ _ Hok) as Hnd.
  rewrite fmap_app, fmap_cons in Hnd.
  apply NoDup_cons in Hnd as [Hh1 Hnd].
  apply NoDup_app in Hnd as (Hn1 & Hn12 & Hn2).
  apply NoDup_cons in Hn2 as [Hx2 Hn2].
  assert (Hxh : tptr xt ≠ header s) by (intros E; rewrite E in *; set_solver).
  assert (Hx1 : tptr xt ∉ tptr <$> (L1 ++ L2)).
  { rewrite fmap_app. intros Hin. apply elem_of_app in Hin as [Hin|Hin].
    - apply (Hn12 _ Hin). set_solver.
    - done. }
  split.
  - split.
    + destruct (ok_header _ _ Hok) as (hn & Hhn & ?). exists hn.
      rewrite Hd, Hh, lookup_delete_ne; done.
    + rewrite Hd, fmap_app. apply NoDup_cons. split; [set_solver|].
      apply NoDup_app. split; [done|]. split; [|done].
      intros p Hp Hin. apply (Hn12 p Hp). set_solver.
    + rewrite Hh, map_size_delete_Some by done.
      rewrite (ok_size _ _ Hok), !length_app. simpl. lia.
    + intros t Ht. rewrite Hh, Hm.
      destruct (ok_nodes _ _ Hok t) as (n & ? & ?); [set_solver|].
      exists n. rewrite lookup_delete_ne; [done|].
      intros E. apply Hx1. rewrite E. by apply list_elem_of_fmap_2.
    + pose proof (ok_sorted _ _ Hok) as Hs.
      apply StronglySorted_app in Hs as (H12 & Hs1 & Hs2).
      apply StronglySorted_cons in Hs2 as [_ Hs2].
      apply StronglySorted_app_2; [|done..].
      intros t1 t2 ? ?. apply H12; set_solver.
    + rewrite Hm. apply Hok.
    + intros p Hp. rewrite Hn. rewrite Hh in Hp.
      apply lookup_delete_is_Some in Hp as [_ Hp].
      by apply (ok_fresh _ _ Hok).
  - intros i Hi. unfold links. rewrite Hh, Hd.
    apply lseg_delete_notin; [|by apply Hl].
    intros Hin. apply elem_of_cons in Hin as [E|Hin]; [done|].
    apply chain_subseteq in Hin. done.
Qed.

(** remove(x, update) on a well-formed index whose update vector holds
    the predecessors of x: the node leaves the list and the heap. *)
Lemma remove_node_spec (s s' : state) L1 L2 xt upd u :
  wf s (L1 ++ xt :: L2) →
  (∀ i, i ≤ tlev xt → upd !! i = Some (Some (pred_at (header s) i L1))) →
  remove_node (tptr xt) upd s = Ok (u, s') →
  wf s' (L1 ++ L2) ∧
  owner_view <$> heap s' = delete (tptr xt) (owner_view <$> heap s) ∧
  container s' = container s ∧ container_next s' = container_next s ∧
  header s' = header s.
Proof.
  intros Hwf Hupd Hrun. unfold remove_node in Hrun.
  msplit Hrun as [] s1 Hadj.
  apply adjustMarkersOnDelete_same_shape in Hadj.
  pose proof (wf_same_shape _ _ _ Hadj Hwf) as [Hok1 Hl1].
  pose proof Hadj as (_ & Hc1 & Hcn1 & _ & Hd1 & _).
  destruct (ok_nodes _ _ Hok1 xt) as (nx & Hnx & _ & _ & Htop & _);
    [set_solver|].
  msplit Hrun as lv s2 Hlv. unfold get_level in Hlv.
  rewrite (bind_Ok _ _ _ _ _ (node_at_Ok _ _ _ Hnx)) in Hlv.
  injection Hlv as <- <-.
  msplit Hrun as [] s2 Hloop.
  apply (splice_out_loop _ 0 s1 s2 L1 L2 xt) in Hloop
    as (Hsm & Hok2 & Hl2); [|done|intros i Hi; lia|by intros i _ Hi; apply Hl1
                            |unfold level; lia|].
  2:{ intros i Hi. rewrite <- Hd1. by apply Hupd. }
  pose proof Hsm as (_ & Hc2 & Hcn2 & _ & Hd2 & _).
  pose proof Hrun as Hdel.
  apply delete_node_inv in Hdel as (_ & Hh & _ & Hd3 & _ & Hc3 & Hcn3 & _).
  assert (Hwf' : wf s' (L1 ++ L2)).
  { eapply (wf_delete s2); [exact Hok2|exact Hl2|exact Hrun]. }
  assert (Hc' : container s' = container s) by congruence.
  assert (Hcn' : container_next s' = container_next s) by congruence.
  assert (Hd' : header s' = header s) by congruence.
  repeat (split; [done|]). split; [|done].
  rewrite Hh, fmap_delete.
  rewrite <- (same_marking_owners _ _ Hsm).
  rewrite <- (same_shape_owners _ _ Hadj). done.
Qed.

End Splice.

(* ====================================================================== *)
(*  Ownership accounting                                                  *)
(* ====================================================================== *)

Section Owners.

Context {Value Interval : Type} `{!IntervalType Value Interval}.
Context `{!ValueOrder Value Interval}.

Local Abbreviation state := (Interval_skip_list Value Interval).
Local Abbreviation node := (IntervalSLnode Value).
Local Abbreviation tower := (tower Value).
Local Abbreviation lseg := (lseg (Value:=Value)).
Local Abbreviation pred_at := (pred_at (Value:=Value)).
Local Abbreviation split_by := (split_by (Value:=Value)).
Local Abbreviation fill_update := (fill_update (Value:=Value)).
Local Abbreviation positive := (positive (Value:=Value)).
Local Abbreviation unique_keys := (unique_keys (Value:=Value)).
Local Abbreviation persist := (persist (Value:=Value)).
Local Abbreviation drop := (drop (Value:=Value)).
Local Abbreviation tptr := (tptr (Value:=Value)).
Local Abbreviation tkey := (tkey (Value:=Value)).
Local Abbreviation tlev := (tlev (Value:=Value)).
Local Abbreviation links := (links (Value:=Value) (Interval:=Interval)).
Local Abbreviation wf := (wf (Value:=Value) (Interval:=Interval)).
Local Abbreviation same_shape := (same_shape (Value:=Value) (Interval:=Interval)).
Local Abbreviation same_structure := (same_structure (Value:=Value) (Interval:=Interval)).
Local Abbreviation owners := (owners (Value:=Value) (Interval:=Interval)).
Local Abbreviation count_ok := (count_ok (Value:=Value) (Interval:=Interval)).
Local Abbreviation Inv := (Inv (Value:=Value) (Interval:=Interval)).
Local Abbreviation endpoints := (endpoints (Value:=Value) (Interval:=Interval)).
Local Abbreviation incidences := (incidences (Value:=Value) (Interval:=Interval)).
Local Abbreviation store := (gmap Interval_handle Interval).
Local Abbreviation view := (gmap ptr (bool * Value * Z)).

Local Open Scope Z_scope.

Lemma endpoints_nonneg v I : 0 ≤ endpoints v I.
Proof. unfold endpoints. repeat destruct (decide _); lia. Qed.

Lemma endpoints_pos v I : 0 < endpoints v I ↔ inf I = v ∨ sup I = v.
Proof. unfold endpoints. repeat destruct (decide _); intuition lia. Qed.

Lemma incidences_empty v : incidences v ∅ = 0.
Proof. apply map_fold_empty. Qed.

Lemma incidences_insert v (c : store) h I :
  c !! h = None →
  incidences v (<[h := I]> c) = endpoints v I + incidences v c.
Proof.
  intros Hh. unfold incidences.
  rewrite map_fold_insert_L; [done| |done]. intros. lia.
Qed.

Lemma incidences_delete v (c : store) h I :
  c !! h = Some I →
  incidences v (delete h c) = incidences v c - endpoints v I.
Proof.
  intros Hh. unfold incidences.
  rewrite (map_fold_delete_L _ _ h I c); [lia| |done]. intros. lia.
Qed.

Lemma incidences_nonneg v (c : store) : 0 ≤ incidences v c.
Proof.
  induction c as [|h I c Hh IH] using map_ind.
  - by rewrite incidences_empty.
  - rewrite incidences_insert by done. pose proof (endpoints_nonneg v I). lia.
Qed.

Lemma incidences_member v (c : store) h I :
  c !! h = Some I → endpoints v I ≤ incidences v c.
Proof.
  intros Hh. pose proof (incidences_delete v c h I Hh).
  pose proof (incidences_nonneg v (delete h c)). lia.
Qed.

Lemma incidences_pos v (c : store) :
  0 < incidences v c ↔ ∃ h I, c !! h = Some I ∧ (inf I = v ∨ sup I = v).
Proof.
  split.
  - induction c as [|h I c Hh IH] using map_ind.
    + rewrite incidences_empty. lia.
    + rewrite incidences_insert by done. intros Hpos.
      destruct (decide (0 < endpoints v I)) as [Hp|Hp].
      * exists h, I. rewrite lookup_insert_eq. split; [done|].
        by apply endpoints_pos.
      * destruct IH as (h' & I' & Hh' & HI'); [lia|].
        exists h', I'. split; [|done]. rewrite lookup_insert_ne; [done|].
        intros ->. congruence.
  - intros (h & I & Hh & HI). apply endpoints_pos in HI.
    pose proof (incidences_member v c h I Hh). lia.
Qed.

Local Close Scope Z_scope.

(* --- the nodes of a well-formed index ----------------------------------- *)

(** The heap holds the header and the towers, and nothing else. *)
Lemma wf_heap_dom (s : state) L p :
  wf s L → is_Some (heap s !! p) → p = header s ∨ p ∈ tptr <$> L.
Proof.
  intros Hwf Hp.
  assert (Hsub : list_to_set (header s :: (tptr <$> L)) ⊆ dom (heap s)).
  { intros a Ha. apply elem_of_list_to_set in Ha. apply elem_of_dom.
    apply elem_of_cons in Ha as [->|Ha].
    - destruct (wf_header _ _ Hwf) as (hn & ? & _). eauto.
    - apply list_elem_of_fmap in Ha as (t & -> & Ht).
      destruct (wf_nodes _ _ Hwf t Ht) as (n & ? & _). eauto. }
  assert (Heq : list_to_set (header s :: (tptr <$> L)) = dom (heap s)).
  { apply set_subseteq_size_eq; [done|].
    rewrite size_dom, size_list_to_set by apply (wf_nodup _ _ Hwf).
    rewrite (wf_size _ _ Hwf). simpl. rewrite length_fmap. lia. }
  apply elem_of_dom in Hp. rewrite <- Heq in Hp.
  apply elem_of_list_to_set in Hp. by apply elem_of_cons in Hp.
Qed.

Lemma wf_key_node (s : state) L p n :
  wf s L → heap s !! p = Some n → is_header n = false →
  ∃ t, t ∈ L ∧ tptr t = p ∧ tkey t = key n ∧ tlev t = topLevel n.
Proof.
  intros Hwf Hp Hh.
  destruct (wf_heap_dom s L p Hwf) as [->|Hin]; [eauto|..].
  - destruct (wf_header _ _ Hwf) as (hn & ? & ? & _). congruence.
  - apply list_elem_of_fmap in Hin as (t & -> & Ht).
    destruct (wf_nodes _ _ Hwf t Ht) as (n' & ? & _ & ? & ? & _).
    exists t. repeat split; congruence.
Qed.

Local Abbreviation sorted :=
  (StronglySorted (λ a b : tower, Value_lt (tkey a) (tkey b) = true)).

Lemma sorted_key_inj (L : list tower) t t' :
  sorted L → t ∈ L → t' ∈ L → tkey t = tkey t' → t = t'.
Proof.
  induction 1 as [|a L HL IH Ha]; intros Ht Ht' E.
  - by apply elem_of_nil in Ht.
  - rewrite Forall_forall in Ha.
    apply elem_of_cons in Ht as [->|Ht];
      apply elem_of_cons in Ht' as [->|Ht']; auto.
    + specialize (Ha t' Ht'). rewrite E, Value_lt_irrefl in Ha. done.
    + specialize (Ha t Ht). rewrite <- E, Value_lt_irrefl in Ha. done.
Qed.

(** Two key nodes with the same key are the same node. *)
Lemma wf_key_unique (s : state) L p p' n n' :
  wf s L → heap s !! p = Some n → heap s !! p' = Some n' →
  is_header n = false → is_header n' = false → key n = key n' → p = p'.
Proof.
  intros Hwf Hp Hp' Hh Hh' E.
  destruct (wf_key_node s L p n Hwf Hp Hh) as (t & Ht & <- & Hk & _).
  destruct (wf_key_node s L p' n' Hwf Hp' Hh') as (t' & Ht' & <- & Hk' & _).
  f_equal. eapply sorted_key_inj; [apply Hwf|done..|congruence].
Qed.

(** The node a search for an existing key arrives at. *)
Lemma split_head_key (L1 L2 : list tower) q t :
  sorted (L1 ++ L2) → split_by (λ k, Value_lt k q) L1 L2 →
  t ∈ L1 ++ L2 → tkey t = q → ∃ L2', L2 = t :: L2'.
Proof.
  intros Hs [H1 H2] Ht E. apply elem_of_app in Ht as [Ht|Ht].
  - rewrite Forall_forall in H1. specialize (H1 t Ht). simpl in H1.
    by rewrite E, Value_lt_irrefl in H1.
  - destruct L2 as [|t0 L2]; [by apply elem_of_nil in Ht|].
    apply elem_of_cons in Ht as [->|Ht]; [eauto|].
    apply StronglySorted_app in Hs as (_ & _ & Hs).
    apply StronglySorted_cons in Hs as [Hs _].
    rewrite Forall_forall in Hs. specialize (Hs t Ht). simpl in Hs.
    apply Forall_cons in H2 as [H2 _]. simpl in H2.
    rewrite E in Hs. congruence.
Qed.

(* --- owner counts as a view of the heap ---------------------------------- *)

Lemma owners_lookup (s : state) p h k c :
  owners s !! p = Some (h, k, c) ↔
  ∃ n, heap s !! p = Some n ∧ is_header n = h ∧ key n = k ∧
       ownerCount n = c.
Proof.
  unfold owners. rewrite lookup_fmap. split.
  - destruct (heap s !! p) as [n|]; [|done]. intros [= <- <- <-]. eauto.
  - intros (n & -> & <- & <- & <-). done.
Qed.

Lemma persist_refl O : persist O O.
Proof. intros p k n ?. eauto. Qed.

Lemma persist_trans O1 O2 O3 : persist O1 O2 → persist O2 O3 → persist O1 O3.
Proof.
  intros H12 H23 p k n Hp. destruct (H12 p k n Hp) as [n' Hp'].
  eapply H23, Hp'.
Qed.

Lemma wf_unique_keys (s : state) L : wf s L → unique_keys (owners s).
Proof.
  intros Hwf p p' k n n' Hp Hp'.
  apply owners_lookup in Hp as (nd & Hnd & Hh & Hk & _).
  apply owners_lookup in Hp' as (nd' & Hnd' & Hh' & Hk' & _).
  eapply wf_key_unique; eauto. congruence.
Qed.

Lemma count_ok_add δ (O : view) c x v n d :
  count_ok δ O c → unique_keys O → O !! x = Some (false, v, n) →
  count_ok (λ k, δ k + if decide (k = v) then d else 0)%Z
    (<[x := (false, v, (n + d)%Z)]> O) c.
Proof.
  intros Hc Hu Hx p k m Hp. destruct (decide (p = x)) as [->|Hne].
  - rewrite lookup_insert_eq in Hp. injection Hp as <- <-.
    rewrite decide_True by done. rewrite (Hc x v n Hx). lia.
  - rewrite lookup_insert_ne in Hp by done.
    destruct (decide (k = v)) as [->|]; [|rewrite (Hc p k m Hp); lia].
    destruct Hne. eapply Hu; eauto.
Qed.

Lemma count_ok_new δ (O : view) c x v :
  count_ok δ O c → (incidences v c + δ v = 0)%Z →
  count_ok δ (<[x := (false, v, 0%Z)]> O) c.
Proof.
  intros Hc H0 p k m Hp. destruct (decide (p = x)) as [->|Hne].
  - rewrite lookup_insert_eq in Hp. injection Hp as <- <-. lia.
  - rewrite lookup_insert_ne in Hp by done. eauto.
Qed.

Lemma count_ok_delete δ (O : view) c x :
  count_ok δ O c → count_ok δ (delete x O) c.
Proof.
  intros Hc p k m Hp. apply lookup_delete_Some in Hp as [_ Hp]. eauto.
Qed.

Lemma count_ok_change δ δ' (O : view) c c' :
  count_ok δ O c →
  (∀ k, incidences k c' + δ' k = incidences k c + δ k)%Z →
  count_ok δ' O c'.
Proof. intros Hc He p k n Hp. rewrite He. eauto. Qed.

(* --- x->ownerCount++ and x->ownerCount-- --------------------------------- *)

Lemma wf_same_structure (s s' : state) L :
  same_structure s s' → wf s L → wf s' L.
Proof.
  intros Hsh [Hok Hl]. split.
  - eapply nodes_ok_same_nodes; [|done]. by apply same_structure_nodes.
  - intros i Hi. pose proof Hsh as (_&_&_&_&Hhd&_&_).
    unfold links. rewrite <- Hhd. eapply lseg_frame; [|by apply Hl].
    intros a n _ Ha.
    destruct (same_on_lookup _ _ _ _ _ Hsh Ha) as (n' & ? & Hsk).
    exists n'. injection Hsk as ? ? ? ? ? ?. split; congruence.
Qed.

Lemma ownerCount_add_spec (s s' : state) x d u :
  ownerCount_add x d s = Ok (u, s') →
  ∃ n, heap s !! x = Some n ∧ same_structure s s' ∧
       owners s' =
         <[x := (is_header n, key n, (ownerCount n + d)%Z)]> (owners s).
Proof.
  intros Hrun. unfold ownerCount_add in Hrun.
  msplit Hrun as n s1 Hn. apply node_at_inv in Hn as [-> Hn].
  exists n. split; [done|].
  split; [by eapply set_ownerCount_same_structure|].
  revert Hrun. cbv [set_ownerCount bind node_at get ret store_node put].
  rewrite Hn. intros E. injection E as _ <-.
  unfold owners. simpl. by rewrite fmap_insert.
Qed.

(** insert(const Value&) seen through the owner view: the node for [v]
    is found or made, and a node that is made has no owners yet. *)
Lemma insert_value_owners (s s2 : state) L v x :
  wf s L → insert_value v s = Ok (x, s2) →
  (∃ L2, wf s2 L2) ∧
  container s2 = container s ∧ container_next s2 = container_next s ∧
  (∃ n, owners s2 !! x = Some (false, v, n)) ∧
  persist (owners s) (owners s2) ∧
  (∀ p k n, owners s2 !! p = Some (false, k, n) →
            (∃ n', owners s !! p = Some (false, k, n')) ∨ k = v) ∧
  (∀ δ c, count_ok δ (owners s) c →
          ((∀ p n, owners s !! p ≠ Some (false, v, n)) →
           (incidences v c + δ v = 0)%Z) →
          count_ok δ (owners s2) c).
Proof.
  intros Hwf Hins.
  apply (insert_value_spec s s2 L) in Hins as (Hc & Hcn & Hd & Hcase);
    [|done].
  repeat (split; [congruence|]).
  destruct Hcase as [[-> (t & Ht & Hp & Hk)]
                    |(L1 & L2 & nl & -> & Hne & Hwf2 & Ho & Hfresh)].
  - split; [eauto|]. split; [done|]. split; [done|].
    destruct (wf_nodes _ _ Hwf t Ht) as (n & Hn & Hh & Hk' & _).
    rewrite Hp in Hn.
    split; [exists (ownerCount n); apply owners_lookup; exists n;
            repeat split; congruence|].
    split; [apply persist_refl|]. split; [eauto|]. auto.
  - split; [eauto|]. split; [done|]. split; [done|].
    destruct (wf_nodes _ _ Hwf2 (x, v, nl)) as (n & Hn & Hh & Hk & _);
      [set_solver|].
    unfold tptr, tkey in Hn, Hk. simpl in Hn, Hk.
    split; [exists (ownerCount n); apply owners_lookup; eauto|].
    assert (Hox : owners s !! x = None).
    { unfold owners. by rewrite lookup_fmap, Hfresh. }
    fold (owners s2) (owners s) in Ho.
    split; [|split].
    + intros p k m Hp. rewrite Ho.
      destruct (decide (p = x)) as [->|]; [congruence|].
      rewrite lookup_insert_ne by done. eauto.
    + intros p k m Hp. rewrite Ho in Hp.
      destruct (decide (p = x)) as [->|].
      * rewrite lookup_insert_eq in Hp. injection Hp as <- <-. by right.
      * rewrite lookup_insert_ne in Hp by done. left. eauto.
    + intros δ c Hco Hz. rewrite Ho. apply count_ok_new; [done|].
      apply Hz. intros p m Hp.
      apply owners_lookup in Hp as (nd & Hnd & Hh' & Hk' & _).
      destruct (wf_key_node s (L1 ++ L2) p nd Hwf Hnd Hh')
        as (t & Ht & _ & Hkt & _).
      apply (Hne t Ht). rewrite <- Hk', <- Hkt. done.
Qed.

(** x->ownerCount += d seen through the owner view. *)
Lemma ownerCount_add_owners (s s' : state) L x d u v n :
  wf s L → owners s !! x = Some (false, v, n) →
  ownerCount_add x d s = Ok (u, s') →
  wf s' L ∧ container s' = container s ∧
  container_next s' = container_next s ∧
  owners s' = <[x := (false, v, (n + d)%Z)]> (owners s).
Proof.
  intros Hwf Hx Hadd.
  apply ownerCount_add_spec in Hadd as (nx & Hnx & Hss & Ho).
  pose proof Hss as (_ & Hc & Hcn & _).
  apply owners_lookup in Hx as (nx' & Hnx' & Hh & Hk & Hn).
  assert (nx' = nx) as -> by congruence.
  split; [by eapply wf_same_structure|]. repeat (split; [congruence|]).
  rewrite Ho. congruence.
Qed.

(* --- the invariant of the index ------------------------------------------- *)

Lemma container_new_inv (s s' : state) I h :
  container_new I s = Ok (h, s') →
  h = container_next s ∧ container s' = <[h := I]> (container s) ∧
  container_next s' = S h ∧ heap s' = heap s ∧ header s' = header s ∧
  heap_next s' = heap_next s ∧ maxLevel s' = maxLevel s.
Proof. cbv [container_new bind get put ret]. intros [= <- <-]. done. Qed.

Lemma deref_inv (s s' : state) h I :
  deref h s = Ok (I, s') → s' = s ∧ container s !! h = Some I.
Proof.
  cbv [deref bind get lift load]. destruct (container s !! h); intros [=].
  by subst.
Qed.

Lemma Inv_empty r : Inv (empty_index r).
Proof.
  split.
  - exists []. split.
    + split; simpl.
      * exists (new_header MAX_FORWARD). rewrite lookup_singleton_eq.
        repeat split; simpl; by rewrite length_replicate.
      * apply NoDup_singleton.
      * by rewrite map_size_singleton.
      * intros t Ht. by apply elem_of_nil in Ht.
      * constructor.
      * unfold MAX_FORWARD. lia.
      * intros p [n Hp]. apply lookup_singleton_Some in Hp as [<- _]. lia.
    + intros i Hi. unfold links. rewrite chain_nil.
      cbn [empty_index heap header lseg]. split; [done|].
      exists (new_header MAX_FORWARD), None. rewrite lookup_singleton_eq.
      split; [done|]. split; [|done]. unfold new_header. cbn [forward].
      apply lookup_replicate_2. lia.
  - intros p k n Hp. apply owners_lookup in Hp as (nd & Hnd & Hh & _).
    simpl in Hnd. apply lookup_singleton_Some in Hnd as [_ <-]. done.
  - intros p k n Hp. apply owners_lookup in Hp as (nd & Hnd & Hh & _).
    simpl in Hnd. apply lookup_singleton_Some in Hnd as [_ <-]. done.
  - intros h I Hh. simpl in Hh. by rewrite lookup_empty in Hh.
  - intros h [I Hh]. simpl in Hh. by rewrite lookup_empty in Hh.
Qed.

(** insert(I) keeps the invariant and stores I under a new handle. *)
Lemma insert_Inv (s s' : state) I u :
  Inv s → insert I s = Ok (u, s') →
  Inv s' ∧ container s !! container_next s = None ∧
  container s' = <[container_next s := I]> (container s).
Proof.
  intros [[L Hwf] Hcount Hpos Hcov Hfresh] Hrun. unfold insert in Hrun.
  msplit Hrun as h s1 Hnew.
  apply container_new_inv in Hnew as (-> & Hc1 & Hcn1 & Hh1 & Hd1 & Hn1 & Hm1).
  assert (Hnone : container s !! container_next s = None).
  { destruct (container s !! container_next s) eqn:E; [|done].
    pose proof (Hfresh (container_next s) ltac:(eauto)). lia. }
  assert (Hwf1 : wf s1 L).
  { eapply wf_ext; [done..|lia| |done]. rewrite Hm1. apply Hwf. }
  assert (Ho1 : owners s1 = owners s) by (unfold owners; by rewrite Hh1).
  set (h := container_next s) in *.
  set (δ0 := λ k, (- endpoints k I)%Z).
  assert (Hcount1 : count_ok δ0 (owners s1) (container s1)).
  { rewrite Ho1, Hc1. eapply count_ok_change; [exact Hcount|].
    intros k. unfold δ0. rewrite incidences_insert by done. lia. }
  assert (Habsent : ∀ O v, persist (owners s) O →
            (∀ p n, O !! p ≠ Some (false, v, n)) →
            incidences v (container s) = 0%Z).
  { intros O v Hper Hno. pose proof (incidences_nonneg v (container s)).
    destruct (decide (0 < incidences v (container s))%Z) as [Hp|]; [|lia].
    apply incidences_pos in Hp as (h' & I' & Hh' & HI').
    destruct (Hcov h' I' Hh') as [(p & n & Hp) (p' & n' & Hp')].
    destruct HI' as [<-|<-].
    - destruct (Hper _ _ _ Hp) as [m Hm]. by destruct (Hno p m).
    - destruct (Hper _ _ _ Hp') as [m Hm]. by destruct (Hno p' m). }
  unfold insert_handle in Hrun.
  msplit Hrun as Iv s1' Hderef.
  apply deref_inv in Hderef as [-> HIv].
  rewrite Hc1, lookup_insert_eq in HIv. injection HIv as <-.
  msplit Hrun as l s2 Hl.
  apply (insert_value_owners s1 s2 L) in Hl
    as ([L2 Hwf2] & Hc2 & Hcn2 & [nl Hol] & Hper2 & Hold2 & Hcount2); [|done].
  msplit Hrun as Iv s2' Hderef.
  apply deref_inv in Hderef as [-> HIv].
  rewrite Hc2, Hc1, lookup_insert_eq in HIv. injection HIv as <-.
  msplit Hrun as r s3 Hr.
  apply (insert_value_owners s2 s3 L2) in Hr
    as ([L3 Hwf3] & Hc3 & Hcn3 & [nr Hor] & Hper3 & Hold3 & Hcount3); [|done].
  msplit Hrun as [] s4 Hadd1.
  destruct (Hper3 _ _ _ Hol) as [nl' Hol3].
  apply (ownerCount_add_owners s3 s4 L3 l 1 _ (inf I) nl') in Hadd1
    as (Hwf4 & Hc4 & Hcn4 & Ho4); [|done..].
  msplit Hrun as [] s5 Hadd2.
  assert (∃ nr', owners s4 !! r = Some (false, sup I, nr')) as [nr' Hor4].
  { rewrite Ho4. destruct (decide (r = l)) as [->|].
    - rewrite lookup_insert_eq. rewrite Hor in Hol3.
      injection Hol3 as -> _. eauto.
    - rewrite lookup_insert_ne by done. eauto. }
  apply (ownerCount_add_owners s4 s5 L3 r 1 _ (sup I) nr') in Hadd2
    as (Hwf5 & Hc5 & Hcn5 & Ho5); [|done..].
  pose proof Hrun as Hpm. apply placeMarkers_same_shape in Hpm.
  pose proof Hpm as (_ & Hc6 & Hcn6 & _).
  pose proof (same_shape_owners _ _ Hpm) as Ho6. fold (owners s5) (owners s') in Ho6.
  assert (Hcs' : container s' = <[h := I]> (container s)) by congruence.
  assert (Hfinal : count_ok (λ _, 0%Z) (owners s') (container s')).
  { rewrite <- Ho6, <- Hc6, Hc5, Hc4, Hc3, Hc2.
    assert (H2 : count_ok δ0 (owners s2) (container s1)).
    { apply Hcount2; [done|]. intros Hno. unfold δ0.
      rewrite Hc1, incidences_insert by done.
      rewrite (Habsent (owners s1) (inf I)); [lia| |done].
      rewrite Ho1. apply persist_refl. }
    assert (H3 : count_ok δ0 (owners s3) (container s1)).
    { apply Hcount3; [done|]. intros Hno. unfold δ0.
      rewrite Hc1, incidences_insert by done.
      rewrite (Habsent (owners s2) (sup I)); [lia| |done].
      by rewrite <- Ho1. }
    pose proof (count_ok_add _ _ _ l (inf I) nl' 1 H3
                  (wf_unique_keys _ _ Hwf3) Hol3) as H4.
    rewrite <- Ho4 in H4.
    pose proof (count_ok_add _ _ _ r (sup I) nr' 1 H4
                  (wf_unique_keys _ _ Hwf4) Hor4) as H5.
    rewrite <- Ho5 in H5.
    eapply count_ok_change; [exact H5|]. intros k. unfold δ0, endpoints.
    simpl. repeat destruct (decide _); try congruence; lia. }
  assert (Hper5 : persist (owners s) (owners s')).
  { rewrite <- Ho6, <- Ho1.
    eapply persist_trans; [exact Hper2|].
    eapply persist_trans; [exact Hper3|].
    intros p k n Hp. rewrite Ho5, Ho4.
    destruct (decide (p = r)) as [->|].
    { rewrite lookup_insert_eq. rewrite Hor in Hp. injection Hp as <- _.
      eauto. }
    rewrite lookup_insert_ne by done.
    destruct (decide (p = l)) as [->|].
    { rewrite lookup_insert_eq. rewrite Hol3 in Hp. injection Hp as <- _.
      eauto. }
    rewrite lookup_insert_ne by done. eauto. }
  assert (Hold5 : ∀ p k n, owners s' !! p = Some (false, k, n) →
            (∃ n', owners s !! p = Some (false, k, n')) ∨
            k = inf I ∨ k = sup I).
  { intros p k n Hp. rewrite <- Ho6, Ho5 in Hp.
    destruct (decide (p = r)) as [->|].
    { rewrite lookup_insert_eq in Hp. injection Hp as <- _. auto. }
    rewrite lookup_insert_ne in Hp by done. rewrite Ho4 in Hp.
    destruct (decide (p = l)) as [->|].
    { rewrite lookup_insert_eq in Hp. injection Hp as <- _. auto. }
    rewrite lookup_insert_ne in Hp by done.
    destruct (Hold3 _ _ _ Hp) as [[n' Hp']| ->]; [|auto].
    destruct (Hold2 _ _ _ Hp') as [[n'' Hp'']| ->]; [|auto].
    left. rewrite <- Ho1. eauto. }
  split; [|done].
  split.
  - exists L3. by eapply wf_same_shape.
  - done.
  - intros p k n Hp. rewrite (Hfinal p k n Hp), Hcs'.
    rewrite incidences_insert by done.
    pose proof (endpoints_nonneg k I).
    destruct (Hold5 p k n Hp) as [[n' Hp']|Hk].
    + pose proof (Hpos p k n' Hp'). rewrite (Hcount p k n' Hp') in *. lia.
    + assert (0 < endpoints k I)%Z
        by (apply endpoints_pos; destruct Hk; auto).
      pose proof (incidences_nonneg k (container s)). lia.
  - intros h' I' Hh'. rewrite Hcs' in Hh'.
    destruct (decide (h' = h)) as [->|].
    + rewrite lookup_insert_eq in Hh'. injection Hh' as <-.
      rewrite <- Ho6, Ho5. split.
      * exists l. destruct (decide (l = r)) as [->|].
        -- rewrite lookup_insert_eq.
           rewrite Ho4, lookup_insert_eq in Hor4. injection Hor4 as -> _.
           eauto.
        -- rewrite lookup_insert_ne by done.
           rewrite Ho4, lookup_insert_eq. eauto.
      * exists r. rewrite lookup_insert_eq. eauto.
    + rewrite lookup_insert_ne in Hh' by done.
      destruct (Hcov h' I' Hh') as [(p & c & Hp) (p' & c' & Hp')].
      destruct (Hper5 _ _ _ Hp) as [m Hm].
      destruct (Hper5 _ _ _ Hp') as [m' Hm']. eauto 10.
  - intros h' [I' Hh']. rewrite Hcs' in Hh'.
    assert (container_next s' = S h) as -> by congruence.
    destruct (decide (h' = h)) as [->|]; [lia|].
    rewrite lookup_insert_ne in Hh' by done.
    pose proof (Hfresh h' ltac:(eauto)). lia.
Qed.

(* --- removal ---------------------------------------------------------------- *)

(** removeMarkers returns a live handle of an interval equal to I. *)
Lemma removeMarkers_result (s s' : state) l Iv ih :
  removeMarkers l Iv s = Ok (ih, s') →
  same_shape s s' ∧ container s !! ih = Some Iv.
Proof.
  intros Hrun. pose proof (removeMarkers_same_shape _ _ _ _ _ Hrun) as Hsh.
  split; [done|]. pose proof Hsh as (_ & -> & _).
  unfold removeMarkers in Hrun.
  msplit Hrun as xk s1 H1. msplit Hrun as res s2 H2.
  msplit Hrun as xir s3 H3. destruct xir as [[x i] res'].
  msplit Hrun as res2 s4 H4. msplit Hrun as r s5 H5.
  msplit Hrun as J s6 H6.
  apply deref_inv in H6 as [-> H6].
  destruct (bool_decide (J = Iv)) eqn:E; [|discriminate].
  apply bool_decide_eq_true in E as ->. injection Hrun as <- <-.
  destruct res2; cbv [nonnull ret throw] in H5; [|discriminate].
  injection H5 as <- <-. done.
Qed.

Lemma container_release_inv (s s' : state) ih u :
  container_release ih s = Ok (u, s') →
  is_Some (container s !! ih) ∧ container s' = delete ih (container s) ∧
  container_next s' = container_next s ∧ heap s' = heap s ∧
  header s' = header s ∧ heap_next s' = heap_next s ∧
  maxLevel s' = maxLevel s.
Proof.
  unfold container_release. intros Hrun.
  msplit Hrun as J s1 Hd. apply deref_inv in Hd as [-> Hd].
  cbv [bind get put] in Hrun. injection Hrun as _ <-. eauto 10.
Qed.

Lemma count_ok_drop δ (O : view) c x v n :
  count_ok δ O c → unique_keys O → O !! x = Some (false, v, n) →
  count_ok (λ k, δ k + if decide (k = v) then -1 else 0)%Z (drop O x v n) c.
Proof.
  intros Hc Hu Hx. unfold drop. destruct (decide (n - 1 = 0)%Z).
  - intros p k m Hp. apply lookup_delete_Some in Hp as [Hne Hp].
    destruct (decide (k = v)) as [->|]; [|rewrite (Hc p k m Hp); lia].
    destruct Hne. eapply Hu; eauto.
  - by apply (count_ok_add δ O c x v n (-1)).
Qed.

Lemma persist_drop δ (O : view) c x v n p k m :
  count_ok δ O c → unique_keys O → O !! x = Some (false, v, n) →
  O !! p = Some (false, k, m) →
  (incidences k c + δ k + (if decide (k = v) then -1 else 0) ≠ 0)%Z →
  ∃ m', drop O x v n !! p = Some (false, k, m').
Proof.
  intros Hc Hu Hx Hp Hnz. unfold drop.
  destruct (decide (p = x)) as [->|Hne].
  - rewrite Hx in Hp. injection Hp as <- <-.
    rewrite (Hc x v n Hx) in *. rewrite decide_True in Hnz by done.
    rewrite decide_False by lia. rewrite lookup_insert_eq. eauto.
  - destruct (decide (n - 1 = 0)%Z).
    + rewrite lookup_delete_ne by done. eauto.
    + rewrite lookup_insert_ne by done. eauto.
Qed.

Lemma drop_old (O : view) x v n p k m :
  O !! x = Some (false, v, n) →
  drop O x v n !! p = Some (false, k, m) →
  m ≠ 0%Z ∨ (p ≠ x ∧ O !! p = Some (false, k, m)).
Proof.
  intros Hx. unfold drop. destruct (decide (n - 1 = 0)%Z) as [E|E].
  - intros Hp. apply lookup_delete_Some in Hp as [? ?]. auto.
  - destruct (decide (p = x)) as [->|].
    + rewrite lookup_insert_eq. intros [= <- <-]. by left.
    + rewrite lookup_insert_ne by done. auto.
Qed.

(** x->ownerCount--; if (x->ownerCount == 0) remove(x, update). *)
Lemma drop_endpoint_spec (s s3 s3' s4 : state) L1 t0 L2 upd n nd u1 u2 :
  wf s (L1 ++ t0 :: L2) →
  (∀ i, i ≤ tlev t0 →
        upd !! i = Some (Some (pred_at (header s) i L1))) →
  owners s !! tptr t0 = Some (false, tkey t0, n) →
  ownerCount_add (tptr t0) (-1) s = Ok (u1, s3) →
  node_at (tptr t0) s3 = Ok (nd, s3') →
  (if bool_decide (ownerCount nd = 0%Z) then remove_node (tptr t0) upd
   else ret tt) s3' = Ok (u2, s4) →
  (∃ L', wf s4 L') ∧ container s4 = container s ∧
  container_next s4 = container_next s ∧
  owners s4 = drop (owners s) (tptr t0) (tkey t0) n.
Proof.
  intros Hwf Hupd Hx Hadd Hnd Hrm.
  pose proof (ownerCount_add_spec _ _ _ _ _ Hadd)
    as (? & _ & (_ & _ & _ & _ & Hd3 & _) & _).
  apply (ownerCount_add_owners s s3 _ _ _ _ _ _ Hwf Hx) in Hadd
    as (Hwf3 & Hc3 & Hcn3 & Ho3).
  apply node_at_inv in Hnd as [-> Hnd].
  assert (Hcnt : ownerCount nd = (n - 1)%Z).
  { assert (Hl : owners s3 !! tptr t0 = Some (false, tkey t0, (n + -1)%Z))
      by (by rewrite Ho3, lookup_insert_eq).
    apply owners_lookup in Hl as (nd' & Hnd' & _ & _ & Hn').
    assert (nd' = nd) as -> by congruence. lia. }
  unfold drop. rewrite Hcnt in Hrm.
  destruct (decide (n - 1 = 0)%Z) as [E|E].
  - rewrite bool_decide_true in Hrm by done.
    apply (remove_node_spec s3 s4 L1 L2 t0) in Hrm
      as (Hwf4 & Ho4 & Hc4 & Hcn4 & Hd4); [|done|].
    + split; [eauto|]. split; [congruence|]. split; [congruence|].
      fold (owners s4) (owners s3) in Ho4. rewrite Ho4, Ho3.
      by rewrite delete_insert_eq.
    + intros i Hi. rewrite <- Hd3. by apply Hupd.
  - rewrite bool_decide_false in Hrm by done. injection Hrm as _ <-.
    split; [eauto|]. split; [done|]. split; [done|].
    rewrite Ho3. reflexivity.
Qed.

(** A search for the key of a live key node arrives at that node, with the
    update vector holding its predecessors. *)
Lemma search_update_found (s : state) L upd q p n :
  wf s L → maxLevel s < length upd →
  owners s !! p = Some (false, q, n) →
  ∃ L1 t0 L2 upd',
    L = L1 ++ t0 :: L2 ∧ tptr t0 = p ∧ tkey t0 = q ∧
    search_update q upd s = Ok ((Some p, upd'), s) ∧
    length upd' = length upd ∧
    (∀ i, i ≤ tlev t0 →
          upd' !! i = Some (Some (pred_at (header s) i L1))).
Proof.
  intros Hwf Hlen Hp.
  apply owners_lookup in Hp as (nd & Hnd & Hh & Hk & _).
  destruct (wf_key_node s L p nd Hwf Hnd Hh) as (t & Ht & Htp & Htk & _).
  destruct (sorted_split (λ k, Value_lt k q) L (lower_test_lt q)
              (wf_sorted _ _ Hwf)) as (L1 & L2 & -> & Hsp).
  destruct (split_head_key L1 L2 q t (wf_sorted _ _ Hwf) Hsp Ht)
    as [L2' ->]; [congruence|].
  exists L1, t, L2', (fill_update (header s) L1 (maxLevel s + 1) upd).
  split; [done|]. split; [done|]. split; [congruence|].
  split; [|split].
  - rewrite (search_update_spec s L1 (t :: L2') q upd Hwf Hsp Hlen).
    simpl. by rewrite Htp.
  - apply fill_update_length.
  - intros i Hi.
    destruct (wf_nodes _ _ Hwf t Ht) as (? & _ & _ & _ & _ & _ & _ & ?).
    apply fill_update_lt; lia.
Qed.

(** The test left->ownerCount <= 0 on a node whose count is positive. *)
Lemma present_check (s : state) p k n :
  owners s !! p = Some (false, k, n) → (0 < n)%Z →
  (let* nd := node_at p in ret (negb (ownerCount nd <=? 0)%Z)) s
  = Ok (true, s).
Proof.
  intros Hp Hn. apply owners_lookup in Hp as (nd & Hnd & _ & _ & <-).
  rewrite (bind_Ok _ _ _ _ _ (node_at_Ok _ _ _ Hnd)). cbv [ret].
  by rewrite (proj2 (Z.leb_gt _ _) Hn).
Qed.

(** remove(I) keeps the invariant; when it returns true it has released
    one handle of an interval equal to I. *)
Lemma remove_Inv (s s' : state) I b :
  Inv s → remove I s = Ok (b, s') →
  Inv s' ∧
  ((b = false ∧ s' = s ∧
    ∀ p n, heap s !! p = Some n → is_header n = false →
           Value_lt (key n) (inf I) = true) ∨
   (b = true ∧ ∃ ih, container s !! ih = Some I ∧
                     container s' = delete ih (container s))).
Proof.
  intros [[L Hwf] Hcount Hpos Hcov Hfresh] Hrun. unfold remove in Hrun.
  destruct (sorted_split (λ k, Value_lt k (inf I)) L (lower_test_lt _)
              (wf_sorted _ _ Hwf)) as (L1 & L2 & -> & Hsp).
  pose proof (wf_maxLevel _ _ Hwf) as Hmax.
  assert (Hlen : maxLevel s < length new_update)
    by (rewrite new_update_length; lia).
  mrun_in (search_update_spec s L1 L2 (inf I) new_update Hwf Hsp Hlen) Hrun.
  destruct L2 as [|t0 L2]; simpl in Hrun.
  { msimpl_in Hrun. injection Hrun as <- <-.
    split; [split; eauto|]. left. split; [done|]. split; [done|].
    intros p n Hp Hh.
    destruct (wf_key_node s _ p n Hwf Hp Hh) as (t & Ht & _ & <- & _).
    destruct Hsp as [Hlow _]. rewrite app_nil_r in Ht.
    by apply (proj1 (Forall_forall _ _) Hlow). }
  destruct (wf_nodes _ _ Hwf t0 ltac:(set_solver))
    as (n0 & Hn0 & Hh0 & Hk0 & _).
  assert (Ho0 : owners s !! tptr t0 = Some (false, tkey t0, ownerCount n0)).
  { apply owners_lookup. eauto. }
  mrun_in (node_at_Ok s _ _ Hn0) Hrun.
  rewrite (proj2 (Z.leb_gt _ _) (Hpos _ _ _ Ho0)) in Hrun.
  cbn [negb] in Hrun. cbv [nonnull] in Hrun. msimpl_in Hrun.
  set (upd := fill_update (header s) L1 (maxLevel s + 1) new_update) in *.
  assert (Hupd : ∀ i, i ≤ tlev t0 →
            upd !! i = Some (Some (pred_at (header s) i L1))).
  { intros i Hi.
    destruct (wf_nodes _ _ Hwf t0 ltac:(set_solver))
      as (? & _ & _ & _ & _ & _ & _ & ?).
    apply fill_update_lt; lia. }
  assert (Hupdlen : length upd = MAX_FORWARD).
  { unfold upd. by rewrite fill_update_length, new_update_length. }
  msplit Hrun as ih s1 Hrm.
  apply removeMarkers_result in Hrm as [Hsh Hih].
  pose proof (wf_same_shape _ _ _ Hsh Hwf) as Hwf1.
  pose proof (same_shape_owners _ _ Hsh) as Ho1.
  fold (owners s) (owners s1) in Ho1.
  pose proof Hsh as (_ & Hc1 & Hcn1 & Hm1 & Hd1 & Hhn1 & _).
  assert (Hkey : tkey t0 = inf I).
  { destruct (Hcov ih I Hih) as [(p & n & Hp) _].
    apply owners_lookup in Hp as (nd & Hnd & Hh & Hk & _).
    destruct (wf_key_node s _ p nd Hwf Hnd Hh) as (t & Ht & _ & Htk & _).
    destruct (split_head_key L1 (t0 :: L2) (inf I) t
                (wf_sorted _ _ Hwf) Hsp Ht) as [L2' E]; [congruence|].
    injection E as -> _. congruence. }
  msplit Hrun as [] s2 Hrel.
  apply container_release_inv in Hrel
    as (_ & Hc2 & Hcn2 & Hh2 & Hd2 & Hhn2 & Hm2).
  assert (Hwf2 : wf s2 (L1 ++ t0 :: L2)).
  { eapply (wf_ext s1); [done..|lia| |done].
    rewrite Hm2. apply (wf_maxLevel _ _ Hwf1). }
  assert (Ho2 : owners s2 = owners s).
  { unfold owners. rewrite Hh2. symmetry. exact Ho1. }
  set (c' := delete ih (container s)).
  assert (Hcs2 : container s2 = c') by (unfold c'; congruence).
  set (δ0 := λ k, endpoints k I).
  assert (Hinc : ∀ k, incidences k (container s)
                      = (incidences k c' + endpoints k I)%Z).
  { intros k. unfold c'. rewrite (incidences_delete k _ ih I Hih). lia. }
  assert (Hcount2 : count_ok δ0 (owners s) c').
  { eapply count_ok_change; [exact Hcount|].
    intros k. unfold δ0. rewrite Hinc. lia. }
  pose proof (wf_unique_keys _ _ Hwf) as Huk.
  msplit Hrun as u1 s3 Hadd. msplit Hrun as nd s3' Hnd.
  msplit Hrun as u2 s4 Hrm2.
  set (nl := ownerCount n0) in *.
  assert (Ho0' : owners s2 !! tptr t0 = Some (false, tkey t0, nl))
    by (by rewrite Ho2).
  destruct (drop_endpoint_spec s2 s3 s3' s4 L1 t0 L2 upd nl nd u1 u2 Hwf2)
    as ([L4 Hwf4] & Hc4 & Hcn4 & Ho4); [|done..|].
  { intros i Hi. rewrite Hd2, <- Hd1. by apply Hupd. }
  rewrite Ho2, Hkey in Ho4. rewrite Hkey in Ho0.
  set (δ1 := λ k, (δ0 k + if decide (k = inf I) then -1 else 0)%Z).
  assert (Hcount4 : count_ok δ1 (owners s4) c').
  { rewrite Ho4. by apply count_ok_drop. }
  destruct (Hcov ih I Hih) as [_ (pr & nr0 & Hpr)].
  destruct (persist_drop δ0 (owners s) c' (tptr t0) (inf I) nl pr (sup I)
              nr0 Hcount2 Huk Ho0 Hpr) as [nr Hr4].
  { pose proof (incidences_nonneg (sup I) c'). unfold δ0, endpoints.
    repeat destruct (decide _); try congruence; lia. }
  rewrite <- Ho4 in Hr4.
  assert (Hnr : (0 < nr)%Z).
  { rewrite (Hcount4 _ _ _ Hr4). unfold δ1, δ0, endpoints.
    pose proof (incidences_nonneg (sup I) c').
    repeat destruct (decide _); try congruence; lia. }
  destruct (search_update_found s4 L4 upd (sup I) pr nr Hwf4)
    as (L1' & t1 & L2' & upd' & -> & Htp1 & Htk1 & Hsearch & Hlen' & Hupd');
    [|done|].
  { rewrite Hupdlen. apply (wf_maxLevel _ _ Hwf4). }
  mrun_in Hsearch Hrun.
  pose proof Hr4 as Hr4'.
  apply owners_lookup in Hr4' as (ndr & Hndr & _ & _ & Hcr).
  mrun_in (node_at_Ok s4 _ _ Hndr) Hrun.
  rewrite Hcr, (proj2 (Z.leb_gt _ _) Hnr) in Hrun.
  cbn [negb] in Hrun. msimpl_in Hrun.
  msplit Hrun as u3 s5 Hadd2. msplit Hrun as nd2 s5' Hnd2.
  msplit Hrun as u4 s6 Hrm3. injection Hrun as <- <-.
  subst pr. rewrite <- Htk1 in Hr4.
  destruct (drop_endpoint_spec s4 s5 s5' s6 L1' t1 L2' upd' nr nd2 u3 u4
              Hwf4 Hupd' Hr4 Hadd2 Hnd2 Hrm3)
    as ([L6 Hwf6] & Hc6 & Hcn6 & Ho6).
  rewrite Htk1 in *.
  pose proof (wf_unique_keys _ _ Hwf4) as Huk4.
  assert (Hcount6 : count_ok (λ _, 0%Z) (owners s6) c').
  { rewrite Ho6. eapply count_ok_change.
    - by apply (count_ok_drop δ1 (owners s4) c').
    - intros k. simpl. unfold δ1, δ0, endpoints.
      repeat destruct (decide _); try congruence; lia. }
  assert (Hcs6 : container s6 = c') by congruence.
  split; [|right; split; [done|]; by exists ih].
  split.
  - eauto.
  - by rewrite Hcs6.
  - intros p k m Hp.
    pose proof (Hcount6 p k m Hp) as Hm. cbv beta in Hm.
    pose proof (incidences_nonneg k c').
    rewrite Ho6 in Hp.
    apply (drop_old _ _ _ _ _ _ _ Hr4) in Hp as [?|[_ Hp]]; [lia|].
    rewrite Ho4 in Hp.
    apply (drop_old _ _ _ _ _ _ _ Ho0) in Hp as [?|[_ Hp]]; [lia|].
    exact (Hpos _ _ _ Hp).
  - intros h' I' Hh'. rewrite Hcs6 in Hh'.
    assert (Hkeep : ∀ k p m, owners s !! p = Some (false, k, m) →
              (0 < incidences k c')%Z →
              ∃ p m', owners s6 !! p = Some (false, k, m')).
    { intros k p m Hp Hk.
      destruct (persist_drop δ0 (owners s) c' (tptr t0) (inf I) nl p k m
                  Hcount2 Huk Ho0 Hp) as [m4 Hp4].
      { unfold δ0, endpoints.
        repeat destruct (decide _); try congruence; lia. }
      rewrite <- Ho4 in Hp4.
      destruct (persist_drop δ1 (owners s4) c' (tptr t1) (sup I) nr p k m4
                  Hcount4 Huk4 Hr4 Hp4) as [m6 Hp6].
      { unfold δ1, δ0, endpoints.
        repeat destruct (decide _); try congruence; lia. }
      rewrite <- Ho6 in Hp6. eauto. }
    assert (Hin : ∀ k, inf I' = k ∨ sup I' = k →
                       (0 < incidences k c')%Z).
    { intros k Hk. apply incidences_pos. eauto. }
    apply lookup_delete_Some in Hh' as [Hne Hh'].
    destruct (Hcov h' I' Hh') as [(p & m & Hp) (p' & m' & Hp')].
    split; [eapply Hkeep; [exact Hp|] | eapply Hkeep; [exact Hp'|]];
      apply Hin; auto.
  - intros h' [I' Hh']. rewrite Hcs6 in Hh'.
    apply lookup_delete_Some in Hh' as [_ Hh'].
    assert (container_next s6 = container_next s) as -> by congruence.
    apply Hfresh; eauto.
Qed.

End Owners.

(* ====================================================================== *)
(*  The states of the index                                               *)
(* ====================================================================== *)

Section Reachable.

Context {Value Interval : Type} `{!IntervalType Value Interval}.
Context `{!ValueOrder Value Interval}.

Local Abbreviation state := (Interval_skip_list Value Interval).
Local Abbreviation node := (IntervalSLnode Value).
Local Abbreviation lseg := (lseg (Value:=Value)).
Local Abbreviation chain := (chain (Value:=Value)).
Local Abbreviation positive := (positive (Value:=Value)).
Local Abbreviation tptr := (tptr (Value:=Value)).
Local Abbreviation tkey := (tkey (Value:=Value)).
Local Abbreviation wf := (wf (Value:=Value) (Interval:=Interval)).
Local Abbreviation owners := (owners (Value:=Value) (Interval:=Interval)).
Local Abbreviation Inv := (Inv (Value:=Value) (Interval:=Interval)).
Local Abbreviation reachable := (reachable (Value:=Value) (Interval:=Interval)).
Local Abbreviation history := (history (Value:=Value) (Interval:=Interval)).
Local Abbreviation incidences := (incidences (Value:=Value) (Interval:=Interval)).

Lemma reachable_Inv (s : state) : reachable s → Inv s.
Proof.
  induction 1 as [r|s I s' _ IH Hrun|s I b s' _ IH Hrun].
  - apply Inv_empty.
  - by destruct (insert_Inv s s' I tt IH Hrun).
  - by destruct (remove_Inv s s' I b IH Hrun).
Qed.

(** Every node of a level list has a successor field at that level, which
    is the end of the list or the next node of it. *)
Lemma lseg_next (H : gmap ptr node) i p c q a :
  lseg H i p c q → a ∈ c →
  ∃ n f, H !! a = Some n ∧ forward n !! i = Some f ∧
         (f = q ∨ ∃ b, f = Some b ∧ b ∈ c).
Proof.
  revert p. induction c as [|a0 c IH]; intros p Hl Ha.
  - by apply elem_of_nil in Ha.
  - destruct Hl as (-> & n & f & Hn & Hf & Hl).
    apply elem_of_cons in Ha as [->|Ha].
    + exists n, f. split; [done|]. split; [done|].
      destruct c as [|b c]; simpl in Hl; [by left|].
      destruct Hl as [-> _]. right. exists b. split; [done|]. set_solver.
    + destruct (IH _ Hl Ha) as (n' & f' & ? & ? & [->|(b & -> & ?)]).
      * exists n', q. auto.
      * exists n', (Some b). split; [done|]. split; [done|]. right.
        exists b. split; [done|]. set_solver.
Qed.

(** No forward pointer of a live node leads to a node that is gone. *)
Lemma wf_forward_live (s : state) L p n i q :
  wf s L → heap s !! p = Some n → forward n !! i = Some (Some q) →
  is_Some (heap s !! q).
Proof.
  intros Hwf Hp Hf.
  assert (Hlive : ∀ b, b ∈ header s :: chain i L → is_Some (heap s !! b)).
  { intros b Hb. apply elem_of_cons in Hb as [->|Hb].
    - destruct (wf_header _ _ Hwf) as (hn & ? & _). eauto.
    - destruct (wf_chain_node s L i b Hwf Hb) as (_ & nb & _ & _ & _ & ? & _).
      eauto. }
  assert (Hin : i ≤ MAX_FORWARD ∧ p ∈ header s :: chain i L).
  { pose proof (lookup_lt_Some _ _ _ Hf) as Hlt.
    destruct (wf_heap_dom s L p Hwf ltac:(eauto)) as [->|Hin].
    - destruct (wf_header _ _ Hwf) as (hn & Hhn & _ & _ & Hlen & _).
      assert (hn = n) as -> by congruence.
      split; [lia|]. set_solver.
    - apply list_elem_of_fmap in Hin as (t & -> & Ht).
      destruct (wf_nodes _ _ Hwf t Ht) as (n' & Hn' & _ & _ & _ & Hlen & _ & Hm).
      assert (n' = n) as -> by congruence.
      pose proof (wf_maxLevel _ _ Hwf).
      split; [lia|]. apply elem_of_cons. right. apply chain_elem.
      exists t. split; [done|]. split; [done|]. lia. }
  destruct Hin as [Hi Hin].
  destruct (lseg_next _ _ _ _ _ _ (wf_links _ _ Hwf i Hi) Hin)
    as (n' & f & Hn' & Hf' & Hcase).
  assert (n' = n) as -> by congruence.
  rewrite Hf in Hf'. injection Hf' as <-.
  destruct Hcase as [?|(b & [= <-] & Hb)]; [done|]. by apply Hlive.
Qed.

Local Open Scope Z_scope.

(** C7 (ownership accounting).  In every state that insert and remove lead
    to from the empty index: a non-header node with key v exists exactly
    when v has at least one end point incidence among the stored intervals;
    the ownerCount of every non-header node is the number of end point
    incidences of its key, and is positive; and no forward pointer of a
    live node, at any level, leads to a node that has been taken out. *)
Theorem owner_count_accounting (s : state) :
  reachable s →
  (∀ v, (∃ p n, heap s !! p = Some n ∧ is_header n = false ∧ key n = v)
        ↔ 0 < incidences v (container s)) ∧
  (∀ p n, heap s !! p = Some n → is_header n = false →
          ownerCount n = incidences (key n) (container s) ∧
          0 < ownerCount n) ∧
  (∀ p n i q, heap s !! p = Some n → forward n !! i = Some (Some q) →
              is_Some (heap s !! q)).
Proof.
  intros Hr. destruct (reachable_Inv s Hr) as [[L Hwf] Hcount Hpos Hcov _].
  assert (Hnode : ∀ p n, heap s !! p = Some n → is_header n = false →
            ownerCount n = incidences (key n) (container s) ∧
            0 < ownerCount n).
  { intros p n Hp Hh.
    assert (Ho : owners s !! p = Some (false, key n, ownerCount n)).
    { apply owners_lookup. eauto. }
    split; [|by eapply Hpos].
    rewrite (Hcount _ _ _ Ho). lia. }
  split; [|split; [done|]].
  - intros v. split.
    + intros (p & n & Hp & Hh & <-).
      destruct (Hnode p n Hp Hh). lia.
    + intros Hv. apply incidences_pos in Hv as (h & I & HI & Hv).
      destruct (Hcov h I HI) as [(p & c & Hp) (p' & c' & Hp')].
      destruct Hv as [<-|<-].
      * apply owners_lookup in Hp as (n & ? & ? & ? & _). eauto.
      * apply owners_lookup in Hp' as (n & ? & ? & ? & _). eauto.
  - intros p n i q. by apply (wf_forward_live s L).
Qed.

Local Close Scope Z_scope.

Lemma history_reachable S T (s : state) : history S T s → reachable s.
Proof.
  induction 1; [apply reach_empty|eapply reach_insert|eapply reach_remove];
    eauto.
Qed.

Lemma insert_size (s s' : state) I u :
  Inv s → insert I s = Ok (u, s') → size_of s' = S (size_of s).
Proof.
  intros HI Hrun. destruct (insert_Inv s s' I u HI Hrun) as (_ & Hn & Hc).
  unfold size_of. rewrite Hc. by apply map_size_insert_None.
Qed.

Lemma remove_size (s s' : state) I :
  Inv s → remove I s = Ok (true, s') → size_of s = S (size_of s').
Proof.
  intros HI Hrun.
  destruct (remove_Inv s s' I true HI Hrun) as (_ & [[? _]|(_ & ih & Hi & Hc)]);
    [done|].
  unfold size_of. rewrite Hc. symmetry.
  rewrite map_size_delete_Some by eauto.
  assert (size (container s) ≠ 0); [|lia].
  apply map_size_ne_0_lookup. eauto.
Qed.

(** C8 (size law).  After the intervals of S have been inserted and those
    of T removed, each removal returning true, size() is |S| - |T|, and T
    is no longer than S; from there one more insert makes size() one
    larger, whatever the interval, and one more removal that returns true
    makes it one smaller. *)
Theorem size_law S T (s : state) :
  history S T s →
  size_of s = length S - length T ∧ length T ≤ length S ∧
  (∀ I s', insert I s = Ok (tt, s') → size_of s' = size_of s + 1) ∧
  (∀ I s', remove I s = Ok (true, s') → size_of s' = size_of s - 1 ∧
                                         0 < size_of s).
Proof.
  intros Hh.
  assert (Hsz : size_of s + length T = length S).
  { induction Hh as [r|S T s I s' Hh IH Hrun|S T s I s' Hh IH Hrun].
    - done.
    - pose proof (reachable_Inv _ (history_reachable _ _ _ Hh)) as HI.
      rewrite (insert_size _ _ _ _ HI Hrun). simpl. lia.
    - pose proof (reachable_Inv _ (history_reachable _ _ _ Hh)) as HI.
      pose proof (remove_size _ _ _ HI Hrun). simpl. lia. }
  pose proof (reachable_Inv _ (history_reachable _ _ _ Hh)) as HI.
  split; [lia|]. split; [lia|]. split.
  - intros I s' Hrun. rewrite (insert_size _ _ _ _ HI Hrun). lia.
  - intros I s' Hrun. pose proof (remove_size _ _ _ HI Hrun). lia.
Qed.

(** C10 (read-only operations).  A call of find_intervals, is_contained or
    the public search that returns leaves the index as it was: the state
    after is the state before, with its nodes, forward pointers, marker
    lists, owner counts, maxLevel and stored intervals. *)
Theorem queries_leave_index_unchanged (s : state) (q : Value) :
  (∀ out r s', find_intervals q out s = Ok (r, s') → s' = s) ∧
  (∀ b s', is_contained q s = Ok (b, s') → s' = s) ∧
  (∀ x s', search q s = Ok (x, s') → s' = s).
Proof.
  split; [|split].
  - intros out r s' Hrun. symmetry.
    exact (preserves_find_intervals eq q out s r s' Hrun).
  - intros b s' Hrun. symmetry.
    exact (preserves_is_contained eq q s b s' Hrun).
  - intros x s' Hrun. symmetry.
    exact (preserves_search eq q s x s' Hrun).
Qed.


End Reachable.

(* ====================================================================== *)
(*  Intervals of length zero                                              *)
(* ====================================================================== *)

Section ZeroLength.

Context {Value Interval : Type} `{!IntervalType Value Interval}.
Context `{!ValueOrder Value Interval}.

Local Abbreviation state := (Interval_skip_list Value Interval).
Local Abbreviation node := (IntervalSLnode Value).
Local Abbreviation tptr := (tptr (Value:=Value)).
Local Abbreviation wf := (wf (Value:=Value) (Interval:=Interval)).
Local Abbreviation owners := (owners (Value:=Value) (Interval:=Interval)).
Local Abbreviation Inv := (Inv (Value:=Value) (Interval:=Interval)).
Local Abbreviation reachable := (reachable (Value:=Value) (Interval:=Interval)).
Local Abbreviation endpoints := (endpoints (Value:=Value) (Interval:=Interval)).
Local Abbreviation incidences := (incidences (Value:=Value) (Interval:=Interval)).
Local Abbreviation upper_bounded := (upper_bounded (Value:=Value) (Interval:=Interval)).

(** The level 0 successor of a key node is the next key node. *)
Lemma wf_next0 (s : state) L1 t0 L2 :
  wf s (L1 ++ t0 :: L2) →
  ∃ n, heap s !! tptr t0 = Some n ∧
       forward n !! 0 = Some (tptr <$> head L2).
Proof.
  intros Hwf.
  replace (L1 ++ t0 :: L2) with ((L1 ++ [t0]) ++ L2) in Hwf
    by (by rewrite <- app_assoc).
  destruct (wf_pred0_forward s _ _ Hwf) as (n & Hn & Hf).
  rewrite pred_at_snoc, decide_True in Hn by lia. eauto.
Qed.

(** The level 0 edge out of the node of sup(I) is not contained in I. *)
Lemma edge0_not_contained (s : state) L x n I :
  upper_bounded → wf s L →
  heap s !! x = Some n → is_header n = false → key n = sup I →
  edge_contained I x 0 s = Ok (false, s).
Proof.
  intros Hub Hwf Hx Hh Hk.
  destruct (wf_key_node s L x n Hwf Hx Hh) as (t & Ht & Htp & Htk & _).
  apply list_elem_of_split in Ht as (L1 & L2 & ->).
  destruct (wf_next0 s L1 t L2 Hwf) as (n' & Hn' & Hf).
  rewrite Htp in Hn'. assert (n' = n) as -> by congruence.
  unfold edge_contained.
  rewrite (bind_Ok _ _ _ _ _ (get_forward_Ok _ _ _ _ _ Hx Hf)).
  destruct L2 as [|t1 L2]; [done|]. simpl.
  destruct (wf_nodes _ _ Hwf t1 ltac:(set_solver))
    as (n1 & Hn1 & _ & Hk1 & _).
  rewrite (bind_Ok _ _ _ _ _ (get_key_Ok _ _ _ Hx)).
  rewrite (bind_Ok _ _ _ _ _ (get_key_Ok _ _ _ Hn1)).
  cbv [ret]. do 2 f_equal.
  destruct (contains_interval I (key n) (key n1)) eqn:E; [|done].
  apply Hub in E.
  pose proof (wf_sorted _ _ Hwf) as Hs.
  apply StronglySorted_app in Hs as (_ & _ & Hs).
  apply StronglySorted_cons in Hs as [Hs _].
  apply Forall_cons in Hs as [Hs _]. congruence.
Qed.

Lemma deref_Ok (s : state) h I :
  container s !! h = Some I → deref h s = Ok (I, s).
Proof. intros E. cbv [deref bind get lift load]. by rewrite E. Qed.

Lemma fuel_of_S (s : state) : fuel_of s = S (size (heap s)).
Proof. done. Qed.

(** The staircase of an interval whose two end points are one node. *)
Lemma zero_staircase (s : state) L x n I :
  upper_bounded → wf s L →
  heap s !! x = Some n → is_header n = false → key n = sup I →
  (∀ h, container s !! h = Some I →
        place_ascending (fuel_of s) h x 0 s = Ok ((x, 0), s) ∧
        place_descending (fuel_of s) h x (Some x) 0 s = Ok (tt, s)) ∧
  (∀ res, unplace_ascending (fuel_of s) I x 0 res s = Ok ((x, 0, res), s)) ∧
  (∀ res, unplace_descending (fuel_of s) I (Some x) 0 res s = Ok (res, s)).
Proof.
  intros Hub Hwf Hx Hh Hk.
  pose proof (edge0_not_contained s L x n I Hub Hwf Hx Hh Hk) as He.
  rewrite fuel_of_S. split; [|split].
  - intros h Hc. split.
    + simpl. rewrite (bind_Ok _ _ _ _ _ (deref_Ok _ _ _ Hc)).
      by rewrite (bind_Ok _ _ _ _ _ He).
    + simpl. unfold nonnull. rewrite bind_ret.
      do 2 rewrite (bind_Ok _ _ _ _ _ (get_key_Ok _ _ _ Hx)).
      unfold Value_ne. by rewrite bool_decide_true.
  - intros res. simpl. by rewrite (bind_Ok _ _ _ _ _ He).
  - intros res. simpl. unfold nonnull. rewrite bind_ret.
    rewrite (bind_Ok _ _ _ _ _ (get_key_Ok _ _ _ Hx)).
    unfold Value_ne. by rewrite bool_decide_true.
Qed.

(** insert(const Value&) of a key that has its node gives that node. *)
Lemma insert_value_found (s : state) L x n :
  wf s L → heap s !! x = Some n → is_header n = false →
  insert_value (key n) s = Ok (x, s).
Proof.
  intros Hwf Hx Hh.
  assert (Ho : owners s !! x = Some (false, key n, ownerCount n)).
  { apply owners_lookup. eauto. }
  destruct (search_update_found s L new_update (key n) x (ownerCount n) Hwf)
    as (L1 & t0 & L2 & upd' & _ & _ & _ & Hs & _); [|done|].
  { rewrite new_update_length. apply (wf_maxLevel _ _ Hwf). }
  unfold insert_value. rewrite (bind_Ok _ _ _ _ _ Hs). cbv beta iota.
  rewrite bind_bind.
  rewrite (bind_Ok _ _ _ _ _ (get_key_Ok _ _ _ Hx)). rewrite !bind_ret.
  unfold Value_ne. by rewrite bool_decide_true.
Qed.

Lemma endpoints_zero_length (I : Interval) :
  inf I = sup I → endpoints (inf I) I = 2%Z.
Proof.
  intros E. unfold endpoints. rewrite decide_True by done.
  by rewrite decide_True.
Qed.

(** The count of the node of v in a state of the index. *)
Lemma node_count (s : state) v :
  Inv s →
  (∀ p n, heap s !! p = Some n → is_header n = false → key n = v →
          ownerCount n = incidences v (container s)) ∧
  ((∀ p n, heap s !! p = Some n → is_header n = false → key n ≠ v) →
   incidences v (container s) = 0%Z).
Proof.
  intros [_ Hcount _ Hcov _]. split.
  - intros p n Hp Hh <-.
    assert (Ho : owners s !! p = Some (false, key n, ownerCount n)).
    { apply owners_lookup. eauto. }
    rewrite (Hcount _ _ _ Ho). lia.
  - intros Hno. pose proof (incidences_nonneg v (container s)).
    destruct (decide (0 < incidences v (container s))%Z) as [Hp|]; [|lia].
    apply incidences_pos in Hp as (h & I & HI & Hv).
    destruct (Hcov h I HI) as [(p & c & Hp) (p' & c' & Hp')].
    apply owners_lookup in Hp as (n & Hn & Hh & Hk & _).
    apply owners_lookup in Hp' as (n' & Hn' & Hh' & Hk' & _).
    destruct Hv as [<-|<-]; [by destruct (Hno p n)|by destruct (Hno p' n')].
Qed.


End ZeroLength.

(* ====================================================================== *)
(*  The geometry of the levels                                            *)
(* ====================================================================== *)

Section Geometry.

Context {Value Interval : Type} `{!IntervalType Value Interval}.
Context `{!ValueOrder Value Interval}.

Local Abbreviation state := (Interval_skip_list Value Interval).
Local Abbreviation node := (IntervalSLnode Value).
Local Abbreviation tower := (tower Value).
Local Abbreviation chain := (chain (Value:=Value)).
Local Abbreviation nxt := (nxt (Value:=Value)).
Local Abbreviation pred_at := (pred_at (Value:=Value)).
Local Abbreviation tptr := (tptr (Value:=Value)).
Local Abbreviation tkey := (tkey (Value:=Value)).
Local Abbreviation tlev := (tlev (Value:=Value)).
Local Abbreviation wf := (wf (Value:=Value) (Interval:=Interval)).
Local Abbreviation sorted :=
  (StronglySorted (λ a b : tower, Value_lt (tkey a) (tkey b) = true)).
(* --- the order on values -------------------------------------------------- *)

Lemma Value_lt_asym (a b : Value) :
  Value_lt a b = true → Value_lt b a = false.
Proof.
  intros Hab. destruct (Value_lt b a) eqn:Hba; [|done].
  pose proof (Value_lt_trans _ _ _ Hab Hba) as H.
  by rewrite Value_lt_irrefl in H.
Qed.

(** a <= b <= c gives a <= c, with [x <= y] written [Value_lt y x = false]. *)
Lemma Value_le_trans (a b c : Value) :
  Value_lt b a = false → Value_lt c b = false → Value_lt c a = false.
Proof.
  intros Hab Hbc. destruct (Value_lt c a) eqn:Hca; [|done].
  destruct (Value_lt_total b c) as [H|[->|H]]; [|congruence..].
  pose proof (Value_lt_trans _ _ _ H Hca). congruence.
Qed.

Lemma Value_le_refl (a : Value) : Value_lt a a = false.
Proof. apply Value_lt_irrefl. Qed.

Lemma Value_lt_le_trans (a b c : Value) :
  Value_lt a b = true → Value_lt c b = false → Value_lt a c = true.
Proof.
  intros Hab Hbc. destruct (Value_lt_total b c) as [H|[->|H]];
    [by eapply Value_lt_trans|done|congruence].
Qed.

Lemma Value_le_lt_trans (a b c : Value) :
  Value_lt b a = false → Value_lt b c = true → Value_lt a c = true.
Proof.
  intros Hab Hbc. destruct (Value_lt_total a b) as [H|[->|H]];
    [by eapply Value_lt_trans|done|congruence].
Qed.

(* --- the next tower of a level -------------------------------------------- *)

Lemma nxt_cons i (t : tower) L :
  nxt i (t :: L) = if decide (i ≤ tlev t) then Some t else nxt i L.
Proof. unfold nxt. rewrite filter_cons. by destruct (decide _). Qed.

Lemma nxt_nil i : nxt i [] = None.
Proof. done. Qed.

Lemma nxt_app i (L1 L2 : list tower) :
  nxt i (L1 ++ L2) = match nxt i L1 with
                     | Some t => Some t
                     | None => nxt i L2
                     end.
Proof.
  induction L1 as [|t L1 IH]; [done|]. rewrite <- app_comm_cons, !nxt_cons.
  by destruct (decide _).
Qed.

Lemma nxt_None i (L : list tower) :
  nxt i L = None ↔ Forall (λ t, tlev t < i) L.
Proof.
  induction L as [|t L IH]; [by split|]. rewrite nxt_cons, Forall_cons.
  destruct (decide _) as [Hi|Hi].
  - split; [done|]. intros [? _]. lia.
  - rewrite IH. split; [|by intros [_ ?]]. intros ?. split; [lia|done].
Qed.

Lemma nxt_split i (L : list tower) t :
  nxt i L = Some t →
  ∃ La Lb, L = La ++ t :: Lb ∧ Forall (λ t, tlev t < i) La ∧ i ≤ tlev t.
Proof.
  induction L as [|t0 L IH]; [done|]. rewrite nxt_cons.
  destruct (decide _) as [Hi|Hi].
  - intros [= ->]. by exists [], L.
  - intros H. destruct (IH H) as (La & Lb & -> & HLa & Ht).
    exists (t0 :: La), Lb. split; [done|]. split; [|done].
    constructor; [lia|done].
Qed.

Lemma nxt_elem i (L : list tower) t : nxt i L = Some t → t ∈ L ∧ i ≤ tlev t.
Proof.
  intros H. destruct (nxt_split i L t H) as (La & Lb & -> & _ & ?).
  split; [set_solver|done].
Qed.

Lemma chain_head i (L : list tower) : head (chain i L) = tptr <$> nxt i L.
Proof. unfold chain, nxt. by destruct (filter _ L). Qed.

(** A higher level skips towers: its next tower is the next tower of the
    lower level, or lies behind it. *)
Lemma nxt_mono i j (L : list tower) t2 :
  sorted L → i ≤ j → nxt j L = Some t2 →
  ∃ t1, nxt i L = Some t1 ∧
        (t1 = t2 ∨ Value_lt (tkey t1) (tkey t2) = true).
Proof.
  intros Hs Hij. induction Hs as [|t L Hs IH Ht]; [done|].
  rewrite !nxt_cons. destruct (decide (j ≤ tlev t)) as [Hj|Hj].
  - intros [= ->]. rewrite decide_True by lia. eauto.
  - intros H. destruct (decide (i ≤ tlev t)).
    + exists t. split; [done|]. right.
      rewrite Forall_forall in Ht. apply Ht. by apply nxt_elem in H as [? _].
    + by apply IH.
Qed.

Lemma sorted_after (L1 L2 : list tower) t t' :
  sorted (L1 ++ t :: L2) → t' ∈ L2 → Value_lt (tkey t) (tkey t') = true.
Proof.
  intros Hs Ht'. apply StronglySorted_app in Hs as (_ & _ & Hs).
  apply StronglySorted_cons in Hs as [Hs _].
  rewrite Forall_forall in Hs. by apply Hs.
Qed.

Lemma sorted_before (L1 L2 : list tower) t t' :
  sorted (L1 ++ t :: L2) → t' ∈ L1 → Value_lt (tkey t') (tkey t) = true.
Proof.
  intros Hs Ht'. apply StronglySorted_app in Hs as (Hs & _ & _).
  apply Hs; [done|set_solver].
Qed.

(** The towers of a list are told apart by their addresses. *)
Lemma split_unique (L1 L2 L1' L2' : list tower) t t' :
  NoDup (tptr <$> (L1 ++ t :: L2)) →
  L1 ++ t :: L2 = L1' ++ t' :: L2' → tptr t = tptr t' →
  L1 = L1' ∧ t = t' ∧ L2 = L2'.
Proof.
  intros Hnd E Hp.
  assert (Hl : length L1 = length L1').
  { assert (H1 : (tptr <$> (L1 ++ t :: L2)) !! length L1 = Some (tptr t)).
    { rewrite list_lookup_fmap, lookup_app_r, Nat.sub_diag by lia. done. }
    assert (H2 : (tptr <$> (L1 ++ t :: L2)) !! length L1' = Some (tptr t)).
    { rewrite E, list_lookup_fmap, lookup_app_r, Nat.sub_diag by lia.
      simpl. by rewrite Hp. }
    eapply NoDup_lookup; eauto. }
  apply app_inj_1 in E as [-> E]; [|done]. by injection E as -> ->.
Qed.

(** A key node is a tower of the list, at one place. *)
Lemma wf_node_split (s : state) L a n :
  wf s L → heap s !! a = Some n → is_header n = false →
  ∃ L1 t L2, L = L1 ++ t :: L2 ∧ tptr t = a ∧ tkey t = key n ∧
             tlev t = topLevel n.
Proof.
  intros Hwf Ha Hh.
  destruct (wf_key_node s L a n Hwf Ha Hh) as (t & Ht & ? & ? & ?).
  apply list_elem_of_split in Ht as (L1 & L2 & ->). eauto 10.
Qed.

Lemma wf_NoDup_towers (s : state) L : wf s L → NoDup (tptr <$> L).
Proof. intros Hwf. eapply NoDup_cons_1_2, wf_nodup, Hwf. Qed.

Lemma wf_header_not_tower (s : state) L t :
  wf s L → t ∈ L → tptr t ≠ header s.
Proof.
  intros Hwf Ht E. pose proof (wf_nodup _ _ Hwf) as Hnd.
  apply NoDup_cons_1_1 in Hnd. apply Hnd. rewrite <- E.
  apply list_elem_of_fmap. eauto.
Qed.

(** The forward pointer of a key node at a level it reaches leads to the
    next tower of that level. *)
Lemma wf_edge (s : state) L1 t L2 i :
  wf s (L1 ++ t :: L2) → i ≤ tlev t →
  ∃ n, heap s !! tptr t = Some n ∧ is_header n = false ∧
       key n = tkey t ∧ topLevel n = tlev t ∧
       forward n !! i = Some (tptr <$> nxt i L2).
Proof.
  intros Hwf Hi.
  destruct (wf_nodes _ _ Hwf t ltac:(set_solver))
    as (n & Hn & Hh & Hk & Htl & _).
  pose proof (wf_maxLevel _ _ Hwf).
  destruct (wf_nodes _ _ Hwf t ltac:(set_solver))
    as (_ & _ & _ & _ & _ & _ & _ & Hm).
  pose proof (wf_links _ _ Hwf i ltac:(lia)) as Hl.
  rewrite chain_app, chain_cons, decide_True in Hl by done.
  rewrite app_comm_cons in Hl.
  apply lseg_app in Hl as (m & _ & Hl). simpl in Hl.
  destruct Hl as (_ & n' & f & Hn' & Hf & Hl).
  assert (n' = n) as -> by congruence.
  apply lseg_start in Hl. subst f. exists n.
  repeat (split; [done|]). by rewrite Hf, chain_head.
Qed.

Lemma wf_edge_header (s : state) L i :
  wf s L → i ≤ MAX_FORWARD →
  ∃ n, heap s !! header s = Some n ∧ is_header n = true ∧
       forward n !! i = Some (tptr <$> nxt i L).
Proof.
  intros Hwf Hi.
  destruct (wf_header _ _ Hwf) as (n & Hn & Hh & _).
  pose proof (wf_links _ _ Hwf i Hi) as Hl. simpl in Hl.
  destruct Hl as (_ & n' & f & Hn' & Hf & Hl).
  assert (n' = n) as -> by congruence.
  apply lseg_start in Hl. subst f. exists n.
  repeat (split; [done|]). by rewrite Hf, chain_head.
Qed.

(** What update[i] holds after a search: the header, when no tower before
    the key reaches level i, and else the last one that does. *)
Lemma pred_at_split hd i (L1 : list tower) :
  (pred_at hd i L1 = hd ∧ Forall (λ t, tlev t < i) L1) ∨
  (∃ La t Lb, L1 = La ++ t :: Lb ∧ pred_at hd i L1 = tptr t ∧
              i ≤ tlev t ∧ Forall (λ t, tlev t < i) Lb).
Proof.
  induction L1 as [|t L1 IH] using rev_ind.
  - left. by split.
  - rewrite pred_at_snoc. destruct (decide (i ≤ tlev t)) as [Hi|Hi].
    + right. exists L1, t, []. by split.
    + destruct IH as [[E HL]|(La & t0 & Lb & -> & E & Ht & HLb)].
      * left. split; [done|]. apply Forall_app. split; [done|].
        constructor; [lia|done].
      * right. exists La, t0, (Lb ++ [t]). rewrite <- app_assoc.
        split; [done|]. split; [done|]. split; [done|].
        apply Forall_app. split; [done|]. constructor; [lia|done].
Qed.

End Geometry.

(* ====================================================================== *)
(*  Marker lists                                                          *)
(* ====================================================================== *)

Section MarkerLists.

Context {Value Interval : Type} `{!IntervalType Value Interval}.
Context `{!ValueOrder Value Interval}.

Local Abbreviation state := (Interval_skip_list Value Interval).
Local Abbreviation store := (gmap Interval_handle Interval).
Local Abbreviation same_marking := (same_marking (Value:=Value) (Interval:=Interval)).
Local Abbreviation same_structure := (same_structure (Value:=Value) (Interval:=Interval)).
Local Abbreviation marks_within := (marks_within (Value:=Value) (Interval:=Interval)).
Local Abbreviation count_val := (count_val (Value:=Value) (Interval:=Interval)).
(* --- the bag operations --------------------------------------------------- *)

Lemma count_val_nil (c : store) v : count_val c v [] = 0.
Proof. done. Qed.

Lemma count_val_cons (c : store) v h l :
  count_val c v (h :: l) =
    (if decide (c !! h = Some v) then 1 else 0) + count_val c v l.
Proof. unfold count_val. rewrite filter_cons. by destruct (decide _). Qed.

Lemma count_val_app (c : store) v l1 l2 :
  count_val c v (l1 ++ l2) = count_val c v l1 + count_val c v l2.
Proof. unfold count_val. by rewrite filter_app, length_app. Qed.

Lemma count_val_pos (c : store) v h l :
  h ∈ l → c !! h = Some v → 0 < count_val c v l.
Proof.
  intros Hh Hv. induction l as [|h0 l IH]; [by apply elem_of_nil in Hh|].
  rewrite count_val_cons. apply elem_of_cons in Hh as [<-|Hh].
  - rewrite decide_True by done. lia.
  - specialize (IH Hh). lia.
Qed.

Lemma elem_of_IL_copy h (from self : IntervalList) :
  h ∈ IL_copy from self ↔ h ∈ from ∨ h ∈ self.
Proof.
  revert self. induction from as [|x from IH]; intros self; simpl.
  - set_solver.
  - rewrite IH. unfold IL_insert. set_solver.
Qed.

(** remove(I) unlinks one cell of an interval equal to I, when there is
    one, and reads through live cells only. *)
Lemma IL_remove_res_spec (c : store) v l r l' :
  IL_remove_res c v l = Ok (r, l') →
  (∀ h, h ∈ l' → h ∈ l) ∧
  (∀ w, count_val c w l' =
        count_val c w l - (if decide (w = v) then 1 else 0)) ∧
  (∀ h, r = Some h → c !! h = Some v).
Proof.
  revert r l'. induction l as [|h l IH]; intros r l'; simpl.
  - intros [= <- <-]. split; [done|]. split; [|done]. intros w.
    rewrite count_val_nil. lia.
  - unfold load. destruct (c !! h) as [J|] eqn:Hh; simpl; [|done].
    destruct (bool_decide (J = v)) eqn:E.
    + apply bool_decide_eq_true in E as ->. intros [= <- <-].
      split; [set_solver|]. split; [|by intros ? [= <-]].
      intros w. rewrite count_val_cons, Hh.
      destruct (decide (w = v)) as [->|].
      * rewrite decide_True by done. lia.
      * rewrite decide_False by congruence. lia.
    + apply bool_decide_eq_false in E.
      destruct (IL_remove_res c v l) as [[r0 t']| |] eqn:Hr; simpl; [|done..].
      intros [= <- <-]. destruct (IH _ _ eq_refl) as (Hsub & Hcnt & Hres).
      split; [set_solver|]. split; [|done].
      intros w. rewrite !count_val_cons, Hh, Hcnt.
      destruct (decide (w = v)) as [->|]; [|lia].
      rewrite decide_False by congruence. lia.
Qed.

Lemma IL_remove_spec (c : store) v l l' :
  IL_remove c v l = Ok l' →
  (∀ h, h ∈ l' → h ∈ l) ∧
  (∀ w, count_val c w l' =
        count_val c w l - (if decide (w = v) then 1 else 0)).
Proof.
  unfold IL_remove.
  destruct (IL_remove_res c v l) as [[r t']| |] eqn:Hr; simpl; [|done..].
  intros [= <-]. destruct (IL_remove_res_spec _ _ _ _ _ Hr) as (? & ? & _).
  done.
Qed.

(** removeAll(l) takes from self, for every interval, as many cells as l
    has of it. *)
Lemma IL_removeAll_spec (c : store) l self self' :
  IL_removeAll c l self = Ok self' →
  (∀ h, h ∈ self' → h ∈ self) ∧
  (∀ w, count_val c w self' = count_val c w self - count_val c w l).
Proof.
  revert self. induction l as [|x l IH]; intros self; simpl.
  - intros [= <-]. split; [done|]. intros w. rewrite count_val_nil. lia.
  - unfold load. destruct (c !! x) as [J|] eqn:Hx; simpl; [|done].
    destruct (IL_remove c J self) as [self1| |] eqn:Hr; simpl; [|done..].
    intros Hall. destruct (IL_remove_spec _ _ _ _ Hr) as (Hsub1 & Hcnt1).
    destruct (IH _ Hall) as (Hsub & Hcnt).
    split; [auto|]. intros w. rewrite Hcnt, Hcnt1, count_val_cons, Hx.
    destruct (decide (w = J)) as [->|].
    + rewrite decide_True by done. lia.
    + rewrite decide_False by congruence. lia.
Qed.

(** A cell that is left after removeAll(l) holds an interval of which
    self had more cells than l. *)
Lemma IL_removeAll_survivor (c : store) l self self' h v :
  IL_removeAll c l self = Ok self' → h ∈ self' → c !! h = Some v →
  count_val c v l < count_val c v self.
Proof.
  intros Hr Hh Hv. destruct (IL_removeAll_spec _ _ _ _ Hr) as (_ & Hcnt).
  pose proof (count_val_pos c v h self' Hh Hv). rewrite Hcnt in H. lia.
Qed.

(* --- what the marker lists may hold ---------------------------------------- *)

Lemma marks_within_mono okm okm' oke oke' (s : state) :
  (∀ a i h, okm a i h → okm' a i h) → (∀ a h, oke a h → oke' a h) →
  marks_within okm oke s → marks_within okm' oke' s.
Proof.
  intros Hm He Hs a na Ha. destruct (Hs a na Ha) as [H1 H2].
  split; [intros i l h Hl Hh|intros h Hh]; eauto.
Qed.

Lemma marks_within_same_marking okm oke (s s' : state) :
  same_marking s s' → marks_within okm oke s → marks_within okm oke s'.
Proof.
  intros (_ & _ & _ & _ & _ & _ & Hh) Hs a na' Ha.
  assert (Hl : (marking <$> heap s) !! a = Some (marking na')).
  { by rewrite Hh, lookup_fmap, Ha. }
  rewrite lookup_fmap in Hl. destruct (heap s !! a) as [na|] eqn:E; [|done].
  injection Hl as _ _ _ Hmk Heq _ _. destruct (Hs a na E) as [H1 H2].
  rewrite <- Hmk, <- Heq. done.
Qed.

Lemma marks_within_same_structure okm oke (s s' : state) :
  same_structure s s' → marks_within okm oke s → marks_within okm oke s'.
Proof.
  intros (_ & _ & _ & _ & _ & _ & Hh) Hs a na' Ha.
  assert (Hl : (structure <$> heap s) !! a = Some (structure na')).
  { by rewrite Hh, lookup_fmap, Ha. }
  rewrite lookup_fmap in Hl. destruct (heap s !! a) as [na|] eqn:E; [|done].
  injection Hl as _ _ _ Hmk Heq _. destruct (Hs a na E) as [H1 H2].
  rewrite <- Hmk, <- Heq. done.
Qed.

(* --- writing a marker list ------------------------------------------------ *)

Lemma set_markers_inv (s s' : state) x i l u :
  set_markers x i l s = Ok (u, s') →
  ∃ n, heap s !! x = Some n ∧ i < length (markers n) ∧
       container s' = container s ∧
       container_next s' = container_next s ∧
       heap s' = <[x := {| is_header := is_header n; key := key n;
                           forward := forward n;
                           markers := <[i := l]> (markers n);
                           eqMarkers := eqMarkers n;
                           ownerCount := ownerCount n;
                           topLevel := topLevel n |}]> (heap s).
Proof.
  cbv [set_markers bind node_at get ret throw].
  destruct (heap s !! x) as [n|] eqn:Hx; [|done].
  destruct (decide _); [|done].
  cbv [store_node bind get put]. intros [= _ <-]. exists n. done.
Qed.

Lemma set_eqMarkers_inv (s s' : state) x l u :
  set_eqMarkers x l s = Ok (u, s') →
  ∃ n, heap s !! x = Some n ∧
       container s' = container s ∧
       container_next s' = container_next s ∧
       heap s' = <[x := {| is_header := is_header n; key := key n;
                           forward := forward n; markers := markers n;
                           eqMarkers := l;
                           ownerCount := ownerCount n;
                           topLevel := topLevel n |}]> (heap s).
Proof.
  cbv [set_eqMarkers bind node_at get ret throw].
  destruct (heap s !! x) as [n|] eqn:Hx; [|done].
  cbv [store_node bind get put]. intros [= _ <-]. exists n. done.
Qed.

Lemma get_eqMarkers_inv (s s' : state) x l :
  get_eqMarkers x s = Ok (l, s') →
  s' = s ∧ ∃ n, heap s !! x = Some n ∧ l = eqMarkers n.
Proof.
  unfold get_eqMarkers. intros E.
  apply bind_Ok_inv in E as (n & s1 & E1 & E2).
  apply node_at_inv in E1 as [-> E1]. cbv [ret] in E2.
  injection E2 as <- <-. eauto.
Qed.

Section Within.

Variable okm : ptr → nat → Interval_handle → Prop.
Variable oke : ptr → Interval_handle → Prop.

Lemma marks_within_set_markers (s s' : state) x i l u :
  marks_within okm oke s → (∀ h, h ∈ l → okm x i h) →
  set_markers x i l s = Ok (u, s') → marks_within okm oke s'.
Proof.
  intros Hm Hl Hrun.
  apply set_markers_inv in Hrun as (n & Hx & Hi & _ & _ & Hh).
  intros a na Ha. rewrite Hh in Ha.
  destruct (decide (a = x)) as [->|Hne].
  - rewrite lookup_insert_eq in Ha. injection Ha as <-. simpl.
    destruct (Hm x n Hx) as [Hmk Heq]. split; [|done].
    intros j l' h Hj Hin. destruct (decide (j = i)) as [->|].
    + rewrite list_lookup_insert_eq in Hj by done. injection Hj as <-. auto.
    + rewrite list_lookup_insert_ne in Hj by done. eauto.
  - rewrite lookup_insert_ne in Ha by done. by apply Hm.
Qed.

Lemma marks_within_set_eqMarkers (s s' : state) x l u :
  marks_within okm oke s → (∀ h, h ∈ l → oke x h) →
  set_eqMarkers x l s = Ok (u, s') → marks_within okm oke s'.
Proof.
  intros Hm Hl Hrun.
  apply set_eqMarkers_inv in Hrun as (n & Hx & _ & _ & Hh).
  intros a na Ha. rewrite Hh in Ha.
  destruct (decide (a = x)) as [->|Hne].
  - rewrite lookup_insert_eq in Ha. injection Ha as <-. simpl.
    destruct (Hm x n Hx) as [Hmk Heq]. by split.
  - rewrite lookup_insert_ne in Ha by done. by apply Hm.
Qed.

Lemma marks_within_get_markers (s s' : state) x i l :
  marks_within okm oke s → get_markers x i s = Ok (l, s') →
  s' = s ∧ ∀ h, h ∈ l → okm x i h.
Proof.
  intros Hm Hrun. apply get_markers_inv in Hrun as (-> & n & Hx & Hl).
  split; [done|]. intros h Hh. destruct (Hm x n Hx) as [Hmk _]. eauto.
Qed.

Lemma marks_within_get_eqMarkers (s s' : state) x l :
  marks_within okm oke s → get_eqMarkers x s = Ok (l, s') →
  s' = s ∧ ∀ h, h ∈ l → oke x h.
Proof.
  intros Hm Hrun. apply get_eqMarkers_inv in Hrun as (-> & n & Hx & ->).
  split; [done|]. intros h Hh. destruct (Hm x n Hx) as [_ Heq]. eauto.
Qed.

Local Abbreviation framed :=
  (framed (Value:=Value) (Interval:=Interval) okm oke).

Lemma framed_set_markers hd L c (s s' : state) x i l u :
  framed hd L c s → (∀ h, h ∈ l → okm x i h) →
  set_markers x i l s = Ok (u, s') → framed hd L c s'.
Proof.
  intros (Hwf & Hd & Hc & Hm) Hl Hrun.
  pose proof (set_markers_same_shape _ _ _ _ _ _ Hrun) as Hsh.
  split; [by eapply wf_same_shape|].
  destruct Hsh as (_ & <- & _ & _ & <- & _).
  repeat (split; [done|]). by eapply marks_within_set_markers.
Qed.

Lemma framed_set_eqMarkers hd L c (s s' : state) x l u :
  framed hd L c s → (∀ h, h ∈ l → oke x h) →
  set_eqMarkers x l s = Ok (u, s') → framed hd L c s'.
Proof.
  intros (Hwf & Hd & Hc & Hm) Hl Hrun.
  pose proof (set_eqMarkers_same_shape _ _ _ _ _ Hrun) as Hsh.
  split; [by eapply wf_same_shape|].
  destruct Hsh as (_ & <- & _ & _ & <- & _).
  repeat (split; [done|]). by eapply marks_within_set_eqMarkers.
Qed.

Lemma framed_markers_insert hd L c (s s' : state) x i h u :
  framed hd L c s → okm x i h →
  markers_insert x i h s = Ok (u, s') → framed hd L c s'.
Proof.
  intros Hf Hh Hrun. unfold markers_insert in Hrun.
  msplit Hrun as l s1 Hg. pose proof Hf as (_ & _ & _ & Hm).
  apply (marks_within_get_markers _ _ _ _ _ Hm) in Hg as [-> Hl].
  eapply framed_set_markers; [done| |done].
  intros h' Hh'. apply elem_of_cons in Hh' as [->|?]; auto.
Qed.

Lemma framed_eqMarkers_insert hd L c (s s' : state) x h u :
  framed hd L c s → oke x h →
  eqMarkers_insert x h s = Ok (u, s') → framed hd L c s'.
Proof.
  intros Hf Hh Hrun. unfold eqMarkers_insert in Hrun.
  msplit Hrun as l s1 Hg. pose proof Hf as (_ & _ & _ & Hm).
  apply (marks_within_get_eqMarkers _ _ _ _ Hm) in Hg as [-> Hl].
  eapply framed_set_eqMarkers; [done| |done].
  intros h' Hh'. apply elem_of_cons in Hh' as [->|?]; auto.
Qed.

Lemma framed_markers_remove hd L c (s s' : state) x i m u :
  framed hd L c s → markers_remove x i m s = Ok (u, s') → framed hd L c s'.
Proof.
  intros Hf Hrun. unfold markers_remove in Hrun.
  msplit Hrun as l s1 Hg. pose proof Hf as (_ & _ & _ & Hm).
  apply (marks_within_get_markers _ _ _ _ _ Hm) in Hg as [-> Hl].
  msplit Hrun as l' s1 Hr. unfold lift in Hr.
  destruct (IL_remove (container s) m l) as [l0| |] eqn:E; [|done..].
  injection Hr as <- <-. apply IL_remove_spec in E as [Hsub _].
  eapply framed_set_markers; [done| |done]. auto.
Qed.

Lemma framed_eqMarkers_remove hd L c (s s' : state) x m u :
  framed hd L c s → eqMarkers_remove x m s = Ok (u, s') → framed hd L c s'.
Proof.
  intros Hf Hrun. unfold eqMarkers_remove in Hrun.
  msplit Hrun as l s1 Hg. pose proof Hf as (_ & _ & _ & Hm).
  apply (marks_within_get_eqMarkers _ _ _ _ Hm) in Hg as [-> Hl].
  msplit Hrun as l' s1 Hr. unfold lift in Hr.
  destruct (IL_remove (container s) m l) as [l0| |] eqn:E; [|done..].
  injection Hr as <- <-. apply IL_remove_spec in E as [Hsub _].
  eapply framed_set_eqMarkers; [done| |done]. auto.
Qed.

Lemma framed_get_forward hd L c (s s' : state) x i f :
  framed hd L c s → get_forward x i s = Ok (f, s') → s' = s.
Proof. intros _ H. by apply get_forward_inv in H as [-> _]. Qed.

Lemma framed_removeMarkFromLevel_loop hd L c fuel m i x r (s s' : state) y :
  framed hd L c s →
  removeMarkFromLevel_loop fuel m i x r s = Ok (y, s') → framed hd L c s'.
Proof.
  revert x s. induction fuel as [|fuel IH]; intros x s Hf; simpl; [done|].
  destruct x as [a|]; [|by intros [= _ <-]].
  destruct (bool_decide _); [by intros [= _ <-]|]. intros Hrun.
  msplit Hrun as u1 s1 H1. apply (framed_markers_remove _ _ _ _ _ _ _ _ _ Hf) in H1.
  msplit Hrun as u2 s2 H2. apply (framed_eqMarkers_remove _ _ _ _ _ _ _ _ H1) in H2.
  msplit Hrun as f s3 H3. apply get_forward_inv in H3 as [-> _].
  by eapply IH.
Qed.

Lemma framed_removeMarkFromLevel hd L c m i l r (s s' : state) u :
  framed hd L c s →
  removeMarkFromLevel m i l r s = Ok (u, s') → framed hd L c s'.
Proof.
  intros Hf Hrun. unfold removeMarkFromLevel in Hrun.
  msplit Hrun as y s1 H1.
  apply (framed_removeMarkFromLevel_loop _ _ _ _ _ _ _ _ _ _ _ Hf) in H1.
  destruct y as [a|]; [|by injection Hrun as _ <-].
  by eapply framed_eqMarkers_remove.
Qed.

End Within.

End MarkerLists.

(* ====================================================================== *)
(*  Loops, and the contract of closed intervals                           *)
(* ====================================================================== *)

Section Loops.

Context {Value Interval : Type} `{!IntervalType Value Interval}.

Local Abbreviation state := (Interval_skip_list Value Interval).
Local Abbreviation M := (M Value Interval).

(** A loop over a list keeps what every pass keeps; the invariant sees
    the cells that have been passed. *)
Lemma foldM_inv {A B} (I : list A → B → state → Prop)
    (body : B → A → M B) l b0 (s : state) r s' :
  I [] b0 s →
  (∀ pre a post b s1 b' s2,
     l = pre ++ a :: post → I pre b s1 → body b a s1 = Ok (b', s2) →
     I (pre ++ [a]) b' s2) →
  foldM body l b0 s = Ok (r, s') → I l r s'.
Proof.
  intros H0 Hstep.
  assert (Hgen : ∀ post pre b s1,
            l = pre ++ post → I pre b s1 →
            foldM body post b s1 = Ok (r, s') → I l r s').
  { induction post as [|a post IH]; intros pre b s1 El Hpre; simpl.
    - intros [= <- <-]. by rewrite El, app_nil_r.
    - intros Hrun. apply bind_Ok_inv in Hrun as (b' & s2 & Hb & Hrun).
      apply (IH (pre ++ [a]) b' s2); [by rewrite <- app_assoc| |done].
      eapply Hstep; eauto. }
  by apply (Hgen l [] b0 s).
Qed.

Lemma for_down_inv {B} (I : nat → B → state → Prop)
    (body : nat → B → M B) n b0 (s : state) r s' :
  I n b0 s →
  (∀ i b s1 b' s2,
     i < n → I (S i) b s1 → body i b s1 = Ok (b', s2) → I i b' s2) →
  for_down n body b0 s = Ok (r, s') → I 0 r s'.
Proof.
  revert b0 s. induction n as [|n IH]; intros b0 s H0 Hstep; simpl.
  - by intros [= <- <-].
  - intros Hrun. apply bind_Ok_inv in Hrun as (b' & s2 & Hb & Hrun).
    apply (IH b' s2); [|by intros; eapply Hstep; eauto; lia|done].
    eapply Hstep; eauto.
Qed.

Lemma for_up_inv {B} (I : nat → B → state → Prop)
    (body : nat → B → M B) n i0 b0 (s : state) r s' :
  I i0 b0 s →
  (∀ i b s1 b' s2,
     i0 ≤ i → i < i0 + n → I i b s1 → body i b s1 = Ok (b', s2) →
     I (S i) b' s2) →
  for_up n i0 body b0 s = Ok (r, s') → I (i0 + n) r s'.
Proof.
  revert i0 b0 s. induction n as [|n IH]; intros i0 b0 s H0 Hstep; simpl.
  - intros [= <- <-]. by rewrite Nat.add_0_r.
  - intros Hrun. apply bind_Ok_inv in Hrun as (b' & s2 & Hb & Hrun).
    replace (i0 + S n) with (S i0 + n) by lia.
    apply (IH (S i0) b' s2); [|by intros; eapply Hstep; eauto; lia|done].
    eapply Hstep; eauto; lia.
Qed.

End Loops.

Section ClosedContract.

Context {Value Interval : Type} `{!IntervalType Value Interval}.
Context `{!ValueOrder Value Interval} `{!ClosedIntervals Value Interval}.

Local Abbreviation tower := (tower Value).
Local Abbreviation nxt := (nxt (Value:=Value)).
Local Abbreviation pred_at := (pred_at (Value:=Value)).
Local Abbreviation tptr := (tptr (Value:=Value)).
Local Abbreviation tkey := (tkey (Value:=Value)).
Local Abbreviation tlev := (tlev (Value:=Value)).
Local Abbreviation edge_in := (edge_in (Value:=Value) (Interval:=Interval)).
Local Abbreviation node_in := (node_in (Value:=Value) (Interval:=Interval)).
Local Abbreviation sorted :=
  (StronglySorted (λ a b : tower, Value_lt (tkey a) (tkey b) = true)).
(** An interval that contains [a, b] contains every [a', b'] inside. *)
Lemma contains_interval_mono (J : Interval) a b a' b' :
  contains_interval J a b = true →
  Value_lt a' a = false → Value_lt b b' = false →
  contains_interval J a' b' = true.
Proof.
  rewrite !contains_interval_closed. intros [Ha Hb] Haa Hbb. split.
  - by apply (Value_le_trans _ a).
  - by apply (Value_le_trans _ b).
Qed.

Lemma contains_interval_point (J : Interval) a b v :
  contains_interval J a b = true →
  Value_lt v a = false → Value_lt b v = false →
  contains J v = true.
Proof.
  rewrite contains_interval_closed, contains_closed.
  intros [Ha Hb] Hav Hvb. split.
  - by apply (Value_le_trans _ a).
  - by apply (Value_le_trans _ b).
Qed.

(* --- a new tower in the list ---------------------------------------------- *)

(** The edges that an interval contained before a tower joined the list
    are still contained, where they have become shorter too. *)
Lemma edge_in_insert (L1 L2 : list tower) xt a i J :
  sorted (L1 ++ xt :: L2) →
  edge_in (L1 ++ L2) a i J → edge_in (L1 ++ xt :: L2) a i J.
Proof.
  intros Hs (La & t & Lb & t' & E & Ha & Hi & Hn & HJ).
  apply app_eq_app in E as [k [[-> E]|[-> ->]]].
  - destruct k as [|t0 k]; simpl in E.
    + (* t is the first tower behind the new one *)
      subst L2. rewrite app_nil_r. exists (La ++ [xt]), t, Lb, t'.
      by rewrite <- app_assoc.
    + (* t comes before the new tower *)
      injection E as <- ->. rewrite <- app_assoc, <- app_comm_cons in Hs.
      rewrite nxt_app in Hn.
      destruct (nxt i k) as [t1|] eqn:Hk.
      * injection Hn as ->. exists La, t, (k ++ xt :: L2), t'.
        rewrite <- app_assoc, nxt_app, Hk. done.
      * destruct (decide (i ≤ tlev xt)) as [Hx|Hx].
        -- exists La, t, (k ++ xt :: L2), xt.
           rewrite <- app_assoc, nxt_app, Hk, nxt_cons, decide_True by done.
           repeat (split; [done|]).
           apply (contains_interval_mono J (tkey t) (tkey t'));
             [done|apply Value_le_refl|].
           apply Value_lt_asym.
           apply (sorted_after (La ++ t :: k) L2 xt t').
           ++ by rewrite <- app_assoc.
           ++ by apply nxt_elem in Hn as [? _].
        -- exists La, t, (k ++ xt :: L2), t'.
           rewrite <- app_assoc, nxt_app, Hk, nxt_cons, decide_False by done.
           done.
  - (* t comes behind the new tower *)
    exists (L1 ++ xt :: k), t, Lb, t'. by rewrite <- app_assoc.
Qed.

(** The towers of a list with one more tower. *)
Lemma node_in_insert (L1 L2 : list tower) xt a J :
  node_in (L1 ++ L2) a J → node_in (L1 ++ xt :: L2) a J.
Proof. intros (t & Ht & ? & ?). exists t. split; [set_solver|done]. Qed.

(** What an interval contains of the edge out of the new tower. *)
Lemma edge_in_new (L1 L2 : list tower) xt i J :
  NoDup (tptr <$> (L1 ++ xt :: L2)) →
  edge_in (L1 ++ xt :: L2) (tptr xt) i J ↔
  i ≤ tlev xt ∧
  ∃ w, nxt i L2 = Some w ∧ contains_interval J (tkey xt) (tkey w) = true.
Proof.
  intros Hnd. split.
  - intros (La & t & Lb & t' & E & Ha & Hi & Hn & HJ).
    symmetry in E.
    destruct (split_unique _ _ _ _ _ _ ltac:(by rewrite E) E Ha)
      as (-> & -> & ->).
    eauto.
  - intros (Hi & w & Hn & HJ). exists L1, xt, L2, w. done.
Qed.

(** The marks on the edge that the new tower cuts in two are marks of the
    part behind the new tower. *)
Lemma edge_in_pred_old hd (L1 L2 : list tower) xt i J :
  NoDup (hd :: (tptr <$> (L1 ++ xt :: L2))) →
  sorted (L1 ++ xt :: L2) → i ≤ tlev xt →
  edge_in (L1 ++ L2) (pred_at hd i L1) i J →
  edge_in (L1 ++ xt :: L2) (tptr xt) i J.
Proof.
  intros Hnd Hs Hi (La & t & Lb & t' & E & Ha & _ & Hn & HJ).
  assert (Hnd' : NoDup (tptr <$> (L1 ++ L2))).
  { apply NoDup_cons_1_2 in Hnd. rewrite fmap_app, fmap_cons in Hnd.
    rewrite fmap_app. apply NoDup_app in Hnd as (H1 & H12 & H2).
    apply NoDup_cons in H2 as [_ H2]. apply NoDup_app.
    split; [done|]. split; [|done]. intros p Hp Hp2. apply (H12 p Hp).
    set_solver. }
  destruct (pred_at_split hd i L1) as [[Ep _]|(La0 & t0 & Lb0 & -> & Ep & Ht0 & HLb0)].
  - (* the header carries no tower *)
    exfalso. apply NoDup_cons_1_1 in Hnd. apply Hnd.
    rewrite <- Ep, <- Ha. apply list_elem_of_fmap. exists t.
    split; [done|]. assert (t ∈ L1 ++ L2) by (rewrite E; set_solver).
    set_solver.
  - rewrite Ep in Ha. rewrite <- app_assoc, <- app_comm_cons in E.
    rewrite <- app_assoc, <- app_comm_cons in Hnd'.
    destruct (split_unique La0 (Lb0 ++ L2) La Lb t0 t Hnd' E)
      as (-> & -> & <-); [done|].
    rewrite nxt_app in Hn. apply nxt_None in HLb0. rewrite HLb0 in Hn.
    exists (La ++ t :: Lb0), xt, L2, t'. repeat (split; [done|]).
    apply (contains_interval_mono J (tkey t) (tkey t'));
      [done| |apply Value_le_refl].
    apply Value_lt_asym.
    apply (sorted_before (La ++ t :: Lb0) L2 xt t); [done|set_solver].
Qed.

(** The edge into the new tower, from the last tower before it. *)
Lemma edge_in_pred_new hd (L1 L2 : list tower) xt i J t0 :
  i ≤ tlev xt → t0 ∈ L1 → pred_at hd i L1 = tptr t0 →
  NoDup (hd :: (tptr <$> (L1 ++ xt :: L2))) →
  contains_interval J (tkey t0) (tkey xt) = true →
  edge_in (L1 ++ xt :: L2) (tptr t0) i J.
Proof.
  intros Hi Ht0 Ep Hnd HJ.
  destruct (pred_at_split hd i L1) as [[Eh _]|(La & t & Lb & -> & Et & Ht & HLb)].
  - exfalso. apply NoDup_cons_1_1 in Hnd. apply Hnd.
    rewrite <- Eh, Ep. apply list_elem_of_fmap. exists t0. set_solver.
  - assert (t = t0) as ->.
    { apply NoDup_cons_1_2 in Hnd.
      eapply (NoDup_fmap_elem_eq tptr); [exact Hnd| | |congruence];
        set_solver. }
    exists La, t0, (Lb ++ xt :: L2), xt. rewrite <- app_assoc.
    split; [done|]. split; [done|]. split; [done|]. split; [|done].
    apply nxt_None in HLb. by rewrite nxt_app, HLb, nxt_cons, decide_True.
Qed.

(** A mark on the edge into the new tower contains that edge. *)
Lemma edge_in_pred_inv hd (L1 L2 : list tower) xt i J :
  NoDup (hd :: (tptr <$> (L1 ++ xt :: L2))) → i ≤ tlev xt →
  edge_in (L1 ++ xt :: L2) (pred_at hd i L1) i J →
  ∃ t0, t0 ∈ L1 ∧ pred_at hd i L1 = tptr t0 ∧
        contains_interval J (tkey t0) (tkey xt) = true.
Proof.
  intros Hnd Hi (La & t & Lb & t' & E & Ha & _ & Hn & HJ).
  destruct (pred_at_split hd i L1)
    as [[Ep _]|(La0 & t0 & Lb0 & -> & Ep & Ht0 & HLb0)].
  - exfalso. apply NoDup_cons_1_1 in Hnd. apply Hnd.
    rewrite <- Ep, <- Ha, E. apply list_elem_of_fmap. exists t. set_solver.
  - rewrite Ep in Ha. apply NoDup_cons_1_2 in Hnd.
    rewrite <- app_assoc, <- app_comm_cons in E, Hnd.
    destruct (split_unique La0 (Lb0 ++ xt :: L2) La Lb t0 t Hnd E)
      as (-> & -> & <-); [done|].
    apply nxt_None in HLb0.
    rewrite nxt_app, HLb0, nxt_cons, decide_True in Hn by done.
    injection Hn as <-. exists t. split; [set_solver|done].
Qed.

End ClosedContract.

(* ====================================================================== *)
(*  The marker repair of an insertion                                     *)
(* ====================================================================== *)

Section InsertRepair.

Context {Value Interval : Type} `{!IntervalType Value Interval}.
Context `{!ValueOrder Value Interval} `{!ClosedIntervals Value Interval}.

Local Abbreviation state := (Interval_skip_list Value Interval).
Local Abbreviation node := (IntervalSLnode Value).
Local Abbreviation tower := (tower Value).
Local Abbreviation store := (gmap Interval_handle Interval).
Local Abbreviation nxt := (nxt (Value:=Value)).
Local Abbreviation pred_at := (pred_at (Value:=Value)).
Local Abbreviation tptr := (tptr (Value:=Value)).
Local Abbreviation tkey := (tkey (Value:=Value)).
Local Abbreviation tlev := (tlev (Value:=Value)).
Local Abbreviation wf := (wf (Value:=Value) (Interval:=Interval)).
Local Abbreviation edge_mark := (edge_mark (Value:=Value) (Interval:=Interval)).
Local Abbreviation node_mark := (node_mark (Value:=Value) (Interval:=Interval)).
Local Abbreviation count_val := (count_val (Value:=Value) (Interval:=Interval)).
Local Abbreviation sorted :=
  (StronglySorted (λ a b : tower, Value_lt (tkey a) (tkey b) = true)).
(** The new tower [xt] stands between [L1] and [L2]; [upd] is the update
    vector of the search, [c] the element store. *)
Variables (hd : ptr) (L1 L2 : list tower) (xt : tower) (upd : update_vec).
Variables (c : store) (cn : Interval_handle).

Hypothesis Hupd :
  ∀ i, i ≤ tlev xt → upd !! i = Some (Some (pred_at hd i L1)).
Hypothesis Hnd : NoDup (hd :: (tptr <$> (L1 ++ xt :: L2))).
Hypothesis Hs : sorted (L1 ++ xt :: L2).

Local Abbreviation Lnew := (L1 ++ xt :: L2).
Local Abbreviation x := (tptr xt).
Local Abbreviation okm_new := (edge_mark c cn Lnew).
Local Abbreviation okm_old := (edge_mark c cn (L1 ++ L2)).
Local Abbreviation oke := (node_mark c cn Lnew).

Local Abbreviation okm_mid :=
  (okm_mid (Value:=Value) (Interval:=Interval) c cn L1 L2 xt).

Local Abbreviation mid := (framed okm_mid oke hd Lnew c).
Local Abbreviation fin := (framed okm_new oke hd Lnew c).

Lemma pred_not_x i : pred_at hd i L1 ≠ x.
Proof.
  pose proof Hnd as Hnd'.
  destruct (pred_at_split hd i L1) as [[-> _]|(La & t & Lb & E & -> & _)].
  - intros E. apply NoDup_cons_1_1 in Hnd'. apply Hnd'. rewrite E.
    apply list_elem_of_fmap. exists xt. set_solver.
  - intros Et. apply NoDup_cons_1_2 in Hnd'.
    assert (t = xt).
    { eapply (NoDup_fmap_elem_eq tptr); [exact Hnd'| | |done];
        rewrite ?E; set_solver. }
    subst t. rewrite E, <- app_assoc, <- app_comm_cons in Hnd'.
    rewrite fmap_app, fmap_cons in Hnd'.
    apply NoDup_app in Hnd' as (_ & _ & Hnd').
    apply NoDup_cons_1_1 in Hnd'. apply Hnd'.
    rewrite fmap_app, fmap_cons. set_solver.
Qed.

(* --- what the new node may be marked with ---------------------------------- *)

Lemma ok_mid_x i h : okm_mid x i h ↔ okm_new x i h.
Proof. unfold okm_mid. by rewrite decide_True. Qed.

Lemma ok_mid_other a i h : a ≠ x → okm_mid a i h ↔ okm_old a i h.
Proof. intros Ha. unfold okm_mid. by rewrite decide_False. Qed.

Lemma ok_from_pred i h :
  i ≤ tlev xt → okm_mid (pred_at hd i L1) i h → okm_new x i h.
Proof.
  intros Hi Hok. apply ok_mid_other in Hok; [|apply pred_not_x].
  destruct Hok as [Hb Hok]. split; [done|]. intros J HJ.
  eapply edge_in_pred_old; eauto.
Qed.

Lemma ok_new_intro i (h : Interval_handle) J w :
  i ≤ tlev xt → h < cn → c !! h = Some J → nxt i L2 = Some w →
  contains_interval J (tkey xt) (tkey w) = true → okm_new x i h.
Proof.
  intros Hi Hb HJ Hw HC. split; [done|]. intros J' HJ'.
  assert (J' = J) as -> by congruence.
  apply edge_in_new; [by eapply NoDup_cons_1_2|]. eauto.
Qed.

Lemma ok_new_elim i (h : Interval_handle) J :
  okm_new x i h → c !! h = Some J →
  h < cn ∧ i ≤ tlev xt ∧
  ∃ w, nxt i L2 = Some w ∧ contains_interval J (tkey xt) (tkey w) = true.
Proof.
  intros [Hb Hok] HJ. split; [done|].
  eapply (proj1 (edge_in_new _ _ _ _ _ _)); auto.
  Unshelve. by eapply NoDup_cons_1_2.
Qed.

Lemma ok_node i (h : Interval_handle) J w :
  h < cn → c !! h = Some J → nxt i L2 = Some w →
  contains J (tkey w) = true → oke (tptr w) h.
Proof.
  intros Hb HJ Hw HC. split; [done|]. intros J' HJ'.
  assert (J' = J) as -> by congruence.
  exists w. split; [|done]. apply nxt_elem in Hw as [? _]. set_solver.
Qed.

(* --- what the repair reads ------------------------------------------------ *)

Section Reads.

Variable s : state.
Hypothesis Hwf : wf s Lnew.
Hypothesis Hhd : header s = hd.
Hypothesis Hc : container s = c.

Lemma rd_level : get_level x s = Ok (tlev xt + 1, s).
Proof using All.
  destruct (wf_edge s L1 xt L2 0 Hwf ltac:(lia)) as (n & Hn & _ & _ & Ht & _).
  unfold get_level. rewrite (bind_Ok _ _ _ _ _ (node_at_Ok _ _ _ Hn)).
  unfold level. by rewrite Ht.
Qed.

Lemma rd_forward i :
  i ≤ tlev xt → get_forward x i s = Ok (tptr <$> nxt i L2, s).
Proof using All.
  intros Hi. destruct (wf_edge s L1 xt L2 i Hwf Hi) as (n & Hn & _ & _ & _ & Hf).
  by apply get_forward_Ok with n.
Qed.

Lemma rd_key t : t ∈ Lnew → get_key (tptr t) s = Ok (tkey t, s).
Proof using All.
  intros Ht. destruct (wf_nodes _ _ Hwf t Ht) as (n & Hn & _ & Hk & _).
  rewrite <- Hk. by apply get_key_Ok.
Qed.

Lemma rd_key_x : get_key x s = Ok (tkey xt, s).
Proof using All. apply rd_key. apply elem_of_app. right. left. Qed.

Lemma rd_forward_key i w :
  i ≤ tlev xt → nxt i L2 = Some w → forward_key x i s = Ok (tkey w, s).
Proof using All.
  intros Hi Hw. unfold forward_key.
  rewrite (bind_Ok _ _ _ _ _ (rd_forward i Hi)), Hw. simpl.
  rewrite bind_ret. apply rd_key. apply nxt_elem in Hw as [? _].
  apply elem_of_app. right. by right.
Qed.

Lemma rd_upd i : i ≤ tlev xt → upd_get upd i s = Ok (pred_at hd i L1, s).
Proof using All. intros Hi. apply upd_get_Ok. by apply Hupd. Qed.

Lemma rd_deref h J : c !! h = Some J → deref h s = Ok (J, s).
Proof using All. intros Hh. apply deref_Ok. by rewrite Hc. Qed.

Lemma rd_node t :
  t ∈ Lnew →
  ∃ n, node_at (tptr t) s = Ok (n, s) ∧ is_header n = false ∧
       key n = tkey t.
Proof using All.
  intros Ht. destruct (wf_nodes _ _ Hwf t Ht) as (n & Hn & Hh & Hk & _).
  exists n. split; [by apply node_at_Ok|done].
Qed.

Lemma rd_header : ∃ hn, node_at hd s = Ok (hn, s) ∧ is_header hn = true.
Proof using All.
  destruct (wf_header _ _ Hwf) as (hn & Hn & Hh & _). rewrite Hhd in Hn.
  exists hn. split; [by apply node_at_Ok|done].
Qed.

End Reads.

Lemma pred_cases i :
  pred_at hd i L1 = hd ∨ ∃ t0, t0 ∈ L1 ∧ pred_at hd i L1 = tptr t0.
Proof.
  destruct (pred_at_split hd i L1) as [[E _]|(La & t & Lb & -> & E & _)];
    [by left|].
  right. exists t. split; [|done]. apply elem_of_app. right. left.
Qed.

Lemma in_L1 t : t ∈ L1 → t ∈ Lnew.
Proof. intros Ht. apply elem_of_app. by left. Qed.

Lemma ok_pred_elim i (h : Interval_handle) J :
  i ≤ tlev xt → okm_new (pred_at hd i L1) i h → c !! h = Some J →
  ∃ t0, t0 ∈ L1 ∧ pred_at hd i L1 = tptr t0 ∧
        contains_interval J (tkey t0) (tkey xt) = true.
Proof.
  intros Hi [_ Hok] HJ. eapply edge_in_pred_inv; eauto.
Qed.

Lemma ok_pred_intro i (h : Interval_handle) t0 :
  i ≤ tlev xt → h < cn → t0 ∈ L1 → pred_at hd i L1 = tptr t0 →
  (∀ J, c !! h = Some J →
        contains_interval J (tkey t0) (tkey xt) = true) →
  okm_new (pred_at hd i L1) i h.
Proof.
  intros Hi Hb Ht0 E HC. split; [done|]. intros J HJ. rewrite E.
  eapply edge_in_pred_new; eauto.
Qed.

Lemma mid_fin (s : state) : mid s → fin s.
Proof.
  intros (Hwf & Hhd & Hc & Hm). repeat (split; [done|]).
  eapply marks_within_mono; [| |exact Hm]; [|done].
  intros a i h Hok. destruct (decide (a = x)) as [->|Hne].
  - by apply ok_mid_x.
  - apply ok_mid_other in Hok as [Hb Hok]; [|done]. split; [done|].
    intros J HJ. apply edge_in_insert; [exact Hs|auto].
Qed.

(* --- Phase 1: the edges out of the new node ------------------------------- *)

Lemma insert_phase1_sound n i promoted (s : state) i' promoted' s' :
  mid s → i + n = tlev xt →
  (∀ h, h ∈ promoted → okm_new x i h) →
  insert_phase1 n x upd i promoted s = Ok ((i', promoted'), s') →
  mid s' ∧ i' ≤ tlev xt ∧ (∀ h, h ∈ promoted' → okm_new x i' h).
Proof.
  revert i promoted s. induction n as [|n IH]; intros i promoted s Hmid Hi Hp.
  { simpl. intros [= <- <- <-]. split; [done|]. split; [lia|done]. }
  simpl. intros Hrun.
  pose proof Hmid as (Hwf & Hhd & Hc & Hm).
  mrun_in (rd_forward s Hwf Hhd Hc (i + 1) ltac:(lia)) Hrun.
  destruct (nxt (i + 1) L2) as [w1|] eqn:Hw1; simpl in Hrun.
  2:{ injection Hrun as <- <- <-. split; [done|]. split; [lia|done]. }
  mrun_in (rd_upd s Hwf Hhd Hc i ltac:(lia)) Hrun.
  msplit Hrun as markList s1 Hml.
  apply (marks_within_get_markers _ _ _ _ _ _ _ Hm) in Hml as [-> Hml].
  (* the marks of the edge that x cuts *)
  msplit Hrun as newPromoted s1 Hf1.
  apply (foldM_inv (λ _ acc s, mid s ∧ ∀ h, h ∈ acc → okm_new x (i + 1) h))
    in Hf1 as [Hmid1 Hnp]; [|by split; [|set_solver]|].
  2:{ clear Hrun. intros pre m post acc sa acc' sb -> [Ha Hacc] Hb.
      pose proof Ha as (Hwfa & Hhda & Hca & Hma).
      assert (Hm_ok : okm_mid (pred_at hd i L1) i m)
        by (apply Hml; set_solver).
      msplit Hb as Im sa' Hd. apply deref_inv in Hd as [-> Hd].
      rewrite Hca in Hd.
      mrun_in (rd_key_x sa Hwfa Hhda Hca) Hb.
      mrun_in (rd_forward_key sa Hwfa Hhda Hca (i + 1) w1 ltac:(lia) Hw1) Hb.
      destruct (contains_interval Im (tkey xt) (tkey w1)) eqn:HC.
      - mrun_in (rd_forward sa Hwfa Hhda Hca i ltac:(lia)) Hb.
        mrun_in (rd_forward sa Hwfa Hhda Hca (i + 1) ltac:(lia)) Hb.
        msplit Hb as u sa' Hr. injection Hb as <- <-.
        split; [by eapply framed_removeMarkFromLevel|].
        intros h Hh. apply elem_of_cons in Hh as [->|Hh]; [|auto].
        apply (ok_new_intro (i + 1) m Im w1); try done; [lia|].
        apply ok_mid_other in Hm_ok as [? _]; [done|apply pred_not_x].
      - msplit Hb as u sa' Hins. injection Hb as <- <-.
        split; [|done].
        eapply framed_markers_insert; [exact Ha| |exact Hins].
        apply ok_mid_x. apply ok_from_pred; [lia|done]. }
  (* the marks promoted from the level below *)
  msplit Hrun as removePromoted s2 Hf2.
  apply (foldM_inv (λ pre acc s, mid s ∧
           ∀ v, contains_interval v (tkey xt) (tkey w1) = false →
                count_val c v pre ≤ count_val c v acc))
    in Hf2 as [Hmid2 Hcnt]; [|by split|].
  2:{ clear Hrun. intros pre m post acc sa acc' sb -> [Ha Hacc] Hb.
      pose proof Ha as (Hwfa & Hhda & Hca & Hma).
      assert (Hm_ok : okm_new x i m) by (apply Hp; set_solver).
      msplit Hb as Im sa' Hd. apply deref_inv in Hd as [-> Hd].
      rewrite Hca in Hd.
      destruct (ok_new_elim i m Im Hm_ok Hd) as (Hb' & _ & wi & Hwi & HCi).
      mrun_in (rd_key_x sa Hwfa Hhda Hca) Hb.
      mrun_in (rd_forward_key sa Hwfa Hhda Hca (i + 1) w1 ltac:(lia) Hw1) Hb.
      destruct (contains_interval Im (tkey xt) (tkey w1)) eqn:HC;
        cbn [negb] in Hb.
      - mrun_in (rd_forward sa Hwfa Hhda Hca i ltac:(lia)) Hb.
        mrun_in (rd_forward sa Hwfa Hhda Hca (i + 1) ltac:(lia)) Hb.
        msplit Hb as u sa' Hr. injection Hb as <- <-.
        split; [by eapply framed_removeMarkFromLevel|].
        intros v Hv. rewrite count_val_app, count_val_cons, count_val_nil.
        rewrite decide_False by congruence. specialize (Hacc v Hv). lia.
      - msplit Hb as u sa1 Hins.
        assert (Ha1 : mid sa1).
        { eapply framed_markers_insert; [exact Ha| |exact Hins].
          by apply ok_mid_x. }
        pose proof Ha1 as (Hwf1 & Hhd1 & Hc1 & _).
        mrun_in (rd_forward sa1 Hwf1 Hhd1 Hc1 i ltac:(lia)) Hb.
        rewrite Hwi in Hb. simpl in Hb. unfold nonnull in Hb.
        msimpl_in Hb.
        assert (Hwi_in : wi ∈ Lnew).
        { apply nxt_elem in Hwi as [? _]. apply elem_of_app. right. by right. }
        mrun_in (rd_key sa1 Hwf1 Hhd1 Hc1 wi Hwi_in) Hb.
        msplit Hb as u2 sa2 Heq. injection Hb as <- <-.
        split.
        + destruct (contains Im (tkey wi)) eqn:HCe;
            [|by injection Heq as _ <-].
          eapply framed_eqMarkers_insert; [exact Ha1| |exact Heq].
          by apply (ok_node i m Im wi).
        + intros v Hv. rewrite count_val_app, !count_val_cons, count_val_nil.
          specialize (Hacc v Hv). destruct (decide _); lia. }
  (* promoted for the next level *)
  msplit Hrun as promoted2 s3 Hsw. unfold swap_bags in Hsw.
  msplit Hsw as P2 s4 Hra. unfold lift in Hra.
  pose proof Hmid2 as (_ & _ & Hc2 & _). rewrite Hc2 in Hra.
  destruct (IL_removeAll c removePromoted promoted) as [P| |] eqn:HP;
    [|done..].
  injection Hra as <- <-. injection Hsw as <- <-.
  refine (IH (S i) _ s2 Hmid2 _ _ Hrun); [lia|].
  intros h Hh. apply elem_of_IL_copy in Hh as [Hh|Hh].
  { replace (S i) with (i + 1) by lia. auto. }
  destruct (IL_removeAll_spec _ _ _ _ HP) as [Hsub _].
  pose proof (Hp h (Hsub h Hh)) as Hok.
  split; [apply Hok|]. intros J HJ.
  destruct (contains_interval J (tkey xt) (tkey w1)) eqn:HC.
  - replace (S i) with (i + 1) by lia.
    apply edge_in_new; [by eapply NoDup_cons_1_2|]. split; [lia|]. eauto.
  - pose proof (IL_removeAll_survivor _ _ _ _ h J HP Hh HJ).
    specialize (Hcnt J HC). lia.
Qed.

(* --- Phase 2: the edges into the new node --------------------------------- *)

Lemma insert_phase2_sound n i promoted (s : state) i' promoted' s' :
  fin s → i + n = tlev xt →
  (∀ h, h ∈ promoted → okm_new (pred_at hd i L1) i h) →
  insert_phase2 n x upd i promoted s = Ok ((i', promoted'), s') →
  fin s' ∧ i' ≤ tlev xt ∧
  (∀ h, h ∈ promoted' → okm_new (pred_at hd i' L1) i' h).
Proof.
  revert i promoted s. induction n as [|n IH]; intros i promoted s Hfin Hi Hp.
  { simpl. intros [= <- <- <-]. split; [done|]. split; [lia|done]. }
  simpl. intros Hrun.
  pose proof Hfin as (Hwf & Hhd & Hc & Hm).
  mrun_in (rd_upd s Hwf Hhd Hc (i + 1) ltac:(lia)) Hrun.
  unfold isHeader in Hrun.
  destruct (pred_cases (i + 1)) as [E1|(t1 & Ht1 & E1)].
  { destruct (rd_header s Hwf Hhd Hc) as (hn & Hn & Hh).
    rewrite E1 in Hrun. mrun_in Hn Hrun. rewrite Hh in Hrun.
    injection Hrun as <- <- <-. split; [done|]. split; [lia|done]. }
  destruct (rd_node s Hwf Hhd Hc t1 (in_L1 _ Ht1)) as (n1 & Hn1 & Hh1 & Hk1).
  rewrite E1 in Hrun at 1. mrun_in Hn1 Hrun. rewrite Hh1 in Hrun.
  mrun_in (rd_upd s Hwf Hhd Hc i ltac:(lia)) Hrun.
  msplit Hrun as ml s1 Hml.
  apply (marks_within_get_markers _ _ _ _ _ _ _ Hm) in Hml as [-> Hml].
  (* the marks of the edge into x that also contain the edge of the level
     above *)
  msplit Hrun as newPromoted s1 Hf1.
  apply (foldM_inv (λ _ acc s, fin s ∧
           ∀ h, h ∈ acc → okm_new (pred_at hd (i + 1) L1) (i + 1) h))
    in Hf1 as [Hfin1 Hnp]; [|by split; [|set_solver]|].
  2:{ clear Hrun. intros pre m post acc sa acc' sb Hl [Ha Hacc] Hb.
      pose proof Ha as (Hwfa & Hhda & Hca & Hma).
      assert (Hm_ok : okm_new (pred_at hd i L1) i m).
      { apply Hml.
        assert (Hin : m ∈ IL_copy ml []) by (rewrite Hl; set_solver).
        apply elem_of_IL_copy in Hin as [?|Hin]; [done|].
        by apply elem_of_nil in Hin. }
      msplit Hb as Im sa' Hd. apply deref_inv in Hd as [-> Hd].
      rewrite Hca in Hd.
      mrun_in (rd_upd sa Hwfa Hhda Hca (i + 1) ltac:(lia)) Hb.
      rewrite E1 in Hb.
      mrun_in (rd_key sa Hwfa Hhda Hca t1 (in_L1 _ Ht1)) Hb.
      mrun_in (rd_key_x sa Hwfa Hhda Hca) Hb.
      destruct (contains_interval Im (tkey t1) (tkey xt)) eqn:HC.
      - msplit Hb as u sa' Hr. injection Hb as <- <-.
        split; [by eapply framed_removeMarkFromLevel|].
        intros h Hh. apply elem_of_cons in Hh as [->|Hh]; [|auto].
        apply (ok_pred_intro (i + 1) m t1); [lia|apply Hm_ok|done|done|].
        intros J HJ. assert (J = Im) as -> by congruence. done.
      - injection Hb as <- <-. done. }
  (* the marks promoted from the level below *)
  msplit Hrun as removePromoted s2 Hf2.
  apply (foldM_inv (λ pre acc s, fin s ∧
           ∀ v, contains_interval v (tkey t1) (tkey xt) = false →
                count_val c v pre ≤ count_val c v acc))
    in Hf2 as [Hfin2 Hcnt]; [|by split|].
  2:{ clear Hrun. intros pre m post acc sa acc' sb -> [Ha Hacc] Hb.
      pose proof Ha as (Hwfa & Hhda & Hca & Hma).
      assert (Hm_ok : okm_new (pred_at hd i L1) i m) by (apply Hp; set_solver).
      msplit Hb as Im sa' Hd. apply deref_inv in Hd as [-> Hd].
      rewrite Hca in Hd.
      destruct (ok_pred_elim i m Im ltac:(lia) Hm_ok Hd)
        as (ti & Hti & Ei & HCi).
      destruct (rd_node sa Hwfa Hhda Hca ti (in_L1 _ Hti))
        as (ni & Hni & Hhi & Hki).
      destruct (rd_node sa Hwfa Hhda Hca t1 (in_L1 _ Ht1))
        as (n1' & Hn1' & Hh1' & Hk1').
      mrun_in (rd_upd sa Hwfa Hhda Hca i ltac:(lia)) Hb.
      rewrite Ei in Hb. mrun_in Hni Hb.
      mrun_in (rd_upd sa Hwfa Hhda Hca (i + 1) ltac:(lia)) Hb.
      rewrite E1 in Hb. mrun_in Hn1' Hb.
      mrun_in (rd_key_x sa Hwfa Hhda Hca) Hb.
      rewrite Hhi, Hki, Hh1', Hk1', HCi in Hb. cbn [negb andb] in Hb.
      destruct (contains_interval Im (tkey t1) (tkey xt)) eqn:HC;
        cbn [negb] in Hb.
      - msplit Hb as u sa' Hr. injection Hb as <- <-.
        split; [by eapply framed_removeMarkFromLevel|].
        intros v Hv. rewrite count_val_app, count_val_cons, count_val_nil.
        rewrite decide_False by congruence. specialize (Hacc v Hv). lia.
      - msplit Hb as u sa1 Hins.
        assert (Ha1 : fin sa1).
        { eapply framed_markers_insert; [exact Ha| |exact Hins].
          by rewrite <- Ei. }
        msplit Hb as u2 sa2 Heq. injection Hb as <- <-.
        split.
        + destruct (contains Im (tkey ti)) eqn:HCe;
            [|by injection Heq as _ <-].
          eapply framed_eqMarkers_insert; [exact Ha1| |exact Heq].
          split; [apply Hm_ok|]. intros J HJ.
          assert (J = Im) as -> by congruence.
          exists ti. split; [by apply in_L1|done].
        + intros v Hv. rewrite count_val_app, !count_val_cons, count_val_nil.
          specialize (Hacc v Hv). destruct (decide _); lia. }
  (* promoted for the next level *)
  msplit Hrun as promoted2 s3 Hsw. unfold swap_bags in Hsw.
  msplit Hsw as P2 s4 Hra. unfold lift in Hra.
  pose proof Hfin2 as (_ & _ & Hc2 & _). rewrite Hc2 in Hra.
  destruct (IL_removeAll c removePromoted promoted) as [P| |] eqn:HP;
    [|done..].
  injection Hra as <- <-. injection Hsw as <- <-.
  refine (IH (S i) _ s2 Hfin2 _ _ Hrun); [lia|].
  replace (S i) with (i + 1) by lia.
  intros h Hh. apply elem_of_IL_copy in Hh as [Hh|Hh]; [auto|].
  destruct (IL_removeAll_spec _ _ _ _ HP) as [Hsub _].
  pose proof (Hp h (Hsub h Hh)) as Hok.
  apply (ok_pred_intro (i + 1) h t1); [lia|apply Hok|done|done|].
  intros J HJ.
  destruct (contains_interval J (tkey t1) (tkey xt)) eqn:HC; [done|].
  pose proof (IL_removeAll_survivor _ _ _ _ h J HP Hh HJ).
  specialize (Hcnt J HC). lia.
Qed.

(* --- the repair as a whole -------------------------------------------------- *)

Lemma ok_new_node i (h : Interval_handle) : okm_new x i h → oke x h.
Proof.
  intros Hok. split; [apply Hok|]. intros J HJ.
  destruct (ok_new_elim i h J Hok HJ) as (_ & _ & w & Hw & HC).
  exists xt. split; [apply elem_of_app; right; left|]. split; [done|].
  apply (contains_interval_point J (tkey xt) (tkey w)); [done|..].
  - apply Value_lt_irrefl.
  - apply Value_lt_asym. apply nxt_elem in Hw as [Hw _].
    by apply (sorted_after L1 L2 xt w).
Qed.

Lemma ok_pred_node i (h : Interval_handle) J t0 :
  okm_new (pred_at hd i L1) i h → c !! h = Some J → t0 ∈ L1 →
  pred_at hd i L1 = tptr t0 → contains J (tkey t0) = true →
  oke (pred_at hd i L1) h.
Proof.
  intros Hok HJ Ht0 E HC. split; [apply Hok|]. intros J' HJ'.
  assert (J' = J) as -> by congruence.
  exists t0. split; [by apply in_L1|done].
Qed.

(** adjustMarkersOnInsert(x, update), run after x has been spliced in,
    leaves sound markers. *)
Lemma adjustMarkersOnInsert_sound (s s' : state) u :
  mid s → adjustMarkersOnInsert x upd s = Ok (u, s') → fin s'.
Proof.
  intros Hmid Hrun. unfold adjustMarkersOnInsert in Hrun.
  pose proof Hmid as (Hwf & Hhd & Hc & Hm).
  mrun_in (rd_level s Hwf Hhd Hc) Hrun.
  replace (tlev xt + 1 - 1) with (tlev xt) in Hrun by lia.
  msplit Hrun as ip s1 H1. destruct ip as [i promoted].
  apply (insert_phase1_sound (tlev xt) 0 [] s) in H1
    as (Hmid1 & Hi & Hp); [|done|done|set_solver].
  clear Hwf Hhd Hc Hm. pose proof Hmid1 as (Hwf & Hhd & Hc & Hm).
  (* x->markers[i]->copy(&promoted) *)
  msplit Hrun as mi s2 Hg.
  apply (marks_within_get_markers _ _ _ _ _ _ _ Hm) in Hg as [-> Hmi].
  msplit Hrun as u1 s2 Hset.
  assert (Hmid2 : mid s2).
  { eapply framed_set_markers; [exact Hmid1| |exact Hset].
    intros h Hh. apply elem_of_IL_copy in Hh as [Hh|Hh]; [|auto].
    apply ok_mid_x. auto. }
  clear Hwf Hhd Hc Hm. pose proof Hmid2 as (Hwf & Hhd & Hc & Hm).
  (* x->markers[i]->copy(update[i]->markers[i]) *)
  mrun_in (rd_upd s2 Hwf Hhd Hc i Hi) Hrun.
  msplit Hrun as umi s3 Hg.
  apply (marks_within_get_markers _ _ _ _ _ _ _ Hm) in Hg as [-> Humi].
  msplit Hrun as mi2 s3 Hg.
  apply (marks_within_get_markers _ _ _ _ _ _ _ Hm) in Hg as [-> Hmi2].
  msplit Hrun as u2 s3 Hset2.
  assert (Hmid3 : mid s3).
  { eapply framed_set_markers; [exact Hmid2| |exact Hset2].
    intros h Hh. apply elem_of_IL_copy in Hh as [Hh|Hh]; [|auto].
    apply ok_mid_x. apply ok_from_pred; auto. }
  (* the eqMarkers of x->forward[i] *)
  msplit Hrun as u3 s4 Hf.
  apply (foldM_inv (λ _ _ s, mid s)) in Hf as Hmid4; [|done|].
  2:{ clear Hrun. intros pre m post [] sa [] sb -> Ha Hb.
      pose proof Ha as (Hwfa & Hhda & Hca & Hma).
      msplit Hb as Im sa' Hd. apply deref_inv in Hd as [-> Hd].
      rewrite Hca in Hd.
      destruct (ok_new_elim i m Im (Hp m ltac:(set_solver)) Hd)
        as (Hb' & _ & w & Hw & HC).
      mrun_in (rd_forward_key sa Hwfa Hhda Hca i w Hi Hw) Hb.
      destruct (contains Im (tkey w)) eqn:HCe; [|by injection Hb as <-].
      mrun_in (rd_forward sa Hwfa Hhda Hca i Hi) Hb. rewrite Hw in Hb.
      simpl in Hb. unfold nonnull in Hb. msimpl_in Hb.
      eapply framed_eqMarkers_insert; [exact Ha| |exact Hb].
      by apply (ok_node i m Im w). }
  apply mid_fin in Hmid4 as Hfin4.
  clear Hwf Hhd Hc Hm. pose proof Hfin4 as (Hwf & Hhd & Hc & Hm).
  (* Phase 2 *)
  mrun_in (rd_level s4 Hwf Hhd Hc) Hrun.
  replace (tlev xt + 1 - 1) with (tlev xt) in Hrun by lia.
  msplit Hrun as ip s5 H2. destruct ip as [j promoted2].
  apply (insert_phase2_sound (tlev xt) 0 [] s4) in H2
    as (Hfin5 & Hj & Hp2); [|done|done|set_solver].
  clear Hwf Hhd Hc Hm. pose proof Hfin5 as (Hwf & Hhd & Hc & Hm).
  mrun_in (rd_upd s5 Hwf Hhd Hc j Hj) Hrun.
  msplit Hrun as umj s6 Hg.
  apply (marks_within_get_markers _ _ _ _ _ _ _ Hm) in Hg as [-> Humj].
  msplit Hrun as u4 s6 Hset3.
  assert (Hfin6 : fin s6).
  { eapply framed_set_markers; [exact Hfin5| |exact Hset3].
    intros h Hh. apply elem_of_IL_copy in Hh as [Hh|Hh]; auto. }
  msplit Hrun as u5 s7 Hf2. unfold mark_eq_if_contains in Hf2.
  apply (foldM_inv (λ _ _ s, fin s)) in Hf2 as Hfin7; [|done|].
  2:{ clear Hrun. intros pre m post [] sa [] sb -> Ha Hb.
      pose proof Ha as (Hwfa & Hhda & Hca & Hma).
      msplit Hb as Im sa' Hd. apply deref_inv in Hd as [-> Hd].
      rewrite Hca in Hd.
      pose proof (Hp2 m ltac:(set_solver)) as Hm_ok.
      destruct (ok_pred_elim j m Im Hj Hm_ok Hd) as (tj & Htj & Ej & HCj).
      rewrite Ej in Hb.
      mrun_in (rd_key sa Hwfa Hhda Hca tj (in_L1 _ Htj)) Hb.
      destruct (contains Im (tkey tj)) eqn:HCe; [|by injection Hb as <-].
      eapply framed_eqMarkers_insert; [exact Ha| |exact Hb].
      rewrite <- Ej. by apply (ok_pred_node j m Im tj). }
  clear Hwf Hhd Hc Hm. pose proof Hfin7 as (Hwf & Hhd & Hc & Hm).
  (* the markers of x are also markers of the node x *)
  mrun_in (rd_level s7 Hwf Hhd Hc) Hrun.
  apply (for_up_inv (λ _ _ s, fin s)) in Hrun; [done|done|].
  intros k [] sa [] sb _ Hk Ha Hb.
  pose proof Ha as (Hwfa & Hhda & Hca & Hma).
  msplit Hb as mk sa' Hg.
  apply (marks_within_get_markers _ _ _ _ _ _ _ Hma) in Hg as [-> Hmk].
  msplit Hb as e sa' Hg.
  apply (marks_within_get_eqMarkers _ _ _ _ _ _ Hma) in Hg as [-> He].
  eapply framed_set_eqMarkers; [exact Ha| |exact Hb].
  intros h Hh. apply elem_of_IL_copy in Hh as [Hh|Hh]; [|auto].
  apply (ok_new_node k). auto.
Qed.

End InsertRepair.

(* ====================================================================== *)
(*  Sound markers through insert(const Value&)                            *)
(* ====================================================================== *)

Section InsertValue.

Context {Value Interval : Type} `{!IntervalType Value Interval}.
Context `{!ValueOrder Value Interval} `{!ClosedIntervals Value Interval}.

Local Abbreviation state := (Interval_skip_list Value Interval).
Local Abbreviation node := (IntervalSLnode Value).
Local Abbreviation tower := (tower Value).
Local Abbreviation pred_at := (pred_at (Value:=Value)).
Local Abbreviation split_by := (split_by (Value:=Value)).
Local Abbreviation fill_update := (fill_update (Value:=Value)).
Local Abbreviation tkey := (tkey (Value:=Value)).
Local Abbreviation wf := (wf (Value:=Value) (Interval:=Interval)).
Local Abbreviation marks_within := (marks_within (Value:=Value) (Interval:=Interval)).
Local Abbreviation node_mark := (node_mark (Value:=Value) (Interval:=Interval)).
Local Abbreviation sound_at := (sound_at (Value:=Value) (Interval:=Interval)).
Local Abbreviation Sound := (Sound (Value:=Value) (Interval:=Interval)).
Local Abbreviation sorted :=
  (StronglySorted (λ a b : tower, Value_lt (tkey a) (tkey b) = true)).

Lemma marks_within_heap okm oke (s s' : state) :
  heap s' = heap s → marks_within okm oke s → marks_within okm oke s'.
Proof. intros Hh Hm a na Ha. rewrite Hh in Ha. by apply Hm. Qed.

(** The header's marker lists of the levels a new node adds are cleared. *)
Lemma raise_levels_marks okm oke (s s' : state) nl upd upd' :
  marks_within okm oke s →
  (if decide (maxLevel s < nl) then
     let* update :=
       for_up (nl - maxLevel s) (maxLevel s + 1)
         (λ i update,
            let* update := upd_set update i (header s) in
            let* l := get_markers (header s) i in
            let* _ := set_markers (header s) i (IL_clear l) in
            ret update)
         upd in
     let* _ := set_maxLevel nl in
     ret update
   else ret upd) s = Ok (upd', s') →
  marks_within okm oke s'.
Proof.
  intros Hm. destruct (decide _); [|by intros [= _ <-]].
  intros Hrun. msplit Hrun as u1 s1 Hloop.
  apply (for_up_inv (λ _ _ s, marks_within okm oke s)) in Hloop; [|done|].
  - msplit Hrun as u2 s2 Hml. injection Hrun as _ <-.
    apply set_maxLevel_inv in Hml as (_ & Hh & _).
    by eapply marks_within_heap.
  - clear Hrun. intros i b sa b' sb _ _ Ha Hb.
    msplit Hb as u sa' Hu. apply upd_set_inv in Hu as (-> & _ & ->).
    msplit Hb as ml sa' Hg. apply get_markers_inv in Hg as (-> & _).
    msplit Hb as u3 sa' Hset. injection Hb as _ <-.
    eapply marks_within_set_markers; [exact Ha| |exact Hset].
    intros h Hh. by apply elem_of_nil in Hh.
Qed.

(** A new node has no marks. *)
Lemma marks_within_alloc okm oke (s s' : state) q nl x :
  alloc (new_node q nl) s = Ok (x, s') → heap s !! x = None →
  marks_within okm oke s →
  marks_within (λ a i h, a ≠ x ∧ okm a i h) (λ a h, a ≠ x ∧ oke a h) s'.
Proof.
  intros Ha Hx Hm. apply alloc_inv in Ha as (_ & Hh & _).
  intros a na Hna. rewrite Hh in Hna.
  apply lookup_insert_Some in Hna as [[<- <-]|[Hne Hna]].
  - split.
    + intros i l h Hl Hin. simpl in Hl.
      apply lookup_replicate in Hl as [-> _]. by apply elem_of_nil in Hin.
    + intros h Hin. by apply elem_of_nil in Hin.
  - destruct (Hm a na Hna) as [H1 H2]. split.
    + intros i l h Hl Hin. split; [done|eauto].
    + intros h Hin. split; [done|eauto].
Qed.

(** The branch of insert(const Value&) that makes a node keeps the markers
    sound. *)
Lemma insert_new_node_sound (s s' : state) L1 L2 q upd x :
  wf s (L1 ++ L2) → split_by (λ k, Value_lt k q) L1 L2 →
  (∀ t, t ∈ L1 ++ L2 → tkey t ≠ q) →
  length upd = MAX_FORWARD →
  (∀ i, i ≤ maxLevel s →
        upd !! i = Some (Some (pred_at (header s) i L1))) →
  sound_at s (L1 ++ L2) →
  insert_new_node q upd s = Ok (x, s') →
  ∃ nl, wf s' (L1 ++ (x, q, nl) :: L2) ∧
        sound_at s' (L1 ++ (x, q, nl) :: L2).
Proof.
  intros Hwf Hsp Hne Hlen Hupd Hso Hrun. unfold insert_new_node in Hrun.
  unfold sound_at in Hso.
  set (c := container s) in *. set (cn := container_next s) in *.
  msplit Hrun as nl s1 Hr.
  apply randomLevel_inv in Hr as (Hnl & Hm1 & Hh1 & Hn1 & Hd1 & Hc1 & Hcn1).
  assert (Hwf1 : wf s1 (L1 ++ L2)).
  { eapply wf_ext; [exact Hh1|exact Hd1|exact Hn1|lia| |exact Hwf].
    rewrite Hm1. apply Hwf. }
  pose proof (marks_within_heap _ _ _ _ Hh1 Hso) as Hso1.
  msimpl_in Hrun.
  msplit Hrun as upd' s3 Hraise.
  pose proof (raise_levels_marks _ _ _ _ _ _ _ Hso1 Hraise) as Hso3.
  apply (raise_levels_spec s1 s3 L1 L2) in Hraise
    as (Hwf3 & Hnl3 & Hd3 & Hupd3 & Hc3 & Hcn3 & Ho3);
    [|done|lia|done|by intros i Hi; rewrite Hd1; apply Hupd; lia].
  msplit Hrun as x' s4 Ha.
  set (xt := (x', q, nl) : tower) in *.
  assert (Hsorted : sorted (L1 ++ xt :: L2)).
  { apply sorted_insert; [apply Hwf|done|]. intros t Ht. apply Hne.
    set_solver. }
  pose proof Ha as Ha'. apply alloc_inv in Ha'
    as (Ex & Hh4 & Hn4 & Hd4 & Hm4 & Hc4 & Hcn4 & _).
  destruct (nodes_ok_alloc s3 s4 L1 L2 q nl x' Hwf3 Hsorted Hnl3 Ha)
    as (Hok4 & Hl4 & Hfresh).
  pose proof (marks_within_alloc _ _ _ _ _ _ _ Ha Hfresh Hso3) as Hso4.
  msplit Hrun as [] s5 Hsplice.
  apply (splice_in_loop _ 0 s4 s5 L1 L2 xt) in Hsplice
    as (Hsm & Hwf5); [|done|intros i Hi; lia|by intros i _ Hi; apply Hl4
                      |simpl; lia|].
  2:{ intros i Hi. rewrite Hd4, Hd3. apply Hupd3. exact Hi. }
  pose proof (marks_within_same_marking _ _ _ _ Hsm Hso4) as Hso5.
  pose proof Hsm as (_ & Hc5 & Hcn5 & _ & Hd5 & _).
  msplit Hrun as [] s6 Hadj. injection Hrun as <- <-.
  assert (Hhd5 : header s5 = header s) by congruence.
  assert (Hcs5 : container s5 = c) by (unfold c; congruence).
  assert (Hmid : framed (okm_mid c cn L1 L2 xt)
                   (node_mark c cn (L1 ++ xt :: L2)) (header s)
                   (L1 ++ xt :: L2) c s5).
  { split; [done|]. split; [done|]. split; [done|].
    eapply marks_within_mono; [| |exact Hso5].
    - intros a i h [Hna Hok]. unfold okm_mid.
      by rewrite decide_False.
    - intros a h [Hna [Hb Hok]]. split; [done|]. intros J HJ.
      apply node_in_insert. auto. }
  pose proof Hadj as Hadj'.
  apply (adjustMarkersOnInsert_sound (header s) L1 L2 xt upd' c cn) in Hadj
    as (Hwf6 & Hhd6 & Hc6 & Hm6); [| | |done|done].
  - exists nl. split; [done|]. unfold sound_at.
    pose proof (adjustMarkersOnInsert_same_shape _ _ _ _ _ Hadj')
      as (_ & _ & Hcn6 & _).
    replace (container s6) with c by done.
    replace (container_next s6) with cn by (unfold cn; congruence).
    done.
  - intros i Hi. rewrite <- Hd1. apply Hupd3. exact Hi.
  - rewrite <- Hhd5. apply (wf_nodup _ _ Hwf5).
Qed.

(** insert(const Value&) keeps the markers sound. *)
Lemma insert_value_sound (s s' : state) q x :
  Sound s → insert_value q s = Ok (x, s') → Sound s'.
Proof.
  intros (L & Hwf & Hso) Hrun.
  destruct (sorted_split (λ k, Value_lt k q) L (lower_test_lt q)
              (wf_sorted _ _ Hwf)) as (L1 & L2 & -> & Hsp).
  pose proof (wf_maxLevel _ _ Hwf) as Hmax.
  unfold insert_value in Hrun.
  assert (Hlen : maxLevel s < length new_update)
    by (rewrite new_update_length; lia).
  mrun_in (search_update_spec s L1 L2 q new_update Hwf Hsp Hlen) Hrun.
  assert (Hnew : (∀ t0, head L2 = Some t0 → tkey t0 ≠ q) →
    insert_new_node q
      (fill_update (header s) L1 (maxLevel s + 1) new_update) s
      = Ok (x, s') → Sound s').
  { intros Hhd Hnew.
    pose proof (absent_all L1 L2 q (wf_sorted _ _ Hwf) Hsp Hhd) as Hne.
    apply (insert_new_node_sound s s' L1 L2) in Hnew
      as (nl & Hwf' & Hso'); try done.
    - by exists (L1 ++ (x, q, nl) :: L2).
    - by rewrite fill_update_length, new_update_length.
    - intros i Hi. apply fill_update_lt; [lia|].
      rewrite new_update_length. lia. }
  destruct L2 as [|t0 L2]; simpl in Hrun.
  - msimpl_in Hrun. by apply Hnew.
  - destruct (wf_nodes _ _ Hwf t0) as (n0 & Hn0 & _ & Hk0 & _);
      [set_solver|].
    mrun_in (get_key_Ok _ _ _ Hn0) Hrun. unfold Value_ne in Hrun.
    rewrite Hk0 in Hrun.
    destruct (decide (tkey t0 = q)) as [E|E].
    + rewrite bool_decide_true in Hrun by done. simpl in Hrun.
      injection Hrun as <- <-. by exists (L1 ++ t0 :: L2).
    + rewrite bool_decide_false in Hrun by done. simpl in Hrun.
      apply Hnew; [|done]. intros t [= <-]. done.
Qed.

End InsertValue.

(* ====================================================================== *)
(*  Sound markers through placeMarkers                                    *)
(* ====================================================================== *)

Section Place.

Context {Value Interval : Type} `{!IntervalType Value Interval}.
Context `{!ValueOrder Value Interval} `{!ClosedIntervals Value Interval}.

Local Abbreviation state := (Interval_skip_list Value Interval).
Local Abbreviation node := (IntervalSLnode Value).
Local Abbreviation tower := (tower Value).
Local Abbreviation store := (gmap Interval_handle Interval).
Local Abbreviation nxt := (nxt (Value:=Value)).
Local Abbreviation tptr := (tptr (Value:=Value)).
Local Abbreviation tkey := (tkey (Value:=Value)).
Local Abbreviation tlev := (tlev (Value:=Value)).
Local Abbreviation wf := (wf (Value:=Value) (Interval:=Interval)).
Local Abbreviation same_shape := (same_shape (Value:=Value) (Interval:=Interval)).
Local Abbreviation edge_in := (edge_in (Value:=Value) (Interval:=Interval)).
Local Abbreviation edge_mark := (edge_mark (Value:=Value) (Interval:=Interval)).
Local Abbreviation node_mark := (node_mark (Value:=Value) (Interval:=Interval)).
Local Abbreviation sorted :=
  (StronglySorted (λ a b : tower, Value_lt (tkey a) (tkey b) = true)).

(* --- reading the edges of a key node ---------------------------------------- *)

Lemma tower_key (s : state) L t :
  wf s L → t ∈ L → get_key (tptr t) s = Ok (tkey t, s).
Proof.
  intros Hwf Ht. destruct (wf_nodes _ _ Hwf t Ht) as (n & Hn & _ & Hk & _).
  rewrite <- Hk. by apply get_key_Ok.
Qed.

Lemma tower_forward (s : state) L t i f s' :
  wf s L → t ∈ L → get_forward (tptr t) i s = Ok (f, s') →
  s' = s ∧
  ∃ La Lb, L = La ++ t :: Lb ∧ i ≤ tlev t ∧ f = tptr <$> nxt i Lb.
Proof.
  intros Hwf Ht Hg. apply get_forward_inv in Hg as (-> & n & Hn & Hf).
  split; [done|]. pose proof Ht as Ht'.
  apply list_elem_of_split in Ht' as (La & Lb & ->). exists La, Lb.
  split; [done|].
  destruct (wf_nodes _ _ Hwf t Ht) as (n' & Hn' & _ & _ & _ & Hlen & _).
  assert (n' = n) as -> by congruence.
  assert (Hi : i ≤ tlev t) by (apply lookup_lt_Some in Hf; lia).
  split; [done|].
  destruct (wf_edge s La t Lb i Hwf Hi) as (n2 & Hn2 & _ & _ & _ & Hf2).
  congruence.
Qed.

Lemma edge_contained_true (s : state) L t i Iv s' :
  wf s L → t ∈ L → edge_contained Iv (tptr t) i s = Ok (true, s') →
  s' = s ∧
  ∃ La Lb t', L = La ++ t :: Lb ∧ i ≤ tlev t ∧ nxt i Lb = Some t' ∧
              contains_interval Iv (tkey t) (tkey t') = true ∧
              get_forward (tptr t) i s = Ok (Some (tptr t'), s).
Proof.
  intros Hwf Ht Hrun. unfold edge_contained in Hrun.
  msplit Hrun as f s1 Hg. pose proof Hg as Hg'.
  apply (tower_forward s L t) in Hg as (-> & La & Lb & E & Hi & ->);
    [|done..].
  destruct (nxt i Lb) as [t'|] eqn:Hn; simpl in Hrun; [|done].
  assert (Ht' : t' ∈ L).
  { apply nxt_elem in Hn as [Hn _]. rewrite E. set_solver. }
  mrun_in (tower_key s L t Hwf Ht) Hrun.
  mrun_in (tower_key s L t' Hwf Ht') Hrun.
  injection Hrun as HC <-. split; [done|]. exists La, Lb, t'. done.
Qed.

Lemma edge_contained_edge_in (s : state) L t i Iv s' :
  wf s L → t ∈ L → edge_contained Iv (tptr t) i s = Ok (true, s') →
  edge_in L (tptr t) i Iv.
Proof.
  intros Hwf Ht Hrun.
  destruct (edge_contained_true s L t i Iv s' Hwf Ht Hrun)
    as (_ & La & Lb & t' & E & Hi & Hn & HC & _).
  exists La, t, Lb, t'. done.
Qed.

Lemma raise_level_true fuel (s : state) Iv x i j s' :
  edge_contained Iv x i s = Ok (true, s) →
  raise_level fuel Iv x i s = Ok (j, s') →
  s' = s ∧ edge_contained Iv x j s = Ok (true, s).
Proof.
  revert i. induction fuel as [|fuel IH]; intros i Hc; simpl; [done|].
  intros Hrun. msplit Hrun as lv s1 Hl.
  pose proof (preserves_get_level eq _ _ _ _ Hl) as <-.
  destruct (bool_decide _); [|by injection Hrun as <- <-].
  msplit Hrun as c1 s1 Hc1.
  pose proof (preserves_edge_contained eq _ _ _ _ _ _ Hc1) as <-.
  destruct c1; [|by injection Hrun as <- <-].
  apply (IH (S i)); [|done]. by rewrite <- Nat.add_1_r.
Qed.

Lemma lower_level_inv (s : state) Iv a i j s' :
  lower_level Iv a i s = Ok (j, s') →
  s' = s ∧ (j = 0 ∨ edge_contained Iv a j s = Ok (true, s)).
Proof.
  induction i as [|i IH]; simpl.
  - intros [= <- <-]. auto.
  - intros Hrun. msplit Hrun as c1 s1 Hc1.
    pose proof (preserves_edge_contained eq _ _ _ _ _ _ Hc1) as <-.
    destruct c1; cbn [negb] in Hrun; [|by apply IH].
    injection Hrun as <- <-. auto.
Qed.

(* --- the staircase ------------------------------------------------------------ *)

Variables (hd : ptr) (L : list tower) (c : store) (cn : Interval_handle).
Variables (I : Interval_handle) (Iv : Interval).

Hypothesis HI : c !! I = Some Iv.
Hypothesis HIcn : I < cn.
Hypothesis Hsorted : sorted L.

Local Abbreviation okm := (edge_mark c cn L).
Local Abbreviation oke := (node_mark c cn L).
Local Abbreviation snd := (framed okm oke hd L c).

Lemma ok_edge a i : edge_in L a i Iv → okm a i I.
Proof using All.
  intros He. split; [done|]. intros J HJ.
  assert (J = Iv) as -> by congruence. done.
Qed.

Lemma ok_at t : t ∈ L → contains Iv (tkey t) = true → oke (tptr t) I.
Proof using All.
  intros Ht HC. split; [done|]. intros J HJ.
  assert (J = Iv) as -> by congruence. by exists t.
Qed.

Lemma mark_node (s s' : state) t u :
  snd s → t ∈ L →
  (if contains Iv (tkey t) then eqMarkers_insert (tptr t) I else ret tt) s
  = Ok (u, s') →
  snd s'.
Proof using All.
  intros Hs Ht Hrun. destruct (contains Iv (tkey t)) eqn:HC.
  - eapply framed_eqMarkers_insert; [exact Hs| |exact Hrun]. by apply ok_at.
  - by injection Hrun as _ <-.
Qed.

Lemma place_ascending_sound fuel (s : state) t i x j s' :
  snd s → t ∈ L → Value_lt (tkey t) (inf Iv) = false →
  place_ascending fuel I (tptr t) i s = Ok ((x, j), s') →
  snd s' ∧ ∃ t', t' ∈ L ∧ x = tptr t' ∧ Value_lt (tkey t') (inf Iv) = false.
Proof using All.
  revert s t i. induction fuel as [|fuel IH]; intros s t i Hs Ht Hinf; simpl;
    [done|].
  intros Hrun. pose proof Hs as (Hwf & Hhd & Hc & Hm).
  mrun_in (deref_Ok s I Iv ltac:(by rewrite Hc)) Hrun.
  msplit Hrun as c1 s1 Hc1.
  pose proof (preserves_edge_contained eq _ _ _ _ _ _ Hc1) as <-.
  destruct c1; [|injection Hrun as <- <- <-; eauto].
  msplit Hrun as k s1 Hr. unfold raise in Hr.
  msplit Hr as lv s2 Hl. pose proof (preserves_get_level eq _ _ _ _ Hl) as <-.
  apply (raise_level_true _ _ _ _ _ _ _ Hc1) in Hr as [-> Hck].
  destruct (edge_contained_true s L t k Iv s Hwf Ht Hck)
    as (_ & La & Lb & t' & E & Hk & Hn & HC & Hf).
  mrun_in Hf Hrun.
  assert (Ht' : t' ∈ L).
  { apply nxt_elem in Hn as [Hn _]. rewrite E. set_solver. }
  msplit Hrun as u1 s1 Hins.
  assert (Hs1 : snd s1).
  { eapply framed_markers_insert; [exact Hs| |exact Hins].
    apply ok_edge. by exists La, t, Lb, t'. }
  pose proof Hs1 as (Hwf1 & _).
  mrun_in (tower_key s1 L t' Hwf1 Ht') Hrun.
  msplit Hrun as u2 s2 Heq.
  apply (mark_node _ _ _ _ Hs1 Ht') in Heq.
  apply (IH s2 t' k Heq Ht'); [|done].
  apply Value_lt_asym. apply (Value_le_lt_trans _ (tkey t)); [done|].
  rewrite E in Hsorted. apply nxt_elem in Hn as [Hn _].
  by apply (sorted_after La Lb t t').
Qed.

(** A descending walk that returns has started at or before the right end
    point. *)
Lemma place_descending_reach fuel (s : state) tr t i u s' :
  wf s L → tr ∈ L → t ∈ L →
  place_descending fuel I (tptr tr) (Some (tptr t)) i s = Ok (u, s') →
  Value_lt (tkey tr) (tkey t) = false.
Proof using All.
  revert s t i. induction fuel as [|fuel IH]; intros s t i Hwf Htr Ht; simpl;
    [done|].
  intros Hrun. msimpl_in Hrun.
  mrun_in (tower_key s L t Hwf Ht) Hrun.
  mrun_in (tower_key s L tr Hwf Htr) Hrun.
  unfold Value_ne in Hrun.
  destruct (decide (tkey t = tkey tr)) as [E|E].
  { rewrite E. apply Value_lt_irrefl. }
  rewrite bool_decide_false in Hrun by done. cbn [negb] in Hrun.
  msplit Hrun as Jv s1 Hd. apply deref_inv in Hd as [-> _].
  msplit Hrun as k s1 Hlow. apply lower_level_inv in Hlow as [-> _].
  msplit Hrun as u1 s1 Hins.
  apply (preserves_markers_insert same_shape) in Hins;
    [|apply _..|apply set_markers_same_shape].
  pose proof (wf_same_shape _ _ _ Hins Hwf) as Hwf1.
  msplit Hrun as f s2 Hg.
  apply (tower_forward s1 L t) in Hg as (-> & La & Lb & E' & Hk & ->);
    [|done..].
  destruct (nxt k Lb) as [t'|] eqn:Hn; simpl in Hrun; [|done].
  msimpl_in Hrun.
  assert (Ht' : t' ∈ L).
  { apply nxt_elem in Hn as [Hn _]. rewrite E'. set_solver. }
  mrun_in (tower_key s1 L t' Hwf1 Ht') Hrun.
  msplit Hrun as u2 s2 Heq.
  assert (Hwf2 : wf s2 L).
  { destruct (contains Jv (tkey t')); [|by injection Heq as _ <-].
    apply (preserves_eqMarkers_insert same_shape) in Heq;
      [|apply _..|apply set_eqMarkers_same_shape].
    by eapply wf_same_shape. }
  pose proof (IH s2 t' k Hwf2 Htr Ht' Hrun) as Hle.
  apply Value_lt_asym. apply (Value_lt_le_trans _ (tkey t')); [|done].
  rewrite E' in Hsorted. apply nxt_elem in Hn as [Hn _].
  by apply (sorted_after La Lb t t').
Qed.

Lemma place_descending_sound fuel (s : state) tr t i u s' :
  snd s → tr ∈ L → t ∈ L →
  Value_lt (tkey t) (inf Iv) = false → Value_lt (sup Iv) (tkey tr) = false →
  place_descending fuel I (tptr tr) (Some (tptr t)) i s = Ok (u, s') →
  snd s'.
Proof using All.
  revert s t i. induction fuel as [|fuel IH];
    intros s t i Hs Htr Ht Hinf Hsup; simpl; [done|].
  intros Hrun. pose proof Hs as (Hwf & Hhd & Hc & Hm). msimpl_in Hrun.
  mrun_in (tower_key s L t Hwf Ht) Hrun.
  mrun_in (tower_key s L tr Hwf Htr) Hrun.
  destruct (Value_ne (tkey t) (tkey tr)); [|by injection Hrun as _ <-].
  mrun_in (deref_Ok s I Iv ltac:(by rewrite Hc)) Hrun.
  msplit Hrun as k s1 Hlow. apply lower_level_inv in Hlow as [-> Hk].
  msplit Hrun as u1 s1 Hins.
  pose proof Hins as Hsh.
  apply (preserves_markers_insert same_shape) in Hsh;
    [|apply _..|apply set_markers_same_shape].
  pose proof (wf_same_shape _ _ _ Hsh Hwf) as Hwf1.
  msplit Hrun as f s2 Hg.
  apply (tower_forward s1 L t) in Hg as (-> & La & Lb & E' & Hkl & ->);
    [|done..].
  destruct (nxt k Lb) as [t'|] eqn:Hn; simpl in Hrun; [|done].
  msimpl_in Hrun.
  assert (Ht' : t' ∈ L).
  { apply nxt_elem in Hn as [Hn' _]. rewrite E'. set_solver. }
  assert (Hlt : Value_lt (tkey t) (tkey t') = true).
  { rewrite E' in Hsorted. apply nxt_elem in Hn as [Hn' _].
    by apply (sorted_after La Lb t t'). }
  mrun_in (tower_key s1 L t' Hwf1 Ht') Hrun.
  msplit Hrun as u2 s2 Heq.
  assert (Hwf2 : wf s2 L).
  { destruct (contains Iv (tkey t')); [|by injection Heq as _ <-].
    apply (preserves_eqMarkers_insert same_shape) in Heq;
      [|apply _..|apply set_eqMarkers_same_shape].
    by eapply wf_same_shape. }
  pose proof (place_descending_reach fuel s2 tr t' k u s' Hwf2 Htr Ht' Hrun)
    as Hreach.
  assert (He : edge_in L (tptr t) k Iv).
  { destruct Hk as [->|Hk]; [|by eapply (edge_contained_edge_in s)].
    exists La, t, Lb, t'. repeat (split; [done|]).
    apply contains_interval_closed. split; [done|].
    by apply (Value_le_trans _ (tkey tr)). }
  assert (Hs1 : snd s1).
  { eapply framed_markers_insert; [exact Hs| |exact Hins]. by apply ok_edge. }
  apply (mark_node _ _ _ _ Hs1 Ht') in Heq.
  apply (IH s2 t' k Heq Htr Ht'); [|done..].
  apply Value_lt_asym. by apply (Value_le_lt_trans _ (tkey t)).
Qed.

(** placeMarkers(left, right, I) keeps the markers sound, for an interval
    whose end points are not outside the keys of left and right. *)
Lemma placeMarkers_sound (s s' : state) tl tr u :
  snd s → tl ∈ L → tr ∈ L →
  Value_lt (tkey tl) (inf Iv) = false → Value_lt (sup Iv) (tkey tr) = false →
  placeMarkers (tptr tl) (tptr tr) I s = Ok (u, s') →
  snd s'.
Proof using All.
  intros Hs Htl Htr Hinf Hsup Hrun. unfold placeMarkers in Hrun.
  pose proof Hs as (Hwf & Hhd & Hc & Hm).
  mrun_in (deref_Ok s I Iv ltac:(by rewrite Hc)) Hrun.
  mrun_in (tower_key s L tl Hwf Htl) Hrun.
  msplit Hrun as u1 s1 Heq. apply (mark_node _ _ _ _ Hs Htl) in Heq.
  msimpl_in Hrun. msplit Hrun as xi s2 Hasc. destruct xi as [x i].
  apply (place_ascending_sound _ _ _ _ _ _ _ Heq Htl Hinf) in Hasc
    as (Hs2 & t' & Ht' & -> & Hinf').
  by eapply (place_descending_sound _ s2 tr t').
Qed.

End Place.

(* ====================================================================== *)
(*  Sound markers through insert(const Interval&)                         *)
(* ====================================================================== *)

Section InsertInterval.

Context {Value Interval : Type} `{!IntervalType Value Interval}.
Context `{!ValueOrder Value Interval} `{!ClosedIntervals Value Interval}.

Local Abbreviation state := (Interval_skip_list Value Interval).
Local Abbreviation tptr := (tptr (Value:=Value)).
Local Abbreviation tkey := (tkey (Value:=Value)).
Local Abbreviation wf := (wf (Value:=Value) (Interval:=Interval)).
Local Abbreviation same_structure := (same_structure (Value:=Value) (Interval:=Interval)).
Local Abbreviation sound_at := (sound_at (Value:=Value) (Interval:=Interval)).
Local Abbreviation Sound := (Sound (Value:=Value) (Interval:=Interval)).
Local Abbreviation owners := (owners (Value:=Value) (Interval:=Interval)).

Lemma Sound_same_structure (s s' : state) :
  same_structure s s' → Sound s → Sound s'.
Proof.
  intros Hss (L & Hwf & Hso). exists L.
  split; [by eapply wf_same_structure|].
  pose proof Hss as (_ & Hc & Hcn & _). unfold sound_at.
  rewrite <- Hc, <- Hcn. by eapply marks_within_same_structure.
Qed.

Lemma Sound_tower (s : state) L p k n :
  wf s L → owners s !! p = Some (false, k, n) →
  ∃ t, t ∈ L ∧ tptr t = p ∧ tkey t = k.
Proof.
  intros Hwf Hp. apply owners_lookup in Hp as (nd & Hnd & Hh & Hk & _).
  destruct (wf_key_node s L p nd Hwf Hnd Hh) as (t & Ht & Hp & Htk & _).
  exists t. split; [done|]. split; [done|]. congruence.
Qed.

(** insert(const Interval&) up to the call of placeMarkers: the end points
    have their key nodes and the interval is stored under the handle that
    is placed. *)
Lemma insert_places (s s' : state) Iv u :
  Sound s → insert Iv s = Ok (u, s') →
  ∃ (s5 : state) L5 tl tr,
    wf s5 L5 ∧ sound_at s5 L5 ∧ tl ∈ L5 ∧ tr ∈ L5 ∧
    tkey tl = inf Iv ∧ tkey tr = sup Iv ∧
    container s5 !! container_next s = Some Iv ∧
    container_next s < container_next s5 ∧
    placeMarkers (tptr tl) (tptr tr) (container_next s) s5 = Ok (u, s').
Proof.
  intros (L & Hwf & Hso) Hrun. unfold insert in Hrun.
  msplit Hrun as h s1 Hnew.
  apply container_new_inv in Hnew as (-> & Hc1 & Hcn1 & Hh1 & Hd1 & Hn1 & Hm1).
  set (h := container_next s) in *.
  assert (Hwf1 : wf s1 L).
  { eapply wf_ext; [done..|lia| |done]. rewrite Hm1. apply Hwf. }
  assert (Hs1 : Sound s1).
  { exists L. split; [done|]. unfold sound_at. rewrite Hc1, Hcn1.
    eapply marks_within_mono; [| |eapply marks_within_heap; [exact Hh1|exact Hso]].
    - intros a i k [Hb Hok]. split; [lia|]. intros J HJ.
      rewrite lookup_insert_ne in HJ by (unfold h; lia). auto.
    - intros a k [Hb Hok]. split; [lia|]. intros J HJ.
      rewrite lookup_insert_ne in HJ by (unfold h; lia). auto. }
  unfold insert_handle in Hrun.
  msplit Hrun as Jv s1' Hderef.
  apply deref_inv in Hderef as [-> HIv].
  rewrite Hc1, lookup_insert_eq in HIv. injection HIv as <-.
  msplit Hrun as l s2 Hl.
  pose proof (insert_value_sound _ _ _ _ Hs1 Hl) as Hs2.
  apply (insert_value_owners s1 s2 L) in Hl
    as ([L2 Hwf2] & Hc2 & Hcn2 & [nl Hol] & Hper2 & _); [|done].
  msplit Hrun as Jv s2' Hderef.
  apply deref_inv in Hderef as [-> HIv].
  rewrite Hc2, Hc1, lookup_insert_eq in HIv. injection HIv as <-.
  msplit Hrun as r s3 Hr.
  pose proof (insert_value_sound _ _ _ _ Hs2 Hr) as Hs3.
  apply (insert_value_owners s2 s3 L2) in Hr
    as ([L3 Hwf3] & Hc3 & Hcn3 & [nr Hor] & Hper3 & _); [|done].
  msplit Hrun as [] s4 Hadd1.
  destruct (Hper3 _ _ _ Hol) as [nl' Hol3].
  pose proof (ownerCount_add_spec _ _ _ _ _ Hadd1) as (_ & _ & Hss4 & _).
  apply (ownerCount_add_owners s3 s4 L3 l 1 _ (inf Iv) nl') in Hadd1
    as (Hwf4 & Hc4 & Hcn4 & Ho4); [|done..].
  pose proof (Sound_same_structure _ _ Hss4 Hs3) as Hs4.
  msplit Hrun as [] s5 Hadd2.
  assert (∃ nr', owners s4 !! r = Some (false, sup Iv, nr')) as [nr' Hor4].
  { rewrite Ho4. destruct (decide (r = l)) as [->|].
    - rewrite lookup_insert_eq. rewrite Hor in Hol3.
      injection Hol3 as -> _. eauto.
    - rewrite lookup_insert_ne by done. eauto. }
  assert (∃ nl4, owners s4 !! l = Some (false, inf Iv, nl4)) as [nl4 Hol4].
  { rewrite Ho4, lookup_insert_eq. eauto. }
  pose proof (ownerCount_add_spec _ _ _ _ _ Hadd2) as (_ & _ & Hss5 & _).
  apply (ownerCount_add_owners s4 s5 L3 r 1 _ (sup Iv) nr') in Hadd2
    as (Hwf5 & Hc5 & Hcn5 & Ho5); [|done..].
  pose proof (Sound_same_structure _ _ Hss5 Hs4) as (L5 & Hwf5' & Hso5).
  assert (∃ nl5, owners s5 !! l = Some (false, inf Iv, nl5)) as [nl5 Hol5].
  { rewrite Ho5. destruct (decide (l = r)) as [->|].
    - rewrite lookup_insert_eq. rewrite Hor4 in Hol4.
      injection Hol4 as -> _. eauto.
    - rewrite lookup_insert_ne by done. eauto. }
  assert (∃ nr5, owners s5 !! r = Some (false, sup Iv, nr5)) as [nr5 Hor5].
  { rewrite Ho5, lookup_insert_eq. eauto. }
  destruct (Sound_tower s5 L5 l _ _ Hwf5' Hol5) as (tl & Htl & <- & Hkl).
  destruct (Sound_tower s5 L5 r _ _ Hwf5' Hor5) as (tr & Htr & <- & Hkr).
  assert (HI5 : container s5 !! h = Some Iv).
  { rewrite Hc5, Hc4, Hc3, Hc2, Hc1. apply lookup_insert_eq. }
  assert (Hh5 : h < container_next s5).
  { rewrite Hcn5, Hcn4, Hcn3, Hcn2, Hcn1. lia. }
  exists s5, L5, tl, tr. done.
Qed.

(** insert(const Interval&) keeps the markers sound. *)
Lemma insert_sound (s s' : state) Iv u :
  Sound s → insert Iv s = Ok (u, s') → Sound s'.
Proof.
  intros Hs Hrun.
  destruct (insert_places s s' Iv u Hs Hrun)
    as (s5 & L5 & tl & tr & Hwf5 & Hso5 & Htl & Htr & Hkl & Hkr & HI5 & Hh5
        & Hpl).
  pose proof (placeMarkers_same_shape _ _ _ _ _ _ Hpl)
    as (_ & Hc6 & Hcn6 & _).
  apply (placeMarkers_sound (header s5) L5 (container s5) (container_next s5)
           (container_next s) Iv HI5 Hh5 (wf_sorted _ _ Hwf5) s5 s' tl tr)
    in Hpl as (Hwf6 & _ & _ & Hm6); [|done|done|done|..].
  - exists L5. split; [done|]. unfold sound_at. by rewrite <- Hc6, <- Hcn6.
  - rewrite Hkl. apply Value_lt_irrefl.
  - rewrite Hkr. apply Value_lt_irrefl.
Qed.

End InsertInterval.

(* ====================================================================== *)
(*  The marker repair of a deletion                                       *)
(* ====================================================================== *)

Section DeleteGeometry.

Context {Value Interval : Type} `{!IntervalType Value Interval}.
Context `{!ValueOrder Value Interval} `{!ClosedIntervals Value Interval}.

Local Abbreviation tower := (tower Value).
Local Abbreviation nxt := (nxt (Value:=Value)).
Local Abbreviation pred_at := (pred_at (Value:=Value)).
Local Abbreviation tptr := (tptr (Value:=Value)).
Local Abbreviation tkey := (tkey (Value:=Value)).
Local Abbreviation tlev := (tlev (Value:=Value)).
Local Abbreviation edge_in := (edge_in (Value:=Value) (Interval:=Interval)).
Local Abbreviation node_in := (node_in (Value:=Value) (Interval:=Interval)).
Local Abbreviation sorted :=
  (StronglySorted (λ a b : tower, Value_lt (tkey a) (tkey b) = true)).

(** The tower [xt] that goes stands between [L1] and [L2]. *)
Variables (hd : ptr) (L1 L2 : list tower) (xt : tower).

Hypothesis Hnd : NoDup (hd :: (tptr <$> (L1 ++ xt :: L2))).
Hypothesis Hs : sorted (L1 ++ xt :: L2).

Local Abbreviation Lold := (L1 ++ xt :: L2).
Local Abbreviation Lnew := (L1 ++ L2).
Local Abbreviation x := (tptr xt).

Lemma nodup_old : NoDup (tptr <$> Lold).
Proof using All. by apply NoDup_cons_1_2 in Hnd. Qed.

Lemma sorted_L1 : sorted L1.
Proof using All. by apply StronglySorted_app in Hs as (_ & ? & _). Qed.

Lemma sorted_L2 : sorted L2.
Proof using All.
  apply StronglySorted_app in Hs as (_ & _ & H).
  by apply StronglySorted_cons in H as [_ ?].
Qed.

Lemma L1_lt_x t : t ∈ L1 → Value_lt (tkey t) (tkey xt) = true.
Proof using All. intros Ht. by apply (sorted_before L1 L2 xt t). Qed.

Lemma x_lt_L2 t : t ∈ L2 → Value_lt (tkey xt) (tkey t) = true.
Proof using All. intros Ht. by apply (sorted_after L1 L2 xt t). Qed.

Lemma L1_not_x t : t ∈ L1 → tptr t ≠ x.
Proof using All.
  intros Ht E. pose proof nodup_old as Hn.
  apply list_elem_of_split in Ht as (P & R & ->).
  rewrite <- app_assoc, <- app_comm_cons, fmap_app, fmap_cons in Hn.
  apply NoDup_app in Hn as (_ & _ & Hn). apply NoDup_cons_1_1 in Hn.
  apply Hn. rewrite E, fmap_app, fmap_cons. set_solver.
Qed.

Lemma L2_not_x t : t ∈ L2 → tptr t ≠ x.
Proof using All.
  intros Ht E. pose proof nodup_old as Hn.
  rewrite fmap_app, fmap_cons in Hn.
  apply NoDup_app in Hn as (_ & _ & Hn). apply NoDup_cons_1_1 in Hn.
  apply Hn. rewrite <- E. apply list_elem_of_fmap. eauto.
Qed.

Lemma tower_eq t t' : t ∈ Lold → t' ∈ Lold → tptr t = tptr t' → t = t'.
Proof using All.
  intros Ht Ht' E.
  by eapply (NoDup_fmap_elem_eq tptr); [apply nodup_old| | |].
Qed.

(** Where a tower of [L1], and of [L2], stands in the whole list. *)
Lemma split_L1 ta La Lb :
  ta ∈ L1 → Lold = La ++ ta :: Lb →
  ∃ rest, L1 = La ++ ta :: rest ∧ Lb = rest ++ xt :: L2.
Proof using All.
  intros Hta E. apply list_elem_of_split in Hta as (P & R & EL).
  assert (E' : P ++ ta :: (R ++ xt :: L2) = La ++ ta :: Lb).
  { rewrite <- E, EL, <- app_assoc. done. }
  destruct (split_unique P (R ++ xt :: L2) La Lb ta ta) as (-> & _ & <-);
    [|done|done|].
  - rewrite E', <- E. apply nodup_old.
  - by exists R.
Qed.

Lemma split_L2 ta La Lb :
  ta ∈ L2 → Lold = La ++ ta :: Lb →
  ∃ pre, L2 = pre ++ ta :: Lb ∧ La = L1 ++ xt :: pre.
Proof using All.
  intros Hta E. apply list_elem_of_split in Hta as (P & R & EL).
  assert (E' : (L1 ++ xt :: P) ++ ta :: R = La ++ ta :: Lb).
  { rewrite <- E, EL, <- app_assoc. done. }
  destruct (split_unique (L1 ++ xt :: P) R La Lb ta ta) as (<- & _ & <-);
    [|done|done|].
  - rewrite E', <- E. apply nodup_old.
  - by exists P.
Qed.

(* --- the last tower of a level before x -------------------------------------- *)

Lemma pred_at_last i La ta rest :
  L1 = La ++ ta :: rest → i ≤ tlev ta → Forall (λ t, tlev t < i) rest →
  pred_at hd i L1 = tptr ta.
Proof using All.
  intros -> Hi Hr. unfold pred_at.
  rewrite chain_app, chain_cons, decide_True, (chain_above i rest) by done.
  by rewrite last_snoc.
Qed.

Lemma pred_tower i t0 :
  t0 ∈ L1 → pred_at hd i L1 = tptr t0 →
  ∃ La Lb, L1 = La ++ t0 :: Lb ∧ i ≤ tlev t0 ∧ Forall (λ t, tlev t < i) Lb.
Proof using All.
  intros Ht0 Ep.
  destruct (pred_at_split hd i L1)
    as [[Eh _]|(La & t & Lb & E & Et & Ht & HLb)].
  - exfalso. pose proof Hnd as Hn. apply NoDup_cons_1_1 in Hn. apply Hn.
    rewrite <- Eh, Ep. apply list_elem_of_fmap. exists t0. set_solver.
  - assert (t = t0) as ->.
    { apply tower_eq; [rewrite E; set_solver|set_solver|congruence]. }
    eauto.
Qed.

(** The last tower of level i before x is not before the last tower of
    level i + 1. *)
Lemma pred_mono i t1 :
  t1 ∈ L1 → pred_at hd (S i) L1 = tptr t1 →
  ∃ ti, ti ∈ L1 ∧ pred_at hd i L1 = tptr ti ∧ i ≤ tlev ti ∧
        Value_lt (tkey ti) (tkey t1) = false.
Proof using All.
  intros Ht1 E1.
  destruct (pred_tower (S i) t1 Ht1 E1) as (La1 & Lb1 & EL1 & Hl1 & _).
  destruct (pred_at_split hd i L1)
    as [[_ Hall]|(La & ti & Lb & E & Et & Ht & HLb)].
  - rewrite Forall_forall in Hall. specialize (Hall t1 Ht1). lia.
  - exists ti. split; [rewrite E; set_solver|]. split; [done|].
    split; [done|]. pose proof sorted_L1 as Hs1. rewrite E in Ht1, Hs1.
    apply elem_of_app in Ht1 as [Ht1|Ht1].
    + apply Value_lt_asym. by apply (sorted_before La Lb ti t1).
    + apply elem_of_cons in Ht1 as [->|Ht1]; [apply Value_lt_irrefl|].
      rewrite Forall_forall in HLb. specialize (HLb t1 Ht1). lia.
Qed.

(* --- edges that stay, and the edge that replaces the edges at x -------------- *)

Lemma node_in_delete a J : a ≠ x → node_in Lold a J → node_in Lnew a J.
Proof using All.
  intros Ha (t & Ht & Hp & HC). exists t. split; [|done].
  apply elem_of_app in Ht as [Ht|Ht]; [set_solver|].
  apply elem_of_cons in Ht as [->|Ht]; [done|set_solver].
Qed.

(** The edge out of a tower of [L1] that is not the last of its level. *)
Lemma edge_in_left La ta rest tb i J :
  L1 = La ++ ta :: rest → i ≤ tlev ta → nxt i rest = Some tb →
  contains_interval J (tkey ta) (tkey tb) = true →
  edge_in Lnew (tptr ta) i J.
Proof using All.
  intros -> Hi Hn HC. exists La, ta, (rest ++ L2), tb.
  rewrite <- app_assoc. split; [done|]. split; [done|]. split; [done|].
  split; [|done]. by rewrite nxt_app, Hn.
Qed.

(** The edge out of a tower of [L2]. *)
Lemma edge_in_right pre ta Lb tb i J :
  L2 = pre ++ ta :: Lb → i ≤ tlev ta → nxt i Lb = Some tb →
  contains_interval J (tkey ta) (tkey tb) = true →
  edge_in Lnew (tptr ta) i J.
Proof using All.
  intros -> Hi Hn HC. exists (L1 ++ pre), ta, Lb, tb.
  rewrite <- app_assoc. done.
Qed.

(** The edge that takes the place of the edges into and out of x. *)
Lemma edge_in_pred_del i t0 w J :
  t0 ∈ L1 → pred_at hd i L1 = tptr t0 → nxt i L2 = Some w →
  contains_interval J (tkey t0) (tkey w) = true →
  edge_in Lnew (tptr t0) i J.
Proof using All.
  intros Ht0 Ep Hw HC.
  destruct (pred_tower i t0 Ht0 Ep) as (La & Lb & -> & Hi & HLb).
  exists La, t0, (Lb ++ L2), w. rewrite <- app_assoc.
  split; [done|]. split; [done|]. split; [done|]. split; [|done].
  apply nxt_None in HLb. by rewrite nxt_app, HLb.
Qed.

(** An edge that neither leaves x nor arrives at x is an edge of the list
    without x. *)
Lemma edge_in_delete_other a i J :
  a ≠ x → ¬ (a = pred_at hd i L1 ∧ i ≤ tlev xt) →
  edge_in Lold a i J → edge_in Lnew a i J.
Proof using All.
  intros Hax Hnp (La & t & Lb & t' & E & Ha & Hi & Hn & HC).
  assert (Ht : t ∈ Lold) by (rewrite E; set_solver).
  apply elem_of_app in Ht as [Ht|Ht];
    [|apply elem_of_cons in Ht as [->|Ht]; [done|]].
  - destruct (split_L1 t La Lb Ht E) as (rest & EL & ->).
    rewrite nxt_app in Hn. destruct (nxt i rest) as [tb|] eqn:Hr.
    + injection Hn as ->. subst a. by apply (edge_in_left La t rest t').
    + rewrite nxt_cons in Hn. destruct (decide (i ≤ tlev xt)).
      * exfalso. apply Hnp. split; [|done]. rewrite <- Ha. symmetry.
        apply (pred_at_last i La t rest); [done|done|by apply nxt_None].
      * subst a. exists La, t, (rest ++ L2), t'. rewrite EL, <- app_assoc.
        split; [done|]. split; [done|]. split; [done|]. split; [|done].
        by rewrite nxt_app, Hr.
  - destruct (split_L2 t La Lb Ht E) as (pre & EL & ->). subst a.
    by apply (edge_in_right pre t Lb t').
Qed.

(** One step along level i before x, from a tower that is not the last. *)
Lemma left_step i ta La Lb :
  ta ∈ L1 → i ≤ tlev ta → tptr ta ≠ pred_at hd i L1 →
  Lold = La ++ ta :: Lb →
  ∃ rest tb, L1 = La ++ ta :: rest ∧ nxt i rest = Some tb ∧
             nxt i Lb = Some tb ∧ tb ∈ L1 ∧
             Value_lt (tkey ta) (tkey tb) = true.
Proof using All.
  intros Hta Hi Hne E. destruct (split_L1 ta La Lb Hta E) as (rest & EL & ->).
  destruct (nxt i rest) as [tb|] eqn:Hr.
  - exists rest, tb. split; [done|]. split; [done|].
    split; [by rewrite nxt_app, Hr|].
    apply nxt_elem in Hr as [Hr _]. split; [rewrite EL; set_solver|].
    pose proof sorted_L1 as Hs1. rewrite EL in Hs1.
    by apply (sorted_after La rest ta tb).
  - exfalso. apply Hne. symmetry.
    apply (pred_at_last i La ta rest); [done|done|by apply nxt_None].
Qed.

(** The first tower of level i behind x is at or before the first tower
    of level i + 1. *)
Lemma right_start i w1 :
  nxt (S i) L2 = Some w1 →
  ∃ t0, nxt i L2 = Some t0 ∧ t0 ∈ L2 ∧
        (t0 = w1 ∨ Value_lt (tkey t0) (tkey w1) = true).
Proof using All.
  intros Hw. destruct (nxt_mono i (S i) L2 w1 sorted_L2 ltac:(lia) Hw)
    as (t0 & Ht0 & Hcase).
  exists t0. split; [done|]. split; [|done]. by apply nxt_elem in Ht0 as [? _].
Qed.

(** One step along level i behind x, before the first tower of level
    i + 1. *)
Lemma right_step i w1 ta La Lb :
  nxt (S i) L2 = Some w1 → ta ∈ L2 →
  Value_lt (tkey ta) (tkey w1) = true → Lold = La ++ ta :: Lb →
  ∃ pre tb, L2 = pre ++ ta :: Lb ∧ nxt i Lb = Some tb ∧ tb ∈ L2 ∧
            Value_lt (tkey ta) (tkey tb) = true ∧
            (tb = w1 ∨ Value_lt (tkey tb) (tkey w1) = true).
Proof using All.
  intros Hw Hta Hlt E. destruct (split_L2 ta La Lb Hta E) as (pre & EL & ->).
  pose proof sorted_L2 as Hs2. rewrite EL in Hs2, Hw.
  assert (Hw' : nxt (S i) Lb = Some w1).
  { rewrite nxt_app in Hw. destruct (nxt (S i) pre) as [t|] eqn:Hp.
    - injection Hw as ->. apply nxt_elem in Hp as [Hp _].
      pose proof (sorted_before pre Lb ta w1 Hs2 Hp) as Hlt'.
      apply Value_lt_asym in Hlt. congruence.
    - rewrite nxt_cons in Hw. destruct (decide _); [|done].
      injection Hw as ->. by rewrite Value_lt_irrefl in Hlt. }
  assert (Hsb : sorted Lb).
  { apply StronglySorted_app in Hs2 as (_ & _ & H).
    by apply StronglySorted_cons in H as [_ ?]. }
  destruct (nxt_mono i (S i) Lb w1 Hsb ltac:(lia) Hw') as (tb & Htb & Hcase).
  exists pre, tb. split; [done|]. split; [done|].
  apply nxt_elem in Htb as [Htb _].
  split; [rewrite EL; set_solver|]. split; [|done].
  by apply (sorted_after pre Lb ta tb).
Qed.

End DeleteGeometry.

(* --- loops that mark without asking ------------------------------------------ *)

Section Unguarded.

Context {Value Interval : Type} `{!IntervalType Value Interval}.
Context `{!ValueOrder Value Interval}.

Local Abbreviation state := (Interval_skip_list Value Interval).
Local Abbreviation tower := (tower Value).
Local Abbreviation store := (gmap Interval_handle Interval).

Variables (okm okm' : ptr → nat → Interval_handle → Prop).
Variable oke : ptr → Interval_handle → Prop.
Variables (hd : ptr) (L : list tower) (c : store).

Local Abbreviation fr := (framed okm oke hd L c).

Lemma get_key_inv (s s' : state) a k :
  get_key a s = Ok (k, s') → s' = s ∧ ∃ n, heap s !! a = Some n ∧ k = key n.
Proof.
  unfold get_key. intros E. apply bind_Ok_inv in E as (n & s1 & E1 & E2).
  apply node_at_inv in E1 as [-> E1]. cbv [ret] in E2.
  injection E2 as <- <-. eauto.
Qed.

(** Writing one marker list, while what the others may hold is widened. *)
Lemma framed_set_markers_shift (s s' : state) a i l u :
  fr s →
  (∀ b j h, ¬ (b = a ∧ j = i) → okm b j h → okm' b j h) →
  (∀ h, h ∈ l → okm' a i h) →
  set_markers a i l s = Ok (u, s') → framed okm' oke hd L c s'.
Proof.
  intros (Hwf & Hd & Hc & Hm) Hsh Hl Hrun.
  pose proof (set_markers_same_shape _ _ _ _ _ _ Hrun) as Hss.
  split; [by eapply wf_same_shape|].
  pose proof Hss as (_ & Hc' & _ & _ & Hd' & _).
  split; [congruence|]. split; [congruence|].
  apply set_markers_inv in Hrun as (n & Hx & Hi & _ & _ & Hh).
  intros b nb Hb. rewrite Hh in Hb.
  destruct (decide (b = a)) as [->|Hne].
  - rewrite lookup_insert_eq in Hb. injection Hb as <-. simpl.
    destruct (Hm a n Hx) as [Hmk Heq]. split; [|done].
    intros j l' h Hj Hin. destruct (decide (j = i)) as [->|].
    + rewrite list_lookup_insert_eq in Hj by done. injection Hj as <-. auto.
    + rewrite list_lookup_insert_ne in Hj by done.
      apply Hsh; [by intros [_ ?]|eauto].
  - rewrite lookup_insert_ne in Hb by done.
    destruct (Hm b nb Hb) as [Hmk Heq]. split; [|done].
    intros j l' h Hj Hin. apply Hsh; [by intros [? _]|eauto].
Qed.

Lemma framed_mark_eq_unless u1 y m (s s' : state) u :
  fr s →
  (∀ Im k, c !! m = Some Im → get_key y s = Ok (k, s) →
           contains Im k = true → oke y m) →
  mark_eq_unless u1 y m s = Ok (u, s') → fr s'.
Proof.
  intros Hf Hoke Hrun. unfold mark_eq_unless in Hrun.
  destruct (bool_decide (y ≠ u1)); [|by injection Hrun as _ <-].
  msplit Hrun as Im s1 Hd. apply deref_inv in Hd as [-> Hd].
  msplit Hrun as k s1 Hk. pose proof Hk as Hk'.
  apply get_key_inv in Hk' as [-> _].
  destruct (contains Im k) eqn:HC; [|by injection Hrun as _ <-].
  eapply framed_eqMarkers_insert; [exact Hf| |exact Hrun].
  pose proof Hf as (_ & _ & Hc & _). rewrite Hc in Hd. eauto.
Qed.

(** The walk of phase 1 along level i, over nodes that [P] describes. *)
Lemma framed_delete_place_left (P : ptr → Prop) fuel m i u1 ui y
    (s s' : state) r :
  fr s →
  (∀ a, P a → a ≠ ui → okm a i m) →
  (∀ a (s1 : state) b, fr s1 → P a → a ≠ ui →
        get_forward a i s1 = Ok (Some b, s1) → P b) →
  (∀ a (s1 : state) Im k, fr s1 → P a → c !! m = Some Im →
        get_key a s1 = Ok (k, s1) → contains Im k = true → oke a m) →
  (∀ a, y = Some a → P a) →
  delete_place_left fuel m i u1 ui y s = Ok (r, s') →
  fr s' ∧ ∀ a, r = Some a → P a.
Proof.
  intros Hf Hokm Hnext Hoke. revert y s Hf.
  induction fuel as [|fuel IH]; intros y s Hf Hy; simpl; [done|].
  destruct y as [a|]; [|intros [= <- <-]; split; [done|]; by intros ? ?].
  destruct (bool_decide (a = ui)) eqn:Ea.
  { intros [= <- <-]. split; [done|]. intros a' [= <-]. by apply Hy. }
  apply bool_decide_eq_false in Ea. intros Hrun.
  pose proof (Hy a eq_refl) as HP.
  msplit Hrun as u s1 H1.
  assert (Hf1 : fr s1).
  { eapply framed_mark_eq_unless; [exact Hf| |exact H1].
    intros Im k HIm Hk HC. by eapply (Hoke a s). }
  msplit Hrun as u' s2 H2.
  assert (Hf2 : fr s2).
  { eapply framed_markers_insert; [exact Hf1| |exact H2]. by apply Hokm. }
  msplit Hrun as y' s3 H3. pose proof H3 as H3'.
  apply (framed_get_forward _ _ _ _ _ _ _ _ _ _ Hf2) in H3' as ->.
  apply (IH y' s2 Hf2); [|done].
  intros b ->. by eapply (Hnext a s2).
Qed.

(** The walk of phase 2 along level i, over nodes that [P] describes, and
    [Q] when they come before the end of the walk. *)
Lemma framed_delete_place_right (P Q : ptr → Prop) fuel m i x y
    (s s' : state) u :
  fr s →
  (∀ a (s1 : state) stop, fr s1 → P a →
        get_forward x (i + 1) s1 = Ok (stop, s1) → Some a ≠ stop → Q a) →
  (∀ a, Q a → oke a m ∧ okm a i m) →
  (∀ a (s1 : state) b, fr s1 → Q a →
        get_forward a i s1 = Ok (Some b, s1) → P b) →
  (∀ a, y = Some a → P a) →
  delete_place_right fuel m i x y s = Ok (u, s') → fr s'.
Proof.
  intros Hf Hstop Hok Hnext. revert y s Hf.
  induction fuel as [|fuel IH]; intros y s Hf Hy; simpl; [done|].
  intros Hrun. msplit Hrun as stop s1 H1. pose proof H1 as H1'.
  apply (framed_get_forward _ _ _ _ _ _ _ _ _ _ Hf) in H1' as ->.
  destruct (bool_decide (y = stop)) eqn:Ey; [by injection Hrun as _ <-|].
  apply bool_decide_eq_false in Ey.
  destruct y as [a|]; [|done]. simpl in Hrun. msimpl_in Hrun.
  assert (HQ : Q a) by (eapply (Hstop a s stop); eauto).
  destruct (Hok a HQ) as [Hoke Hokm].
  msplit Hrun as u1 s1 H2.
  assert (Hf1 : fr s1) by (by eapply framed_eqMarkers_insert).
  msplit Hrun as u2 s2 H3.
  assert (Hf2 : fr s2) by (by eapply framed_markers_insert).
  msplit Hrun as y' s3 H4. pose proof H4 as H4'.
  apply (framed_get_forward _ _ _ _ _ _ _ _ _ _ Hf2) in H4' as ->.
  apply (IH y' s2 Hf2); [|done].
  intros b ->. by eapply (Hnext a s2).
Qed.

End Unguarded.

(* --- the repair ---------------------------------------------------------------- *)

Section DeleteRepair.

Context {Value Interval : Type} `{!IntervalType Value Interval}.
Context `{!ValueOrder Value Interval} `{!ClosedIntervals Value Interval}.

Local Abbreviation state := (Interval_skip_list Value Interval).
Local Abbreviation node := (IntervalSLnode Value).
Local Abbreviation M := (M Value Interval).
Local Abbreviation tower := (tower Value).
Local Abbreviation store := (gmap Interval_handle Interval).
Local Abbreviation nxt := (nxt (Value:=Value)).
Local Abbreviation pred_at := (pred_at (Value:=Value)).
Local Abbreviation tptr := (tptr (Value:=Value)).
Local Abbreviation tkey := (tkey (Value:=Value)).
Local Abbreviation tlev := (tlev (Value:=Value)).
Local Abbreviation edge_mark := (edge_mark (Value:=Value) (Interval:=Interval)).
Local Abbreviation node_mark := (node_mark (Value:=Value) (Interval:=Interval)).
Local Abbreviation count_val := (count_val (Value:=Value) (Interval:=Interval)).
Local Abbreviation sorted :=
  (StronglySorted (λ a b : tower, Value_lt (tkey a) (tkey b) = true)).

(** The tower [xt] that goes stands between [L1] and [L2]; [upd] is the
    update vector of the search, [c] the element store. *)
Variables (hd : ptr) (L1 L2 : list tower) (xt : tower) (upd : update_vec).
Variables (c : store) (cn : Interval_handle).

Hypothesis Hupd :
  ∀ i, i ≤ tlev xt → upd !! i = Some (Some (pred_at hd i L1)).
Hypothesis Hnd : NoDup (hd :: (tptr <$> (L1 ++ xt :: L2))).
Hypothesis Hs : sorted (L1 ++ xt :: L2).

Local Abbreviation Lold := (L1 ++ xt :: L2).
Local Abbreviation Lnew := (L1 ++ L2).
Local Abbreviation x := (tptr xt).
Local Abbreviation okm_old := (edge_mark c cn Lold).
Local Abbreviation okm_new := (edge_mark c cn Lnew).
Local Abbreviation oke := (node_mark c cn Lold).
Local Abbreviation okd :=
  (okm_del (Value:=Value) (Interval:=Interval) c cn hd L1 L2 xt).
Local Abbreviation inv k := (framed (okd k) oke hd Lold c).

Local Abbreviation rdF := (rd_forward hd L1 L2 xt upd c cn Hupd Hnd Hs).
Local Abbreviation rdU := (rd_upd hd L1 L2 xt upd c cn Hupd Hnd Hs).
Local Abbreviation rdK := (rd_key hd L1 L2 xt upd c cn Hupd Hnd Hs).
Local Abbreviation rdL := (rd_level hd L1 L2 xt upd c cn Hupd Hnd Hs).

(** A live mark demoted from an edge into x: its interval contains
    [update[k], x]. *)
Local Abbreviation D1 :=
  (λ (k : nat) (h : Interval_handle),
     h < cn ∧ ∀ J, c !! h = Some J →
       ∃ t1, t1 ∈ L1 ∧ pred_at hd k L1 = tptr t1 ∧
             contains_interval J (tkey t1) (tkey xt) = true).

(** A live mark demoted from an edge out of x: its interval contains
    [x, x->forward[k]]. *)
Local Abbreviation D2 :=
  (λ (k : nat) (h : Interval_handle),
     h < cn ∧ ∀ J, c !! h = Some J →
       ∃ w, nxt k L2 = Some w ∧
            contains_interval J (tkey xt) (tkey w) = true).

(** The interval [v] contains the edge that takes the place of the two
    level i edges at x. *)
Local Abbreviation covP :=
  (λ (i : nat) (v : Interval),
     ∃ t0 w, t0 ∈ L1 ∧ pred_at hd i L1 = tptr t0 ∧ nxt i L2 = Some w ∧
             contains_interval v (tkey t0) (tkey w) = true).

Lemma in_old_L1 t : t ∈ L1 → t ∈ Lold.
Proof using All. intros Ht. apply elem_of_app. by left. Qed.

Lemma in_old_L2 t : t ∈ L2 → t ∈ Lold.
Proof using All. intros Ht. apply elem_of_app. right. by right. Qed.

Lemma okd_x k i h : okd k x i h ↔ okm_old x i h.
Proof using All. unfold okm_del. rewrite decide_True; [done|by left]. Qed.

Lemma okd_pred k i h :
  i < k → i ≤ tlev xt →
  okd k (pred_at hd i L1) i h ↔ okm_old (pred_at hd i L1) i h.
Proof using All.
  intros ? ?. unfold okm_del. rewrite decide_True; [done|]. by right.
Qed.

Lemma okd_new k a i h : okm_new a i h → okd k a i h.
Proof using All.
  intros [Hb Hok]. unfold okm_del. destruct (decide _); [|done].
  split; [done|]. intros J HJ. apply edge_in_insert; [exact Hs|auto].
Qed.

Lemma okd_0 a i h : a ≠ x → okd 0 a i h → okm_new a i h.
Proof using All.
  intros Ha. unfold okm_del. rewrite decide_False; [done|].
  intros [?|(_ & ? & _)]; [done|lia].
Qed.

Lemma okd_dead k a i (h : Interval_handle) :
  h < cn → c !! h = None → okd k a i h.
Proof using All.
  intros Hb Hd. split; [done|]. intros J HJ. congruence.
Qed.

Lemma oke_dead a (h : Interval_handle) : h < cn → c !! h = None → oke a h.
Proof using All.
  intros Hb Hd. split; [done|]. intros J HJ. congruence.
Qed.

Lemma okd_init a i h : okm_old a i h → okd (tlev xt + 1) a i h.
Proof using All.
  intros [Hb Hok]. unfold okm_del. destruct (decide _) as [|Hn]; [done|].
  split; [done|]. intros J HJ.
  apply (edge_in_delete_other hd L1 L2 xt Hnd Hs); [tauto| |auto].
  intros [? ?]. apply Hn. right. split; [done|]. lia.
Qed.

Lemma okd_step k a j h :
  ¬ (a = pred_at hd k L1 ∧ j = k) → okd (S k) a j h → okd k a j h.
Proof using All.
  intros Hne. unfold okm_del.
  destruct (decide (a = x ∨ a = pred_at hd j L1 ∧ j < S k ∧ j ≤ tlev xt))
    as [H1|H1];
    destruct (decide (a = x ∨ a = pred_at hd j L1 ∧ j < k ∧ j ≤ tlev xt))
    as [H2|H2]; try done; exfalso.
  - destruct H1 as [?|(Ea & Hj & Hl)]; [apply H2; by left|].
    destruct (decide (j = k)) as [->|]; [by apply Hne|].
    apply H2. right. split; [done|]. lia.
  - apply H1. destruct H2 as [?|(? & ? & ?)]; [by left|].
    right. split; [done|]. lia.
Qed.

Lemma D1_old i h : i ≤ tlev xt → okm_old (pred_at hd i L1) i h → D1 i h.
Proof using All.
  intros Hi [Hb Hok]. split; [done|]. intros J HJ.
  apply (edge_in_pred_inv hd L1 L2 xt i J Hnd Hi). auto.
Qed.

Lemma D1_down i h : D1 (S i) h → D1 i h.
Proof using All.
  intros [Hb HD]. split; [done|]. intros J HJ.
  destruct (HD J HJ) as (t1 & Ht1 & E1 & HC).
  destruct (pred_mono hd L1 L2 xt Hnd Hs i t1 Ht1 E1)
    as (ti & Hti & Ei & _ & Hle).
  exists ti. split; [done|]. split; [done|].
  apply (contains_interval_mono J (tkey t1) (tkey xt)); [done|done|].
  apply Value_lt_irrefl.
Qed.

Lemma D2_old i h : okm_old x i h → D2 i h.
Proof using All.
  intros [Hb Hok]. split; [done|]. intros J HJ.
  apply (edge_in_new L1 L2 xt i J); [by eapply NoDup_cons_1_2|auto].
Qed.

Lemma D2_down i h : D2 (S i) h → D2 i h.
Proof using All.
  intros [Hb HD]. split; [done|]. intros J HJ.
  destruct (HD J HJ) as (w1 & Hw1 & HC).
  destruct (right_start hd L1 L2 xt Hnd Hs i w1 Hw1) as (t0 & Ht0 & _ & Hle).
  exists t0. split; [done|].
  apply (contains_interval_mono J (tkey xt) (tkey w1)); [done|..].
  - apply Value_lt_irrefl.
  - destruct Hle as [->|Hlt]; [apply Value_lt_irrefl|by apply Value_lt_asym].
Qed.

(* --- what the repair reads ------------------------------------------------ *)

Lemma covers_new_edge_spec k i m (s : state) b s' :
  inv k s → i ≤ tlev xt →
  (∀ J, c !! m = Some J → ∃ t0, t0 ∈ L1 ∧ pred_at hd i L1 = tptr t0) →
  covers_new_edge m x (pred_at hd i L1) i s = Ok (b, s') →
  s' = s ∧
  ((b = false ∧ nxt i L2 = None) ∨
   ∃ J t0 w, c !! m = Some J ∧ t0 ∈ L1 ∧ pred_at hd i L1 = tptr t0 ∧
             nxt i L2 = Some w ∧
             b = contains_interval J (tkey t0) (tkey w)).
Proof using All.
  intros Hinv Hi Htow Hrun. pose proof Hinv as (Hwf & Hhd & Hc & Hm).
  unfold covers_new_edge in Hrun.
  mrun_in (rdF s Hwf Hhd Hc i Hi) Hrun.
  destruct (nxt i L2) as [w|] eqn:Hw; simpl in Hrun.
  2:{ injection Hrun as <- <-. split; [done|]. by left. }
  msplit Hrun as Im s1 Hd. apply deref_inv in Hd as [-> Hd].
  rewrite Hc in Hd. destruct (Htow Im Hd) as (t0 & Ht0 & E).
  rewrite E in Hrun.
  mrun_in (rdK s Hwf Hhd Hc t0 (in_old_L1 _ Ht0)) Hrun.
  assert (Hw_in : w ∈ Lold).
  { apply nxt_elem in Hw as [? _]. by apply in_old_L2. }
  mrun_in (rdK s Hwf Hhd Hc w Hw_in) Hrun.
  injection Hrun as <- <-. split; [done|]. right. exists Im, t0, w. done.
Qed.

(** The test of phase 2 on a mark changes nothing. *)
Lemma covers_guard_read {B} k i m (kont : bool → bool → M B)
    (s : state) r s' :
  inv k s → i ≤ tlev xt →
  (let* ui := upd_get upd i in
   let* h := isHeader ui in
   let* cv := (if h then ret false else covers_new_edge m x ui i) in
   kont h cv) s = Ok (r, s') →
  ∃ h cv, kont h cv s = Ok (r, s').
Proof using All.
  intros Hinv Hi Hrun. pose proof Hinv as (Hwf & Hhd & Hc & Hm).
  mrun_in (rdU s Hwf Hhd Hc i Hi) Hrun.
  msplit Hrun as h s1 Hh.
  pose proof (preserves_isHeader eq _ _ _ _ Hh) as <-.
  msplit Hrun as cv s1 Hcv.
  assert (s1 = s) as ->.
  { destruct h; [by injection Hcv as _ <-|].
    by pose proof (preserves_covers_new_edge eq _ _ _ _ _ _ _ Hcv) as <-. }
  eauto.
Qed.

Lemma inv_mark_eq_unless k u1 a (m : Interval_handle) (s s' : state) u :
  inv k s → m < cn →
  (∀ J, c !! m = Some J → ∃ ta, ta ∈ Lold ∧ a = tptr ta) →
  mark_eq_unless u1 a m s = Ok (u, s') → inv k s'.
Proof using All.
  intros Hinv Hb Htow Hrun.
  eapply framed_mark_eq_unless; [exact Hinv| |exact Hrun].
  intros Im kk HIm Hk HC. pose proof Hinv as (Hwf & Hhd & Hc & Hm).
  destruct (Htow Im HIm) as (ta & Hta & ->).
  rewrite (rdK s Hwf Hhd Hc ta Hta) in Hk. injection Hk as <-.
  split; [done|]. intros J HJ. assert (J = Im) as -> by congruence.
  by exists ta.
Qed.

(* --- the walks ---------------------------------------------------------------- *)

(** Phase 1 places a mark demoted from level i + 1 on the level i edges
    between update[i+1] and update[i]. *)
Lemma delete_place_left_sound fuel i (m : Interval_handle) (s : state) y s' :
  inv i s → S i ≤ tlev xt → D1 (S i) m →
  delete_place_left fuel m i (pred_at hd (S i) L1) (pred_at hd i L1)
    (Some (pred_at hd (S i) L1)) s = Ok (y, s') →
  inv i s' ∧
  ∀ a, y = Some a → ∀ J, c !! m = Some J → ∃ ta, ta ∈ Lold ∧ a = tptr ta.
Proof using All.
  intros Hinv HSi [Hb HD] Hrun.
  apply (framed_delete_place_left (okd i) oke hd Lold c
           (λ a, ∀ J, c !! m = Some J →
              ∃ t1 ta, t1 ∈ L1 ∧
                contains_interval J (tkey t1) (tkey xt) = true ∧
                ta ∈ L1 ∧ a = tptr ta ∧ i ≤ tlev ta ∧
                Value_lt (tkey ta) (tkey t1) = false))
    in Hrun as [Hinv' Hy]; [| | | | |]; [|exact Hinv|..].
  - split; [done|]. intros a -> J HJ.
    destruct (Hy _ eq_refl J HJ) as (_ & ta & _ & _ & Hta & -> & _).
    exists ta. split; [by apply in_old_L1|done].
  - (* the level i list of a node on the way *)
    intros a HP Hne. destruct (c !! m) as [J|] eqn:HJ; [|by apply okd_dead].
    destruct (HP J eq_refl) as (t1 & ta & Ht1 & HC & Hta & -> & Hi & Hle).
    apply okd_new. split; [done|]. intros J' HJ'.
      assert (J' = J) as -> by congruence.
    destruct (list_elem_of_split _ _ (in_old_L1 _ Hta)) as (La & Lb & E).
    destruct (left_step hd L1 L2 xt Hnd Hs i ta La Lb Hta Hi Hne E)
      as (rest & tb & EL & Hn & _ & Htb & _).
    apply (edge_in_left hd L1 L2 xt Hnd Hs La ta rest tb i J); try done.
    apply (contains_interval_mono J (tkey t1) (tkey xt)); [done|done|].
    apply Value_lt_asym. by apply (L1_lt_x hd L1 L2 xt Hnd Hs).
  - (* the next node on the way *)
    intros a s1 b Hf1 HP Hne Hg J HJ.
    destruct (HP J HJ) as (t1 & ta & Ht1 & HC & Hta & -> & Hi & Hle).
    pose proof Hf1 as (Hwf1 & _).
    apply (tower_forward s1 Lold ta i _ _ Hwf1 (in_old_L1 _ Hta)) in Hg
      as (_ & La & Lb & E & _ & Hb').
    destruct (left_step hd L1 L2 xt Hnd Hs i ta La Lb Hta Hi Hne E)
      as (rest & tb & EL & _ & Hn & Htb & Hlt).
    rewrite Hn in Hb'. injection Hb' as ->.
    exists t1, tb. split; [done|]. split; [done|]. split; [done|].
    split; [done|]. split; [by apply nxt_elem in Hn as [_ ?]|].
    destruct (Value_lt (tkey tb) (tkey t1)) eqn:Hbt; [|done].
    by rewrite (Value_lt_trans _ _ _ Hlt Hbt) in Hle.
  - (* the node itself *)
    intros a s1 Im k Hf1 HP HIm Hk HC.
    destruct (HP Im HIm) as (t1 & ta & Ht1 & _ & Hta & -> & _).
    pose proof Hf1 as (Hwf1 & Hhd1 & Hc1 & _).
    rewrite (rdK s1 Hwf1 Hhd1 Hc1 ta (in_old_L1 _ Hta)) in Hk.
    injection Hk as <-. split; [done|]. intros J HJ.
    assert (J = Im) as -> by congruence.
    exists ta. split; [by apply in_old_L1|done].
  - (* the start *)
    intros a [= <-] J HJ. destruct (HD J HJ) as (t1 & Ht1 & E1 & HC).
    destruct (pred_tower hd L1 L2 xt Hnd Hs (S i) t1 Ht1 E1)
      as (_ & _ & _ & Hl & _).
    exists t1, t1. split; [done|]. split; [done|]. split; [done|].
    split; [done|]. split; [lia|]. apply Value_lt_irrefl.
Qed.

(** Phase 2 places a mark demoted from level i + 1 on the level i edges
    between x->forward[i] and x->forward[i+1]. *)
Lemma delete_place_right_sound fuel i (m : Interval_handle) (s : state) u s' :
  inv 0 s → S i ≤ tlev xt → D2 (S i) m →
  delete_place_right fuel m i x (tptr <$> nxt i L2) s = Ok (u, s') →
  inv 0 s'.
Proof using All.
  intros Hinv HSi [Hb HD] Hrun.
  apply (framed_delete_place_right (okd 0) oke hd Lold c
           (λ a, ∀ J, c !! m = Some J →
              ∃ w1 ta, nxt (S i) L2 = Some w1 ∧
                contains_interval J (tkey xt) (tkey w1) = true ∧
                ta ∈ L2 ∧ a = tptr ta ∧ i ≤ tlev ta ∧
                (ta = w1 ∨ Value_lt (tkey ta) (tkey w1) = true))
           (λ a, ∀ J, c !! m = Some J →
              ∃ w1 ta, nxt (S i) L2 = Some w1 ∧
                contains_interval J (tkey xt) (tkey w1) = true ∧
                ta ∈ L2 ∧ a = tptr ta ∧ i ≤ tlev ta ∧
                Value_lt (tkey ta) (tkey w1) = true))
    in Hrun; [done|exact Hinv|..].
  - (* a node that is not the end of the walk *)
    intros a s1 stop Hf1 HP Hg Hne J HJ.
    destruct (HP J HJ) as (w1 & ta & Hw1 & HC & Hta & -> & Hi & Hcase).
    exists w1, ta. repeat (split; [done|]).
    destruct Hcase as [->|]; [|done]. exfalso. apply Hne.
    pose proof Hf1 as (Hwf1 & Hhd1 & Hc1 & _).
    rewrite (rdF s1 Hwf1 Hhd1 Hc1 (i + 1) ltac:(lia)) in Hg.
    replace (i + 1) with (S i) in Hg by lia. rewrite Hw1 in Hg.
    by injection Hg as <-.
  - (* its lists *)
    intros a HQ. destruct (c !! m) as [J|] eqn:HJ;
      [|split; [by apply oke_dead|by apply okd_dead]].
    destruct (HQ J eq_refl) as (w1 & ta & Hw1 & HC & Hta & -> & Hi & Hlt).
    pose proof (x_lt_L2 hd L1 L2 xt Hnd Hs ta Hta) as Hxt.
    split.
    + split; [done|]. intros J' HJ'.
      assert (J' = J) as -> by congruence. exists ta.
      split; [by apply in_old_L2|]. split; [done|].
      apply (contains_interval_point J (tkey xt) (tkey w1)); [done|..];
        by apply Value_lt_asym.
    + apply okd_new. split; [done|]. intros J' HJ'.
      assert (J' = J) as -> by congruence.
      destruct (list_elem_of_split _ _ (in_old_L2 _ Hta)) as (La & Lb & E).
      destruct (right_step hd L1 L2 xt Hnd Hs i w1 ta La Lb Hw1 Hta Hlt E)
        as (pre & tb & EL & Hn & _ & _ & Hle).
      apply (edge_in_right hd L1 L2 xt Hnd Hs pre ta Lb tb i J); try done.
      apply (contains_interval_mono J (tkey xt) (tkey w1)); [done|..].
      * by apply Value_lt_asym.
      * destruct Hle as [->|?]; [apply Value_lt_irrefl|by apply Value_lt_asym].
  - (* the next node *)
    intros a s1 b Hf1 HQ Hg J HJ.
    destruct (HQ J HJ) as (w1 & ta & Hw1 & HC & Hta & -> & Hi & Hlt).
    pose proof Hf1 as (Hwf1 & _).
    apply (tower_forward s1 Lold ta i _ _ Hwf1 (in_old_L2 _ Hta)) in Hg
      as (_ & La & Lb & E & _ & Hb').
    destruct (right_step hd L1 L2 xt Hnd Hs i w1 ta La Lb Hw1 Hta Hlt E)
      as (pre & tb & EL & Hn & Htb & _ & Hle).
    rewrite Hn in Hb'. injection Hb' as ->.
    exists w1, tb. repeat (split; [done|]).
    split; [by apply nxt_elem in Hn as [_ ?]|done].
  - (* the start *)
    intros a Ha J HJ. destruct (HD J HJ) as (w1 & Hw1 & HC).
    destruct (right_start hd L1 L2 xt Hnd Hs i w1 Hw1)
      as (t0 & Ht0 & Ht0' & Hle).
    rewrite Ht0 in Ha. injection Ha as <-.
    exists w1, t0. repeat (split; [done|]).
    split; [by apply nxt_elem in Ht0 as [_ ?]|done].
Qed.

(* --- the two phases ------------------------------------------------------------ *)

(** adjustMarkersOnDelete(x, update), run before x is spliced out, leaves
    markers that are sound for the list without x on every node but x. *)
Lemma adjustMarkersOnDelete_sound (s s' : state) u :
  inv (tlev xt + 1) s → adjustMarkersOnDelete x upd s = Ok (u, s') →
  inv 0 s'.
Proof using All.
  intros Hinv Hrun. unfold adjustMarkersOnDelete in Hrun.
  pose proof Hinv as (Hwf & Hhd & Hc & Hm).
  mrun_in (rdL s Hwf Hhd Hc) Hrun.
  (* Phase 1 *)
  msplit Hrun as d1 s1 H1.
  apply (for_down_inv (λ k d s, inv k s ∧ (∀ h, h ∈ d → D1 k h) ∧
                                (d = [] ∨ k ≤ tlev xt)))
    in H1 as (Hinv1 & _ & _).
  2:{ split; [done|]. split; [by intros ? ?%elem_of_nil|by left]. }
  2:{ clear Hrun. intros i demoted sa demoted' sb Hi (Ha & Hdem & Hne) Hb.
      assert (Hi' : i ≤ tlev xt) by lia.
      pose proof Ha as (Hwfa & Hhda & Hca & Hma).
      mrun_in (rdU sa Hwfa Hhda Hca i Hi') Hb.
      msplit Hb as ml s3 Hml. pose proof Hml as Hml0.
      apply (marks_within_get_markers _ _ _ _ _ _ _ Hma) in Hml as [-> Hml].
      assert (Hml_old : ∀ h, h ∈ ml → okm_old (pred_at hd i L1) i h).
      { intros h Hh. apply (okd_pred (S i)); [lia|done|auto]. }
      assert (Htow : ∀ h, h ∈ ml → ∀ J, c !! h = Some J →
                ∃ t0, t0 ∈ L1 ∧ pred_at hd i L1 = tptr t0).
      { intros h Hh J HJ. destruct (D1_old i h Hi' (Hml_old h Hh)) as [_ HD].
        destruct (HD J HJ) as (t0 & ? & ? & _). eauto. }
      (* find marks on edge into x at level i to be demoted *)
      msplit Hb as newDemoted s3 Hf1.
      apply (foldM_inv (λ pre acc s, s = sa ∧ (∀ h, h ∈ acc → h ∈ ml) ∧
               ∀ v, ¬ covP i v → count_val c v pre ≤ count_val c v acc))
        in Hf1 as (-> & Hnd_sub & Hcnt).
      2:{ split; [done|]. split; [by intros ? ?%elem_of_nil|].
          intros v _. rewrite count_val_nil. lia. }
      2:{ clear Hb. intros pre m post acc s4 acc' s5 Hl (-> & Hacc & Hcn') Hb.
          assert (Hm_in : m ∈ ml) by (rewrite Hl; set_solver).
          msplit Hb as cv s6 Hcv.
          apply (covers_new_edge_spec (S i) i m sa) in Hcv as (-> & Hcase);
            [|done|done|by apply Htow].
          unfold IL_insert in Hb.
          destruct Hcase as [[-> Hnone]|(J & t0 & w & HJ & Ht0 & E0 & Hw & ->)].
          - simpl in Hb. injection Hb as <- <-. split; [done|]. split.
            + intros h Hh. apply elem_of_cons in Hh as [->|Hh]; auto.
            + intros v Hv. rewrite count_val_app, !count_val_cons, count_val_nil.
              specialize (Hcn' v Hv). destruct (decide _); lia.
          - destruct (contains_interval J (tkey t0) (tkey w)) eqn:HC;
              simpl in Hb; injection Hb as <- <-; (split; [done|]); split.
            + done.
            + intros v Hv. rewrite count_val_app, count_val_cons, count_val_nil.
              rewrite decide_False; [specialize (Hcn' v Hv); lia|].
              intros Hmv. apply Hv. exists t0, w.
              assert (v = J) as -> by congruence. done.
            + intros h Hh. apply elem_of_cons in Hh as [->|Hh]; auto.
            + intros v Hv. rewrite count_val_app, !count_val_cons, count_val_nil.
              specialize (Hcn' v Hv). destruct (decide _); lia. }
      (* Remove newly demoted marks from edge. *)
      mrun_in Hml0 Hb.
      msplit Hb as ml' s3 Hra. unfold lift in Hra. rewrite Hca in Hra.
      destruct (IL_removeAll c newDemoted ml) as [P| |] eqn:HP; [|done..].
      injection Hra as <- <-.
      msplit Hb as u1 s3 Hset.
      assert (Ha2 : inv i s3).
      { eapply (framed_set_markers_shift (okd (S i)) (okd i));
          [exact Ha| | |exact Hset].
        - intros a j h. apply okd_step.
        - intros h Hh. destruct (IL_removeAll_spec _ _ _ _ HP) as [Hsub _].
          destruct (D1_old i h Hi' (Hml_old h (Hsub h Hh))) as [Hb' HD].
          apply okd_new. split; [done|]. intros J HJ.
          destruct (HD J HJ) as (t0 & Ht0 & E0 & HC0). rewrite E0.
          pose proof (IL_removeAll_survivor _ _ _ _ h J HP Hh HJ) as Hsurv.
          destruct (nxt i L2) as [w|] eqn:Hw.
          2:{ exfalso.
              assert (count_val c J ml ≤ count_val c J newDemoted); [|lia].
              apply Hcnt. intros (? & ? & _ & _ & ? & _). congruence. }
          destruct (contains_interval J (tkey t0) (tkey w)) eqn:HC.
          + by apply (edge_in_pred_del hd L1 L2 xt Hnd Hs i t0 w J).
          + exfalso.
            assert (count_val c J ml ≤ count_val c J newDemoted); [|lia].
            apply Hcnt. intros (t0' & w' & Ht0' & E0' & Hw' & HC').
            assert (w' = w) as -> by congruence.
            assert (t0' = t0) as ->.
            { apply (tower_eq hd L1 L2 xt Hnd Hs);
                [by apply in_old_L1..|congruence]. }
            congruence. }
      (* Place previously demoted marks on this level as needed. *)
      msplit Hb as tempRemoved s4 Hf2.
      apply (foldM_inv (λ _ _ s, inv i s)) in Hf2 as Ha3; [|done|].
      2:{ clear Hb. intros pre m post acc s5 acc' s6 Hl Ha5 Hb.
          assert (Hm_in : m ∈ demoted) by (rewrite Hl; set_solver).
          assert (HSi : S i ≤ tlev xt).
          { destruct Hne as [->|]; [by apply elem_of_nil in Hm_in|done]. }
          pose proof (Hdem m Hm_in) as HmD.
          pose proof Ha5 as (Hwf5 & Hhd5 & Hc5 & Hm5).
          mrun_in (rdU s5 Hwf5 Hhd5 Hc5 (i + 1) ltac:(lia)) Hb.
          mrun_in (rdU s5 Hwf5 Hhd5 Hc5 i Hi') Hb.
          replace (i + 1) with (S i) in Hb by lia.
          msplit Hb as y s7 Hleft.
          apply (delete_place_left_sound _ i m s5 _ _ Ha5 HSi HmD) in Hleft
            as [Ha7 Hy].
          msplit Hb as u2 s8 Heq.
          assert (Ha8 : inv i s8).
          { destruct y as [a|]; [|by injection Heq as _ <-].
            eapply inv_mark_eq_unless; [exact Ha7|apply HmD| |exact Heq].
            by apply Hy. }
          msplit Hb as cv s9 Hcv.
          apply (covers_new_edge_spec i i m s8) in Hcv as (-> & Hcase);
            [|done|done|].
          2:{ intros J HJ. destruct (D1_down i m HmD) as [_ HD].
              destruct (HD J HJ) as (t0 & ? & ? & _). eauto. }
          destruct cv; [|by injection Hb as _ <-].
          msplit Hb as u3 s9 Hins. injection Hb as _ <-.
          eapply framed_markers_insert; [exact Ha8| |exact Hins].
          apply okd_new. split; [apply HmD|]. intros J HJ.
          destruct Hcase as [[? _]|(J' & t0 & w & HJ' & Ht0 & E0 & Hw & HC)];
            [done|].
          assert (J' = J) as -> by congruence. rewrite E0.
          by apply (edge_in_pred_del hd L1 L2 xt Hnd Hs i t0 w J). }
      (* the bags *)
      unfold swap_bags in Hb. msplit Hb as P2 s5 Hra2. unfold lift in Hra2.
      lazymatch type of Hra2 with
      | context [IL_removeAll ?a ?b ?d] =>
          destruct (IL_removeAll a b d) as [P'| |] eqn:HP'; [|done..]
      end.
      injection Hra2 as <- <-. injection Hb as <- <-.
      split; [done|]. split; [|by right].
      intros h Hh. apply elem_of_IL_copy in Hh as [Hh|Hh].
      - apply D1_old; [done|]. apply Hml_old. auto.
      - apply D1_down. apply Hdem. by apply (IL_removeAll_spec _ _ _ _ HP'). }
  (* Phase 2 *)
  msplit Hrun as d2 s2 H2.
  apply (for_down_inv
           (λ k (dt : IntervalList * IntervalList) s,
              inv 0 s ∧ (∀ h, h ∈ dt.1 → D2 k h) ∧
              (dt.1 = [] ∨ k ≤ tlev xt)))
    in H2 as (Hinv2 & _ & _).
  2:{ split; [done|]. split; [by intros ? ?%elem_of_nil|by left]. }
  2:{ clear Hrun.
      intros i [demoted tempRemoved] sa [demoted' tempRemoved'] sb Hi
        (Ha & Hdem & Hne) Hb.
      simpl in Hdem, Hne.
      assert (Hi' : i ≤ tlev xt) by lia.
      pose proof Ha as (Hwfa & Hhda & Hca & Hma).
      msplit Hb as ml s3 Hml.
      apply (marks_within_get_markers _ _ _ _ _ _ _ Hma) in Hml as [-> Hml].
      (* find marks on the edge out of x at level i to be demoted *)
      msplit Hb as newDemoted s3 Hf1.
      apply (foldM_inv (λ _ acc s, s = sa ∧ ∀ h, h ∈ acc → h ∈ ml))
        in Hf1 as [-> Hnd_sub].
      2:{ split; [done|]. by intros ? ?%elem_of_nil. }
      2:{ clear Hb. intros pre m post acc s4 acc' s5 Hl [-> Hacc] Hb.
          assert (Hm_in : m ∈ ml) by (rewrite Hl; set_solver).
          mrun_in (rdF sa Hwfa Hhda Hca i Hi') Hb.
          destruct (bool_decide (tptr <$> nxt i L2 ≠ None));
            [|by injection Hb as <- <-].
          apply (covers_guard_read 0 i m
                   (λ h cv, if h || negb cv then ret (IL_insert m acc)
                            else ret acc)) in Hb as (h & cv & Hb);
            [|done|done].
          destruct (h || negb cv); injection Hb as <- <-;
            (split; [done|]); [|done].
          intros h' Hh'. apply elem_of_cons in Hh' as [->|?]; auto. }
      (* Place previously demoted marks on this level as needed. *)
      msplit Hb as tempRemoved2 s3 Hf2.
      apply (foldM_inv (λ _ _ s, inv 0 s)) in Hf2 as Ha3; [|done|].
      2:{ clear Hb. intros pre m post acc s4 acc' s5 Hl Ha4 Hb.
          assert (Hm_in : m ∈ demoted) by (rewrite Hl; set_solver).
          assert (HSi : S i ≤ tlev xt).
          { destruct Hne as [->|]; [by apply elem_of_nil in Hm_in|done]. }
          pose proof Ha4 as (Hwf4 & Hhd4 & Hc4 & Hm4).
          mrun_in (rdF s4 Hwf4 Hhd4 Hc4 i Hi') Hb.
          msplit Hb as u1 s6 Hright.
          apply (delete_place_right_sound _ i m s4 _ _ Ha4 HSi (Hdem m Hm_in))
            in Hright.
          pose proof Hright as (Hwf6 & Hhd6 & Hc6 & Hm6).
          mrun_in (rdF s6 Hwf6 Hhd6 Hc6 i Hi') Hb.
          destruct (bool_decide (tptr <$> nxt i L2 ≠ None));
            [|by injection Hb as _ <-].
          apply (covers_guard_read 0 i m
                   (λ h cv, if negb h && cv then ret (IL_insert m acc)
                            else ret acc)) in Hb as (h & cv & Hb);
            [|done|done].
          destruct (negb h && cv); by injection Hb as _ <-. }
      (* the bags *)
      msplit Hb as d3 s7 Hsw. unfold swap_bags in Hsw.
      msplit Hsw as P2 s8 Hra. unfold lift in Hra.
      lazymatch type of Hra with
      | context [IL_removeAll ?a ?b ?d] =>
          destruct (IL_removeAll a b d) as [P'| |] eqn:HP'; [|done..]
      end.
      injection Hra as <- <-. injection Hsw as <- <-.
      injection Hb as <- <- <-.
      split; [done|]. simpl. split; [|by right].
      intros h Hh. apply elem_of_IL_copy in Hh as [Hh|Hh].
      - apply D2_old. apply (okd_x 0). apply Hml. auto.
      - apply D2_down. apply Hdem. by apply (IL_removeAll_spec _ _ _ _ HP'). }
  by injection Hrun as _ <-.
Qed.

End DeleteRepair.

(* --- remove(x, update) ------------------------------------------------------- *)

Section Removal.

Context {Value Interval : Type} `{!IntervalType Value Interval}.
Context `{!ValueOrder Value Interval} `{!ClosedIntervals Value Interval}.

Local Abbreviation state := (Interval_skip_list Value Interval).
Local Abbreviation node := (IntervalSLnode Value).
Local Abbreviation pred_at := (pred_at (Value:=Value)).
Local Abbreviation tptr := (tptr (Value:=Value)).
Local Abbreviation tlev := (tlev (Value:=Value)).
Local Abbreviation wf := (wf (Value:=Value) (Interval:=Interval)).
Local Abbreviation sound_at := (sound_at (Value:=Value) (Interval:=Interval)).

(** remove(x, update) on an index with sound markers, whose update vector
    holds the predecessors of x: the node goes and the markers are sound
    for the nodes that stay. *)
Lemma remove_node_sound (s s' : state) L1 L2 xt upd u :
  wf s (L1 ++ xt :: L2) → sound_at s (L1 ++ xt :: L2) →
  (∀ i, i ≤ tlev xt → upd !! i = Some (Some (pred_at (header s) i L1))) →
  remove_node (tptr xt) upd s = Ok (u, s') →
  wf s' (L1 ++ L2) ∧ sound_at s' (L1 ++ L2).
Proof.
  intros Hwf Hso Hupd Hrun.
  pose proof (remove_node_spec s s' L1 L2 xt upd u Hwf Hupd Hrun)
    as (Hwf' & _ & Hc' & Hcn' & Hd').
  split; [done|].
  pose proof (wf_nodup _ _ Hwf) as Hnd. pose proof (wf_sorted _ _ Hwf) as Hs.
  unfold remove_node in Hrun. msplit Hrun as [] s1 Hadj.
  pose proof (adjustMarkersOnDelete_same_shape _ _ _ _ _ Hadj) as Hsh.
  apply (adjustMarkersOnDelete_sound (header s) L1 L2 xt upd (container s)
           (container_next s) Hupd Hnd Hs) in Hadj
    as (Hwf1 & Hhd1 & Hc1 & Hm1).
  2:{ split; [done|]. split; [done|]. split; [done|].
      eapply marks_within_mono; [| |exact Hso]; [|done].
      intros a i h.
      apply (okd_init (header s) L1 L2 xt upd (container s)
               (container_next s) Hupd Hnd Hs). }
  destruct Hwf1 as [Hok1 Hl1].
  destruct (ok_nodes _ _ Hok1 xt) as (nx & Hnx & _ & _ & Htop & _);
    [set_solver|].
  msplit Hrun as lv s2 Hlv. unfold get_level in Hlv.
  rewrite (bind_Ok _ _ _ _ _ (node_at_Ok _ _ _ Hnx)) in Hlv.
  injection Hlv as <- <-.
  msplit Hrun as [] s2 Hloop.
  apply (splice_out_loop _ 0 s1 s2 L1 L2 xt) in Hloop
    as (Hsm & Hok2 & Hl2); [|done|intros i Hi; lia|by intros i _ Hi; apply Hl1
                            |unfold level; lia|].
  2:{ intros i Hi. rewrite Hhd1. by apply Hupd. }
  apply (marks_within_same_marking _ _ _ _ Hsm) in Hm1.
  apply delete_node_inv in Hrun as (_ & Hh & _).
  unfold sound_at. rewrite Hc', Hcn'.
  intros a na Ha. rewrite Hh in Ha.
  apply lookup_delete_Some in Ha as [Hne Ha].
  destruct (Hm1 a na Ha) as [Hmk Heq]. split.
  - intros i l h Hi Hin.
    apply (okd_0 (header s) L1 L2 xt upd (container s) (container_next s)
             Hupd Hnd Hs); [done|eauto].
  - intros h Hin. destruct (Heq h Hin) as [Hb Hok]. split; [done|].
    intros J HJ. apply (node_in_delete (header s) L1 L2 xt Hnd Hs); auto.
Qed.

End Removal.

(* ====================================================================== *)
(*  Further properties of the member functions                            *)
(* ====================================================================== *)

Section Members.

Context {Value Interval : Type} `{!IntervalType Value Interval}.
Context `{!ValueOrder Value Interval}.

Local Abbreviation state := (Interval_skip_list Value Interval).
Local Abbreviation node := (IntervalSLnode Value).
Local Abbreviation store := (gmap Interval_handle Interval).
Local Abbreviation lseg := (lseg (Value:=Value)).
Local Abbreviation pred_at := (pred_at (Value:=Value)).
Local Abbreviation split_by := (split_by (Value:=Value)).
Local Abbreviation tptr := (tptr (Value:=Value)).
Local Abbreviation tkey := (tkey (Value:=Value)).
Local Abbreviation links := (links (Value:=Value) (Interval:=Interval)).
Local Abbreviation wf := (wf (Value:=Value) (Interval:=Interval)).
Local Abbreviation same_shape := (same_shape (Value:=Value) (Interval:=Interval)).
Local Abbreviation marks_from := (marks_from (Value:=Value) (Interval:=Interval)).
Local Abbreviation count_val := (count_val (Value:=Value) (Interval:=Interval)).
Local Abbreviation owners := (owners (Value:=Value) (Interval:=Interval)).
Local Abbreviation Inv := (Inv (Value:=Value) (Interval:=Interval)).
Local Abbreviation reachable := (reachable (Value:=Value) (Interval:=Interval)).
Local Abbreviation history := (history (Value:=Value) (Interval:=Interval)).

(* --- the bag of interval handles ------------------------------------------ *)

(** A cell of a marker list that is live and holds another interval than
    [v]. *)
Local Abbreviation other c v :=
  (λ h : Interval_handle, ∃ J : Interval, (c : store) !! h = Some J ∧ J ≠ v).

Lemma IL_remove_res_first (c : store) v l r l' :
  IL_remove_res c v l = Ok (r, l') →
  (r = None ∧ l' = l ∧ Forall (other c v) l) ∨
  (∃ l1 h l2, r = Some h ∧ l = l1 ++ h :: l2 ∧ l' = l1 ++ l2 ∧
              c !! h = Some v ∧ Forall (other c v) l1).
Proof.
  revert r l'. induction l as [|h l IH]; intros r l'; simpl.
  - intros [= <- <-]. left. done.
  - unfold load. destruct (c !! h) as [J|] eqn:Hh; simpl; [|done].
    destruct (bool_decide (J = v)) eqn:E.
    + apply bool_decide_eq_true in E as ->. intros [= <- <-].
      right. exists [], h, l. done.
    + apply bool_decide_eq_false in E.
      destruct (IL_remove_res c v l) as [[r0 t']| |] eqn:Hr; simpl; [|done..].
      intros [= <- <-].
      destruct (IH _ _ eq_refl)
        as [(-> & -> & Hall)|(l1 & h' & l2 & -> & -> & -> & Hv & Hall)].
      * left. split; [done|]. split; [done|]. constructor; eauto.
      * right. exists (h :: l1), h', l2. split; [done|]. split; [done|].
        split; [done|]. split; [done|]. constructor; eauto.
Qed.

(** X1 (IntervalList::copy).  copy(from) puts the cells of from in front
    of the cells the list has, in reverse order: every cell of from is
    inserted at the head, front to back. *)
Theorem copy_prepends_in_reverse (from self : IntervalList) :
  IL_copy from self = rev from ++ self.
Proof.
  revert self. induction from as [|h from IH]; intros self; simpl; [done|].
  rewrite IH. unfold IL_insert. by rewrite <- app_assoc.
Qed.

(** X2 (IntervalList::remove).  A call of remove(I) that returns has either
    found no cell of an interval equal to I and left the list as it was,
    or unlinked the first such cell and kept the other cells in their
    order; every cell in front of it is live and holds another interval. *)
Theorem remove_unlinks_first_equal (c : store) (v : Interval)
    (l l' : IntervalList) :
  IL_remove c v l = Ok l' →
  (l' = l ∧ Forall (other c v) l) ∨
  (∃ l1 h l2, l = l1 ++ h :: l2 ∧ l' = l1 ++ l2 ∧ c !! h = Some v ∧
              Forall (other c v) l1).
Proof.
  unfold IL_remove.
  destruct (IL_remove_res c v l) as [[r t']| |] eqn:Hr; simpl; [|done..].
  intros [= <-].
  destruct (IL_remove_res_first _ _ _ _ _ Hr)
    as [(_ & -> & Hall)|(l1 & h & l2 & _ & -> & -> & Hv & Hall)].
  - by left.
  - right. by exists l1, h, l2.
Qed.

(** X3 (IntervalList::removeAll).  removeAll(l) that returns adds no cell,
    and for every interval w it takes as many cells of w from the list as
    l has cells of w, or all of them when the list has fewer. *)
Theorem removeAll_takes_cell_for_cell (c : store) (l self self' : IntervalList) :
  IL_removeAll c l self = Ok self' →
  (∀ h, h ∈ self' → h ∈ self) ∧
  (∀ w, count_val c w self' = count_val c w self - count_val c w l).
Proof. apply IL_removeAll_spec. Qed.

(** X20 (IntervalList::contains).  contains(I) compares handles, not
    intervals: it is true exactly when the handle I is in a cell of the
    list, whatever intervals the cells point to. *)
Theorem contains_is_by_handle (h : Interval_handle) (l : IntervalList) :
  IL_contains h l = true ↔ h ∈ l.
Proof.
  induction l as [|x l IH]; simpl.
  - split; [done|]. intros H. by apply elem_of_nil in H.
  - rewrite elem_of_cons. destruct (decide (h = x)) as [->|Hne].
    + rewrite bool_decide_false by (by intros ?). split; auto.
    + rewrite bool_decide_true by done. rewrite IH.
      split; [auto|]. by intros [?|?].
Qed.

(** X23 (IntervalList::copy(OutputIterator)).  copy(out) returns exactly
    when every cell holds the handle of a stored interval, and then it has
    appended the intervals of the cells to the sink, first cell first. *)
Theorem copy_out_appends_in_order (c : store) (l : IntervalList)
    (out r : list Interval) :
  IL_copy_out c l out = Ok r ↔
  ∃ vs, Forall2 (λ h J, c !! h = Some J) l vs ∧ r = out ++ vs.
Proof.
  revert out. induction l as [|h l IH]; intros out; simpl.
  - split.
    + intros [= <-]. exists []. split; [constructor|by rewrite app_nil_r].
    + intros (vs & Hvs & ->). apply Forall2_nil_inv_l in Hvs as ->.
      by rewrite app_nil_r.
  - unfold load. destruct (c !! h) as [J|] eqn:Hh; simpl.
    + rewrite IH. split.
      * intros (vs & Hvs & ->). exists (J :: vs).
        split; [by constructor|by rewrite <- app_assoc].
      * intros (vs & Hvs & ->).
        apply Forall2_cons_inv_l in Hvs as (J' & vs' & HJ' & Hvs' & ->).
        assert (J' = J) as -> by congruence.
        exists vs'. split; [done|by rewrite <- app_assoc].
    + split; [done|]. intros (vs & Hvs & _).
      apply Forall2_cons_inv_l in Hvs as (J' & vs' & HJ' & _). congruence.
Qed.

(* --- searching ------------------------------------------------------------ *)

Lemma search_descent (s : state) L1 L2 q n :
  wf s (L1 ++ L2) → split_by (λ k, Value_lt k q) L1 L2 →
  n ≤ MAX_FORWARD + 1 →
  for_down n (λ i x, advance_level (λ k, Value_lt k q) i x)
    (pred_at (header s) n L1) s
  = Ok (pred_at (header s) 0 L1, s).
Proof.
  intros Hwf Hsp. induction n as [|n IH]; intros Hn; [done|].
  cbn [for_down].
  mrun (advance_search_level s L1 L2 _ n Hwf Hsp ltac:(lia)).
  apply IH. lia.
Qed.

(** search(searchKey) on a well-formed index. *)
Lemma search_spec (s : state) L1 L2 q :
  wf s (L1 ++ L2) → split_by (λ k, Value_lt k q) L1 L2 →
  search q s
  = Ok (match head L2 with
        | Some t => if bool_decide (tkey t = q) then Some (tptr t) else None
        | None => None
        end, s).
Proof.
  intros Hwf Hsp. unfold search. rewrite bind_get.
  rewrite <- (wf_pred_top s L1 L2 Hwf) at 1.
  pose proof (wf_maxLevel _ _ Hwf).
  mrun (search_descent s L1 L2 q (maxLevel s + 1) Hwf Hsp ltac:(lia)).
  destruct (wf_pred0_forward s L1 L2 Hwf) as (n & Hn & Hf).
  mrun (get_forward_Ok _ _ _ _ _ Hn Hf).
  destruct L2 as [|t L2]; simpl; [done|].
  destruct (wf_nodes _ _ Hwf t) as (nt & Hnt & _ & Hk & _); [set_solver|].
  mrun (get_key_Ok _ _ _ Hnt). rewrite Hk. by destruct (bool_decide _).
Qed.

(** The end points of the stored intervals are the keys of the key
    nodes. *)
Lemma key_iff_end_point (s : state) L v :
  Inv s → wf s L →
  (∃ t, t ∈ L ∧ tkey t = v) ↔
  (∃ h I, container s !! h = Some I ∧ (inf I = v ∨ sup I = v)).
Proof.
  intros [_ Hcount Hpos Hcov _] Hwf. split.
  - intros (t & Ht & <-).
    destruct (wf_nodes _ _ Hwf t Ht) as (n & Hn & Hh & Hk & _).
    assert (Ho : owners s !! tptr t = Some (false, tkey t, ownerCount n)).
    { apply owners_lookup. eauto. }
    pose proof (Hpos _ _ _ Ho) as Hp.
    rewrite (Hcount _ _ _ Ho), Z.add_0_r in Hp.
    by apply incidences_pos in Hp.
  - intros (h & I & HI & Hv).
    destruct (Hcov h I HI) as [(p & c & Hp) (p' & c' & Hp')].
    apply owners_lookup in Hp as (n & Hn & Hh & Hk & _).
    apply owners_lookup in Hp' as (n' & Hn' & Hh' & Hk' & _).
    destruct (wf_key_node s L p n Hwf Hn Hh) as (t & Ht & _ & Htk & _).
    destruct (wf_key_node s L p' n' Hwf Hn' Hh') as (t' & Ht' & _ & Htk' & _).
    destruct Hv as [<-|<-]; [exists t|exists t']; split; congruence.
Qed.

(** X4 (search(const Value&)).  In every state that insert and remove lead
    to from the empty index, search(q) returns and leaves the index as it
    is; its result is a key node with key q, and it is non-null exactly
    when q is an end point of a stored interval. *)
Theorem search_finds_stored_end_points (s : state) (q : Value) :
  reachable s →
  ∃ r, search q s = Ok (r, s) ∧
    (∀ p, r = Some p →
          ∃ n, heap s !! p = Some n ∧ is_header n = false ∧ key n = q) ∧
    (is_Some r ↔
     ∃ h I, container s !! h = Some I ∧ (inf I = q ∨ sup I = q)).
Proof.
  intros Hr. pose proof (reachable_Inv s Hr) as HI.
  destruct (inv_wf _ HI) as [L Hwf].
  destruct (sorted_split (λ k, Value_lt k q) L (lower_test_lt q)
              (wf_sorted _ _ Hwf)) as (L1 & L2 & -> & Hsp).
  eexists. split; [apply (search_spec s L1 L2 q Hwf Hsp)|].
  rewrite <- (key_iff_end_point s (L1 ++ L2) q HI Hwf).
  destruct L2 as [|t L2]; simpl.
  - split; [done|]. split; [by intros [? ?]|].
    intros (t & Ht & Hk). rewrite app_nil_r in Ht.
    destruct Hsp as [Hlow _].
    pose proof (proj1 (Forall_forall _ _) Hlow t Ht) as Hlt. simpl in Hlt.
    by rewrite Hk, Value_lt_irrefl in Hlt.
  - destruct (wf_nodes _ _ Hwf t) as (nt & Hnt & Hh & Hk & _); [set_solver|].
    destruct (bool_decide (tkey t = q)) eqn:E.
    + apply bool_decide_eq_true in E. split.
      * intros p [= <-]. exists nt. repeat split; congruence.
      * split; [|eauto]. intros _. exists t. split; [set_solver|done].
    + apply bool_decide_eq_false in E. split; [done|].
      split; [by intros [? ?]|]. intros (t' & Ht' & Hk').
      destruct (split_head_key L1 (t :: L2) q t' (wf_sorted _ _ Hwf) Hsp
                  Ht' Hk') as [L2' [= <- _]].
      done.
Qed.

(** X5 (search(const Value&, update)).  In every state that insert and
    remove lead to, the search with an update vector of more than maxLevel
    cells returns and leaves the index as it is.  Its result is the first
    key node whose key is not less than q, whether or not that key is q,
    and null when every key is less than q; update[i] for i up to maxLevel
    is the header or a key node with a key less than q, and the cells
    above maxLevel are not written. *)
Theorem search_update_first_not_less (s : state) (q : Value)
    (upd : update_vec) :
  reachable s → maxLevel s < length upd →
  ∃ r upd', search_update q upd s = Ok ((r, upd'), s) ∧
    length upd' = length upd ∧
    (r = None →
     ∀ p n, heap s !! p = Some n → is_header n = false →
            Value_lt (key n) q = true) ∧
    (∀ p, r = Some p →
       ∃ n, heap s !! p = Some n ∧ is_header n = false ∧
            Value_lt (key n) q = false ∧
            ∀ p' n', heap s !! p' = Some n' → is_header n' = false →
                     Value_lt (key n') q = false →
                     Value_lt (key n') (key n) = false) ∧
    (∀ i, i ≤ maxLevel s →
       ∃ u nu, upd' !! i = Some (Some u) ∧ heap s !! u = Some nu ∧
               (is_header nu = true ∨ Value_lt (key nu) q = true)) ∧
    (∀ i, maxLevel s < i → upd' !! i = upd !! i).
Proof.
  intros Hr Hlen. destruct (inv_wf _ (reachable_Inv s Hr)) as [L Hwf].
  destruct (sorted_split (λ k, Value_lt k q) L (lower_test_lt q)
              (wf_sorted _ _ Hwf)) as (L1 & L2 & -> & Hsp).
  pose proof Hsp as [Hlow Hhigh].
  rewrite Forall_forall in Hlow. rewrite Forall_forall in Hhigh.
  eexists _, _. split; [apply (search_update_spec s L1 L2 q upd Hwf Hsp Hlen)|].
  split; [apply fill_update_length|].
  split; [|split; [|split]].
  - intros Hnone p n Hp Hh. destruct L2 as [|t L2]; [|done].
    destruct (wf_key_node s _ p n Hwf Hp Hh) as (t & Ht & _ & <- & _).
    rewrite app_nil_r in Ht. by apply Hlow.
  - intros p Hp. destruct L2 as [|t L2]; [done|]. injection Hp as <-.
    destruct (wf_nodes _ _ Hwf t) as (n & Hn & Hh & Hk & _); [set_solver|].
    exists n. split; [done|]. split; [done|].
    rewrite Hk. split; [apply Hhigh; set_solver|].
    intros p' n' Hp' Hh' Hge.
    destruct (wf_key_node s _ p' n' Hwf Hp' Hh') as (t' & Ht' & _ & Hk' & _).
    rewrite <- Hk' in *. clear Hk'.
    apply elem_of_app in Ht' as [Ht'|Ht'].
    { rewrite (Hlow t' Ht') in Hge. done. }
    apply elem_of_cons in Ht' as [->|Ht']; [apply Value_lt_irrefl|].
    pose proof (wf_sorted _ _ Hwf) as Hso.
    apply StronglySorted_app in Hso as (_ & _ & Hso).
    apply StronglySorted_cons in Hso as [Hall _].
    rewrite Forall_forall in Hall. apply Value_lt_asym. by apply Hall.
  - intros i Hi. exists (pred_at (header s) i L1).
    destruct (pred_at_cases (header s) i L1) as [E|Hin].
    + destruct (wf_header _ _ Hwf) as (hn & Hhn & Hih & _).
      exists hn. split; [apply fill_update_lt; lia|].
      rewrite E. auto.
    + apply chain_elem in Hin as (t & Ht & Hp & _).
      destruct (wf_nodes _ _ Hwf t) as (n & Hn & _ & Hk & _); [set_solver|].
      exists n. split; [apply fill_update_lt; lia|].
      rewrite <- Hp. split; [done|]. right. rewrite Hk. by apply Hlow.
  - intros i Hi. apply fill_update_ge. lia.
Qed.

(* --- what the updates do to the element store ----------------------------- *)

(** X6 (remove(const Interval&), its result).  In every state that insert
    and remove lead to: remove(I) returns false, leaving the index as it
    is, when every end point of every stored interval is less than
    I.inf(); and when a call of remove(I) returns, its result is false
    only in that case and with the index unchanged, and true only after
    one stored interval equal to I has been released from the element
    store. *)
Theorem remove_result (s : state) (I : Interval) :
  reachable s →
  ((∀ h J, container s !! h = Some J →
           Value_lt (inf J) (inf I) = true ∧
           Value_lt (sup J) (inf I) = true) →
   remove I s = Ok (false, s)) ∧
  (∀ b s', remove I s = Ok (b, s') →
     (b = false →
      s' = s ∧
      ∀ h J, container s !! h = Some J →
             Value_lt (inf J) (inf I) = true ∧
             Value_lt (sup J) (inf I) = true) ∧
     (b = true →
      ∃ ih, container s !! ih = Some I ∧
            container s' = delete ih (container s))).
Proof.
  intros Hr. pose proof (reachable_Inv s Hr) as HI.
  destruct (inv_wf _ HI) as [L Hwf]. split.
  - intros Hbelow.
    destruct (sorted_split (λ k, Value_lt k (inf I)) L (lower_test_lt _)
                (wf_sorted _ _ Hwf)) as (L1 & L2 & -> & Hsp).
    pose proof (wf_maxLevel _ _ Hwf) as Hmax.
    assert (Hlen : maxLevel s < length new_update)
      by (rewrite new_update_length; lia).
    unfold remove.
    mrun (search_update_spec s L1 L2 (inf I) new_update Hwf Hsp Hlen).
    destruct L2 as [|t L2]; [done|]. exfalso.
    destruct (proj1 (key_iff_end_point s _ (tkey t) HI Hwf))
      as (h & J & HJ & HE); [exists t; split; [set_solver|done]|].
    destruct Hsp as [_ Hhigh]. apply Forall_cons in Hhigh as [Hhigh _].
    simpl in Hhigh. destruct (Hbelow h J HJ) as [H1 H2].
    destruct HE as [E|E]; rewrite E in *; congruence.
  - intros b s' Hrun.
    destruct (remove_Inv s s' I b HI Hrun)
      as (_ & [(-> & -> & Hkeys)|(-> & ih & Hih & Hc)]).
    + split; [|done]. intros _. split; [done|]. intros h J HJ.
      destruct (inv_covered _ HI h J HJ) as [(p & c & Hp) (p' & c' & Hp')].
      apply owners_lookup in Hp as (n & Hn & Hh & Hk & _).
      apply owners_lookup in Hp' as (n' & Hn' & Hh' & Hk' & _).
      rewrite <- Hk, <- Hk'. eauto.
    + split; [done|]. intros _. eauto.
Qed.

(** X7 (the stored intervals).  After the intervals of S have been inserted
    and those of T removed, in any order in which every removal returned
    true, the element store holds, with multiplicity, the intervals of S
    that are not accounted for by T: the stored intervals together with T
    are a rearrangement of S. *)
Theorem stored_intervals_law S T (s : state) :
  history S T s →
  (map_to_list (container s)).*2 ++ T ≡ₚ S.
Proof.
  induction 1 as [r|S T s I s' Hh IH Hrun|S T s I s' Hh IH Hrun].
  - simpl. by rewrite map_to_list_empty.
  - pose proof (reachable_Inv _ (history_reachable _ _ _ Hh)) as HI.
    destruct (insert_Inv s s' I tt HI Hrun) as (_ & Hnone & ->).
    rewrite map_to_list_insert by done. simpl. by rewrite IH.
  - pose proof (reachable_Inv _ (history_reachable _ _ _ Hh)) as HI.
    destruct (remove_Inv s s' I true HI Hrun)
      as (_ & [(? & _)|(_ & ih & Hih & ->)]); [done|].
    rewrite <- IH, <- (map_to_list_delete (container s) ih I Hih).
    simpl. by rewrite Permutation_middle.
Qed.

(* --- fields that the updates leave alone ---------------------------------- *)

#[local] Instance same_fields_refl {X} (proj : state → X) :
  Reflexive (same_fields proj).
Proof. by intros s. Qed.

#[local] Instance same_fields_trans {X} (proj : state → X) :
  Transitive (same_fields proj).
Proof. unfold same_fields. intros s1 s2 s3. congruence. Qed.

Section Fields.

Context {X : Type} (proj : state → X).

(** The view does not look at the nodes. *)
Hypothesis proj_heap :
  ∀ s s', rand s = rand s' → container s = container s' →
          container_next s = container_next s' → maxLevel s = maxLevel s' →
          header s = header s' → heap_next s = heap_next s' →
          proj s = proj s'.

Local Abbreviation keeps := (preserves_rel (same_fields proj)).

Lemma store_node_fields x n : keeps (store_node x n).
Proof.
  intros s u s'. cbv [store_node bind get put]. intros [= <- <-].
  by apply proj_heap.
Qed.

Lemma set_forward_fields x i y : keeps (set_forward x i y).
Proof.
  intros s u s' Hrun. unfold set_forward in Hrun.
  msplit Hrun as n s1 Hn. apply node_at_inv in Hn as [-> _].
  destruct (decide _); [|done]. by eapply store_node_fields.
Qed.

Lemma set_markers_fields x i l : keeps (set_markers x i l).
Proof.
  intros s u s' Hrun. unfold set_markers in Hrun.
  msplit Hrun as n s1 Hn. apply node_at_inv in Hn as [-> _].
  destruct (decide _); [|done]. by eapply store_node_fields.
Qed.

Lemma set_eqMarkers_fields x l : keeps (set_eqMarkers x l).
Proof.
  intros s u s' Hrun. unfold set_eqMarkers in Hrun.
  msplit Hrun as n s1 Hn. apply node_at_inv in Hn as [-> _].
  by eapply store_node_fields.
Qed.

Lemma set_ownerCount_fields x c : keeps (set_ownerCount x c).
Proof.
  intros s u s' Hrun. unfold set_ownerCount in Hrun.
  msplit Hrun as n s1 Hn. apply node_at_inv in Hn as [-> _].
  by eapply store_node_fields.
Qed.

Lemma delete_node_fields x : keeps (delete_node x).
Proof.
  intros s u s' Hrun. unfold delete_node in Hrun.
  msplit Hrun as n s1 Hn. apply node_at_inv in Hn as [-> _].
  revert Hrun. cbv [bind get put]. intros [= <- <-]. by apply proj_heap.
Qed.

End Fields.



(** X10 (the skip list).  In every state that insert and remove lead to
    from the empty index, the nodes form a skip list: the header and the
    key nodes are the live nodes, the keys go up strictly along
    forward[0], level i links, in that order and up to a null pointer,
    the key nodes whose top level is at least i, every node has
    topLevel + 1 forward pointers and marker lists, and maxLevel is below
    MAX_FORWARD. *)
Theorem reachable_index_is_skip_list (s : state) :
  reachable s → ∃ L, wf s L.
Proof. intros Hr. exact (inv_wf _ (reachable_Inv s Hr)). Qed.

(* --- ranges ---------------------------------------------------------------- *)

Lemma insert_range_loop (l : list Interval) (i : Z) (s : state) n s' :
  reachable s →
  foldM (λ i Iv, let* _ := insert Iv in ret (i + 1)%Z) l i s = Ok (n, s') →
  n = (i + Z.of_nat (length l))%Z ∧ reachable s' ∧
  (map_to_list (container s')).*2 ≡ₚ l ++ (map_to_list (container s)).*2.
Proof.
  revert i s. induction l as [|Iv l IH]; intros i s Hr; simpl.
  - intros [= <- <-]. split; [lia|done].
  - intros Hrun. apply bind_Ok_inv in Hrun as (i1 & s1 & Hb & Hrun).
    apply bind_Ok_inv in Hb as (u & s2 & Hins & Hb).
    cbv [ret] in Hb. injection Hb as <- <-. destruct u.
    pose proof (reach_insert _ _ _ Hr Hins) as Hr2.
    destruct (insert_Inv s s2 Iv tt (reachable_Inv s Hr) Hins)
      as (_ & Hnone & Hc).
    destruct (IH _ _ Hr2 Hrun) as (-> & Hr' & Hperm).
    split; [lia|]. split; [done|].
    rewrite Hperm, Hc, map_to_list_insert by done. simpl.
    by rewrite Permutation_middle.
Qed.

(** X11 (insert(InputIterator, InputIterator)).  From a state that insert
    and remove lead to, a call of the range insert that returns, on a
    range of fewer than 2^31 intervals, returns the number of intervals of
    the range; all of them have been stored, duplicates included, beside
    the intervals that were stored before, and size() has gone up by that
    number. *)
Theorem insert_range_stores_all (s s' : state) (l : list Interval) (n : Z) :
  reachable s → (Z.of_nat (length l) < 2 ^ 31)%Z →
  insert_range l s = Ok (n, s') →
  n = Z.of_nat (length l) ∧ reachable s' ∧
  (map_to_list (container s')).*2 ≡ₚ l ++ (map_to_list (container s)).*2 ∧
  size_of s' = size_of s + length l.
Proof.
  intros Hr _ Hrun.
  destruct (insert_range_loop l 0%Z s n s' Hr Hrun) as (-> & Hr' & Hperm).
  split; [lia|]. split; [done|]. split; [done|].
  unfold size_of. rewrite <- !length_map_to_list.
  rewrite <- (length_fmap snd (map_to_list (container s'))), Hperm.
  rewrite length_app, length_fmap. lia.
Qed.

(* --- insert(const Value&) --------------------------------------------------- *)

(** X12 (insert(const Value&)).  In every state that insert and remove lead
    to, a call of insert(q) that returns gives a key node with key q in a
    state whose nodes form a skip list again, with the element store as it
    was; when the node was there already the index has not changed at all;
    and calling insert(q) again returns that node and changes nothing. *)
Theorem insert_value_finds_or_links (s s' : state) (q : Value) (x : ptr) :
  reachable s → insert_value q s = Ok (x, s') →
  (∃ n', heap s' !! x = Some n' ∧ is_header n' = false ∧ key n' = q) ∧
  (∃ L', wf s' L') ∧ container s' = container s ∧
  (is_Some (heap s !! x) → s' = s) ∧
  insert_value q s' = Ok (x, s').
Proof.
  intros Hr Hrun. destruct (inv_wf _ (reachable_Inv s Hr)) as [L Hwf].
  destruct (insert_value_spec s s' L q x Hwf Hrun)
    as (Hc & _ & _ & [(-> & t & Ht & <- & <-)
                     |(L1 & L2 & nl & -> & Hne & Hwf' & _ & Hx)]).
  - destruct (wf_nodes _ _ Hwf t Ht) as (n & Hn & Hh & Hk & _).
    split; [eauto|]. split; [eauto|]. split; [done|]. split; [done|].
    rewrite <- Hk. by apply (insert_value_found s L).
  - destruct (wf_nodes _ _ Hwf' (x, q, nl)) as (n & Hn & Hh & Hk & _);
      [set_solver|].
    split; [eauto|]. split; [eauto|]. split; [done|].
    split; [rewrite Hx; by intros [? ?]|].
    change q with (tkey (x, q, nl)). rewrite <- Hk.
    by apply (insert_value_found s' (L1 ++ (x, q, nl) :: L2)).
Qed.

(* --- the marker repairs ------------------------------------------------------ *)

(** X13 (adjustMarkersOnInsert, adjustMarkersOnDelete, placeMarkers).  The
    marker repair of an insertion, the marker repair of a deletion and the
    staircase walk of placeMarkers change nothing but the cells of marker
    lists: no node is made or deleted, no key, forward pointer, owner
    count or level is written, and the element store, maxLevel and the
    header stay as they are. *)
Theorem marker_repairs_touch_marker_lists_only (x : ptr) (u : update_vec)
    (l r : ptr) (I : Interval_handle) :
  preserves_rel same_shape (adjustMarkersOnInsert x u) ∧
  preserves_rel same_shape (adjustMarkersOnDelete x u) ∧
  preserves_rel same_shape (placeMarkers l r I).
Proof.
  split; [|split].
  - apply adjustMarkersOnInsert_same_shape.
  - apply adjustMarkersOnDelete_same_shape.
  - apply placeMarkers_same_shape.
Qed.

Lemma marks_from_refl (s : state) : marks_from s s.
Proof. intros a na Ha. split; [intros i l h Hl Hh|intros h Hh]; eauto. Qed.

Section Unlinking.

Variable s0 : state.

Local Abbreviation from0 := (marks_from s0).

Lemma markers_remove_from x i m (s s' : state) u :
  from0 s → markers_remove x i m s = Ok (u, s') → from0 s'.
Proof.
  intros Hm Hrun. unfold markers_remove in Hrun.
  msplit Hrun as l s1 Hg.
  apply (marks_within_get_markers _ _ _ _ _ _ _ Hm) in Hg as [-> Hl].
  msplit Hrun as l' s1 Hr. unfold lift in Hr.
  destruct (IL_remove (container s) m l) as [l0| |] eqn:E; [|done..].
  injection Hr as <- <-. apply IL_remove_spec in E as [Hsub _].
  eapply marks_within_set_markers; [done| |done]. auto.
Qed.

Lemma eqMarkers_remove_from x m (s s' : state) u :
  from0 s → eqMarkers_remove x m s = Ok (u, s') → from0 s'.
Proof.
  intros Hm Hrun. unfold eqMarkers_remove in Hrun.
  msplit Hrun as l s1 Hg.
  apply (marks_within_get_eqMarkers _ _ _ _ _ _ Hm) in Hg as [-> Hl].
  msplit Hrun as l' s1 Hr. unfold lift in Hr.
  destruct (IL_remove (container s) m l) as [l0| |] eqn:E; [|done..].
  injection Hr as <- <-. apply IL_remove_spec in E as [Hsub _].
  eapply marks_within_set_eqMarkers; [done| |done]. auto.
Qed.

Lemma markers_remove_res_from x i m res (s s' : state) r :
  from0 s → markers_remove_res x i m res s = Ok (r, s') → from0 s'.
Proof.
  intros Hm Hrun. unfold markers_remove_res in Hrun.
  msplit Hrun as l s1 Hg.
  apply (marks_within_get_markers _ _ _ _ _ _ _ Hm) in Hg as [-> Hl].
  msplit Hrun as tl s1 Hr. unfold lift in Hr.
  destruct (IL_remove_res (container s) m l) as [[t l0]| |] eqn:E; [|done..].
  injection Hr as <- <-. apply IL_remove_res_spec in E as (Hsub & _).
  msplit Hrun as u s2 Hset. injection Hrun as _ <-.
  eapply marks_within_set_markers; [done| |done]. auto.
Qed.

Lemma eqMarkers_remove_res_from x m res (s s' : state) r :
  from0 s → eqMarkers_remove_res x m res s = Ok (r, s') → from0 s'.
Proof.
  intros Hm Hrun. unfold eqMarkers_remove_res in Hrun.
  msplit Hrun as l s1 Hg.
  apply (marks_within_get_eqMarkers _ _ _ _ _ _ Hm) in Hg as [-> Hl].
  msplit Hrun as tl s1 Hr. unfold lift in Hr.
  destruct (IL_remove_res (container s) m l) as [[t l0]| |] eqn:E; [|done..].
  injection Hr as <- <-. apply IL_remove_res_spec in E as (Hsub & _).
  msplit Hrun as u s2 Hset. injection Hrun as _ <-.
  eapply marks_within_set_eqMarkers; [done| |done]. auto.
Qed.

Lemma removeMarkFromLevel_loop_from fuel m i x r (s s' : state) y :
  from0 s → removeMarkFromLevel_loop fuel m i x r s = Ok (y, s') → from0 s'.
Proof.
  revert x s. induction fuel as [|fuel IH]; intros x s Hf; simpl; [done|].
  destruct x as [a|]; [|by intros [= _ <-]].
  destruct (bool_decide _); [by intros [= _ <-]|]. intros Hrun.
  msplit Hrun as u1 s1 H1. apply (markers_remove_from _ _ _ _ _ _ Hf) in H1.
  msplit Hrun as u2 s2 H2. apply (eqMarkers_remove_from _ _ _ _ _ H1) in H2.
  msplit Hrun as f s3 H3. apply get_forward_inv in H3 as [-> _].
  by eapply IH.
Qed.

Lemma unplace_ascending_from fuel Iv x i res (s s' : state) r :
  from0 s → unplace_ascending fuel Iv x i res s = Ok (r, s') → from0 s'.
Proof.
  revert x i res s. induction fuel as [|fuel IH]; intros x i res s Hf; simpl;
    [done|].
  intros Hrun. msplit Hrun as c s1 Hc.
  pose proof (preserves_edge_contained eq _ _ _ _ _ _ Hc) as <-.
  destruct c; [|by injection Hrun as _ <-].
  msplit Hrun as j s1 Hj. pose proof (preserves_raise eq _ _ _ _ _ _ Hj) as <-.
  msplit Hrun as f s1 H3. apply get_forward_inv in H3 as [-> _].
  destruct f as [y|]; [|by eapply IH].
  msplit Hrun as res1 s1 H4.
  apply (markers_remove_res_from _ _ _ _ _ _ _ Hf) in H4.
  msplit Hrun as yk s2 H5. pose proof (preserves_get_key eq _ _ _ _ H5) as <-.
  msplit Hrun as res2 s3 H6.
  assert (from0 s3).
  { destruct (contains Iv yk); [|by injection H6 as _ <-].
    by eapply eqMarkers_remove_res_from. }
  by eapply IH.
Qed.

Lemma unplace_descending_from fuel Iv x i res (s s' : state) r :
  from0 s → unplace_descending fuel Iv x i res s = Ok (r, s') → from0 s'.
Proof.
  revert x i res s. induction fuel as [|fuel IH]; intros x i res s Hf; simpl;
    [done|].
  intros Hrun. msplit Hrun as a s1 Ha.
  pose proof (preserves_nonnull eq _ _ _ _ Ha) as <-.
  msplit Hrun as xk s1 Hk. pose proof (preserves_get_key eq _ _ _ _ Hk) as <-.
  destruct (Value_ne xk (sup Iv)); [|by injection Hrun as _ <-].
  msplit Hrun as j s1 Hj.
  pose proof (preserves_lower_level eq _ _ _ _ _ _ Hj) as <-.
  msplit Hrun as res1 s1 H4.
  apply (markers_remove_res_from _ _ _ _ _ _ _ Hf) in H4.
  msplit Hrun as f s2 H3. apply get_forward_inv in H3 as [-> _].
  msplit Hrun as b s2 Hb. pose proof (preserves_nonnull eq _ _ _ _ Hb) as <-.
  msplit Hrun as bk s2 H5. pose proof (preserves_get_key eq _ _ _ _ H5) as <-.
  msplit Hrun as res2 s3 H6.
  assert (from0 s3).
  { destruct (contains Iv bk); [|by injection H6 as _ <-].
    by eapply eqMarkers_remove_res_from. }
  by eapply IH.
Qed.

End Unlinking.


(** removeMarkers adds no cell to any marker list. *)
Lemma removeMarkers_from (s s' : state) (lft : ptr) (Iv : Interval)
    (ih : Interval_handle) :
  removeMarkers lft Iv s = Ok (ih, s') → marks_from s s'.
Proof.
  intros Hrun. unfold removeMarkers in Hrun.
  msplit Hrun as xk s1 H1. pose proof (preserves_get_key eq _ _ _ _ H1) as <-.
  msplit Hrun as res s2 H2.
  assert (Hf2 : marks_from s s2).
  { destruct (contains Iv xk).
    - eapply eqMarkers_remove_res_from; [apply marks_from_refl|done].
    - injection H2 as _ <-. apply marks_from_refl. }
  msplit Hrun as xir s3 H3. destruct xir as [[x i] res'].
  apply (unplace_ascending_from s _ _ _ _ _ _ _ _ Hf2) in H3.
  msplit Hrun as res2 s4 H4.
  apply (unplace_descending_from s _ _ _ _ _ _ _ _ H3) in H4.
  msplit Hrun as r s5 H5. pose proof (preserves_nonnull eq _ _ _ _ H5) as <-.
  msplit Hrun as J s6 H6. apply deref_inv in H6 as [-> _].
  destruct (bool_decide (J = Iv)); [|done]. by injection Hrun as _ <-.
Qed.


(* --- clear() ------------------------------------------------------------------ *)

Lemma delete_node_Ok (s : state) a n :
  heap s !! a = Some n →
  delete_node a s
  = Ok (tt, {| rand := rand s; container := container s;
               container_next := container_next s;
               maxLevel := maxLevel s; header := header s;
               heap := delete a (heap s); heap_next := heap_next s |}).
Proof.
  intros Ha. unfold delete_node. mrun (node_at_Ok _ _ _ Ha). done.
Qed.

(** The loop of clear() along forward[0] deletes the nodes it visits. *)
Lemma clear_loop_spec (c : list ptr) fuel p (s : state) :
  lseg (heap s) 0 p c None → NoDup c → length c < fuel →
  ∃ s', clear_loop fuel p s = Ok (tt, s') ∧
    (∀ a, heap s' !! a = if decide (a ∈ c) then None else heap s !! a) ∧
    heap_next s' = heap_next s ∧ container s' = container s ∧
    container_next s' = container_next s ∧ rand s' = rand s.
Proof.
  revert fuel p s. induction c as [|a c IH]; intros fuel p s Hl Hnd Hfuel.
  - simpl in Hl. subst p. destruct fuel as [|fuel]; [simpl in Hfuel; lia|].
    exists s. split; [done|]. split; [|done]. intros a.
    rewrite decide_False; [done|]. apply not_elem_of_nil.
  - destruct Hl as (-> & n & f & Hn & Hf & Hl).
    destruct fuel as [|fuel]; [simpl in Hfuel; lia|]. cbn [clear_loop].
    mrun (get_forward_Ok _ _ _ _ _ Hn Hf).
    mrun (delete_node_Ok _ _ _ Hn).
    apply NoDup_cons in Hnd as [Ha Hnd].
    set (s1 := {| rand := rand s; container := container s;
                  container_next := container_next s;
                  maxLevel := maxLevel s; header := header s;
                  heap := delete a (heap s); heap_next := heap_next s |}).
    destruct (IH fuel f s1) as (s' & Hrun & Hh & Hhn & Hc & Hcn & Hrd);
      [|exact Hnd|simpl in Hfuel; lia|].
    { apply (lseg_delete_notin _ a); [exact Ha|exact Hl]. }
    exists s'. split; [exact Hrun|]. split; [|done].
    intros b. rewrite Hh. simpl.
    destruct (decide (b = a)) as [->|Hne].
    + rewrite lookup_delete_eq. rewrite (decide_True (P := a ∈ a :: c));
        [|left]. by destruct (decide _).
    + rewrite lookup_delete_ne by done.
      destruct (decide (b ∈ c)).
      * rewrite decide_True; [done|by right].
      * rewrite decide_False; [done|]. intros Hb.
        apply elem_of_cons in Hb as [?|?]; done.
Qed.

(** X16 (clear()).  In every state that insert and remove lead to, clear()
    returns; afterwards the only node is a new header with null forward
    pointers and empty marker lists, and maxLevel is 0.  The element store
    is not cleared: the stored intervals stay in it and size() is what it
    was. *)
Theorem clear_keeps_element_store (s : state) :
  reachable s →
  ∃ s', clear s = Ok (tt, s') ∧
    heap s' = {[header s' := new_header MAX_FORWARD]} ∧
    maxLevel s' = 0 ∧ wf s' [] ∧
    container s' = container s ∧ size_of s' = size_of s.
Proof.
  intros Hr. destruct (inv_wf _ (reachable_Inv s Hr)) as [L Hwf].
  pose proof (wf_links _ _ Hwf 0 ltac:(lia)) as Hl. unfold links in Hl.
  destruct (clear_loop_spec _ (fuel_of s) _ s Hl)
    as (s1 & Hrun & Hh & Hhn & Hc & Hcn & Hrd).
  { rewrite chain_0. apply (wf_nodup _ _ Hwf). }
  { rewrite fuel_of_S, (wf_size _ _ Hwf), chain_0. simpl.
    rewrite length_fmap. lia. }
  assert (Hempty : heap s1 = ∅).
  { apply map_eq. intros a. rewrite Hh, lookup_empty.
    destruct (decide _) as [|Hna]; [done|].
    destruct (heap s !! a) eqn:Ha; [|done]. exfalso. apply Hna.
    rewrite chain_0.
    destruct (wf_heap_dom s L a Hwf ltac:(eauto)) as [->|?];
      [left|by right]. }
  eexists. split.
  { unfold clear. rewrite bind_get. mrun Hrun.
    cbv [alloc bind get put ret]. reflexivity. }
  cbn [heap header maxLevel container]. rewrite Hempty.
  split; [done|]. split; [done|]. split; [|by rewrite Hc].
  split.
  - split; cbn [heap header maxLevel heap_next].
    + exists (new_header MAX_FORWARD). rewrite lookup_insert_eq.
      repeat split; simpl; by rewrite length_replicate.
    + apply NoDup_singleton.
    + rewrite map_size_insert_None by apply lookup_empty.
      by rewrite map_size_empty.
    + intros t Ht. by apply elem_of_nil in Ht.
    + constructor.
    + unfold MAX_FORWARD. lia.
    + intros p [n Hp]. apply lookup_insert_Some in Hp as [[<- _]|[_ Hp]].
      * lia.
      * by rewrite lookup_empty in Hp.
  - intros i Hi. unfold links. rewrite chain_nil.
    cbn [heap header lseg]. split; [done|].
    exists (new_header MAX_FORWARD), None. rewrite lookup_insert_eq.
    split; [done|]. split; [|done]. unfold new_header. cbn [forward].
    apply lookup_replicate_2. lia.
Qed.

(* --- find_intervals below the keys ------------------------------------------ *)

Lemma find_intervals_loop_header (s : state) L q n out :
  wf s L → Forall (λ t, Value_ge q (tkey t) = false) L →
  n ≤ MAX_FORWARD + 1 →
  find_intervals_loop n q (header s) out s = Ok (out, s).
Proof.
  intros Hwf Hall. induction n as [|n IH]; intros Hn; [done|].
  cbn [find_intervals_loop].
  destruct (wf_header _ _ Hwf) as (hn & Hhn & Hih & _).
  mrun (node_at_Ok _ _ _ Hhn). rewrite Hih. cbn [orb].
  assert (Hadv : advance_level (λ k, Value_ge q k) n (header s) s
                 = Ok (header s, s)).
  { apply (advance_search_level s [] L _ n); [done| |lia].
    split; [constructor|done]. }
  mrun Hadv. mrun (node_at_Ok _ _ _ Hhn). rewrite Hih. cbn [negb andb].
  msimpl. apply IH. lia.
Qed.

(** X17 (find_intervals below every end point).  In every state that
    insert and remove lead to, when q is less than both end points of
    every stored interval, and in particular when nothing is stored,
    find_intervals(q) returns, writes nothing to the sink and leaves the
    index as it is. *)
Theorem find_intervals_below_all_end_points (s : state) (q : Value)
    (out : list Interval) :
  reachable s →
  (∀ h J, container s !! h = Some J →
          Value_lt q (inf J) = true ∧ Value_lt q (sup J) = true) →
  find_intervals q out s = Ok (out, s).
Proof.
  intros Hr Hbelow. pose proof (reachable_Inv s Hr) as HI.
  destruct (inv_wf _ HI) as [L Hwf].
  unfold find_intervals. rewrite bind_get.
  pose proof (wf_maxLevel _ _ Hwf).
  apply (find_intervals_loop_header s L); [done| |lia].
  apply Forall_forall. intros t Ht.
  destruct (proj1 (key_iff_end_point s L (tkey t) HI Hwf))
    as (h & J & HJ & HE); [eauto|].
  destruct (Hbelow h J HJ) as [H1 H2]. unfold Value_ge.
  destruct HE as [E|E]; rewrite <- E; [by rewrite H1|by rewrite H2].
Qed.

End Members.

(* ====================================================================== *)
(*  The markers of the states of the index                                *)
(* ====================================================================== *)

Section MarkerInvariant.

Context {Value Interval : Type} `{!IntervalType Value Interval}.
Context `{!ValueOrder Value Interval} `{!ClosedIntervals Value Interval}.

Local Abbreviation state := (Interval_skip_list Value Interval).
Local Abbreviation node := (IntervalSLnode Value).
Local Abbreviation tower := (tower Value).
Local Abbreviation store := (gmap Interval_handle Interval).
Local Abbreviation pred_at := (pred_at (Value:=Value)).
Local Abbreviation split_by := (split_by (Value:=Value)).
Local Abbreviation fill_update := (fill_update (Value:=Value)).
Local Abbreviation tptr := (tptr (Value:=Value)).
Local Abbreviation tkey := (tkey (Value:=Value)).
Local Abbreviation tlev := (tlev (Value:=Value)).
Local Abbreviation wf := (wf (Value:=Value) (Interval:=Interval)).
Local Abbreviation same_shape := (same_shape (Value:=Value) (Interval:=Interval)).
Local Abbreviation edge_in := (edge_in (Value:=Value) (Interval:=Interval)).
Local Abbreviation marks_from := (marks_from (Value:=Value) (Interval:=Interval)).
Local Abbreviation sound_at := (sound_at (Value:=Value) (Interval:=Interval)).
Local Abbreviation Sound := (Sound (Value:=Value) (Interval:=Interval)).

(* --- remove(const Interval&) ------------------------------------------------ *)

Lemma sound_at_unlinked (s s' : state) L :
  same_shape s s' → marks_from s s' → sound_at s L → sound_at s' L.
Proof.
  intros Hsh Hfrom Hso. pose proof Hsh as (_ & Hc & Hcn & _).
  unfold sound_at. rewrite <- Hc, <- Hcn.
  intros a na' Ha'. destruct (Hfrom a na' Ha') as [Hmk Heq]. split.
  - intros i l h Hl Hh.
    destruct (Hmk i l h Hl Hh) as (na & l0 & Ha & Hl0 & Hh0).
    destruct (Hso a na Ha) as [Hok _]. eauto.
  - intros h Hh. destruct (Heq h Hh) as (na & Ha & Hh0).
    destruct (Hso a na Ha) as [_ Hok]. eauto.
Qed.

Lemma release_sound (s s' : state) L ih u :
  container_release ih s = Ok (u, s') → wf s L → sound_at s L →
  wf s' L ∧ sound_at s' L ∧ header s' = header s ∧
  maxLevel s' = maxLevel s.
Proof.
  intros Hrel Hwf Hso.
  apply container_release_inv in Hrel as (_ & Hc & Hcn & Hh & Hd & Hhn & Hm).
  split; [|split; [|done]].
  - eapply (wf_ext s); [done..|lia| |done].
    rewrite Hm. apply (wf_maxLevel _ _ Hwf).
  - unfold sound_at. rewrite Hc, Hcn. intros a na Ha. rewrite Hh in Ha.
    destruct (Hso a na Ha) as [Hmk Heq]. split.
    + intros i l h Hl Hin. destruct (Hmk i l h Hl Hin) as [Hb Hok].
      split; [done|]. intros J HJ.
      apply lookup_delete_Some in HJ as [_ HJ]. auto.
    + intros h Hin. destruct (Heq h Hin) as [Hb Hok].
      split; [done|]. intros J HJ.
      apply lookup_delete_Some in HJ as [_ HJ]. auto.
Qed.

(** x->ownerCount--; if (x->ownerCount == 0) remove(x, update). *)
Lemma drop_endpoint_sound (s s3 s3' s4 : state) L1 t0 L2 upd nd u1 u2 :
  wf s (L1 ++ t0 :: L2) → sound_at s (L1 ++ t0 :: L2) →
  (∀ i, i ≤ tlev t0 →
        upd !! i = Some (Some (pred_at (header s) i L1))) →
  ownerCount_add (tptr t0) (-1) s = Ok (u1, s3) →
  node_at (tptr t0) s3 = Ok (nd, s3') →
  (if bool_decide (ownerCount nd = 0%Z) then remove_node (tptr t0) upd
   else ret tt) s3' = Ok (u2, s4) →
  Sound s4.
Proof.
  intros Hwf Hso Hupd Hadd Hnd Hrm.
  apply ownerCount_add_spec in Hadd as (n & Hn & Hss & _).
  pose proof (wf_same_structure _ _ _ Hss Hwf) as Hwf3.
  pose proof Hss as (_ & Hc & Hcn & _ & Hd3 & _).
  assert (Hso3 : sound_at s3 (L1 ++ t0 :: L2)).
  { unfold sound_at. rewrite <- Hc, <- Hcn.
    by eapply marks_within_same_structure. }
  apply node_at_inv in Hnd as [-> _].
  destruct (bool_decide _).
  - apply (remove_node_sound s3 s4 L1 L2 t0 upd u2) in Hrm as [Hwf4 Hso4];
      [by eexists|done|done|].
    intros i Hi. rewrite <- Hd3. by apply Hupd.
  - injection Hrm as _ <-. by eexists.
Qed.

(** remove(const Interval&) keeps the markers sound. *)
Lemma remove_sound (s s' : state) I b :
  Sound s → remove I s = Ok (b, s') → Sound s'.
Proof.
  intros (L & Hwf & Hso) Hrun. unfold remove in Hrun.
  destruct (sorted_split (λ k, Value_lt k (inf I)) L (lower_test_lt _)
              (wf_sorted _ _ Hwf)) as (L1 & L2 & -> & Hsp).
  pose proof (wf_maxLevel _ _ Hwf) as Hmax.
  assert (Hlen : maxLevel s < length new_update)
    by (rewrite new_update_length; lia).
  mrun_in (search_update_spec s L1 L2 (inf I) new_update Hwf Hsp Hlen) Hrun.
  set (upd := fill_update (header s) L1 (maxLevel s + 1) new_update) in *.
  destruct L2 as [|t0 L2]; simpl in Hrun.
  { msimpl_in Hrun. injection Hrun as _ <-. by eexists. }
  msplit Hrun as n0 s0 Hn0. apply node_at_inv in Hn0 as [-> Hn0].
  msimpl_in Hrun.
  destruct (negb (ownerCount n0 <=? 0)%Z);
    [|injection Hrun as _ <-; by eexists].
  cbv [nonnull] in Hrun. msimpl_in Hrun.
  assert (Hupd : ∀ i, i ≤ tlev t0 →
            upd !! i = Some (Some (pred_at (header s) i L1))).
  { intros i Hi.
    destruct (wf_nodes _ _ Hwf t0 ltac:(set_solver))
      as (? & _ & _ & _ & _ & _ & _ & ?).
    apply fill_update_lt; lia. }
  assert (Hupdlen : length upd = MAX_FORWARD).
  { unfold upd. by rewrite fill_update_length, new_update_length. }
  (* the markers of the interval *)
  msplit Hrun as ih s1 Hrm.
  pose proof (removeMarkers_from _ _ _ _ _ Hrm) as Hfrom.
  apply removeMarkers_result in Hrm as [Hsh _].
  pose proof (wf_same_shape _ _ _ Hsh Hwf) as Hwf1.
  pose proof (sound_at_unlinked _ _ _ Hsh Hfrom Hso) as Hso1.
  pose proof Hsh as (_ & _ & _ & _ & Hd1 & _).
  (* the element *)
  msplit Hrun as [] s2 Hrel.
  destruct (release_sound _ _ _ _ _ Hrel Hwf1 Hso1)
    as (Hwf2 & Hso2 & Hd2 & Hm2).
  (* the left end point *)
  msplit Hrun as u1 s3 Hadd. msplit Hrun as nd s3' Hnd.
  msplit Hrun as u2 s4 Hrm2.
  destruct (drop_endpoint_sound s2 s3 s3' s4 L1 t0 L2 upd nd u1 u2 Hwf2 Hso2)
    as (L4 & Hwf4 & Hso4); [|done..|].
  { intros i Hi. rewrite Hd2, <- Hd1. by apply Hupd. }
  (* the right end point *)
  destruct (sorted_split (λ k, Value_lt k (sup I)) L4 (lower_test_lt _)
              (wf_sorted _ _ Hwf4)) as (L1' & L2' & -> & Hsp').
  assert (Hlen4 : maxLevel s4 < length upd).
  { rewrite Hupdlen. apply (wf_maxLevel _ _ Hwf4). }
  mrun_in (search_update_spec s4 L1' L2' (sup I) upd Hwf4 Hsp' Hlen4) Hrun.
  destruct L2' as [|t1 L2']; simpl in Hrun.
  { msimpl_in Hrun. injection Hrun as _ <-. by eexists. }
  msplit Hrun as n1 s5 Hn1. apply node_at_inv in Hn1 as [-> Hn1].
  msimpl_in Hrun.
  destruct (negb (ownerCount n1 <=? 0)%Z);
    [|injection Hrun as _ <-; by eexists].
  cbv [nonnull] in Hrun. msimpl_in Hrun.
  msplit Hrun as u3 s5 Hadd2. msplit Hrun as nd2 s5' Hnd2.
  msplit Hrun as u4 s6 Hrm3. injection Hrun as _ <-.
  eapply (drop_endpoint_sound s4 s5 s5' s6 L1' t1 L2'); try done.
  intros i Hi.
  destruct (wf_nodes _ _ Hwf4 t1 ltac:(set_solver))
    as (? & _ & _ & _ & _ & _ & _ & ?).
  apply fill_update_lt; lia.
Qed.

(* --- the states of the index ------------------------------------------------ *)

Lemma Sound_empty r : Sound (empty_index r).
Proof.
  destruct (inv_wf _ (Inv_empty r)) as [L Hwf]. exists L. split; [done|].
  intros a na Ha. simpl in Ha.
  apply lookup_singleton_Some in Ha as [_ <-]. split.
  - intros i l h Hl Hh. unfold new_header in Hl. cbn [markers] in Hl.
    apply lookup_replicate in Hl as [-> _]. by apply elem_of_nil in Hh.
  - intros h Hh. by apply elem_of_nil in Hh.
Qed.

Lemma reachable_Sound (s : state) : reachable s → Sound s.
Proof.
  induction 1 as [r|s I s' _ IH Hrun|s I b s' _ IH Hrun].
  - apply Sound_empty.
  - by eapply insert_sound.
  - by eapply remove_sound.
Qed.

(* --- find_intervals ----------------------------------------------------------- *)

Lemma IL_copy_out_spec (c : store) l out r :
  IL_copy_out c l out = Ok r →
  ∃ ext, r = out ++ ext ∧ ∀ J, J ∈ ext → ∃ h, h ∈ l ∧ c !! h = Some J.
Proof.
  revert out. induction l as [|h l IH]; intros out; simpl.
  - intros [= <-]. exists []. rewrite app_nil_r. split; [done|].
    intros J HJ. by apply elem_of_nil in HJ.
  - unfold load. destruct (c !! h) as [J|] eqn:Hh; simpl; [|done].
    intros Hr. apply IH in Hr as (ext & -> & Hext).
    exists (J :: ext). rewrite <- app_assoc. split; [done|].
    intros J' HJ'. apply elem_of_cons in HJ' as [->|HJ'].
    + exists h. split; [left|done].
    + destruct (Hext J' HJ') as (h' & ? & ?). exists h'. split; [by right|done].
Qed.

(** A mark on the edge that leaves the last node of level i before a
    cut of the list contains an interval between the two sides. *)
Lemma edge_in_cut hd (L1 L2 : list tower) i J :
  NoDup (hd :: (tptr <$> (L1 ++ L2))) →
  edge_in (L1 ++ L2) (pred_at hd i L1) i J →
  ∃ t0 t', t0 ∈ L1 ∧ t' ∈ L2 ∧
           contains_interval J (tkey t0) (tkey t') = true.
Proof.
  intros Hnd (La & t & Lb & t' & E & Ha & _ & Hn & HJ).
  destruct (pred_at_split hd i L1)
    as [[Ep _]|(La0 & t0 & Lb0 & -> & Ep & Ht0 & HLb0)].
  - exfalso. apply NoDup_cons_1_1 in Hnd. apply Hnd.
    rewrite <- Ep, <- Ha, E. apply list_elem_of_fmap. exists t. set_solver.
  - rewrite Ep in Ha. apply NoDup_cons_1_2 in Hnd.
    rewrite <- app_assoc, <- app_comm_cons in E, Hnd.
    destruct (split_unique La0 (Lb0 ++ L2) La Lb t0 t Hnd E)
      as (-> & -> & <-); [done|].
    apply nxt_None in HLb0. rewrite nxt_app, HLb0 in Hn.
    apply nxt_elem in Hn as [Hn _].
    exists t, t'. split; [set_solver|done].
Qed.

Lemma find_intervals_loop_sound (s : state) L1 L2 q n out r s' :
  wf s (L1 ++ L2) → sound_at s (L1 ++ L2) →
  split_by (λ k, Value_ge q k) L1 L2 → n ≤ MAX_FORWARD + 1 →
  find_intervals_loop n q (pred_at (header s) n L1) out s = Ok (r, s') →
  s' = s ∧
  ∃ ext, r = out ++ ext ∧
         ∀ J, J ∈ ext → contains J q = true ∧
                        ∃ h, container s !! h = Some J.
Proof.
  intros Hwf Hso Hsp. revert out.
  assert (Hnil : ∀ out : list Interval,
            ∃ ext, out = out ++ ext ∧
                   ∀ J, J ∈ ext → contains J q = true ∧
                                  ∃ h, container s !! h = Some J).
  { intros out. exists []. rewrite app_nil_r. split; [done|].
    intros J HJ. by apply elem_of_nil in HJ. }
  induction n as [|n IH]; intros out Hn Hrun.
  { injection Hrun as <- <-. split; [done|]. apply Hnil. }
  cbn [find_intervals_loop] in Hrun.
  msplit Hrun as nx s1 Hnx. apply node_at_inv in Hnx as [-> Hnx].
  destruct (is_header nx || Value_ne (key nx) q).
  2:{ injection Hrun as <- <-. split; [done|]. apply Hnil. }
  mrun_in (advance_search_level s L1 L2 _ n Hwf Hsp ltac:(lia)) Hrun.
  msplit Hrun as nx' s1 Hnx'. apply node_at_inv in Hnx' as [-> Hnx'].
  msplit Hrun as out' s1 Hout.
  assert (Hstep : s1 = s ∧
            ∃ ext, out' = out ++ ext ∧
                   ∀ J, J ∈ ext → contains J q = true ∧
                                  ∃ h, container s !! h = Some J).
  { destruct (Hso _ _ Hnx') as [Hmk Heq].
    destruct (is_header nx') eqn:Hh; cbn [negb andb] in Hout.
    { injection Hout as <- <-. split; [done|]. apply Hnil. }
    destruct (Value_ne (key nx') q) eqn:Hne.
    - msplit Hout as l s2 Hl.
      apply get_markers_inv in Hl as (-> & n' & Hn' & Hl).
      assert (n' = nx') as -> by congruence.
      unfold lift in Hout.
      destruct (IL_copy_out (container s) l out) as [o| |] eqn:Hco;
        [|done..].
      injection Hout as <- <-. split; [done|].
      apply IL_copy_out_spec in Hco as (ext & -> & Hext).
      exists ext. split; [done|]. intros J HJ.
      destruct (Hext J HJ) as (h & Hh' & HJh). split; [|eauto].
      destruct (Hmk n l h Hl Hh') as [_ Hok].
      specialize (Hok J HJh).
      apply (edge_in_cut (header s) L1 L2 n J (wf_nodup _ _ Hwf)) in Hok
        as (t0 & t' & Ht0 & Ht' & HC).
      destruct Hsp as [H1 H2]. rewrite Forall_forall in H1, H2.
      specialize (H1 t0 Ht0). specialize (H2 t' Ht'). unfold Value_ge in *.
      apply negb_true_iff in H1. apply negb_false_iff in H2.
      apply (contains_interval_point J (tkey t0) (tkey t')); [done|done|].
      by apply Value_lt_asym.
    - unfold lift in Hout.
      destruct (IL_copy_out (container s) (eqMarkers nx') out)
        as [o| |] eqn:Hco; [|done..].
      injection Hout as <- <-. split; [done|].
      apply IL_copy_out_spec in Hco as (ext & -> & Hext).
      exists ext. split; [done|]. intros J HJ.
      destruct (Hext J HJ) as (h & Hh' & HJh). split; [|eauto].
      destruct (Heq h Hh') as [_ Hok].
      destruct (Hok J HJh) as (t & Ht & Hp & HC).
      destruct (wf_nodes _ _ Hwf t Ht) as (nt & Hnt & _ & Hk & _).
      rewrite Hp in Hnt. assert (nt = nx') as -> by congruence.
      unfold Value_ne in Hne. apply negb_false_iff in Hne.
      apply bool_decide_eq_true in Hne. by rewrite <- Hne, Hk. }
  destruct Hstep as (-> & ext1 & -> & H1).
  apply IH in Hrun as (-> & ext2 & -> & H2); [|lia].
  split; [done|]. exists (ext1 ++ ext2). rewrite app_assoc. split; [done|].
  intros J HJ. apply elem_of_app in HJ as [?|?]; auto.
Qed.

End MarkerInvariant.

(* ====================================================================== *)
(*  From insert to find_intervals                                         *)
(* ====================================================================== *)

Section Growth.

Context {Value Interval : Type} `{!IntervalType Value Interval}.
Context `{!ValueOrder Value Interval}.

Local Abbreviation state := (Interval_skip_list Value Interval).
Local Abbreviation nxt := (nxt (Value:=Value)).
Local Abbreviation tptr := (tptr (Value:=Value)).
Local Abbreviation marks_from := (marks_from (Value:=Value) (Interval:=Interval)).
Local Abbreviation stair := (stair (Value:=Value) (Interval:=Interval)).

(** A staircase stays when cells are only added. *)
Lemma stair_grows (s s' : state) L h t tz :
  marks_from s' s → stair s L h t tz → stair s' L h t tz.
Proof.
  intros Hg.
  induction 1 as [t n Ht Hn He|La t Lb i t' n l tz E Hnx Hn He Hl Hh _ IH].
  - destruct (Hg _ _ Hn) as [_ Heq]. destruct (Heq h He) as (n' & Hn' & He').
    by eapply stair_end.
  - destruct (Hg _ _ Hn) as [Hmk Heq].
    destruct (Heq h He) as (n' & Hn' & He').
    destruct (Hmk i l h Hl Hh) as (n2 & l' & Hn2 & Hl' & Hh').
    assert (n2 = n') as -> by congruence. by eapply stair_step.
Qed.

(** One more step at the end of a staircase. *)
Lemma stair_snoc (s : state) L h t0 La t Lb i t' n l n' :
  stair s L h t0 t → L = La ++ t :: Lb → nxt i Lb = Some t' →
  heap s !! tptr t = Some n → markers n !! i = Some l → h ∈ l →
  heap s !! tptr t' = Some n' → h ∈ eqMarkers n' →
  stair s L h t0 t'.
Proof.
  intros Hst E Hnx Hn Hl Hh Hn' He'.
  assert (Ht' : t' ∈ L).
  { apply nxt_elem in Hnx as [? _]. rewrite E. set_solver. }
  revert E Hn.
  induction Hst
    as [t n0 Ht Hn0 He|La0 t1 Lb0 i0 t2 n1 l1 tz E0 Hnx0 Hn1 He1 Hl1 Hh1 _ IH];
    intros E Hn.
  - assert (n0 = n) as -> by congruence.
    eapply stair_step; [exact E|exact Hnx|exact Hn|exact He|exact Hl|exact Hh|].
    by eapply stair_end.
  - eapply stair_step;
      [exact E0|exact Hnx0|exact Hn1|exact He1|exact Hl1|exact Hh1|].
    by apply IH.
Qed.

Lemma markers_insert_grows (s s' : state) a i h u :
  markers_insert a i h s = Ok (u, s') →
  marks_from s' s ∧
  ∃ n' l', heap s' !! a = Some n' ∧ markers n' !! i = Some l' ∧ h ∈ l'.
Proof.
  intros Hrun. unfold markers_insert in Hrun. msplit Hrun as l s1 Hg.
  apply get_markers_inv in Hg as (-> & n & Hn & Hl).
  apply set_markers_inv in Hrun as (n0 & Hn0 & Hi & _ & _ & Hh).
  assert (n0 = n) as -> by congruence. split.
  - intros b nb Hb. split.
    + intros j lj x Hj Hx. destruct (decide (b = a)) as [->|Hne].
      * assert (nb = n) as -> by congruence.
        rewrite Hh, lookup_insert_eq.
        destruct (decide (j = i)) as [->|].
        -- eexists _, _. split; [done|]. simpl.
           rewrite list_lookup_insert_eq by done. split; [done|].
           assert (lj = l) as -> by congruence.
           unfold IL_insert. by apply elem_of_cons; right.
        -- eexists _, _. split; [done|]. simpl.
           rewrite list_lookup_insert_ne by done. eauto.
      * rewrite Hh, lookup_insert_ne by done. eauto.
    + intros x Hx. destruct (decide (b = a)) as [->|Hne].
      * assert (nb = n) as -> by congruence.
        rewrite Hh, lookup_insert_eq. eexists. split; [done|]. done.
      * rewrite Hh, lookup_insert_ne by done. eauto.
  - rewrite Hh, lookup_insert_eq. eexists _, _. split; [done|]. simpl.
    rewrite list_lookup_insert_eq by done. split; [done|].
    unfold IL_insert. apply elem_of_cons. by left.
Qed.

Lemma eqMarkers_insert_grows (s s' : state) a h u :
  eqMarkers_insert a h s = Ok (u, s') →
  marks_from s' s ∧ ∃ n', heap s' !! a = Some n' ∧ h ∈ eqMarkers n'.
Proof.
  intros Hrun. unfold eqMarkers_insert in Hrun. msplit Hrun as l s1 Hg.
  apply get_eqMarkers_inv in Hg as (-> & n & Hn & ->).
  apply set_eqMarkers_inv in Hrun as (n0 & Hn0 & _ & _ & Hh).
  assert (n0 = n) as -> by congruence. split.
  - intros b nb Hb. split.
    + intros j lj x Hj Hx. destruct (decide (b = a)) as [->|Hne].
      * assert (nb = n) as -> by congruence.
        rewrite Hh, lookup_insert_eq. eexists _, _. split; [done|]. done.
      * rewrite Hh, lookup_insert_ne by done. eauto.
    + intros x Hx. destruct (decide (b = a)) as [->|Hne].
      * assert (nb = n) as -> by congruence.
        rewrite Hh, lookup_insert_eq. eexists. split; [done|]. simpl.
        unfold IL_insert. by apply elem_of_cons; right.
      * rewrite Hh, lookup_insert_ne by done. eauto.
  - rewrite Hh, lookup_insert_eq. eexists. split; [done|]. simpl.
    unfold IL_insert. apply elem_of_cons. by left.
Qed.

End Growth.

(* --- the staircase that placeMarkers builds ------------------------------------ *)

Section Staircase.

Context {Value Interval : Type} `{!IntervalType Value Interval}.
Context `{!ValueOrder Value Interval} `{!ClosedIntervals Value Interval}.

Local Abbreviation state := (Interval_skip_list Value Interval).
Local Abbreviation tower := (tower Value).
Local Abbreviation nxt := (nxt (Value:=Value)).
Local Abbreviation tptr := (tptr (Value:=Value)).
Local Abbreviation tkey := (tkey (Value:=Value)).
Local Abbreviation wf := (wf (Value:=Value) (Interval:=Interval)).
Local Abbreviation same_shape := (same_shape (Value:=Value) (Interval:=Interval)).
Local Abbreviation sorted :=
  (StronglySorted (λ a b : tower, Value_lt (tkey a) (tkey b) = true)).
Local Abbreviation stair := (stair (Value:=Value) (Interval:=Interval)).

Variables (L : list tower) (I : Interval_handle) (Iv : Interval).
Variable tl : tower.

Hypothesis Hsorted : sorted L.

Lemma place_ascending_stair fuel (s : state) t i x j s' :
  wf s L → container s !! I = Some Iv → t ∈ L → stair s L I tl t →
  place_ascending fuel I (tptr t) i s = Ok ((x, j), s') →
  wf s' L ∧ container s' = container s ∧
  ∃ t', t' ∈ L ∧ x = tptr t' ∧ stair s' L I tl t' ∧
        Value_lt (tkey t') (tkey t) = false.
Proof using All.
  revert s t i.
  induction fuel as [|fuel IH]; intros s t i Hwf HI Ht Hst; simpl; [done|].
  intros Hrun. mrun_in (deref_Ok s I Iv HI) Hrun.
  msplit Hrun as c1 s1 Hc1.
  pose proof (preserves_edge_contained eq _ _ _ _ _ _ Hc1) as <-.
  destruct c1.
  2:{ injection Hrun as <- <- <-. split; [done|]. split; [done|].
      exists t. split; [done|]. split; [done|]. split; [done|].
      apply Value_lt_irrefl. }
  msplit Hrun as k s1 Hr. unfold raise in Hr.
  msplit Hr as lv s2 Hl. pose proof (preserves_get_level eq _ _ _ _ Hl) as <-.
  apply (raise_level_true _ _ _ _ _ _ _ Hc1) in Hr as [-> Hck].
  destruct (edge_contained_true s L t k Iv s Hwf Ht Hck)
    as (_ & La & Lb & t' & E & Hk & Hn & HC & Hf).
  mrun_in Hf Hrun.
  assert (Ht' : t' ∈ L).
  { apply nxt_elem in Hn as [Hn' _]. rewrite E. set_solver. }
  assert (Hlt : Value_lt (tkey t) (tkey t') = true).
  { rewrite E in Hsorted. apply nxt_elem in Hn as [Hn' _].
    by apply (sorted_after La Lb t t'). }
  msplit Hrun as u1 s1 Hins.
  pose proof Hins as Hsh1.
  apply (preserves_markers_insert same_shape) in Hsh1;
    [|apply _..|apply set_markers_same_shape].
  pose proof (wf_same_shape _ _ _ Hsh1 Hwf) as Hwf1.
  apply markers_insert_grows in Hins as (Hg1 & n1 & l1 & Hn1 & Hl1 & Hh1).
  mrun_in (tower_key s1 L t' Hwf1 Ht') Hrun.
  assert (HCt' : contains Iv (tkey t') = true).
  { apply (contains_interval_point Iv (tkey t) (tkey t')); [done|..].
    - by apply Value_lt_asym.
    - apply Value_lt_irrefl. }
  rewrite HCt' in Hrun.
  msplit Hrun as u2 s2 Heq.
  pose proof Heq as Hsh2.
  apply (preserves_eqMarkers_insert same_shape) in Hsh2;
    [|apply _..|apply set_eqMarkers_same_shape].
  pose proof (wf_same_shape _ _ _ Hsh2 Hwf1) as Hwf2.
  apply eqMarkers_insert_grows in Heq as (Hg2 & n2 & Hn2 & Hh2).
  assert (Hst2 : stair s2 L I tl t').
  { apply (stair_grows s s1) in Hst; [|done].
    apply (stair_grows s1 s2) in Hst; [|done].
    destruct (Hg2 _ _ Hn1) as [Hmk _].
    destruct (Hmk k l1 I Hl1 Hh1) as (n1' & l1' & Hn1' & Hl1' & Hh1').
    by eapply (stair_snoc s2 L I tl La t Lb k t'). }
  pose proof Hsh1 as (_ & Hc1' & _). pose proof Hsh2 as (_ & Hc2' & _).
  assert (HI2 : container s2 !! I = Some Iv) by congruence.
  destruct (IH s2 t' k Hwf2 HI2 Ht' Hst2 Hrun)
    as (Hwf' & Hc' & t'' & Ht'' & -> & Hst'' & Hle).
  split; [done|]. split; [congruence|]. exists t''.
  split; [done|]. split; [done|]. split; [done|].
  apply Value_lt_asym. by apply (Value_lt_le_trans _ (tkey t')).
Qed.

Lemma place_descending_stair fuel (s : state) tr t i u s' :
  wf s L → container s !! I = Some Iv → tr ∈ L → t ∈ L →
  Value_lt (tkey t) (inf Iv) = false → Value_lt (sup Iv) (tkey tr) = false →
  stair s L I tl t →
  place_descending fuel I (tptr tr) (Some (tptr t)) i s = Ok (u, s') →
  stair s' L I tl tr.
Proof using All.
  revert s t i.
  induction fuel as [|fuel IH]; intros s t i Hwf HI Htr Ht Hinf Hsup Hst;
    simpl; [done|].
  intros Hrun. msimpl_in Hrun.
  mrun_in (tower_key s L t Hwf Ht) Hrun.
  mrun_in (tower_key s L tr Hwf Htr) Hrun.
  unfold Value_ne in Hrun.
  destruct (decide (tkey t = tkey tr)) as [E|E].
  { rewrite bool_decide_true in Hrun by done. injection Hrun as _ <-.
    assert (t = tr) as -> by (by apply (sorted_key_inj L)). done. }
  rewrite bool_decide_false in Hrun by done. cbn [negb] in Hrun.
  mrun_in (deref_Ok s I Iv HI) Hrun.
  msplit Hrun as k s1 Hlow. apply lower_level_inv in Hlow as [-> _].
  msplit Hrun as u1 s1 Hins.
  pose proof Hins as Hsh1.
  apply (preserves_markers_insert same_shape) in Hsh1;
    [|apply _..|apply set_markers_same_shape].
  pose proof (wf_same_shape _ _ _ Hsh1 Hwf) as Hwf1.
  apply markers_insert_grows in Hins as (Hg1 & n1 & l1 & Hn1 & Hl1 & Hh1).
  msplit Hrun as f s2 Hg.
  apply (tower_forward s1 L t) in Hg as (-> & La & Lb & E' & Hkl & ->);
    [|done..].
  destruct (nxt k Lb) as [t'|] eqn:Hn; simpl in Hrun; [|done].
  msimpl_in Hrun.
  assert (Ht' : t' ∈ L).
  { apply nxt_elem in Hn as [Hn' _]. rewrite E'. set_solver. }
  assert (Hlt : Value_lt (tkey t) (tkey t') = true).
  { rewrite E' in Hsorted. apply nxt_elem in Hn as [Hn' _].
    by apply (sorted_after La Lb t t'). }
  mrun_in (tower_key s1 L t' Hwf1 Ht') Hrun.
  msplit Hrun as u2 s2 Heq.
  assert (Hwf2 : wf s2 L).
  { destruct (contains Iv (tkey t')); [|by injection Heq as _ <-].
    apply (preserves_eqMarkers_insert same_shape) in Heq;
      [|apply _..|apply set_eqMarkers_same_shape].
    by eapply wf_same_shape. }
  pose proof (place_descending_reach (header s) L (container s) (S I) I Iv HI
                (Nat.lt_succ_diag_r I) Hsorted fuel s2 tr t' k u s' Hwf2 Htr
                Ht' Hrun) as Hreach.
  assert (Hinf' : Value_lt (tkey t') (inf Iv) = false).
  { apply Value_lt_asym. by apply (Value_le_lt_trans _ (tkey t)). }
  assert (HCt' : contains Iv (tkey t') = true).
  { apply contains_closed. split; [done|].
    by apply (Value_le_trans _ (tkey tr)). }
  rewrite HCt' in Heq.
  pose proof Heq as Hsh2.
  apply (preserves_eqMarkers_insert same_shape) in Hsh2;
    [|apply _..|apply set_eqMarkers_same_shape].
  apply eqMarkers_insert_grows in Heq as (Hg2 & n2 & Hn2 & Hh2).
  assert (Hst2 : stair s2 L I tl t').
  { apply (stair_grows s s1) in Hst; [|done].
    apply (stair_grows s1 s2) in Hst; [|done].
    destruct (Hg2 _ _ Hn1) as [Hmk _].
    destruct (Hmk k l1 I Hl1 Hh1) as (n1' & l1' & Hn1' & Hl1' & Hh1').
    by eapply (stair_snoc s2 L I tl La t Lb k t'). }
  pose proof Hsh1 as (_ & Hc1' & _). pose proof Hsh2 as (_ & Hc2' & _).
  assert (HI2 : container s2 !! I = Some Iv) by congruence.
  by apply (IH s2 t' k Hwf2 HI2 Htr Ht' Hinf' Hsup Hst2).
Qed.

(** placeMarkers(left, right, I) for an interval from the key of left to
    the key of right: the marks of I lead from left to right. *)
Lemma placeMarkers_stair (s s' : state) tr u :
  wf s L → container s !! I = Some Iv → tl ∈ L → tr ∈ L →
  tkey tl = inf Iv → tkey tr = sup Iv →
  Value_lt (sup Iv) (inf Iv) = false →
  placeMarkers (tptr tl) (tptr tr) I s = Ok (u, s') →
  stair s' L I tl tr.
Proof using All.
  intros Hwf HI Htl Htr Hkl Hkr Hne Hrun. unfold placeMarkers in Hrun.
  mrun_in (deref_Ok s I Iv HI) Hrun.
  mrun_in (tower_key s L tl Hwf Htl) Hrun.
  assert (HCl : contains Iv (tkey tl) = true).
  { apply contains_closed. rewrite Hkl. split; [apply Value_lt_irrefl|done]. }
  rewrite HCl in Hrun.
  msplit Hrun as u1 s1 Heq.
  pose proof Heq as Hsh1.
  apply (preserves_eqMarkers_insert same_shape) in Hsh1;
    [|apply _..|apply set_eqMarkers_same_shape].
  pose proof (wf_same_shape _ _ _ Hsh1 Hwf) as Hwf1.
  apply eqMarkers_insert_grows in Heq as (Hg1 & n1 & Hn1 & Hh1).
  assert (Hst1 : stair s1 L I tl tl) by (by eapply stair_end).
  pose proof Hsh1 as (_ & Hc1' & _).
  assert (HI1 : container s1 !! I = Some Iv) by congruence.
  msimpl_in Hrun. msplit Hrun as xi s2 Hasc. destruct xi as [x i].
  apply (place_ascending_stair (fuel_of s1) s1 tl 0 x i s2) in Hasc
    as (Hwf2 & Hc2 & t' & Ht' & -> & Hst2 & Hle); [|done..].
  assert (HI2 : container s2 !! I = Some Iv) by congruence.
  apply (place_descending_stair (fuel_of s1) s2 tr t' i u s'); try done.
  - by rewrite <- Hkl.
  - rewrite Hkr. apply Value_lt_irrefl.
Qed.

End Staircase.

(* --- the descent of find_intervals --------------------------------------------- *)

Section Descent.

Context {Value Interval : Type} `{!IntervalType Value Interval}.
Context `{!ValueOrder Value Interval} `{!ClosedIntervals Value Interval}.

Local Abbreviation state := (Interval_skip_list Value Interval).
Local Abbreviation node := (IntervalSLnode Value).
Local Abbreviation tower := (tower Value).
Local Abbreviation store := (gmap Interval_handle Interval).
Local Abbreviation nxt := (nxt (Value:=Value)).
Local Abbreviation pred_at := (pred_at (Value:=Value)).
Local Abbreviation split_by := (split_by (Value:=Value)).
Local Abbreviation tptr := (tptr (Value:=Value)).
Local Abbreviation tkey := (tkey (Value:=Value)).
Local Abbreviation tlev := (tlev (Value:=Value)).
Local Abbreviation wf := (wf (Value:=Value) (Interval:=Interval)).
Local Abbreviation sound_at := (sound_at (Value:=Value) (Interval:=Interval)).
Local Abbreviation sorted :=
  (StronglySorted (λ a b : tower, Value_lt (tkey a) (tkey b) = true)).
Local Abbreviation stair := (stair (Value:=Value) (Interval:=Interval)).

(** The descent for [q] reads the cell [h] on level [j]: in the markers of
    the last node of the level before [q], or in the eqMarkers of the node
    of [q] on its top level. *)
Local Abbreviation picked :=
  (λ (s : state) (L1 : list tower) (q : Value) (j : nat)
     (h : Interval_handle),
     ∃ t n, t ∈ L1 ∧ pred_at (header s) j L1 = tptr t ∧
            heap s !! tptr t = Some n ∧
            ((tkey t ≠ q ∧ ∃ l, markers n !! j = Some l ∧ h ∈ l) ∨
             (tkey t = q ∧ h ∈ eqMarkers n ∧ j = tlev t))).

Lemma IL_copy_out_mem (c : store) l out r (h : Interval_handle) J :
  IL_copy_out c l out = Ok r → J ∈ out ∨ (h ∈ l ∧ c !! h = Some J) → J ∈ r.
Proof.
  revert out. induction l as [|x l IH]; intros out; simpl.
  - intros [= <-] [?|[Hh _]]; [done|by apply elem_of_nil in Hh].
  - unfold load. destruct (c !! x) as [Jx|] eqn:Hx; simpl; [|done].
    intros Hr Hin. apply (IH _ Hr). destruct Hin as [?|[Hh HJ]].
    + left. set_solver.
    + apply elem_of_cons in Hh as [->|Hh]; [|by right]. left.
      assert (Jx = J) as -> by congruence. set_solver.
Qed.

Lemma pred_at_app_last hd i (La : list tower) t rest :
  i ≤ tlev t → Forall (λ t, tlev t < i) rest →
  pred_at hd i (La ++ t :: rest) = tptr t.
Proof.
  intros Hi Hr. unfold pred_at.
  rewrite chain_app, chain_cons, decide_True by done.
  rewrite (chain_above i rest Hr). by rewrite last_snoc.
Qed.

Lemma split_in_L1 (L1 L2 La Lb : list tower) t :
  NoDup (tptr <$> (L1 ++ L2)) → t ∈ L1 → L1 ++ L2 = La ++ t :: Lb →
  ∃ rest, L1 = La ++ t :: rest ∧ Lb = rest ++ L2.
Proof.
  intros Hnd Ht E. apply list_elem_of_split in Ht as (La' & rest & ->).
  rewrite <- app_assoc, <- app_comm_cons in E, Hnd.
  destruct (split_unique La' (rest ++ L2) La Lb t t Hnd E) as (-> & _ & <-);
    [done|].
  by exists rest.
Qed.

(** The key node of [q], when there is one, is the last before the cut. *)
Lemma last_of_split (L1 L2 : list tower) q t :
  sorted (L1 ++ L2) → split_by (λ k, Value_ge q k) L1 L2 →
  t ∈ L1 → tkey t = q → ∃ La, L1 = La ++ [t].
Proof.
  intros Hs [H1 _] Ht Hq. pose proof Ht as Ht'.
  apply list_elem_of_split in Ht' as (La & Lb & ->).
  destruct Lb as [|b Lb]; [by exists La|]. exfalso.
  rewrite Forall_forall in H1. specialize (H1 b ltac:(set_solver)).
  unfold Value_ge in H1. apply negb_true_iff in H1.
  rewrite <- app_assoc, <- app_comm_cons in Hs.
  pose proof (sorted_after La ((b :: Lb) ++ L2) t b Hs ltac:(set_solver)).
  congruence.
Qed.

(** A staircase from a key at or below [q] to a key at or above [q] has a
    cell that the descent for [q] reads. *)
Lemma stair_picked (s : state) L1 L2 q h ta tb :
  wf s (L1 ++ L2) → split_by (λ k, Value_ge q k) L1 L2 →
  stair s (L1 ++ L2) h ta tb →
  Value_lt q (tkey ta) = false → Value_lt (tkey tb) q = false →
  ∃ j, j ≤ maxLevel s ∧ picked s L1 q j h.
Proof.
  intros Hwf Hsp Hst.
  assert (Hin1 : ∀ t, t ∈ L1 ++ L2 → Value_lt q (tkey t) = false → t ∈ L1).
  { intros t Ht Hle. apply elem_of_app in Ht as [?|Ht]; [done|].
    destruct Hsp as [_ H2]. rewrite Forall_forall in H2.
    specialize (H2 t Ht). unfold Value_ge in H2.
    apply negb_false_iff in H2. congruence. }
  assert (Heqcase : ∀ t n, t ∈ L1 ++ L2 → heap s !! tptr t = Some n →
            h ∈ eqMarkers n → tkey t = q →
            ∃ j, j ≤ maxLevel s ∧ picked s L1 q j h).
  { intros t n Ht Hn He Hq.
    assert (Ht1 : t ∈ L1).
    { apply Hin1; [done|]. rewrite Hq. apply Value_lt_irrefl. }
    destruct (last_of_split L1 L2 q t (wf_sorted _ _ Hwf) Hsp Ht1 Hq)
      as [La EL].
    destruct (wf_nodes _ _ Hwf t Ht) as (n0 & Hn0 & _ & _ & _ & _ & _ & Hmax).
    exists (tlev t). split; [done|]. exists t, n. split; [done|].
    split; [by rewrite EL, pred_at_snoc, decide_True|]. split; [done|].
    by right. }
  induction Hst
    as [t n Ht Hn He|La t Lb i t' n l tz E Hnx Hn He Hl Hh Hst IH];
    intros Hle1 Hle2.
  - apply (Heqcase t n); try done.
    destruct (Value_lt_total (tkey t) q) as [H|[H|H]]; [congruence|done|congruence].
  - assert (Ht : t ∈ L1 ++ L2) by (rewrite E; set_solver).
    destruct (Value_lt_total (tkey t) q) as [Hlt|[Hq|Hgt]];
      [|by apply (Heqcase t n)|congruence].
    destruct (Value_lt q (tkey t')) eqn:Hqt'; [|by apply IH].
    (* the edge passes over q *)
    pose proof (Hin1 t Ht Hle1) as Ht1.
    destruct (split_in_L1 L1 L2 La Lb t (wf_NoDup_towers _ _ Hwf) Ht1 E)
      as (rest & EL & ELb).
    assert (Hrest : nxt i rest = None).
    { destruct (nxt i rest) as [t2|] eqn:Hr; [|done]. exfalso.
      rewrite ELb, nxt_app, Hr in Hnx. injection Hnx as ->.
      apply nxt_elem in Hr as [Hr _].
      destruct Hsp as [H1 _]. rewrite Forall_forall in H1.
      specialize (H1 t' ltac:(rewrite EL; set_solver)).
      unfold Value_ge in H1. apply negb_true_iff in H1. congruence. }
    destruct (wf_nodes _ _ Hwf t Ht)
      as (n0 & Hn0 & _ & _ & _ & _ & Hlen & Hmax).
    assert (n0 = n) as -> by congruence.
    assert (Hi : i ≤ tlev t) by (apply lookup_lt_Some in Hl; lia).
    exists i. split; [lia|]. exists t, n. split; [done|].
    split. { rewrite EL. apply pred_at_app_last; [done|by apply nxt_None]. }
    split; [done|]. left. split; [|eauto].
    intros Hq. rewrite Hq in Hlt. by rewrite Value_lt_irrefl in Hlt.
Qed.

(** What find_intervals picks up on one level changes nothing. *)
Lemma pick_read (s : state) (nx : node) a i q (out out' : list Interval)
    s1 :
  (if negb (is_header nx) && Value_ne (key nx) q
   then let* l := get_markers a i in
        lift (IL_copy_out (container s) l out)
   else if negb (is_header nx)
        then lift (IL_copy_out (container s) (eqMarkers nx) out)
        else ret out) s = Ok (out', s1) →
  s1 = s.
Proof.
  destruct (negb (is_header nx) && Value_ne (key nx) q).
  - intros Hrun. msplit Hrun as l s2 Hg.
    apply get_markers_inv in Hg as (-> & _). unfold lift in Hrun.
    destruct (IL_copy_out (container s) l out); [|done..].
    by injection Hrun as _ <-.
  - destruct (negb (is_header nx)); [|by intros [= _ <-]].
    unfold lift. destruct (IL_copy_out _ _ _); [|done..].
    by intros [= _ <-].
Qed.

(** A cell that the descent for [q] reads on a level below [n] is written
    to the sink by the levels below [n]. *)
Lemma find_intervals_loop_picks (s : state) L1 L2 q n out r s' j
    (h : Interval_handle) J :
  wf s (L1 ++ L2) → sound_at s (L1 ++ L2) →
  split_by (λ k, Value_ge q k) L1 L2 → n ≤ MAX_FORWARD + 1 →
  j < n → picked s L1 q j h → container s !! h = Some J →
  find_intervals_loop n q (pred_at (header s) n L1) out s = Ok (r, s') →
  J ∈ r.
Proof.
  intros Hwf Hso Hsp Hn Hj (t & nt & Ht & Ep & Hnt & Hcase) HJ.
  revert out Hn Hj.
  induction n as [|n IH]; intros out Hn Hj Hrun; [lia|].
  cbn [find_intervals_loop] in Hrun.
  msplit Hrun as nx s1 Hnx. apply node_at_inv in Hnx as [-> Hnx].
  destruct (is_header nx || Value_ne (key nx) q) eqn:Hg.
  2:{ exfalso. apply orb_false_iff in Hg as [Hh Hq].
      unfold Value_ne in Hq. apply negb_false_iff in Hq.
      apply bool_decide_eq_true in Hq.
      destruct (wf_key_node s _ _ nx Hwf Hnx Hh) as (tq & Htq & Hpq & Hkq & _).
      assert (Htq1 : tq ∈ L1).
      { apply elem_of_app in Htq as [?|Htq]; [done|]. exfalso.
        destruct Hsp as [_ H2]. rewrite Forall_forall in H2.
        specialize (H2 tq Htq). unfold Value_ge in H2.
        apply negb_false_iff in H2.
        rewrite Hkq, Hq, Value_lt_irrefl in H2. done. }
      destruct (last_of_split L1 L2 q tq (wf_sorted _ _ Hwf) Hsp Htq1)
        as [La EL]; [congruence|].
      assert (Hlev : S n ≤ tlev tq).
      { rewrite EL, pred_at_snoc in Hpq.
        destruct (decide (S n ≤ tlev tq)); [done|]. exfalso.
        destruct (pred_at_cases (header s) (S n) La) as [E0|E0].
        - apply (wf_header_not_tower s _ tq Hwf Htq). congruence.
        - apply chain_elem in E0 as (t0 & Ht0 & Ep0 & _).
          pose proof (wf_NoDup_towers _ _ Hwf) as Hnd.
          rewrite EL, <- app_assoc, fmap_app in Hnd.
          apply NoDup_app in Hnd as (_ & Hdis & _).
          apply (Hdis (tptr t0)).
          + apply list_elem_of_fmap. eauto.
          + rewrite fmap_app. apply elem_of_app. left.
            rewrite Ep0, <- Hpq. set_solver. }
      rewrite EL, pred_at_snoc, decide_True in Ep by lia.
      assert (t = tq) as ->.
      { apply (wf_tower_eq s _ _ _ Hwf); [set_solver|done|done]. }
      destruct Hcase as [[Hne _]|(_ & _ & ->)]; [congruence|lia]. }
  mrun_in (advance_search_level s L1 L2 _ n Hwf Hsp ltac:(lia)) Hrun.
  msplit Hrun as nx' s1 Hnx'. apply node_at_inv in Hnx' as [-> Hnx'].
  msplit Hrun as out' s1 Hout.
  pose proof (pick_read _ _ _ _ _ _ _ _ Hout) as ->.
  destruct (decide (j = n)) as [->|Hjn]; [|apply (IH out'); [lia|lia|done]].
  (* this level *)
  rewrite Ep in Hnx', Hout. assert (nx' = nt) as -> by congruence.
  destruct (wf_nodes _ _ Hwf t ltac:(set_solver)) as (n0 & Hn0 & Hh0 & Hk0 & _).
  assert (n0 = nt) as -> by congruence.
  rewrite Hh0 in Hout. cbn [negb andb] in Hout. unfold Value_ne in Hout.
  assert (Hin : J ∈ out').
  { destruct Hcase as [[Hne (l & Hl & Hh)]|(Hq & He & _)].
    - rewrite Hk0, bool_decide_false in Hout by done. cbn [negb] in Hout.
      msplit Hout as l' s2 Hgl.
      apply get_markers_inv in Hgl as (-> & n' & Hn' & Hl').
      assert (n' = nt) as -> by congruence.
      assert (l' = l) as -> by congruence.
      unfold lift in Hout.
      destruct (IL_copy_out (container s) l out) as [o| |] eqn:Hco;
        [|done..].
      injection Hout as <-. eapply IL_copy_out_mem; [exact Hco|]. by right.
    - rewrite Hk0, bool_decide_true in Hout by done. cbn [negb] in Hout.
      unfold lift in Hout.
      destruct (IL_copy_out (container s) (eqMarkers nt) out) as [o| |]
        eqn:Hco; [|done..].
      injection Hout as <-. eapply IL_copy_out_mem; [exact Hco|]. by right. }
  apply (find_intervals_loop_sound s L1 L2) in Hrun
    as (_ & ext & -> & _); [|done..|lia].
  set_solver.
Qed.

End Descent.

(* ====================================================================== *)
(*  What the markers say                                                  *)
(* ====================================================================== *)

Section MarkerProperties.

Context {Value Interval : Type} `{!IntervalType Value Interval}.
Context `{!ValueOrder Value Interval} `{!ClosedIntervals Value Interval}.

Local Abbreviation state := (Interval_skip_list Value Interval).
Local Abbreviation node := (IntervalSLnode Value).
Local Abbreviation tptr := (tptr (Value:=Value)).
Local Abbreviation sound_at := (sound_at (Value:=Value) (Interval:=Interval)).



(** X21 (insert, placeMarkers, find_intervals).  For a strict total order
    on the values and closed intervals: after insert(I) in a state that
    insert and remove lead to, for every q that I contains, a call
    find_intervals(q, out) that returns has written I to the sink. *)
Theorem insert_then_find_intervals (s s' s'' : state) (I : Interval)
    (q : Value) (out r : list Interval) :
  reachable s → insert I s = Ok (tt, s') → contains I q = true →
  find_intervals q out s' = Ok (r, s'') → I ∈ r.
Proof.
  intros Hr Hins HC Hfind.
  pose proof (reachable_Sound s Hr) as Hs.
  destruct (insert_places s s' I tt Hs Hins)
    as (s5 & L & tl & tr & Hwf5 & Hso5 & Htl & Htr & Hkl & Hkr & HI5 & Hh5
        & Hpl).
  apply contains_closed in HC as [Hlo Hhi].
  assert (Hne : Value_lt (sup I) (inf I) = false)
    by (by apply (Value_le_trans _ q)).
  pose proof (placeMarkers_same_shape _ _ _ _ _ _ Hpl) as Hsh.
  pose proof (wf_same_shape _ _ _ Hsh Hwf5) as Hwf'.
  pose proof Hsh as (_ & Hc6 & Hcn6 & _).
  pose proof (placeMarkers_stair L (container_next s) I tl
                (wf_sorted _ _ Hwf5) s5 s' tr tt Hwf5 HI5 Htl Htr Hkl Hkr
                Hne Hpl) as Hst.
  apply (placeMarkers_sound (header s5) L (container s5) (container_next s5)
           (container_next s) I HI5 Hh5 (wf_sorted _ _ Hwf5) s5 s' tl tr)
    in Hpl as (_ & _ & _ & Hm6); [|done|done|done|..].
  2:{ rewrite Hkl. apply Value_lt_irrefl. }
  2:{ rewrite Hkr. apply Value_lt_irrefl. }
  assert (Hso' : sound_at s' L).
  { unfold sound_at. by rewrite <- Hc6, <- Hcn6. }
  destruct (sorted_split (λ k, Value_ge q k) L (lower_test_ge q)
              (wf_sorted _ _ Hwf')) as (L1 & L2 & -> & Hsp).
  destruct (stair_picked s' L1 L2 q _ tl tr Hwf' Hsp Hst)
    as (j & Hj & Hp); [by rewrite Hkl|by rewrite Hkr|].
  unfold find_intervals in Hfind. rewrite bind_get in Hfind.
  rewrite <- (wf_pred_top s' L1 L2 Hwf') in Hfind at 1.
  pose proof (wf_maxLevel _ _ Hwf').
  apply (find_intervals_loop_picks s' L1 L2 q _ out r s'' j
           (container_next s) I Hwf' Hso' Hsp) in Hfind; [done|lia|lia|done|].
  by rewrite <- Hc6.
Qed.


End MarkerProperties.

Import Closed.

(* ====================================================================== *)
(*  Runs on closed integer intervals                                      *)
(* ====================================================================== *)

(** Decide a property of every entry of a concrete map by evaluation. *)
Ltac by_evaluation P :=
  lazymatch goal with
  | H : _ !! ?k = Some ?v |- _ =>
      refine (map_Forall_lookup_1 P _ k v _ H);
      apply (bool_decide_unpack _); vm_compute; exact I
  end.

Section ClosedRuns.

Local Abbreviation ST := (Interval_skip_list Z interval).
Local Open Scope Z_scope.

Lemma closed_upper_bounded : upper_bounded (Value := Z) (Interval := interval).
Proof.
  intros J a b. simpl. rewrite andb_true_iff, !Z.leb_le, Z.ltb_ge. lia.
Qed.

Lemma owner_count_accounting_witness :
  ∃ s : ST, insert (1, 5) (empty_index []) = Ok (tt, s) ∧
    (∀ v, (∃ p n, heap s !! p = Some n ∧ is_header n = false ∧ key n = v)
          ↔ 0 < incidences v (container s)) ∧
    (∀ p n, heap s !! p = Some n → is_header n = false →
            ownerCount n = incidences (key n) (container s) ∧
            0 < ownerCount n) ∧
    (∀ p n i q, heap s !! p = Some n → forward n !! i = Some (Some q) →
                is_Some (heap s !! q)).
Proof.
  eexists. split; [vm_compute; reflexivity|].
  apply owner_count_accounting.
  eapply (reach_insert _ (1, 5)); [apply (reach_empty [])|].
  vm_compute. reflexivity.
Defined.



Lemma size_law_witness :
  ∃ s : ST,
    history [(3, 7); (1, 5)] [(1, 5)] s ∧
    size_of s = (length [(3, 7); (1, 5)] - length [(1, 5)])%nat ∧
    (length [(1, 5)] ≤ length [(3, 7); (1, 5)])%nat ∧
    (∀ J s', insert J s = Ok (tt, s') → size_of s' = (size_of s + 1)%nat) ∧
    (∀ J s', remove J s = Ok (true, s') →
             size_of s' = (size_of s - 1)%nat ∧ (0 < size_of s)%nat).
Proof.
  assert (H : ∃ s : ST, history [(3, 7); (1, 5)] [(1, 5)] s).
  { eexists.
    eapply (hist_remove _ _ _ (1, 5));
      [eapply (hist_insert _ _ _ (3, 7));
         [eapply (hist_insert _ _ _ (1, 5)); [apply (hist_empty [])|]|]|].
    - vm_compute. reflexivity.
    - vm_compute. reflexivity.
    - vm_compute. reflexivity. }
  destruct H as [s H]. exists s. split; [exact H|].
  exact (size_law _ _ s H).
Defined.


Lemma queries_leave_index_unchanged_witness :
  ∃ s : ST, insert (1, 5) (empty_index []) = Ok (tt, s) ∧
    find_intervals 3 [] s = Ok ([(1, 5)], s) ∧
    is_contained 3 s = Ok (true, s) ∧
    search 5 s = Ok (Some 2%nat, s) ∧
    (∀ out r s', find_intervals 3 out s = Ok (r, s') → s' = s) ∧
    (∀ b s', is_contained 3 s = Ok (b, s') → s' = s) ∧
    (∀ x s', search 3 s = Ok (x, s') → s' = s).
Proof.
  eexists. split; [vm_compute; reflexivity|].
  split; [vm_compute; reflexivity|].
  split; [vm_compute; reflexivity|].
  split; [vm_compute; reflexivity|].
  apply queries_leave_index_unchanged.
Defined.

(** C1: the run that shows the defect.  [2, 6] is inserted twice, then
    [4, 4]; remove([2, 6]) returns true and leaves one [2, 6] stored,
    which contains 5; find_intervals(5) then reads a marker whose interval
    the removal has erased from the element store. *)
Lemma duplicate_removal_breaks_stabbing :
  ∃ s0 s : ST,
    inserts [(2, 6); (2, 6); (4, 4)] (Ok (empty_index [])) = Ok s0 ∧
    remove (2, 6) s0 = Ok (true, s) ∧
    container s !! 0%nat = Some (2, 6) ∧
    contains ((2, 6) : interval) 5 = true ∧
    find_intervals 5 [] s = Fault Dangling.
Proof.
  do 2 eexists.
  split; [vm_compute; reflexivity|].
  split; [vm_compute; reflexivity|].
  split; [vm_compute; reflexivity|].
  split; vm_compute; reflexivity.
Qed.

(** C4: the run that shows the defect.  After 23 inserts whose random
    levels climb by one each time, maxLevel is 46 and the header has top
    level 48; the next insert makes a node of level 47 and then one of
    level 48, for which update[48] is written in an array of 48 cells. *)
Lemma level_ladder_overflow :
  ∃ s : ST,
    inserts (pairs 23) (Ok (empty_index (ramp 48))) = Ok s ∧
    maxLevel s = 46%nat ∧
    (∃ hn, heap s !! header s = Some hn ∧ topLevel hn = MAX_FORWARD) ∧
    length (new_update) = MAX_FORWARD ∧
    (∃ x s1, insert_value 46 s = Ok (x, s1) ∧ maxLevel s1 = 47%nat ∧
             insert_value 47 s1 = Fault OutOfBounds) ∧
    insert (46, 47) s = Fault OutOfBounds.
Proof.
  eexists.
  split; [vm_compute; reflexivity|].
  split; [vm_compute; reflexivity|].
  split; [eexists; split; vm_compute; reflexivity|].
  split; [vm_compute; reflexivity|].
  split; [|vm_compute; reflexivity].
  do 2 eexists.
  split; [vm_compute; reflexivity|].
  split; vm_compute; reflexivity.
Qed.

(** C5: the runs that show the defect.  With [1, 5] alone in the index,
    remove([0, 3]) does not return false: the search for 0 arrives at the
    node of 1, and removeMarkers dereferences a handle that was never set.
    The same happens when remove([1, 5]) is called a second time while
    [3, 7] is still stored. *)
Lemma remove_of_absent_interval_faults :
  (∃ s : ST,
     insert (1, 5) (empty_index []) = Ok (tt, s) ∧
     (∀ h J, container s !! h = Some J → J ≠ (0, 3)) ∧
     remove (0, 3) s = Fault NullDeref) ∧
  (∃ s0 s : ST,
     inserts [(1, 5); (3, 7)] (Ok (empty_index [])) = Ok s0 ∧
     remove (1, 5) s0 = Ok (true, s) ∧
     (∀ h J, container s !! h = Some J → J ≠ (1, 5)) ∧
     remove (1, 5) s = Fault NullDeref).
Proof.
  split.
  - eexists. split; [vm_compute; reflexivity|]. split.
    + intros h J Hh.
      by_evaluation (λ (_ : Interval_handle) (J : interval), J ≠ (0, 3)).
    + vm_compute. reflexivity.
  - do 2 eexists. split; [vm_compute; reflexivity|].
    split; [vm_compute; reflexivity|]. split.
    + intros h J Hh.
      by_evaluation (λ (_ : Interval_handle) (J : interval), J ≠ (1, 5)).
    + vm_compute. reflexivity.
Qed.

(** C2, as stated, fails: after insert([1, 9]) and insert([5, 5]), with the
    nodes of 1 and 9 at level 1 and the node of 5 at level 0, the level 0
    edge from 5 to 9 is contained in [1, 9], no level 1 edge leaves the
    node of 5, and [1, 9] is not in its markers[0]: its marker is on the
    level 1 edge from 1 to 9, which passes over the node of 5. *)
Lemma marker_absent_from_contained_edge :
  ∃ s : ST,
    inserts [(1, 9); (5, 5)]
      (Ok (empty_index [true; false; true; false; false])) = Ok s ∧
    ∃ a na b nb l,
      heap s !! a = Some na ∧ key na = 5 ∧
      forward na !! 0%nat = Some (Some b) ∧
      heap s !! b = Some nb ∧ key nb = 9 ∧
      forward na !! 1%nat = None ∧
      container s !! 0%nat = Some (1, 9) ∧
      contains_interval ((1, 9) : interval) 5 9 = true ∧
      markers na !! 0%nat = Some l ∧ 0%nat ∉ l.
Proof.
  eexists. split; [vm_compute; reflexivity|].
  exists 3%nat. eexists. exists 2%nat. eexists. exists [].
  split; [vm_compute; reflexivity|].
  split; [vm_compute; reflexivity|].
  split; [vm_compute; reflexivity|].
  split; [vm_compute; reflexivity|].
  split; [vm_compute; reflexivity|].
  split; [vm_compute; reflexivity|].
  split; [vm_compute; reflexivity|].
  split; [vm_compute; reflexivity|].
  split; [vm_compute; reflexivity|].
  apply not_elem_of_nil.
Qed.

(** C6, as stated, fails: in the same state [1, 9] contains the key 5,
    and is not in the eqMarkers of the node of 5. *)
Lemma eq_marker_absent_on_spanned_node :
  ∃ s : ST,
    inserts [(1, 9); (5, 5)]
      (Ok (empty_index [true; false; true; false; false])) = Ok s ∧
    ∃ a na,
      heap s !! a = Some na ∧ key na = 5 ∧
      container s !! 0%nat = Some (1, 9) ∧
      contains ((1, 9) : interval) 5 = true ∧
      0%nat ∉ eqMarkers na.
Proof.
  eexists. split; [vm_compute; reflexivity|].
  exists 3%nat. eexists.
  split; [vm_compute; reflexivity|].
  split; [vm_compute; reflexivity|].
  split; [vm_compute; reflexivity|].
  split; [vm_compute; reflexivity|].
  apply (bool_decide_unpack _). vm_compute. exact I.
Qed.

End ClosedRuns.

Import Closed.

(* ====================================================================== *)
(*  The further properties on closed integer intervals                    *)
(* ====================================================================== *)

Section ClosedMembers.

Local Abbreviation ST := (Interval_skip_list Z interval).
Local Abbreviation cells := (gmap Interval_handle interval).
Local Open Scope Z_scope.

Lemma remove_unlinks_first_equal_witness :
  IL_remove ({[0%nat := (1, 5); 1%nat := (3, 7)]} : cells) (3, 7)
    [0%nat; 1%nat] = Ok [0%nat] ∧
  ∃ l1 h l2, [0%nat; 1%nat] = l1 ++ h :: l2 ∧ [0%nat] = l1 ++ l2.
Proof.
  assert (H : IL_remove ({[0%nat := (1, 5); 1%nat := (3, 7)]} : cells) (3, 7)
                [0%nat; 1%nat] = Ok [0%nat]) by (vm_compute; reflexivity).
  split; [exact H|].
  destruct (remove_unlinks_first_equal _ _ _ _ H)
    as [[E _]|(l1 & h & l2 & E1 & E2 & _)].
  - discriminate E.
  - exists l1, h, l2. split; [exact E1|exact E2].
Defined.

Lemma removeAll_takes_cell_for_cell_witness :
  IL_removeAll ({[0%nat := (1, 5); 1%nat := (3, 7)]} : cells) [1%nat]
    [1%nat; 0%nat; 1%nat] = Ok [0%nat; 1%nat] ∧
  (∀ h, h ∈ [0%nat; 1%nat] → h ∈ [1%nat; 0%nat; 1%nat]) ∧
  (∀ w, count_val ({[0%nat := (1, 5); 1%nat := (3, 7)]} : cells) w
          [0%nat; 1%nat]
        = Nat.sub
            (count_val ({[0%nat := (1, 5); 1%nat := (3, 7)]} : cells) w
               [1%nat; 0%nat; 1%nat])
            (count_val ({[0%nat := (1, 5); 1%nat := (3, 7)]} : cells) w
               [1%nat])).
Proof.
  assert (H : IL_removeAll ({[0%nat := (1, 5); 1%nat := (3, 7)]} : cells)
                [1%nat] [1%nat; 0%nat; 1%nat] = Ok [0%nat; 1%nat])
    by (vm_compute; reflexivity).
  split; [exact H|]. exact (removeAll_takes_cell_for_cell _ _ _ _ H).
Defined.

Lemma search_finds_stored_end_points_witness :
  ∃ s : ST, insert (1, 5) (empty_index []) = Ok (tt, s) ∧
    ∃ r, search 5 s = Ok (r, s) ∧
      (∀ p, r = Some p →
            ∃ n, heap s !! p = Some n ∧ is_header n = false ∧ key n = 5) ∧
      (is_Some r ↔
       ∃ h J, container s !! h = Some J ∧ (inf J = 5 ∨ sup J = 5)).
Proof.
  eexists. split; [vm_compute; reflexivity|].
  apply search_finds_stored_end_points.
  eapply (reach_insert _ (1, 5)); [apply (reach_empty [])|].
  vm_compute. reflexivity.
Defined.

Lemma search_update_first_not_less_witness :
  ∃ s : ST, insert (1, 5) (empty_index []) = Ok (tt, s) ∧
    (maxLevel s < length new_update)%nat ∧
    ∃ r upd', search_update 3 new_update s = Ok ((r, upd'), s) ∧
      length upd' = length new_update ∧
      (r = None →
       ∀ p n, heap s !! p = Some n → is_header n = false →
              Value_lt (key n) 3 = true) ∧
      (∀ p, r = Some p →
         ∃ n, heap s !! p = Some n ∧ is_header n = false ∧
              Value_lt (key n) 3 = false ∧
              ∀ p' n', heap s !! p' = Some n' → is_header n' = false →
                       Value_lt (key n') 3 = false →
                       Value_lt (key n') (key n) = false) ∧
      (∀ i, (i ≤ maxLevel s)%nat →
         ∃ u nu, upd' !! i = Some (Some u) ∧ heap s !! u = Some nu ∧
                 (is_header nu = true ∨ Value_lt (key nu) 3 = true)) ∧
      (∀ i, (maxLevel s < i)%nat → upd' !! i = new_update !! i).
Proof.
  eexists. split; [vm_compute; reflexivity|].
  split; [vm_compute; lia|].
  apply search_update_first_not_less.
  - eapply (reach_insert _ (1, 5)); [apply (reach_empty [])|].
    vm_compute. reflexivity.
  - vm_compute. lia.
Defined.

Lemma remove_result_witness :
  ∃ s : ST, insert (1, 5) (empty_index []) = Ok (tt, s) ∧
    (∀ h J, container s !! h = Some J →
            Value_lt (inf J) (inf ((7, 9) : interval)) = true ∧
            Value_lt (sup J) (inf ((7, 9) : interval)) = true) ∧
    remove (7, 9) s = Ok (false, s) ∧
    ∃ s', remove (1, 5) s = Ok (true, s') ∧
      ∃ ih, container s !! ih = Some (1, 5) ∧
            container s' = delete ih (container s).
Proof.
  eexists. split; [vm_compute; reflexivity|].
  lazymatch goal with
  | |- (∀ h J, container ?s !! h = Some J → _) ∧ _ =>
      pose (s0 := s); change s with s0
  end.
  assert (Hr : reachable s0).
  { eapply (reach_insert _ (1, 5)); [apply (reach_empty [])|].
    vm_compute. reflexivity. }
  assert (Hb : ∀ h J, container s0 !! h = Some J →
            Value_lt (inf J) (inf ((7, 9) : interval)) = true ∧
            Value_lt (sup J) (inf ((7, 9) : interval)) = true).
  { intros h J Hh.
    by_evaluation (λ (_ : Interval_handle) (J : interval),
                     Value_lt (inf J) (inf ((7, 9) : interval)) = true ∧
                     Value_lt (sup J) (inf ((7, 9) : interval)) = true). }
  split; [exact Hb|].
  split; [exact (proj1 (remove_result _ (7, 9) Hr) Hb)|].
  eexists. split; [vm_compute; reflexivity|].
  refine (proj2 (proj2 (remove_result _ (1, 5) Hr) true _ _) eq_refl).
  vm_compute. reflexivity.
Defined.

Lemma stored_intervals_law_witness :
  ∃ s : ST,
    history [(3, 7); (1, 5)] [(1, 5)] s ∧
    (map_to_list (container s)).*2 ++ [(1, 5)] ≡ₚ [(3, 7); (1, 5)].
Proof.
  assert (H : ∃ s : ST, history [(3, 7); (1, 5)] [(1, 5)] s).
  { eexists.
    eapply (hist_remove _ _ _ (1, 5));
      [eapply (hist_insert _ _ _ (3, 7));
         [eapply (hist_insert _ _ _ (1, 5)); [apply (hist_empty [])|]|]|].
    - vm_compute. reflexivity.
    - vm_compute. reflexivity.
    - vm_compute. reflexivity. }
  destruct H as [s H]. exists s. split; [exact H|].
  exact (stored_intervals_law _ _ s H).
Defined.



Lemma reachable_index_is_skip_list_witness :
  ∃ s : ST, insert (1, 5) (empty_index []) = Ok (tt, s) ∧
    ∃ L, wf s L.
Proof.
  assert (H : ∃ s : ST, insert (1, 5) (empty_index []) = Ok (tt, s)).
  { eexists. vm_compute. reflexivity. }
  destruct H as [s H]. exists s. split; [exact H|].
  apply reachable_index_is_skip_list.
  exact (reach_insert _ _ _ (reach_empty []) H).
Defined.

Lemma insert_range_stores_all_witness :
  ∃ s : ST,
    Z.of_nat (length [((1, 5) : interval); (3, 7); (1, 5)]) < 2 ^ 31 ∧
    insert_range [(1, 5); (3, 7); (1, 5)] (empty_index []) = Ok (3, s) ∧
    3 = Z.of_nat (length [((1, 5) : interval); (3, 7); (1, 5)]) ∧
    reachable s ∧
    (map_to_list (container s)).*2
      ≡ₚ [(1, 5); (3, 7); (1, 5)]
         ++ (map_to_list (container (empty_index [] : ST))).*2 ∧
    size_of s
      = Nat.add (size_of (empty_index [] : ST))
          (length [((1, 5) : interval); (3, 7); (1, 5)]).
Proof.
  assert (H : ∃ s : ST,
            insert_range [(1, 5); (3, 7); (1, 5)] (empty_index [])
            = Ok (3, s)).
  { eexists. vm_compute. reflexivity. }
  destruct H as [s H]. exists s.
  assert (Hlen : Z.of_nat (length [((1, 5) : interval); (3, 7); (1, 5)])
                 < 2 ^ 31) by (vm_compute; reflexivity).
  split; [exact Hlen|]. split; [exact H|].
  exact (insert_range_stores_all _ _ _ _ (reach_empty []) Hlen H).
Defined.

Lemma insert_value_finds_or_links_witness :
  ∃ s s' : ST, ∃ x : ptr,
    insert (1, 5) (empty_index []) = Ok (tt, s) ∧
    insert_value 3 s = Ok (x, s') ∧
    (∃ n', heap s' !! x = Some n' ∧ is_header n' = false ∧ key n' = 3) ∧
    (∃ L', wf s' L') ∧ container s' = container s ∧
    (is_Some (heap s !! x) → s' = s) ∧
    insert_value 3 s' = Ok (x, s').
Proof.
  assert (H : ∃ s s' : ST, ∃ x : ptr,
            insert (1, 5) (empty_index []) = Ok (tt, s) ∧
            insert_value 3 s = Ok (x, s')).
  { do 3 eexists. split; vm_compute; reflexivity. }
  destruct H as (s & s' & x & H1 & H2). exists s, s', x.
  split; [exact H1|]. split; [exact H2|].
  exact (insert_value_finds_or_links _ _ _ _
           (reach_insert _ _ _ (reach_empty []) H1) H2).
Defined.



Lemma clear_keeps_element_store_witness :
  ∃ s : ST, insert (1, 5) (empty_index []) = Ok (tt, s) ∧
    ∃ s', clear s = Ok (tt, s') ∧
      heap s' = {[header s' := new_header MAX_FORWARD]} ∧
      maxLevel s' = 0%nat ∧ wf s' [] ∧
      container s' = container s ∧ size_of s' = size_of s.
Proof.
  assert (H : ∃ s : ST, insert (1, 5) (empty_index []) = Ok (tt, s)).
  { eexists. vm_compute. reflexivity. }
  destruct H as [s H]. exists s. split; [exact H|].
  apply clear_keeps_element_store.
  exact (reach_insert _ _ _ (reach_empty []) H).
Defined.

Lemma find_intervals_below_all_end_points_witness :
  ∃ s : ST, insert (1, 5) (empty_index []) = Ok (tt, s) ∧
    (∀ h J, container s !! h = Some J →
            Value_lt 0 (inf J) = true ∧ Value_lt 0 (sup J) = true) ∧
    find_intervals 0 [] s = Ok ([], s).
Proof.
  eexists. split; [vm_compute; reflexivity|].
  lazymatch goal with
  | |- (∀ h J, container ?s !! h = Some J → _) ∧ _ =>
      pose (s0 := s); change s with s0
  end.
  assert (Hr : reachable s0).
  { eapply (reach_insert _ (1, 5)); [apply (reach_empty [])|].
    vm_compute. reflexivity. }
  assert (Hb : ∀ h J, container s0 !! h = Some J →
            Value_lt 0 (inf J) = true ∧ Value_lt 0 (sup J) = true).
  { intros h J Hh.
    by_evaluation (λ (_ : Interval_handle) (J : interval),
                     Value_lt 0 (inf J) = true ∧ Value_lt 0 (sup J) = true). }
  split; [exact Hb|].
  exact (find_intervals_below_all_end_points s0 0 [] Hr Hb).
Defined.



Lemma insert_then_find_intervals_witness :
  ∃ (s1 s2 : ST) (r : list interval),
    insert (2, 6) (empty_index [true; false]) = Ok (tt, s1) ∧
    insert (1, 5) s1 = Ok (tt, s2) ∧
    contains ((1, 5) : interval) 3 = true ∧
    find_intervals 3 [] s2 = Ok (r, s2) ∧ (1, 5) ∈ r.
Proof.
  assert (H : ∃ (s1 s2 : ST) (r : list interval),
                insert (2, 6) (empty_index [true; false]) = Ok (tt, s1) ∧
                insert (1, 5) s1 = Ok (tt, s2) ∧
                find_intervals 3 [] s2 = Ok (r, s2)).
  { eexists. eexists. eexists.
    split; [vm_compute; reflexivity|].
    split; vm_compute; reflexivity. }
  destruct H as (s1 & s2 & r & H1 & H2 & Hf). exists s1, s2, r.
  split; [exact H1|]. split; [exact H2|]. split; [reflexivity|].
  split; [exact Hf|].
  exact (insert_then_find_intervals s1 s2 s2 (1, 5) 3 [] r
           (reach_insert _ _ _ (reach_empty _) H1) H2 eq_refl Hf).
Defined.


End ClosedMembers.
